(** * ZeroK web client: root acceptance, serialization and settlement orchestration

    A shallow embedding of the TypeScript client code of the ZeroK web application
    (web/src/lib and web/src/components), with the properties of that code that its
    specification states.

    Conventions of the embedding:
    - a JavaScript [Uint8Array] / [Buffer] is a [list Z] of byte values, a store into
      it wraps modulo 256;
    - a [bigint] is a [Z]; the BigInt remainder [%] is [Z.rem] (sign of the dividend);
    - a function that can throw returns a [res]: [Ok v] or [Throw e];
    - process-wide mutable state (maps, sets, timers, the clock) is passed explicitly;
    - the network and other external collaborators are oracles given as arguments. *)

From Stdlib Require Import ZArith Lia List String Ascii Bool DecimalString DecimalPos.
From stdpp Require Import base option list strings gmap.

Local Open Scope Z_scope.

(** ** JavaScript values the embedding needs *)

Module Js.

(** The exceptions the modelled code can raise. *)
Inductive exn : Type :=
  | SyntaxError
  | TypeError
  | RangeError
  | Error (msg : string).

(** The outcome of a call that may throw. *)
Inductive res (A : Type) : Type :=
  | Ok (a : A)
  | Throw (e : exn).
Arguments Ok {A} a.
Arguments Throw {A} e.

#[export] Instance res_ret : MRet res := fun A a => Ok a.
#[export] Instance res_bind : MBind res := fun A B f m =>
  match m with
  | Ok a => f a
  | Throw e => Throw e
  end.

Definition is_ok {A} (r : res A) : bool :=
  match r with Ok _ => true | Throw _ => false end.

(** [String.prototype] helpers on character lists. *)
Definition chars (s : string) : list ascii := list_ascii_of_string s.
Definition of_chars (l : list ascii) : string := string_of_list_ascii l.

(** [s.slice(a, b)] / [buf.slice(a, b)] for [0 <= a <= b]: clamped to the length. *)
Definition slice {A} (a b : nat) (l : list A) : list A := take (b - a) (drop a l).

(** [s.padStart(n, c)] with a one-character filler. *)
Definition padStart (n : nat) (c : ascii) (s : list ascii) : list ascii :=
  replicate (n - length s) c ++ s.

(** [s.replace('0x', '')]: the first occurrence only, wherever it is. *)
Fixpoint replace0x (s : list ascii) : list ascii :=
  match s with
  | "0"%char :: "x"%char :: t => t
  | c :: t => c :: replace0x t
  | [] => []
  end.

(** [hay.includes(needle)]. *)
Fixpoint startsWith (needle hay : list ascii) : bool :=
  match needle, hay with
  | [], _ => true
  | _ :: _, [] => false
  | a :: n', b :: h' => bool_decide (a = b) && startsWith n' h'
  end.

Fixpoint includes (needle hay : list ascii) : bool :=
  startsWith needle hay ||
  match hay with
  | [] => false
  | _ :: h' => includes needle h'
  end.

(** What a [catch] clause receives: an [Error] with its message, or any other
    thrown value. *)
Inductive thrown : Type :=
  | ErrorObj (message : string)
  | OtherValue.

(** [is429Error(error)], the same in every module that declares it. *)
Definition is429Error (error : thrown) : bool :=
  match error with
  | ErrorObj message =>
      includes (chars "429") (chars message)
      || includes (chars "Too many requests") (chars message)
      || includes (chars "Too Many Requests") (chars message)
  | OtherValue => false
  end.

(** [error instanceof Error ? error.message : fallback]. *)
Definition messageOr (fallback : string) (error : thrown) : string :=
  match error with
  | ErrorObj message => message
  | OtherValue => fallback
  end.

(** Digit characters: [0-9a-z] as produced by [toString(radix)]. *)
Definition digitChar (d : Z) : ascii :=
  if d <? 10 then ascii_of_nat (Z.to_nat (48 + d)) else ascii_of_nat (Z.to_nat (87 + d)).

(** The value of a hexadecimal digit character, either case. *)
Definition digitVal (c : ascii) : option Z :=
  let n := Z.of_nat (nat_of_ascii c) in
  if (48 <=? n) && (n <=? 57) then Some (n - 48)
  else if (97 <=? n) && (n <=? 102) then Some (n - 87)
  else if (65 <=? n) && (n <=? 70) then Some (n - 55)
  else None.

Definition isWhite (c : ascii) : bool :=
  let n := nat_of_ascii c in
  (n =? 32)%nat || ((9 <=? n)%nat && (n <=? 13)%nat).

(** Positional value, most significant digit first. *)
Definition valueBE (base : Z) (ds : list Z) : Z :=
  fold_left (fun acc d => acc * base + d) ds 0.

(** The longest prefix of digits of the radix, as values. *)
Fixpoint digitPrefix (base : Z) (s : list ascii) : list Z :=
  match s with
  | [] => []
  | c :: t =>
      match digitVal c with
      | Some d => if d <? base then d :: digitPrefix base t else []
      | None => []
      end
  end.

(** Whether every character is a digit of the radix. *)
Definition allDigits (base : Z) (s : list ascii) : bool :=
  (length (digitPrefix base s) =? length s)%nat.

(** [BigInt.prototype.toString(16)]: number of hex digits of a positive value. *)
Definition hexLen (x : Z) : nat := S (Z.to_nat (Z.log2 x / 4)).

Definition hexDigitAt (n : nat) (x : Z) (j : nat) : Z :=
  (x / 16 ^ Z.of_nat (n - 1 - j)) mod 16.

Definition toString16 (x : Z) : list ascii :=
  let mag := Z.abs x in
  let body := map (fun j => digitChar (hexDigitAt (hexLen mag) mag j)) (seq 0 (hexLen mag)) in
  if x <? 0 then "-"%char :: body else body.

(** [parseInt(s, 16)]: leading white space, an optional sign, an optional [0x]
    prefix, then the longest run of hex digits; [None] is NaN. *)
Fixpoint dropWhite (s : list ascii) : list ascii :=
  match s with
  | c :: t => if isWhite c then dropWhite t else s
  | [] => []
  end.

Definition parseInt16 (s : list ascii) : option Z :=
  let s := dropWhite s in
  let '(sign, body) :=
    match s with
    | "-"%char :: t => (-1, t)
    | "+"%char :: t => (1, t)
    | _ => (1, s)
    end in
  let body :=
    match body with
    | "0"%char :: "x"%char :: t => t
    | "0"%char :: "X"%char :: t => t
    | _ => body
    end in
  match digitPrefix 16 body with
  | [] => None
  | ds => Some (sign * valueBE 16 ds)
  end.

(** Storing a number into a [Uint8Array] slot: NaN becomes 0, integers wrap. *)
Definition toUint8 (v : option Z) : Z :=
  match v with
  | None => 0
  | Some n => n mod 256
  end.

(** [BigInt(s)] for a string: the empty string is [0n]; an optionally signed
    decimal literal; or an unsigned [0x] literal. Anything else is a SyntaxError.
    (Surrounding white space and the [0o]/[0b] forms are not accepted here.) *)
Definition BigInt (s : string) : res Z :=
  match chars s with
  | [] => Ok 0
  | "0"%char :: "x"%char :: (_ :: _) as t | "0"%char :: "X"%char :: (_ :: _) as t =>
      if allDigits 16 t then Ok (valueBE 16 (digitPrefix 16 t)) else Throw SyntaxError
  | "-"%char :: (_ :: _) as t =>
      if allDigits 10 t then Ok (- valueBE 10 (digitPrefix 10 t)) else Throw SyntaxError
  | "+"%char :: (_ :: _) as t =>
      if allDigits 10 t then Ok (valueBE 10 (digitPrefix 10 t)) else Throw SyntaxError
  | t =>
      if allDigits 10 t then Ok (valueBE 10 (digitPrefix 10 t)) else Throw SyntaxError
  end.

(** [BigInt(v)] where [v] may be [undefined] (an absent array element). *)
Definition BigInt_opt (v : option string) : res Z :=
  match v with
  | Some s => BigInt s
  | None => Throw TypeError
  end.

(** [x.toString()] of an integer, in decimal. *)
Definition toString10 (x : Z) : string := NilZero.string_of_int (Z.to_int x).

(** [new Uint8Array(n)]. *)
Definition u8_new (n : nat) : list Z := replicate n 0.

(** [target.set(src, offset)]: overwrite in place, RangeError when [src] does not fit. *)
Definition u8_set (target src : list Z) (offset : nat) : res (list Z) :=
  if (offset + length src <=? length target)%nat
  then Ok (take offset target ++ src ++ drop (offset + length src) target)
  else Throw RangeError.

(** Big-endian value of a byte list. *)
Definition bytesBE (bs : list Z) : Z := valueBE 256 bs.

(** Little-endian value of a byte list ([readBigUInt64LE] on 8 bytes). *)
Fixpoint bytesLE (bs : list Z) : Z :=
  match bs with
  | [] => 0
  | b :: t => b + 256 * bytesLE t
  end.

(** The [n]-byte big-endian encoding of [x]: byte [i] is [(x / 256^(n-1-i)) mod 256]. *)
Definition beBytes (n : nat) (x : Z) : list Z :=
  map (fun i => (x / 256 ^ Z.of_nat (n - 1 - i)) mod 256) (seq 0 n).

(** The [n]-byte little-endian encoding of [x]. *)
Definition leBytes (n : nat) (x : Z) : list Z :=
  map (fun i => (x / 256 ^ Z.of_nat i) mod 256) (seq 0 n).

End Js.

(** ** sdk/serialization.ts: canonical encodings and Groth16 proof serialization *)

Module Serialization.
Import Js.

(** The BN254 base-field prime, [BN254_P]. *)
Definition BN254_P : Z :=
  21888242871839275222246405745257275088696311157297823662689037894645226208583.

(** The bytes [toBE32] and [fieldToBytesBE] read out of the padded hex string:
    [bytes[i] = parseInt(hex.slice(i * 2, i * 2 + 2), 16)] for [i] in [0, 32). *)
Definition hexToBytes32 (hex : list ascii) : list Z :=
  map (fun i => toUint8 (parseInt16 (slice (i * 2) (i * 2 + 2) hex))) (seq 0 32).

(** [toBE32(x)]: 32-byte big-endian, refusing values at or above the prime. *)
Definition toBE32 (x : Z) : res (list Z) :=
  if BN254_P <=? x
  then Throw (Error ("Value " +:+ toString10 x +:+ " exceeds field modulus"))
  else
    let hex := toString16 x in
    if (64 <? length hex)%nat then Throw (Error "Value too large for 32 bytes")
    else Ok (hexToBytes32 (padStart 64 "0"%char hex)).

(** [u64ToBE32(x)]: [setBigUint64(24, x)] into 32 zero bytes (big-endian,
    the value wrapped to 64 bits by the DataView). *)
Definition u64ToBE32 (x : Z) : res (list Z) :=
  if 18446744073709551615 <? x
  then Throw (Error ("Value " +:+ toString10 x +:+ " exceeds u64"))
  else Ok (u8_new 24 ++ beBytes 8 (x mod 2 ^ 64)).

(** The proof object snarkjs returns: coordinates as decimal strings. *)
Record SnarkjsProof : Type := {
  pi_a : list string;
  pi_b : list (list string);
  pi_c : list string;
}.

(** [serializeProof(proof)]. *)
Definition serializeProof (proof : SnarkjsProof) : res (list Z) :=
  aX ← BigInt_opt (pi_a proof !! 0%nat);
  a1 ← BigInt_opt (pi_a proof !! 1%nat);
  let aY := Z.rem (Z.rem (BN254_P - a1) BN254_P + BN254_P) BN254_P in
  (* const [[bx0, bx1], [by0, by1]] = proof.pi_b *)
  bx ← match pi_b proof !! 0%nat with Some l => Ok l | None => Throw TypeError end;
  by_ ← match pi_b proof !! 1%nat with Some l => Ok l | None => Throw TypeError end;
  let bx0 := bx !! 0%nat in
  let bx1 := bx !! 1%nat in
  let by0 := by_ !! 0%nat in
  let by1 := by_ !! 1%nat in
  let proofA := u8_new 64 in
  e ← toBE32 aX; proofA ← u8_set proofA e 0;
  e ← toBE32 aY; proofA ← u8_set proofA e 32;
  let proofB := u8_new 128 in
  v ← BigInt_opt bx1; e ← toBE32 v; proofB ← u8_set proofB e 0;
  v ← BigInt_opt bx0; e ← toBE32 v; proofB ← u8_set proofB e 32;
  v ← BigInt_opt by1; e ← toBE32 v; proofB ← u8_set proofB e 64;
  v ← BigInt_opt by0; e ← toBE32 v; proofB ← u8_set proofB e 96;
  let proofC := u8_new 64 in
  v ← BigInt_opt (pi_c proof !! 0%nat); e ← toBE32 v; proofC ← u8_set proofC e 0;
  v ← BigInt_opt (pi_c proof !! 1%nat); e ← toBE32 v; proofC ← u8_set proofC e 32;
  let serialized := u8_new 256 in
  serialized ← u8_set serialized proofA 0;
  serialized ← u8_set serialized proofB 64;
  serialized ← u8_set serialized proofC 192;
  Ok serialized.

(** [addressToBE32Parts(address)]: the two 16-byte halves as integers. *)
Definition addressToBE32Parts (address : list Z) : res (Z * Z) :=
  if negb (length address =? 32)%nat then Throw (Error "Address must be 32 bytes")
  else
    highBytes ← u8_set (u8_new 32) (slice 0 16 address) 16;
    lowBytes ← u8_set (u8_new 32) (slice 16 32 address) 16;
    Ok (bytesBE highBytes, bytesBE lowBytes).

(** A proof with small coordinates, in snarkjs' shape (projective third entries). *)
Definition sample_proof : SnarkjsProof := {|
  pi_a := ["1"; "2"; "1"]%string;
  pi_b := [["10"; "11"]; ["12"; "13"]; ["1"; "0"]]%string;
  pi_c := ["3"; "4"; "1"]%string;
|}.

(** The eight coordinates a proof object carries, as integers. *)
Record Coordinates : Type := {
  ax : Z; ay : Z;
  bx0 : Z; bx1 : Z; by0 : Z; by1 : Z;
  cx : Z; cy : Z;
}.

(** [proof] holds the coordinates [c]: A = (ax, ay), B = ((bx0, bx1), (by0, by1))
    with the low limb first, C = (cx, cy). *)
Definition hasCoordinates (proof : SnarkjsProof) (c : Coordinates) : Prop :=
  BigInt_opt (pi_a proof !! 0%nat) = Ok (ax c) /\
  BigInt_opt (pi_a proof !! 1%nat) = Ok (ay c) /\
  (exists bx by_,
      pi_b proof !! 0%nat = Some bx /\ pi_b proof !! 1%nat = Some by_ /\
      BigInt_opt (bx !! 0%nat) = Ok (bx0 c) /\ BigInt_opt (bx !! 1%nat) = Ok (bx1 c) /\
      BigInt_opt (by_ !! 0%nat) = Ok (by0 c) /\ BigInt_opt (by_ !! 1%nat) = Ok (by1 c)) /\
  BigInt_opt (pi_c proof !! 0%nat) = Ok (cx c) /\
  BigInt_opt (pi_c proof !! 1%nat) = Ok (cy c).

Definition inField (x : Z) : Prop := 0 <= x < BN254_P.

Definition inRange (c : Coordinates) : Prop :=
  inField (ax c) /\ inField (ay c) /\
  inField (bx0 c) /\ inField (bx1 c) /\ inField (by0 c) /\ inField (by1 c) /\
  inField (cx c) /\ inField (cy c).

(** The coordinates of [sample_proof]. *)
Definition sample_coords : Coordinates :=
  {| ax := 1; ay := 2; bx0 := 10; bx1 := 11; by0 := 12; by1 := 13; cx := 3; cy := 4 |}.

End Serialization.

(** ** types/note.ts and protocol-constants.ts: the data model *)

Module Types.
Import Js.

Inductive NoteStatus : Type := pending | confirmed | spent | expired.

Record Note : Type := {
  id : string;
  poolId : string;
  commitment : string;
  nullifierSecret : string;
  noteSecret : string;
  nullifierHash : string;
  leafIndex : Z;
  rootAfter : string;
  siblings : list string;
  depositTx : string;
  createdAt : string;
  status : NoteStatus;
  spentTx : option string;
  spentAt : option string;
}.

Record PoolConfig : Type := {
  pc_poolId : string;
  programId : string;
  statePda : string;
  vaultPda : string;
  vkPda : string;
  metadataPda : string;
  rootRingPda : string;
  shardPdas : list string;
  denominationLamports : Z;
  ringCapacity : Z;
}.

(** A [PublicKey] is its 32 bytes. *)
Abbreviation PublicKey := (list Z) (only parsing).

(** [PublicKey.default] and [SystemProgram.programId]: 32 zero bytes. *)
Definition PublicKey_default : PublicKey := replicate 32 0.
Definition SystemProgram_programId : PublicKey := replicate 32 0.

(** State account layout (PoolStateV2Clean). *)
Definition CURRENT_ROOT_OFFSET : nat := 688.
Definition ROOT_HISTORY_OFFSET : nat := 720.
Definition ROOT_SIZE : nat := 32.
Definition STATE_ROOT_HISTORY_SIZE : nat := 256.

(** Sharded root ring. *)
Definition NUM_SHARDS : nat := 20.
Definition SHARD_CAPACITY : nat := 128.
Definition SHARDED_RING_CAPACITY : nat := NUM_SHARDS * SHARD_CAPACITY.
Definition SHARD_ENTRIES_OFFSET : nat := 16.
Definition ROOT_ENTRY_SIZE : nat := 40.

Inductive RootSource : Type := state_history | sharded_ring | legacy_ring | not_found.

Record RootAcceptanceResult : Type := {
  found : bool;
  source : RootSource;
  shardIndex : option Z;
}.

(** [arr[i]] for a JavaScript number index: [undefined] outside the array. *)
Definition js_index {A} (l : list A) (i : Z) : option A :=
  if i <? 0 then None else l !! Z.to_nat i.

End Types.

(** ** sdk/poseidon.ts: field encodings around the external Poseidon hash *)

Module Poseidon.
Import Js Serialization.

(** [bytesToFieldBE(bytes)] on a byte array. *)
Definition bytesToFieldBE (data : list Z) : res Z :=
  if negb (length data =? 32)%nat
  then Throw (Error ("Expected 32 bytes, got " +:+ toString10 (Z.of_nat (length data))))
  else Ok (bytesBE data).

(** [fieldToBytesBE(x)]: as [toBE32] without the range checks. *)
Definition fieldToBytesBE (fieldElement : Z) : list Z :=
  hexToBytes32 (padStart 64 "0"%char (toString16 fieldElement)).

Section WithHash.
(** The circomlibjs Poseidon instance, composed with [F.toObject]: from the
    list of inputs to the hash as an integer. *)
Variable poseidon : list Z -> Z.

Definition poseidonHashSingle (input : list Z) : res (list Z) :=
  inputField ← bytesToFieldBE input;
  Ok (fieldToBytesBE (poseidon [inputField])).

Definition poseidonHash (left right : list Z) : res (list Z) :=
  leftField ← bytesToFieldBE left;
  rightField ← bytesToFieldBE right;
  Ok (fieldToBytesBE (poseidon [leftField; rightField])).

(** [computeCommitmentFromBigInts]: the pair (commitment, nullifierHash). *)
Definition computeCommitmentFromBigInts (nullifierBigInt secretBigInt : Z)
  : list Z * list Z :=
  (fieldToBytesBE (poseidon [nullifierBigInt; secretBigInt]),
   fieldToBytesBE (poseidon [nullifierBigInt])).

End WithHash.

(** [fieldToBytesLE(x)]: the big-endian bytes, reversed. *)
Definition fieldToBytesLE (fieldElement : Z) : list Z :=
  let be := fieldToBytesBE fieldElement in
  rev be.

(** [generateRandomFieldElement()]. [getRandomValues] is the platform's
    [crypto.getRandomValues]: it fills the array it is given. *)
Definition generateRandomFieldElement (getRandomValues : list Z -> list Z) : res Z :=
  let BN254_P :=
    21888242871839275222246405745257275088696311157297823662689037894645226208583 in
  let randomBytes := getRandomValues (u8_new 32) in
  randomBigInt ← bytesToFieldBE randomBytes;
  Ok (Z.rem randomBigInt BN254_P).

(** What [crypto.getRandomValues] does to a byte array: same length, every
    element a byte. *)
Definition fillsWithBytes (getRandomValues : list Z -> list Z) : Prop :=
  forall buf, length (getRandomValues buf) = length buf /\
              Forall (fun b => 0 <= b < 256) (getRandomValues buf).

End Poseidon.

(** ** withdrawal.ts: witness building and the withdrawal instruction *)

Module Withdrawal.
Import Js Serialization Types Poseidon.

(** The BN254 scalar-field modulus all circuit inputs are reduced by. *)
Definition BN254_FIELD_MODULUS : Z :=
  21888242871839275222246405745257275088548364400416034343698204186575808495617.

(** [s.toLowerCase()] on the ASCII letters. *)
Definition lowerChar (c : ascii) : ascii :=
  let n := nat_of_ascii c in
  if ((65 <=? n) && (n <=? 90))%nat then ascii_of_nat (n + 32) else c.
Definition toLowerCase (s : list ascii) : list ascii := map lowerChar s.

(** [b.toString(16).padStart(2, '0')] joined over the bytes, after ['0x']. *)
Definition bytesToHex0x (bs : list Z) : list ascii :=
  "0"%char :: "x"%char :: concat (map (fun b => padStart 2 "0"%char (toString16 b)) bs).

(** ToInt32, applied by the bit operators [&] and [>>] to a number. *)
Definition toInt32 (x : Z) : Z := (x + 2 ^ 31) mod 2 ^ 32 - 2 ^ 31.

(** [for (i = 0; i < n; i++) { pathIndices.push(idx & 1); idx >>= 1; }]. *)
Fixpoint pathBits (n : nat) (idx : Z) : list Z :=
  match n with
  | O => []
  | S n' => Z.land (toInt32 idx) 1 :: pathBits n' (Z.shiftr (toInt32 idx) 1)
  end.

(** The flat input map handed to the proving engine. *)
Record WithdrawWitness : Type := {
  w_nullifier : string;
  w_secret : string;
  w_pathElements : list string;
  w_pathIndices : list Z;
  w_root : string;
  w_nullifierHash : string;
  w_recipientHigh : string;
  w_recipientLow : string;
  w_protocolHigh : string;
  w_protocolLow : string;
  w_fee : string;
  w_refund : string;
}.

(** [siblings.map(s => (BigInt('0x' + s.replace('0x', '')) % MODULUS).toString())]. *)
Fixpoint pathElementsOf (siblings : list string) : res (list string) :=
  match siblings with
  | [] => Ok []
  | s :: rest =>
      value ← BigInt (of_chars ("0"%char :: "x"%char :: replace0x (chars s)));
      tl ← pathElementsOf rest;
      Ok (toString10 (Z.rem value BN254_FIELD_MODULUS) :: tl)
  end.

(** The first line [console.error] prints when the commitments differ. *)
Definition MISMATCH_LOG : string :=
  "[buildWithdrawWitness] COMMITMENT MISMATCH - This note was likely created before the encoding fix and is UNRECOVERABLE".

Section WithHash.
Variable poseidon : list Z -> Z.

(** The commitment check of [buildWithdrawWitness]: the recomputed commitment as
    0x-hex against the stored string, both lower-cased. *)
Definition computedCommitmentHex (note : Note) (nullifier secret : Z) : list ascii :=
  bytesToHex0x (fst (computeCommitmentFromBigInts poseidon nullifier secret)).

Definition commitmentMatches (note : Note) (nullifier secret : Z) : bool :=
  bool_decide (toLowerCase (computedCommitmentHex note nullifier secret)
               = toLowerCase (chars (commitment note))).

(** [buildWithdrawWitness(note, recipient, protocol, fee, refund)]: the lines
    written with [console.error], and the witness or the exception. *)
Definition buildWithdrawWitness (note : Note) (recipient protocol : PublicKey)
    (fee refund : Z) : list string * res WithdrawWitness :=
  match BigInt (nullifierSecret note) with
  | Throw e => ([], Throw e)
  | Ok nullifier =>
  match BigInt (noteSecret note) with
  | Throw e => ([], Throw e)
  | Ok secret =>
    let console :=
      if commitmentMatches note nullifier secret then []
      else [MISMATCH_LOG;
            ("[buildWithdrawWitness] Stored commitment (on-chain): " +:+ commitment note)%string;
            ("[buildWithdrawWitness] Computed commitment (circuit): "
               +:+ of_chars (computedCommitmentHex note nullifier secret))%string] in
    (console,
     let nullifierBytes := fieldToBytesBE nullifier in
     nullifierHashBytes ← poseidonHashSingle poseidon nullifierBytes;
     nullifierHash ← bytesToFieldBE nullifierHashBytes;
     let rootHex := replace0x (chars (rootAfter note)) in
     rootBigInt ← match rootHex with
                  | [] => Ok 0
                  | _ => BigInt (of_chars ("0"%char :: "x"%char :: rootHex))
                  end;
     pathElements ← pathElementsOf (siblings note);
     let pathIndices := pathBits 20 (leafIndex note) in
     recipientParts ← addressToBE32Parts recipient;
     let protocolForProof := if fee =? 0 then PublicKey_default else protocol in
     protocolParts ← addressToBE32Parts protocolForProof;
     Ok {| w_nullifier := toString10 nullifier;
           w_secret := toString10 secret;
           w_pathElements := pathElements;
           w_pathIndices := pathIndices;
           w_root := toString10 rootBigInt;
           w_nullifierHash := toString10 nullifierHash;
           w_recipientHigh := toString10 (fst recipientParts);
           w_recipientLow := toString10 (snd recipientParts);
           w_protocolHigh := toString10 (fst protocolParts);
           w_protocolLow := toString10 (snd protocolParts);
           w_fee := toString10 fee;
           w_refund := toString10 refund |})
  end end.

End WithHash.

(** [computeShardIndex(leafIndex)]: [%] is the JavaScript remainder. *)
Definition computeShardIndex (leafIndex : Z) : Z :=
  let TOTAL_CAPACITY := 2560 in
  let SHARD_CAPACITY := 128 in
  let normalizedIndex := Z.rem leafIndex TOTAL_CAPACITY in
  normalizedIndex / SHARD_CAPACITY.

Record AccountMeta : Type := {
  pubkey : PublicKey;
  isSigner : bool;
  isWritable : bool;
}.

Record TransactionInstruction : Type := {
  ix_programId : PublicKey;
  keys : list AccountMeta;
  data : list Z;
}.

(** [new TextEncoder().encode(s)] for an ASCII string. *)
Definition utf8 (s : string) : list Z := map (fun c => Z.of_nat (nat_of_ascii c)) (chars s).

(** [new DataView(buf, offset, 8).setBigUint64(0, v, true)]: eight little-endian
    bytes of [v] wrapped to 64 bits, written at [offset]. *)
Definition setBigUint64LE (buf : list Z) (offset : nat) (v : Z) : list Z :=
  take offset buf ++ leBytes 8 (v mod 2 ^ 64) ++ drop (offset + 8) buf.

Section WithCollaborators.
(** Collaborators outside this module: the pool table ([pool-config.ts]), the
    [PublicKey] constructor and program-address derivation of web3.js, and the
    platform's SHA-256. *)
Variable getPoolConfig : string -> res PoolConfig.
Variable newPublicKey : string -> res PublicKey.
Variable findProgramAddressSync : list (list Z) -> PublicKey -> res (PublicKey * Z).
Variable sha256 : list Z -> list Z.

(** [new PublicKey(v)] where [v] may be [undefined]. *)
Definition newPublicKey_opt (v : option string) : res PublicKey :=
  match v with
  | Some s => newPublicKey s
  | None => Throw (Error "Invalid public key input")
  end.

Definition deriveNullifierPda (nullifierHash : list Z) (poolConfig : PoolConfig)
  : res (PublicKey * Z) :=
  programId ← newPublicKey (programId poolConfig);
  statePda ← newPublicKey (statePda poolConfig);
  findProgramAddressSync [utf8 "nullifier"; statePda; nullifierHash] programId.

(** The discriminator: [sha256("global:withdraw_v2_clean")[0..8]]. *)
Definition discriminator : list Z := slice 0 8 (sha256 (utf8 "global:withdraw_v2_clean")).

(** The 348-byte instruction data, written field by field into a zeroed array. *)
Definition instructionDataOf (fee : Z) (proof nullifierHashBytes rootBytes : list Z)
  : res (list Z) :=
  let instructionData := u8_new (8 + 32 + 4 + 256 + 32 + 8 + 8) in
  let offset := 0%nat in
  instructionData ← u8_set instructionData discriminator offset;
  let offset := (offset + 8)%nat in
  instructionData ← u8_set instructionData nullifierHashBytes offset;
  let offset := (offset + 32)%nat in
  let instructionData := <[offset := 0]> instructionData in
  let instructionData := <[(offset + 1)%nat := 1]> instructionData in
  let instructionData := <[(offset + 2)%nat := 0]> instructionData in
  let instructionData := <[(offset + 3)%nat := 0]> instructionData in
  let offset := (offset + 4)%nat in
  instructionData ← u8_set instructionData proof offset;
  let offset := (offset + 256)%nat in
  instructionData ← u8_set instructionData rootBytes offset;
  let offset := (offset + 32)%nat in
  let instructionData := setBigUint64LE instructionData offset fee in
  let offset := (offset + 8)%nat in
  let instructionData := setBigUint64LE instructionData offset 0 in
  Ok instructionData.

(** Which shard account, if any, accompanies the instruction. *)
Definition targetShardPdaOf (note : Note) (poolConfig : PoolConfig)
    (rootResult : option RootAcceptanceResult) : res (option PublicKey) :=
  match rootResult with
  | Some {| source := sharded_ring; shardIndex := Some k |} =>
      pk ← newPublicKey_opt (js_index (shardPdas poolConfig) k); Ok (Some pk)
  | Some {| source := state_history |} => Ok None
  | _ =>
      let shardIndex := computeShardIndex (leafIndex note) in
      pk ← newPublicKey_opt (js_index (shardPdas poolConfig) shardIndex); Ok (Some pk)
  end.

(** [buildWithdrawInstruction]. *)
Definition buildWithdrawInstruction (note : Note) (recipient protocol : PublicKey)
    (fee : Z) (proof nullifierHashBytes rootBytes : list Z)
    (rootResult : option RootAcceptanceResult) : res TransactionInstruction :=
  poolConfig ← getPoolConfig (poolId note);
  programId ← newPublicKey (programId poolConfig);
  statePda ← newPublicKey (statePda poolConfig);
  vaultPda ← newPublicKey (vaultPda poolConfig);
  vkPda ← newPublicKey (vkPda poolConfig);
  metadataPda ← newPublicKey (metadataPda poolConfig);
  nullifierPda ← deriveNullifierPda nullifierHashBytes poolConfig;
  instructionData ← instructionDataOf fee proof nullifierHashBytes rootBytes;
  targetShardPda ← targetShardPdaOf note poolConfig rootResult;
  let protocolAccountForTx := protocol in
  let keys :=
    [ {| pubkey := statePda; isSigner := false; isWritable := true |};
      {| pubkey := vkPda; isSigner := false; isWritable := false |};
      {| pubkey := fst nullifierPda; isSigner := false; isWritable := true |};
      {| pubkey := vaultPda; isSigner := false; isWritable := true |};
      {| pubkey := recipient; isSigner := false; isWritable := true |};
      {| pubkey := protocolAccountForTx; isSigner := false; isWritable := true |};
      {| pubkey := protocol; isSigner := true; isWritable := true |};
      {| pubkey := SystemProgram_programId; isSigner := false; isWritable := false |};
      {| pubkey := programId; isSigner := false; isWritable := false |};
      {| pubkey := metadataPda; isSigner := false; isWritable := false |} ] in
  let keys :=
    match targetShardPda with
    | Some pk => keys ++ [ {| pubkey := pk; isSigner := false; isWritable := false |} ]
    | None => keys
    end in
  Ok {| ix_programId := programId; keys := keys; data := instructionData |}.

End WithCollaborators.
(** The payload as the specification words it: discriminator, nullifier hash,
    the proof length 256 as four little-endian bytes, the proof, the root, the
    fee and a zero refund as eight little-endian bytes each. *)
Definition payloadSpec (discriminator nullifierHash proof root : list Z) (fee : Z) : list Z :=
  discriminator ++ nullifierHash ++ leBytes 4 256 ++ proof ++ root
  ++ leBytes 8 fee ++ leBytes 8 0.

(** The ten fixed accounts, in the order of the on-chain struct. *)
Definition baseKeys (statePda vkPda nullifierPda vaultPda recipient protocol
    programId metadataPda : PublicKey) : list AccountMeta :=
  [ {| pubkey := statePda; isSigner := false; isWritable := true |};
    {| pubkey := vkPda; isSigner := false; isWritable := false |};
    {| pubkey := nullifierPda; isSigner := false; isWritable := true |};
    {| pubkey := vaultPda; isSigner := false; isWritable := true |};
    {| pubkey := recipient; isSigner := false; isWritable := true |};
    {| pubkey := protocol; isSigner := false; isWritable := true |};
    {| pubkey := protocol; isSigner := true; isWritable := true |};
    {| pubkey := SystemProgram_programId; isSigner := false; isWritable := false |};
    {| pubkey := programId; isSigner := false; isWritable := false |};
    {| pubkey := metadataPda; isSigner := false; isWritable := false |} ].

(** A shard account as it is appended: read-only, not a signer. *)
Definition shardAccount (pk : PublicKey) : AccountMeta :=
  {| pubkey := pk; isSigner := false; isWritable := false |}.

(** The number a list of bits stands for, least significant bit first. *)
Fixpoint bitsLE (bits : list Z) : Z :=
  match bits with
  | [] => 0
  | b :: rest => b + 2 * bitsLE rest
  end.

(** No local tier matched: no result was passed, or the result is neither
    state_history nor a sharded_ring that names its shard. *)
Definition noLocalTier (rootResult : option RootAcceptanceResult) : Prop :=
  match rootResult with
  | None => True
  | Some r => source r <> state_history /\ (source r = sharded_ring -> shardIndex r = None)
  end.

(** The note with another stored commitment, everything else the same. *)
Definition withCommitment (c : string) (n : Note) : Note :=
  {| id := id n; poolId := poolId n; commitment := c;
     nullifierSecret := nullifierSecret n; noteSecret := noteSecret n;
     nullifierHash := nullifierHash n; leafIndex := leafIndex n;
     rootAfter := rootAfter n; siblings := siblings n; depositTx := depositTx n;
     createdAt := createdAt n; status := status n; spentTx := spentTx n;
     spentAt := spentAt n |}.

End Withdrawal.

(** ** root-acceptance.ts: the two-tier accepted-root check *)

Module RootAcceptance.
Import Js Types.

(** [Buffer.from(s, 'hex')]: whole pairs of hex digits, up to the first pair
    that is not one (Node's decoding). *)
Fixpoint hexDecode (s : list ascii) : list Z :=
  match s with
  | a :: b :: t =>
      match digitVal a, digitVal b with
      | Some x, Some y => (16 * x + y) :: hexDecode t
      | _, _ => []
      end
  | _ => []
  end.

(** [buf.readBigUInt64LE(0)]: RangeError when fewer than 8 bytes are there. *)
Definition readBigUInt64LE (buf : list Z) : res Z :=
  if (length buf <? 8)%nat then Throw RangeError else Ok (bytesLE (take 8 buf)).

(** [buf.every(b => b === 0)]. *)
Definition allZero (buf : list Z) : bool := forallb (fun b => b =? 0) buf.

(** [a.equals(b)] on buffers. *)
Definition bufEquals (a b : list Z) : bool := bool_decide (a = b).

Definition notFound : RootAcceptanceResult :=
  {| found := false; source := not_found; shardIndex := None |}.
Definition foundInStateHistory : RootAcceptanceResult :=
  {| found := true; source := state_history; shardIndex := None |}.
Definition foundInShard (k : nat) : RootAcceptanceResult :=
  {| found := true; source := sharded_ring; shardIndex := Some (Z.of_nat k) |}.

(** The account reads a check performs, in order. *)
Inductive RpcCall : Type :=
  | GetAccountInfo (pk : PublicKey)
  | GetMultipleAccountsInfo (pks : list PublicKey).

(** The loop over [root_history]: slot [i] for each [i] of the list, all-zero
    slots skipped. *)
Fixpoint scanHistory (data rootBuffer : list Z) (slots : list nat) : bool :=
  match slots with
  | [] => false
  | i :: rest =>
      let rootOffset := (ROOT_HISTORY_OFFSET + i * ROOT_SIZE)%nat in
      let historyRoot := slice rootOffset (rootOffset + ROOT_SIZE) data in
      if allZero historyRoot then scanHistory data rootBuffer rest
      else if bufEquals historyRoot rootBuffer then true
      else scanHistory data rootBuffer rest
  end.

(** The loop over one shard's entries; entries with slot 0 are skipped. *)
Fixpoint scanEntries (data rootBuffer : list Z) (entries : list nat) : res bool :=
  match entries with
  | [] => Ok false
  | entryIndex :: rest =>
      let entryOffset := (SHARD_ENTRIES_OFFSET + entryIndex * ROOT_ENTRY_SIZE)%nat in
      let entryRoot := slice entryOffset (entryOffset + ROOT_SIZE) data in
      let slotBytes := slice (entryOffset + ROOT_SIZE) (entryOffset + ROOT_ENTRY_SIZE) data in
      slot ← readBigUInt64LE slotBytes;
      if slot =? 0 then scanEntries data rootBuffer rest
      else if bufEquals entryRoot rootBuffer then Ok true
      else scanEntries data rootBuffer rest
  end.

(** The loop over the fetched shard accounts, from index [shardIndex] on;
    [None] is a shard that is not allocated. *)
Fixpoint scanShards (rootBuffer : list Z) (shardInfos : list (option (list Z)))
    (shardIndex : nat) : res (option nat) :=
  match shardInfos with
  | [] => Ok None
  | None :: rest => scanShards rootBuffer rest (S shardIndex)
  | Some data :: rest =>
      hit ← scanEntries data rootBuffer (seq 0 SHARD_CAPACITY);
      if hit : bool then Ok (Some shardIndex)
      else scanShards rootBuffer rest (S shardIndex)
  end.

(** [shardPdas.map(pda => new PublicKey(pda))]. *)
Fixpoint mapPublicKey (newPublicKey : string -> res PublicKey) (pdas : list string)
  : res (list PublicKey) :=
  match pdas with
  | [] => Ok []
  | p :: rest =>
      pk ← newPublicKey p; pks ← mapPublicKey newPublicKey rest; Ok (pk :: pks)
  end.

Section WithChain.
(** The chain as this module sees it: [executeWithRotation] around
    [getAccountInfo] and [getMultipleAccountsInfo], each returning account
    data ([None] for a missing account) or throwing; and web3.js' key parser. *)
Variable newPublicKey : string -> res PublicKey.
Variable getAccountInfo : PublicKey -> res (option (list Z)).
Variable getMultipleAccountsInfo : list PublicKey -> res (list (option (list Z))).

(** [checkStateRootHistory]: its reads and its result; its own [catch] turns
    every exception into not_found. *)
Definition checkStateRootHistory (poolConfig : PoolConfig) (rootBuffer : list Z)
  : list RpcCall * RootAcceptanceResult :=
  match newPublicKey (statePda poolConfig) with
  | Throw _ => ([], notFound)
  | Ok statePda =>
      ([GetAccountInfo statePda],
       match getAccountInfo statePda with
       | Throw _ => notFound
       | Ok None => notFound
       | Ok (Some data) =>
           let currentRoot :=
             slice CURRENT_ROOT_OFFSET (CURRENT_ROOT_OFFSET + ROOT_SIZE) data in
           if bufEquals currentRoot rootBuffer then foundInStateHistory
           else if scanHistory data rootBuffer (seq 0 STATE_ROOT_HISTORY_SIZE)
                then foundInStateHistory
                else notFound
       end)
  end.

(** [checkShardedRootRing]: no [catch] of its own. *)
Definition checkShardedRootRing (poolConfig : PoolConfig) (rootBuffer : list Z)
  : list RpcCall * res RootAcceptanceResult :=
  match shardPdas poolConfig with
  | [] => ([], Ok notFound)
  | pdas =>
      match mapPublicKey newPublicKey pdas with
      | Throw e => ([], Throw e)
      | Ok shardPubkeys =>
          ([GetMultipleAccountsInfo shardPubkeys],
           shardInfos ← getMultipleAccountsInfo shardPubkeys;
           hit ← scanShards rootBuffer shardInfos 0;
           match hit with
           | Some shardIndex => Ok (foundInShard shardIndex)
           | None => Ok notFound
           end)
      end
  end.

(** [isAcceptedRoot(_connection, poolConfig, rootHex)]: the reads it performed
    and the result; the outer [catch] returns not_found. *)
Definition isAcceptedRoot (poolConfig : PoolConfig) (rootHex : string)
  : list RpcCall * RootAcceptanceResult :=
  let rootClean := replace0x (chars rootHex) in
  let rootBuffer := hexDecode rootClean in
  if negb (length rootBuffer =? 32)%nat then ([], notFound)
  else
    let '(reads1, historyResult) := checkStateRootHistory poolConfig rootBuffer in
    if found historyResult then (reads1, historyResult)
    else
      let '(reads2, shardedResult) := checkShardedRootRing poolConfig rootBuffer in
      (reads1 ++ reads2,
       match shardedResult with
       | Throw _ => notFound
       | Ok r => if found r then r else notFound
       end).

End WithChain.
(** *** The two tiers as the specification words them *)

(** The current-root field and slot [i] of the history array: 32 bytes from
    their offset in the state account. *)
Definition currentRootOf (data : list Z) : list Z :=
  take ROOT_SIZE (drop CURRENT_ROOT_OFFSET data).
Definition historySlot (data : list Z) (i : nat) : list Z :=
  take ROOT_SIZE (drop (ROOT_HISTORY_OFFSET + i * ROOT_SIZE) data).

(** Entry [j] of a shard account: its root, and its sequence number, the
    little-endian value of the 8 bytes after the root. *)
Definition entryRoot (data : list Z) (j : nat) : list Z :=
  take ROOT_SIZE (drop (SHARD_ENTRIES_OFFSET + j * ROOT_ENTRY_SIZE) data).
Definition entrySeq (data : list Z) (j : nat) : Z :=
  bytesLE (take 8 (drop (SHARD_ENTRIES_OFFSET + j * ROOT_ENTRY_SIZE + ROOT_SIZE) data)).

(** The root is in the state-history tier: the state account is there, and
    the root equals its current root, or one of the 256 slots of its history
    array that has a byte other than 0. *)
Definition inStateHistory (stateInfo : option (list Z)) (root : list Z) : Prop :=
  match stateInfo with
  | None => False
  | Some data =>
      currentRootOf data = root \/
      Exists (fun i => historySlot data i = root /\
                       Exists (fun b => b <> 0) (historySlot data i))
             (seq 0 STATE_ROOT_HISTORY_SIZE)
  end.

(** A shard account holds the root: it is there, and one of its 128 entries
    has the root and a sequence number other than 0. *)
Definition shardHolds (shardInfo : option (list Z)) (root : list Z) : Prop :=
  match shardInfo with
  | None => False
  | Some data =>
      Exists (fun j => entryRoot data j = root /\ entrySeq data j <> 0)
             (seq 0 SHARD_CAPACITY)
  end.

#[export] Instance inStateHistory_dec (stateInfo : option (list Z)) (root : list Z)
  : Decision (inStateHistory stateInfo root).
Proof. destruct stateInfo; cbn; apply _. Defined.

#[export] Instance shardHolds_dec (shardInfo : option (list Z)) (root : list Z)
  : Decision (shardHolds shardInfo root).
Proof. destruct shardInfo; cbn; apply _. Defined.

(** A shard account that exists has its header and all its 128 entries. *)
Definition completeShard (shardInfo : option (list Z)) : Prop :=
  match shardInfo with
  | None => True
  | Some data => (SHARD_ENTRIES_OFFSET + SHARD_CAPACITY * ROOT_ENTRY_SIZE <= length data)%nat
  end.

(** The state read is refused: the key does not parse, or the read throws. *)
Definition stateReadFails (newPublicKey : string -> res PublicKey)
    (getAccountInfo : PublicKey -> res (option (list Z))) (pc : PoolConfig) : Prop :=
  is_ok (newPublicKey (statePda pc)) = false \/
  exists key, newPublicKey (statePda pc) = Ok key /\ is_ok (getAccountInfo key) = false.

End RootAcceptance.

(** ** resilient-connection.ts: endpoint health and rotation *)

Module Resilient.
Import Js.

Record EndpointHealth : Type := {
  disabledUntil : Z;
  failCount : Z;
}.

(** The cooldown after a 429, in milliseconds. *)
Definition COOLDOWN_MS : Z := 2000.

(** The process-wide state the module reads and writes: the clock ([Date.now()])
    and the [endpointHealth] map. *)
Record State : Type := {
  now : Z;
  endpointHealth : gmap string EndpointHealth;
}.

Definition setHealth (m : gmap string EndpointHealth) (st : State) : State :=
  {| now := now st; endpointHealth := m |}.

(** [await new Promise(resolve => setTimeout(resolve, ms))]. *)
Definition sleep (ms : Z) (st : State) : State :=
  {| now := now st + ms; endpointHealth := endpointHealth st |}.

(** [isEndpointAvailable(url)]: an expired entry is deleted on the way. *)
Definition isEndpointAvailable (url : string) (st : State) : bool * State :=
  match endpointHealth st !! url with
  | None => (true, st)
  | Some health =>
      if disabledUntil health <=? now st
      then (true, setHealth (delete url (endpointHealth st)) st)
      else (false, st)
  end.

(** [markEndpointDisabled(url)]. *)
Definition markEndpointDisabled (url : string) (st : State) : State :=
  let existing :=
    default {| disabledUntil := 0; failCount := 0 |} (endpointHealth st !! url) in
  let existing :=
    {| disabledUntil := now st + COOLDOWN_MS; failCount := failCount existing + 1 |} in
  setHealth (<[url := existing]> (endpointHealth st)) st.

(** [markEndpointHealthy(url)]. *)
Definition markEndpointHealthy (url : string) (st : State) : State :=
  match endpointHealth st !! url with
  | Some _ => setHealth (delete url (endpointHealth st)) st
  | None => st
  end.

(** [getShortestCooldownMs()]; [shortestWait = None] is [Infinity]. *)
Fixpoint shortestCooldownLoop (endpoints : list string) (st : State)
    (shortestWait : option Z) : Z :=
  match endpoints with
  | [] => default 0 shortestWait
  | url :: rest =>
      match endpointHealth st !! url with
      | None => 0
      | Some health =>
          if disabledUntil health <=? now st then 0
          else
            let remaining := disabledUntil health - now st in
            let shortestWait :=
              match shortestWait with
              | Some w => if remaining <? w then Some remaining else Some w
              | None => Some remaining
              end in
            shortestCooldownLoop rest st shortestWait
      end
  end.

Definition getShortestCooldownMs (endpoints : list string) (st : State) : Z :=
  shortestCooldownLoop endpoints st None.

(** One RPC attempt as the outside sees it. *)
Record Attempt : Type := {
  a_url : string;
  a_started : Z;
  a_finished : Z;
  a_error : option thrown;
}.

(** Whether the attempt was answered with a rate-limit error. *)
Definition limited (a : Attempt) : bool :=
  match a_error a with
  | Some e => is429Error e
  | None => false
  end.

Definition succeeded (a : Attempt) : bool :=
  match a_error a with
  | Some _ => false
  | None => true
  end.

(** The places where [executeWithRotation] has the clock read: the
    [isEndpointAvailable] of the main loop for the endpoint at index [i], the
    [markEndpointDisabled] that follows the attempts on it, the
    [getShortestCooldownMs] after the loop, and the same two readings in the
    retry loop. *)
Inductive ClockRead : Type :=
  | MainCheck (i : nat)
  | MainSettle (i : nat)
  | CooldownRead
  | RetryCheck (i : nat)
  | RetrySettle (i : nat).

(** What a call meets outside the module: [operation url t] is the outcome and
    the duration (ms) of the operation run on a connection to [url] from time
    [t]; [jitter t] is the [Math.random() * 500] drawn at [t]; [admission t] is
    the time a call arriving at [t] waits in the rate limiter and the semaphore;
    [endpoints] is what [getNetworkEndpoints()] returns; [lag site t] is the
    time that passes, from the clock showing [t], until the code reaches the
    reading of the clock at [site] (two calls of [Date.now()] need not give
    the same value). *)
Record Env (T : Type) : Type := {
  operation : string -> Z -> (T + thrown) * nat;
  jitter : Z -> nat;
  admission : Z -> nat;
  endpoints : list string;
  lag : ClockRead -> Z -> nat;
}.
Arguments operation {T} _ _ _.
Arguments jitter {T} _ _.
Arguments admission {T} _ _.
Arguments endpoints {T} _.
Arguments lag {T} _ _ _.

Section Calls.
Context {T : Type}.
Variable env : Env T.

(** [tryEndpointWithRetry(url, operation, commitment, maxRetries)]: the loop
    from [attempt] with [left] iterations to go, started at time [t]. Returns
    the attempts made, the time it ends and the outcome. *)
Fixpoint tryEndpointLoop (url : string) (maxRetries : Z) (left : nat) (attempt : Z)
    (t : Z) : list Attempt * Z * (T + thrown) :=
  match left with
  | O =>
      ([], t,
       inr (ErrorObj ("Failed after " +:+ toString10 maxRetries +:+ " attempts at " +:+ url)))
  | S left' =>
      let '(r, d) := operation env url t in
      let t' := t + Z.of_nat d in
      match r with
      | inl v =>
          ([ {| a_url := url; a_started := t; a_finished := t'; a_error := None |} ],
           t', inl v)
      | inr error =>
          let a := {| a_url := url; a_started := t; a_finished := t';
                      a_error := Some error |} in
          if is429Error error then ([a], t', inr error)
          else if attempt <? maxRetries then
            let baseDelay := 2 ^ attempt * 500 in
            let delay := baseDelay + Z.of_nat (jitter env t') in
            let '(tr, t'', r') :=
              tryEndpointLoop url maxRetries left' (attempt + 1) (t' + delay) in
            (a :: tr, t'', r')
          else ([a], t', inr error)
      end
  end.

Definition tryEndpointWithRetry (url : string) (maxRetries : Z) (t : Z)
  : list Attempt * Z * (T + thrown) :=
  tryEndpointLoop url maxRetries (Z.to_nat maxRetries) 1 t.

Definition setNow (t : Z) (st : State) : State :=
  {| now := t; endpointHealth := endpointHealth st |}.

(** What [executeWithRotation] does to the health map once the awaited
    [tryEndpointWithRetry] on [endpoint] has settled with [r]: the lines after
    the [await], run without interruption. *)
Definition settle (endpoint : string) (r : T + thrown) (st : State) : State :=
  match r with
  | inl _ => markEndpointHealthy endpoint st
  | inr error => if is429Error error then markEndpointDisabled endpoint st else st
  end.

(** The clock as it stands when the code reaches the reading at [site]. *)
Definition reach (site : ClockRead) (st : State) : State :=
  sleep (Z.of_nat (lag env site (now st))) st.

(** The main loop of [executeWithRotation] over the endpoints still to visit,
    the first of them at index [i]. [inl v] is the [return];
    [inr (triedAny, errors)] is the loop running out. *)
Fixpoint rotate (eps : list string) (i : nat) (st : State) (triedAny : bool)
    (errors : list (string * string))
  : list Attempt * State * (T + bool * list (string * string)) :=
  match eps with
  | [] => ([], st, inr (triedAny, errors))
  | endpoint :: rest =>
      let '(available, st) := isEndpointAvailable endpoint (reach (MainCheck i) st) in
      if negb available then rotate rest (S i) st triedAny errors
      else
        let '(tr, t', r) := tryEndpointWithRetry endpoint 2 (now st) in
        let st := settle endpoint r (reach (MainSettle i) (setNow t' st)) in
        match r with
        | inl v => (tr, st, inl v)
        | inr error =>
            let errMsg := messageOr "Unknown error" error in
            let errors := errors ++ [(endpoint, errMsg)] in
            let '(tr', st', r') := rotate rest (S i) st true errors in
            (tr ++ tr', st', r')
        end
  end.

(** The retry after waiting out the cooldown: the first available endpoint is
    tried, and its failure is final. [None] is the loop finding none. *)
Fixpoint retryAfterWait (eps : list string) (i : nat) (st : State)
  : list Attempt * State * option (T + thrown) :=
  match eps with
  | [] => ([], st, None)
  | endpoint :: rest =>
      let '(available, st) := isEndpointAvailable endpoint (reach (RetryCheck i) st) in
      if negb available then retryAfterWait rest (S i) st
      else
        let '(tr, t', r) := tryEndpointWithRetry endpoint 2 (now st) in
        let st := settle endpoint r (reach (RetrySettle i) (setNow t' st)) in
        match r with
        | inl v => (tr, st, Some (inl v))
        | inr error =>
            let errMsg := messageOr "Unknown error" error in
            (tr, st, Some (inr (ErrorObj ("RPC failed after cooldown wait: " +:+ errMsg))))
        end
  end.

Definition newline : string := String (ascii_of_nat 10) "".

(** [errors.map(e => `  - ${e.endpoint}: ${e.error}`).join('\n')]. *)
Fixpoint joinErrors (errors : list (string * string)) : string :=
  match errors with
  | [] => ""
  | [(ep, msg)] => "  - " +:+ ep +:+ ": " +:+ msg
  | (ep, msg) :: rest => "  - " +:+ ep +:+ ": " +:+ msg +:+ newline +:+ joinErrors rest
  end.

(** The message of the all-in-cooldown error, without the JSON status dump
    that follows it in the source. *)
Definition COOLDOWN_ERROR : string :=
  "All RPC endpoints are in cooldown (rate limited). Wait for cooldown to expire.".

(** [executeWithRotation(operation, commitment, preferNonPrimary)]. A call that
    runs alone never waits for a semaphore permit; the time it spends in the
    rate limiter is [admission]. Every reading of the clock finds it where
    [lag] has moved it; a call reaches each place of reading at most once, so
    [lag] can give any clock values that do not go back. *)
Definition executeWithRotation (preferNonPrimary : bool) (st : State)
  : list Attempt * State * (T + thrown) :=
  let st := sleep (Z.of_nat (admission env (now st))) st in
  let networkEndpoints := endpoints env in
  let eps := if preferNonPrimary then rev networkEndpoints else networkEndpoints in
  let '(tr, st, r) := rotate eps 0 st false [] in
  match r with
  | inl v => (tr, st, inl v)
  | inr (triedAny, errors) =>
      if negb triedAny then
        let st := reach CooldownRead st in
        let waitMs := getShortestCooldownMs (endpoints env) st in
        if (0 <? waitMs) && (waitMs <=? COOLDOWN_MS) then
          let st := sleep (waitMs + 100) st in
          let '(tr', st, r') := retryAfterWait (endpoints env) 0 st in
          match r' with
          | Some out => (tr ++ tr', st, out)
          | None => (tr ++ tr', st, inr (ErrorObj COOLDOWN_ERROR))
          end
        else (tr, st, inr (ErrorObj COOLDOWN_ERROR))
      else
        (tr, st, inr (ErrorObj ("All RPC endpoints failed:" +:+ newline +:+ joinErrors errors)))
  end.

End Calls.

(** A session: calls made one after the other, each with what it meets and the
    idle time before it. *)
Record Call (T : Type) : Type := {
  c_env : Env T;
  c_preferNonPrimary : bool;
  c_idle : nat;
}.
Arguments c_env {T} _.
Arguments c_preferNonPrimary {T} _.
Arguments c_idle {T} _.

Fixpoint runCalls {T} (calls : list (Call T)) (st : State) : list Attempt * State :=
  match calls with
  | [] => ([], st)
  | c :: rest =>
      let st := sleep (Z.of_nat (c_idle c)) st in
      let '(tr, st, _) := executeWithRotation (c_env c) (c_preferNonPrimary c) st in
      let '(tr', st) := runCalls rest st in
      (tr ++ tr', st)
  end.

(** The state when the module is loaded at time [t0]. *)
Definition initial (t0 : Z) : State := {| now := t0; endpointHealth := ∅ |}.

(** *** The cooldown as the specification words it *)

(** The earliest time at which [url] passes [isEndpointAvailable]. *)
Definition availableFrom (st : State) (url : string) : Z :=
  match endpointHealth st !! url with
  | Some health => Z.max (now st) (disabledUntil health)
  | None => now st
  end.

(** After a rate-limited attempt on an endpoint, every later attempt on that
    endpoint starts at least the cooldown after the rate-limit response. *)
Definition respectsCooldown (tr : list Attempt) : Prop :=
  forall (i j : nat) (a b : Attempt),
    (i < j)%nat -> tr !! i = Some a -> tr !! j = Some b ->
    limited a = true -> a_url b = a_url a ->
    a_finished a + COOLDOWN_MS <= a_started b.

(** What a stretch of execution from [st] to [st'] with attempts [tr] keeps. *)
Definition segment (st : State) (tr : list Attempt) (st' : State) : Prop :=
  now st <= now st' /\
  (forall url, availableFrom st url <= availableFrom st' url) /\
  (forall b, b ∈ tr ->
     availableFrom st (a_url b) <= a_started b /\ a_finished b <= now st') /\
  respectsCooldown tr /\
  (forall a, a ∈ tr -> limited a = true ->
     a_finished a + COOLDOWN_MS <= availableFrom st' (a_url a)).

End Resilient.

(** ** ws-confirmation.ts: transaction confirmation with a finalized-set *)

Module WsConfirm.
Import Js.

Inductive ConfirmMode : Type := ws | http_race | http_fallback.

Record WsConfirmationResult : Type := {
  confirmed : bool;
  confirmMode : ConfirmMode;
  durationMs : Z;
  wsRotations : Z;
  error : option string;
}.

(** [status.value] of [getSignatureStatus]: [err] is the JSON text of a truthy
    [err] field, [None] when the field is null. *)
Record SignatureStatus : Type := {
  err : option string;
  confirmationStatus : option string;
}.

(** How long an entry of the finalized-set lives: 5 minutes. *)
Definition TTL_MS : Z := 5 * 60 * 1000.

(** The process-wide state: the clock, the [confirmedSignatures] set, the
    pending [setTimeout] deletions (due time, signature), and the number of
    [executeWithRotation] calls issued so far. *)
Record State : Type := {
  now : Z;
  confirmedSignatures : gset string;
  timers : list (Z * string);
  rpcCalls : nat;
}.

(** Time passing while the running task is suspended: timers that are due
    fire, each deleting its signature. *)
Definition fireDue (t : Z) (set : gset string) (timers : list (Z * string))
  : gset string * list (Z * string) :=
  (foldr (fun tm s => if fst tm <=? t then s ∖ {[ snd tm ]} else s) set timers,
   filter (fun tm => t < fst tm) timers).

Definition advance (ms : Z) (st : State) : State :=
  let t := now st + ms in
  let '(set, tms) := fireDue t (confirmedSignatures st) (timers st) in
  {| now := t; confirmedSignatures := set; timers := tms; rpcCalls := rpcCalls st |}.

(** [isSignatureConfirmed(signature)]. *)
Definition isSignatureConfirmed (signature : string) (st : State) : bool :=
  bool_decide (signature ∈ confirmedSignatures st).

(** [markSignatureConfirmed(signature)]. *)
Definition markSignatureConfirmed (signature : string) (st : State) : State :=
  {| now := now st;
     confirmedSignatures := {[ signature ]} ∪ confirmedSignatures st;
     timers := timers st ++ [(now st + TTL_MS, signature)];
     rpcCalls := rpcCalls st |}.

(** [executeWithRotation(conn => conn.getSignatureStatus(signature))] as the
    tracker sees it: the status value or the exception, and the time it took. *)
Definition Network : Type := string -> Z -> (option SignatureStatus + thrown) * nat.

Definition countCall (st : State) : State :=
  {| now := now st; confirmedSignatures := confirmedSignatures st;
     timers := timers st; rpcCalls := S (rpcCalls st) |}.

(** What the [try] block of one poll iteration does. *)
Inductive PollStep : Type :=
  | Return
  | FallThrough
  | Caught (pollError : thrown).

Definition reachedCommitment (commitment : string) (confirmationStatus : option string) : bool :=
  bool_decide (confirmationStatus = Some commitment)
  || bool_decide (confirmationStatus = Some "finalized"%string)
  || (bool_decide (commitment = "confirmed"%string)
      && bool_decide (confirmationStatus = Some "confirmed"%string)).

Definition pollStep (commitment : string) (r : option SignatureStatus + thrown) : PollStep :=
  match r with
  | inr e => Caught e
  | inl None => FallThrough
  | inl (Some value) =>
      match err value with
      | Some json => Caught (ErrorObj ("Transaction failed: " +:+ json))
      | None =>
          if reachedCommitment commitment (confirmationStatus value) then Return
          else FallThrough
      end
  end.

Definition timeoutMessage (timeoutMs : Z) : string :=
  "HTTP confirmation timeout after " +:+ toString10 timeoutMs +:+ "ms".

Section Tracker.
Variable network : Network.

(** The [while] loop of [confirmViaHttpPolling], at most [fuel] iterations:
    [Some (inl durationMs)] is the [return], [Some (inr e)] the [throw],
    [None] means the iterations ran out. *)
Fixpoint pollLoop (fuel : nat) (signature commitment : string) (timeoutMs startTime : Z)
    (st : State) : State * option (Z + thrown) :=
  match fuel with
  | O => (st, None)
  | S fuel' =>
      let pollInterval := 1000 in
      if now st - startTime <? timeoutMs then
        if isSignatureConfirmed signature st then (st, Some (inl (now st - startTime)))
        else
          let '(r, d) := network signature (now st) in
          let st := advance (Z.of_nat d) (countCall st) in
          match pollStep commitment r with
          | Return => (st, Some (inl (now st - startTime)))
          | Caught pollError =>
              if is429Error pollError
              then pollLoop fuel' signature commitment timeoutMs startTime
                     (advance (pollInterval * 2) st)
              else pollLoop fuel' signature commitment timeoutMs startTime
                     (advance pollInterval st)
          | FallThrough =>
              pollLoop fuel' signature commitment timeoutMs startTime
                (advance pollInterval st)
          end
      else (st, Some (inr (ErrorObj (timeoutMessage timeoutMs))))
  end.

(** Every iteration that goes round again lets at least a second pass, so this
    many iterations reach the timeout. *)
Definition pollFuel (timeoutMs : Z) : nat := S (Z.to_nat (timeoutMs / 1000 + 1)).

Definition confirmViaHttpPolling (signature commitment : string) (timeoutMs : Z)
    (st : State) : State * option (Z + thrown) :=
  pollLoop (pollFuel timeoutMs) signature commitment timeoutMs (now st) st.

(** [confirmTransactionWsFirst(signature, commitment, { httpTimeoutMs })]. *)
Definition confirmTransactionWsFirst (signature commitment : string) (httpTimeoutMs : Z)
    (st : State) : State * option WsConfirmationResult :=
  let startTime := now st in
  if isSignatureConfirmed signature st then
    (st, Some {| confirmed := true; confirmMode := ws; durationMs := 0;
                 wsRotations := 0; error := None |})
  else
    match confirmViaHttpPolling signature commitment httpTimeoutMs st with
    | (st, None) => (st, None)
    | (st, Some (inl duration)) =>
        (markSignatureConfirmed signature st,
         Some {| confirmed := true; confirmMode := http_fallback; durationMs := duration;
                 wsRotations := 0; error := None |})
    | (st, Some (inr httpError)) =>
        let errorMsg := messageOr "non-Error value" httpError in
        (st,
         Some {| confirmed := false; confirmMode := http_fallback;
                 durationMs := now st - startTime; wsRotations := 0;
                 error := Some errorMsg |})
    end.

End Tracker.

(** The state when the module is loaded at time [t0]. *)
Definition initial (t0 : Z) : State :=
  {| now := t0; confirmedSignatures := ∅; timers := []; rpcCalls := 0 |}.

(** The result of the short-circuit. *)
Definition alreadyConfirmed : WsConfirmationResult :=
  {| confirmed := true; confirmMode := ws; durationMs := 0; wsRotations := 0;
     error := None |}.

(** Every signature has at most one pending deletion, and only while it is in
    the set: what [markSignatureConfirmed] and the timers keep true when calls
    do not overlap. *)
Definition timersSound (st : State) : Prop :=
  NoDup (map snd (timers st)) /\
  forall tm, tm ∈ timers st -> snd tm ∈ confirmedSignatures st.

End WsConfirm.

(** ** components/WithdrawBar.tsx: the batch withdrawal handler *)

Module WithdrawBar.
Import Js Types.

(** The component state [handleWithdraw] writes, and whether [onClear] ran. *)
Record UiState : Type := {
  error : option string;
  isWithdrawing : bool;
  showProofOverlay : bool;
  proofProgress : string;
  successTxs : list string;
  cleared : bool;
}.

Inductive SubmitStatus : Type := success | failed | duplicate.

Record ProtocolWithdrawResponse : Type := {
  signature : string;
  r_status : SubmitStatus;
  r_error : option string;
}.

Record ProtocolHealthResponse : Type := {
  h_status : string;
  h_protocol : string;
}.

(** What the handler did, in order: the notes it prepared and submitted (by
    position in the batch) and the error messages it set. *)
Inductive Event : Type :=
  | EvPrepare (i : nat)
  | EvSubmit (i : nat)
  | EvSetError (msg : string).

Definition isSetError (e : Event) : bool :=
  match e with EvSetError _ => true | _ => false end.

Definition setError (msg : string) (ui : UiState) : UiState :=
  {| error := Some msg; isWithdrawing := isWithdrawing ui;
     showProofOverlay := showProofOverlay ui; proofProgress := proofProgress ui;
     successTxs := successTxs ui; cleared := cleared ui |}.

Definition setProofProgress (p : string) (ui : UiState) : UiState :=
  {| error := error ui; isWithdrawing := isWithdrawing ui;
     showProofOverlay := showProofOverlay ui; proofProgress := p;
     successTxs := successTxs ui; cleared := cleared ui |}.

(** The [finally] block. *)
Definition finish (ui : UiState) : UiState :=
  {| error := error ui; isWithdrawing := false; showProofOverlay := false;
     proofProgress := proofProgress ui; successTxs := successTxs ui;
     cleared := cleared ui |}.

(** [`${i + 1}`] for a loop index. *)
Definition ordinal (i : nat) : string := toString10 (Z.of_nat (i + 1)).

(** [n => !n.rootAfter || n.siblings.length === 0 || n.leafIndex < 0]. *)
Definition missingData (n : Note) : bool :=
  bool_decide (rootAfter n = ""%string)
  || (length (siblings n) =? 0)%nat
  || (leafIndex n <? 0).

Section Handler.
(** The collaborators: web3.js' key parser, the relay's health endpoint, proof
    preparation and relay submission. The last two are asked per batch
    position; what they answer is theirs to decide. The progress texts that
    preparation reports through its callback are left out, and so are the
    delays between items. *)
Variable Submission : Type.
Variable newPublicKey : string -> res PublicKey.
Variable checkProtocolHealth : ProtocolHealthResponse + thrown.
Variable prepareWithdrawalForProtocol :
  nat -> Note -> PublicKey -> PublicKey -> Submission + thrown.
Variable submitWithdrawalToProtocol : nat -> Submission -> ProtocolWithdrawResponse + thrown.

(** Phase 2: the proof loop from position [i]. A failure is rethrown and ends
    the batch. *)
Fixpoint phase2 (notes : list Note) (i total : nat) (recipient protocol : PublicKey)
    (ui : UiState) (prepared : list Submission)
  : UiState * list Event * (list Submission + thrown) :=
  match notes with
  | [] => (ui, [], inl prepared)
  | note :: rest =>
      let ui := setProofProgress
                  ("Generating proof " +:+ ordinal i +:+ "/" +:+ toString10 (Z.of_nat total)
                   +:+ "...") ui in
      match prepareWithdrawalForProtocol i note recipient protocol with
      | inl submission =>
          let '(ui, evs, r) :=
            phase2 rest (S i) total recipient protocol ui (prepared ++ [submission]) in
          (ui, EvPrepare i :: evs, r)
      | inr proofErr =>
          let errMsg := messageOr "Unknown error" proofErr in
          (ui, [EvPrepare i],
           inr (ErrorObj ("Failed to generate proof for note " +:+ ordinal i +:+ ": "
                          +:+ errMsg)))
      end
  end.

(** [result.error || 'Unknown error']. *)
Definition errorOrUnknown (e : option string) : string :=
  match e with
  | Some ""%string | None => "Unknown error"
  | Some m => m
  end.

(** Phase 3: the submission loop from position [i]. A failure is recorded with
    [setError] and the loop goes on. *)
Fixpoint phase3 (submissions : list Submission) (i total : nat) (ui : UiState)
    (txSignatures : list string) : UiState * list Event * list string :=
  match submissions with
  | [] => (ui, [], txSignatures)
  | submission :: rest =>
      let ui := setProofProgress
                  ("Submitting " +:+ ordinal i +:+ "/" +:+ toString10 (Z.of_nat total)
                   +:+ "...") ui in
      match submitWithdrawalToProtocol i submission with
      | inl result =>
          match r_status result with
          | success | duplicate =>
              let '(ui, evs, sigs) :=
                phase3 rest (S i) total ui (txSignatures ++ [signature result]) in
              (ui, EvSubmit i :: evs, sigs)
          | failed =>
              let msg := "Withdrawal " +:+ ordinal i +:+ " failed: "
                         +:+ errorOrUnknown (r_error result) in
              let '(ui, evs, sigs) :=
                phase3 rest (S i) total (setError msg ui) txSignatures in
              (ui, EvSubmit i :: EvSetError msg :: evs, sigs)
          end
      | inr submitErr =>
          let msg := "Withdrawal " +:+ ordinal i +:+ " submit failed: "
                     +:+ messageOr "Unknown error" submitErr in
          let '(ui, evs, sigs) :=
            phase3 rest (S i) total (setError msg ui) txSignatures in
          (ui, EvSubmit i :: EvSetError msg :: evs, sigs)
      end
  end.

(** Phase 1: the health check; every failure becomes the same error. *)
Definition phase1 : res PublicKey :=
  match checkProtocolHealth with
  | inr _ => Throw (Error "Cannot reach service. Please try again later.")
  | inl health =>
      if negb (bool_decide (h_status health = "ok"%string))
      then Throw (Error "Cannot reach service. Please try again later.")
      else
        match newPublicKey (h_protocol health) with
        | Ok protocol => Ok protocol
        | Throw _ => Throw (Error "Cannot reach service. Please try again later.")
        end
  end.

(** [handleWithdraw()] for the selected notes and the recipient text. *)
Definition handleWithdraw (selectedNotes : list Note) (effectiveRecipient : string)
    (ui : UiState) : UiState * list Event :=
  match newPublicKey effectiveRecipient with
  | Throw _ =>
      (setError "Invalid recipient address" ui, [EvSetError "Invalid recipient address"])
  | Ok recipient =>
      let notesWithMissingData := filter (fun n => missingData n = true) selectedNotes in
      if (0 <? length notesWithMissingData)%nat then
        let msg := toString10 (Z.of_nat (length notesWithMissingData))
                   +:+ " note(s) missing Merkle proof data. These notes may have been created before the update. Please deposit new notes." in
        (setError msg ui, [EvSetError msg])
      else
        let ui := {| error := None; isWithdrawing := true; showProofOverlay := true;
                     proofProgress := "Initializing..."; successTxs := [];
                     cleared := cleared ui |} in
        let ui := setProofProgress "Connecting..." ui in
        match phase1 with
        | Throw e =>
            let msg := match e with Error m => m | _ => "Withdrawal failed"%string end in
            (finish (setError msg ui), [EvSetError msg])
        | Ok protocol =>
            let '(ui, evs2, r) :=
              phase2 selectedNotes 0 (length selectedNotes) recipient protocol ui [] in
            match r with
            | inr err =>
                let msg := messageOr "Withdrawal failed" err in
                (finish (setError msg ui), evs2 ++ [EvSetError msg])
            | inl preparedSubmissions =>
                let '(ui, evs3, txSignatures) :=
                  phase3 preparedSubmissions 0 (length preparedSubmissions) ui [] in
                if (0 <? length txSignatures)%nat then
                  let ui := {| error := error ui; isWithdrawing := isWithdrawing ui;
                               showProofOverlay := showProofOverlay ui;
                               proofProgress :=
                                 toString10 (Z.of_nat (length txSignatures)) +:+ "/"
                                 +:+ toString10 (Z.of_nat (length selectedNotes))
                                 +:+ " withdrawal(s) complete!";
                               successTxs := txSignatures; cleared := true |} in
                  (finish ui, evs2 ++ evs3)
                else
                  let msg := "All withdrawals failed. Please try again."%string in
                  (finish (setError msg ui), evs2 ++ evs3 ++ [EvSetError msg])
            end
        end
  end.

(** *** The batch as the specification words it *)

(** The signature a submission counts as a success with, if it does. *)
Definition accepted (r : ProtocolWithdrawResponse + thrown) : option string :=
  match r with
  | inl result =>
      match r_status result with
      | success | duplicate => Some (signature result)
      | failed => None
      end
  | inr _ => None
  end.

(** What each submission of the batch comes to, from position [i] on. *)
Fixpoint submitResults (i : nat) (submissions : list Submission) : list (option string) :=
  match submissions with
  | [] => []
  | s :: rest => accepted (submitWithdrawalToProtocol i s) :: submitResults (S i) rest
  end.

(** The prepared submissions when every preparation succeeds, [None] when one
    fails. *)
Fixpoint prepareAll (i : nat) (notes : list Note) (recipient protocol : PublicKey)
  : option (list Submission) :=
  match notes with
  | [] => Some []
  | n :: rest =>
      match prepareWithdrawalForProtocol i n recipient protocol with
      | inl s => (fun l => s :: l) <$> prepareAll (S i) rest recipient protocol
      | inr _ => None
      end
  end.

End Handler.

(** The positions submitted, in order, and the number of errors set. *)
Definition submitted (evs : list Event) : list nat :=
  omap (fun e => match e with EvSubmit i => Some i | _ => None end) evs.
Definition prepared (evs : list Event) : list nat :=
  omap (fun e => match e with EvPrepare i => Some i | _ => None end) evs.
Definition errorsSet (evs : list Event) : nat :=
  length (filter (fun e => isSetError e = true) evs).

(** The component state before a batch. *)
Definition idle : UiState :=
  {| error := None; isWithdrawing := false; showProofOverlay := false;
     proofProgress := "Initializing..."; successTxs := []; cleared := false |}.

End WithdrawBar.

(** ** SHA-256 (FIPS 180-4), the digest [crypto.subtle] computes *)

Module Sha256.
Import Js.

Definition add32 (x y : Z) : Z := (x + y) mod 2 ^ 32.
Definition rotr (n x : Z) : Z := Z.lor (Z.shiftr x n) (Z.shiftl x (32 - n) mod 2 ^ 32).
Definition Ch (x y z : Z) : Z := Z.lxor (Z.land x y) (Z.land (Z.lxor x 4294967295) z).
Definition Maj (x y z : Z) : Z := Z.lxor (Z.lxor (Z.land x y) (Z.land x z)) (Z.land y z).
Definition Sigma0 (x : Z) : Z := Z.lxor (Z.lxor (rotr 2 x) (rotr 13 x)) (rotr 22 x).
Definition Sigma1 (x : Z) : Z := Z.lxor (Z.lxor (rotr 6 x) (rotr 11 x)) (rotr 25 x).
Definition sigma0 (x : Z) : Z := Z.lxor (Z.lxor (rotr 7 x) (rotr 18 x)) (Z.shiftr x 3).
Definition sigma1 (x : Z) : Z := Z.lxor (Z.lxor (rotr 17 x) (rotr 19 x)) (Z.shiftr x 10).

Definition K : list Z :=
  [ 1116352408; 1899447441; 3049323471; 3921009573; 961987163; 1508970993; 2453635748;
    2870763221; 3624381080; 310598401; 607225278; 1426881987; 1925078388; 2162078206;
    2614888103; 3248222580; 3835390401; 4022224774; 264347078; 604807628; 770255983;
    1249150122; 1555081692; 1996064986; 2554220882; 2821834349; 2952996808; 3210313671;
    3336571891; 3584528711; 113926993; 338241895; 666307205; 773529912; 1294757372;
    1396182291; 1695183700; 1986661051; 2177026350; 2456956037; 2730485921; 2820302411;
    3259730800; 3345764771; 3516065817; 3600352804; 4094571909; 275423344; 430227734;
    506948616; 659060556; 883997877; 958139571; 1322822218; 1537002063; 1747873779;
    1955562222; 2024104815; 2227730452; 2361852424; 2428436474; 2756734187; 3204031479;
    3329325298 ].

Definition H0 : list Z :=
  [ 1779033703; 3144134277; 1013904242; 2773480762; 1359893119; 2600822924; 528734635;
    1541459225 ].

(** The message, a 1 bit, zeros, and the bit length on 8 bytes: a multiple of 64. *)
Definition pad (msg : list Z) : list Z :=
  let len := Z.of_nat (length msg) in
  msg ++ [128] ++ replicate (Z.to_nat ((55 - len) mod 64)) 0 ++ beBytes 8 (8 * len).

(** Big-endian 32-bit words of a byte list. *)
Fixpoint words (bs : list Z) : list Z :=
  match bs with
  | a :: b :: c :: d :: t => bytesBE [a; b; c; d] :: words t
  | _ => []
  end.

(** The message schedule: [n] more words after the ones in [w]. *)
Fixpoint schedule (n : nat) (w : list Z) : list Z :=
  match n with
  | O => w
  | S n' =>
      let i := length w in
      let at_ k := nth (i - k) w 0 in
      schedule n' (w ++ [add32 (add32 (sigma1 (at_ 2%nat)) (at_ 7%nat))
                               (add32 (sigma0 (at_ 15%nat)) (at_ 16%nat))])
  end.

Record Regs : Type := { ra : Z; rb : Z; rc : Z; rd : Z; re : Z; rf : Z; rg : Z; rh : Z }.

Definition round (r : Regs) (kw : Z * Z) : Regs :=
  let t1 := add32 (add32 (add32 (rh r) (Sigma1 (re r))) (Ch (re r) (rf r) (rg r)))
                  (add32 (fst kw) (snd kw)) in
  let t2 := add32 (Sigma0 (ra r)) (Maj (ra r) (rb r) (rc r)) in
  {| ra := add32 t1 t2; rb := ra r; rc := rb r; rd := rc r;
     re := add32 (rd r) t1; rf := re r; rg := rf r; rh := rg r |}.

Definition regsOf (h : list Z) : Regs :=
  {| ra := nth 0 h 0; rb := nth 1 h 0; rc := nth 2 h 0; rd := nth 3 h 0;
     re := nth 4 h 0; rf := nth 5 h 0; rg := nth 6 h 0; rh := nth 7 h 0 |}.

Definition compress (h : list Z) (block : list Z) : list Z :=
  let w := schedule 48 (words block) in
  let r := fold_left round (combine K w) (regsOf h) in
  zip_with add32 h [ra r; rb r; rc r; rd r; re r; rf r; rg r; rh r].

(** The blocks of a padded message, at most [n] of them. *)
Fixpoint blocks (n : nat) (bs : list Z) : list (list Z) :=
  match n, bs with
  | S n', _ :: _ => take 64 bs :: blocks n' (drop 64 bs)
  | _, _ => []
  end.

Definition sha256 (msg : list Z) : list Z :=
  let padded := pad msg in
  let h := fold_left compress (blocks (length padded) padded) H0 in
  concat (map (beBytes 4) h).

End Sha256.

(** ** Concrete pools, accounts and collaborators used in the examples *)

Module Samples.
Import Js Types.

(** A stand-in for base58 decoding: the text's bytes, zero-padded to 32. *)
Definition keyOf (s : string) : res PublicKey :=
  Ok (take 32 (Withdrawal.utf8 s ++ replicate 32 0)).

(** A stand-in for program-address derivation: a digest of the seeds. *)
Definition pdaOf (seeds : list (list Z)) (programId : PublicKey) : res (PublicKey * Z) :=
  Ok (Sha256.sha256 (concat seeds ++ programId), 255).

Definition pool : PoolConfig := {|
  pc_poolId := "devnet-0p1sol";
  programId := "program";
  statePda := "state";
  vaultPda := "vault";
  vkPda := "vk";
  metadataPda := "metadata";
  rootRingPda := "ring";
  shardPdas := ["shard0"; "shard1"];
  denominationLamports := 100000000;
  ringCapacity := 2560;
|}.

Definition poolTable (poolId : string) : res PoolConfig :=
  if bool_decide (poolId = "devnet-0p1sol"%string) then Ok pool
  else Throw (Error "Unknown pool").

(** A root, as hex text and as bytes. *)
Definition rootHex : string :=
  "0x1111111111111111111111111111111111111111111111111111111111111111".
Definition root : list Z := replicate 32 17.

(** A state account whose current root and history are still zero. *)
Definition stateEmpty : list Z := replicate (688 + 32 + 256 * 32) 0.

(** A state account whose current root is [root]. *)
Definition stateCurrent : list Z := replicate 688 0 ++ root ++ replicate (256 * 32) 0.

(** A state account with another current root, slot 0 of the history still
    zero and [root] in slot 1. *)
Definition stateHistoric : list Z :=
  replicate 688 0 ++ replicate 32 34 ++ replicate 32 0 ++ root ++ replicate (254 * 32) 0.

(** Shard accounts: one with no entry written, one holding [root] in entry 0
    with sequence number 1. *)
Definition shardEmpty : list Z := replicate (16 + 128 * 40) 0.
Definition shardWithRoot : list Z :=
  replicate 16 0 ++ root ++ [1; 0; 0; 0; 0; 0; 0; 0] ++ replicate (127 * 40) 0.

(** A shard account cut short inside its first entry. *)
Definition shardTruncated : list Z := replicate 20 0.

(** Chains: every read answers; the state read is refused; the shards hold the
    root in shard 1. *)
Definition readState (st : list Z) (pk : PublicKey) : res (option (list Z)) := Ok (Some st).
Definition readStateFails (pk : PublicKey) : res (option (list Z)) :=
  Throw (Error "429 Too Many Requests").
Definition readShards (pks : list PublicKey) : res (list (option (list Z))) :=
  Ok [Some shardEmpty; Some shardWithRoot].

(** The same shards, with the account of shard 0 cut short. *)
Definition readShardsCut (pks : list PublicKey) : res (list (option (list Z))) :=
  Ok [Some shardTruncated; Some shardWithRoot].

Definition note : Note := {|
  id := "n1";
  poolId := "devnet-0p1sol";
  commitment := "0x00";
  nullifierSecret := "1";
  noteSecret := "2";
  nullifierHash := "";
  leafIndex := 130;
  rootAfter := rootHex;
  siblings := ["0x01"; "0x02"];
  depositTx := "tx";
  createdAt := "2026-01-10";
  status := confirmed;
  spentTx := None;
  spentAt := None;
|}.

(** Withdrawal inputs: a recipient, the relay's key, a proof, a nullifier hash. *)
Definition recipient : PublicKey := replicate 32 1.
Definition protocol : PublicKey := replicate 32 2.
Definition proofBytes : list Z := replicate 256 7.
Definition nullifierHashBytes : list Z := beBytes 32 5.

(** A stand-in for the Poseidon instance in the examples: a digest of the
    inputs, reduced into the scalar field. *)
Definition hash (inputs : list Z) : Z :=
  bytesBE (Sha256.sha256 (concat (map (beBytes 32) inputs)))
  mod Withdrawal.BN254_FIELD_MODULUS.

(** A batch of three notes, a healthy relay, and collaborators for it: every
    preparation succeeds, or the second fails; every submission is accepted,
    or the second is refused on chain. A submission is its batch position. *)
Definition notes3 : list Note :=
  [ Withdrawal.withCommitment "0x01" note; Withdrawal.withCommitment "0x02" note;
    Withdrawal.withCommitment "0x03" note ].

Definition healthOk : WithdrawBar.ProtocolHealthResponse + thrown :=
  inl {| WithdrawBar.h_status := "ok"; WithdrawBar.h_protocol := "protocol" |}.

Definition prepareOk (i : nat) (n : Note) (recipient protocol : PublicKey) : nat + thrown :=
  inl i.

Definition prepareSecondFails (i : nat) (n : Note) (recipient protocol : PublicKey)
  : nat + thrown :=
  if (i =? 1)%nat then inr (ErrorObj "Daemon getMerklePath (recover) failed (500): down")
  else inl i.

Definition submitOk (i : nat) (s : nat) : WithdrawBar.ProtocolWithdrawResponse + thrown :=
  inl {| WithdrawBar.signature := ("sig" +:+ WithdrawBar.ordinal i)%string;
         WithdrawBar.r_status := WithdrawBar.success;
         WithdrawBar.r_error := None |}.

Definition submitSecondFails (i : nat) (s : nat)
  : WithdrawBar.ProtocolWithdrawResponse + thrown :=
  if (i =? 1)%nat
  then inl {| WithdrawBar.signature := ""%string;
              WithdrawBar.r_status := WithdrawBar.failed;
              WithdrawBar.r_error := Some "custom program error: 0x1772"%string |}
  else submitOk i s.

(** A network that reports the transaction confirmed at the first poll,
    after 280 ms; one that always reports an on-chain failure (its JSON text
    written without the quotation marks); one that never has any status. *)
Definition confirmsAtOnce : WsConfirm.Network :=
  fun _ _ =>
    (inl (Some {| WsConfirm.err := None;
                  WsConfirm.confirmationStatus := Some "confirmed"%string |}), 280%nat).

Definition failsOnChain : WsConfirm.Network :=
  fun _ _ =>
    (inl (Some {| WsConfirm.err := Some "{InstructionError:[0,{Custom:6002}]}"%string;
                  WsConfirm.confirmationStatus := Some "confirmed"%string |}), 280%nat).

Definition neverLands : WsConfirm.Network := fun _ _ => (inl None, 280%nat).

(** The error of a request answered with HTTP 429. *)
Definition rateLimited : thrown := ErrorObj "429 Too Many Requests".

(** Two endpoints: A answers every request made before [until] with a 429 and
    serves afterwards, B always serves. A request takes 40 ms, the rate limiter
    admits at once, and the operation returns the time it was started. *)
Definition twoEndpoints (until : Z) : Resilient.Env Z := {|
  Resilient.operation := fun url t =>
    if String.eqb url "A" && (t <? until)
    then (inr rateLimited, 40%nat) else (inl t, 40%nat);
  Resilient.jitter := fun _ => 0%nat;
  Resilient.admission := fun _ => 0%nat;
  Resilient.endpoints := ["A"; "B"]%string;
  Resilient.lag := fun _ _ => 0%nat;
|}.

(** A single endpoint that answers every request with a 429. *)
Definition alwaysLimited : Resilient.Env Z := {|
  Resilient.operation := fun _ _ => (inr rateLimited, 40%nat);
  Resilient.jitter := fun _ => 0%nat;
  Resilient.admission := fun _ => 0%nat;
  Resilient.endpoints := ["A"]%string;
  Resilient.lag := fun _ _ => 0%nat;
|}.

Definition call (env : Resilient.Env Z) (idle : nat) : Resilient.Call Z :=
  {| Resilient.c_env := env; Resilient.c_preferNonPrimary := false;
     Resilient.c_idle := idle |}.

End Samples.

(** ** Decimal numerals digit by digit *)

Module Numerals.

(** The digits of a decimal numeral, as values, most significant first. *)
Fixpoint uintDigits (d : Decimal.uint) : list Z :=
  match d with
  | Decimal.Nil => []
  | Decimal.D0 d => 0 :: uintDigits d
  | Decimal.D1 d => 1 :: uintDigits d
  | Decimal.D2 d => 2 :: uintDigits d
  | Decimal.D3 d => 3 :: uintDigits d
  | Decimal.D4 d => 4 :: uintDigits d
  | Decimal.D5 d => 5 :: uintDigits d
  | Decimal.D6 d => 6 :: uintDigits d
  | Decimal.D7 d => 7 :: uintDigits d
  | Decimal.D8 d => 8 :: uintDigits d
  | Decimal.D9 d => 9 :: uintDigits d
  end.

End Numerals.

(** ** withdrawal.ts: preparing a withdrawal for the protocol service *)

Module Prepare.
Import Js Serialization Types Poseidon Withdrawal RootAcceptance.

(** What the daemon's [getMerklePath] answers. *)
Record MerklePathResponse : Type := {
  mp_root : string;
  mp_pathElements : list string;
  mp_pathIndices : list Z;
  mp_leafIndex : Z;
}.

Record ProtocolSubmissionData : Type := {
  psd_poolId : string;
  psd_instruction : TransactionInstruction;
  psd_note : Note;
  psd_nullifierHashBytes : list Z;
  psd_rootBytes : list Z;
  psd_fee : Z;
}.

(** What a preparation does that can be seen from outside, in order: the
    [onProgress] calls, the reads of the chain, the request to the daemon, the
    run of the prover, and the lines written with [console.error]. *)
Inductive Event : Type :=
  | OnProgress (status : string)
  | FeeRead (statePda : string)
  | ChainRead (c : RpcCall)
  | DaemonCall (poolId commitment : string)
  | FullProve (witness : WithdrawWitness)
  | ConsoleError (line : string).

(** A computation that leaves events behind and returns or throws. *)
Definition Run (A : Type) : Type := list Event * res A.

#[export] Instance run_ret : MRet Run := fun A a => ([], Ok a).
#[export] Instance run_bind : MBind Run := fun A B k m =>
  match m with
  | (t, Ok a) => let '(t', r) := k a in (t ++ t', r)
  | (t, Throw e) => (t, Throw e)
  end.

Definition lift {A} (r : res A) : Run A := ([], r).
Definition emit (e : Event) : Run unit := ([e], Ok tt).
Definition call {A} (e : Event) (r : res A) : Run A := ([e], r).

Section WithCollaborators.
(** Collaborators: the pool table and the fee helpers of [pool-config.ts], the
    key parser and address derivation of web3.js, the platform's SHA-256, the
    chain reads behind [isAcceptedRoot], the daemon client's [getMerklePath],
    snarkjs' [groth16.fullProve] on the circuit artifacts, and the Poseidon
    instance. *)
Variable getPoolConfig : string -> res PoolConfig.
Variable getOnChainMaxFeeBps : string -> res Z.
Variable calculateFeeFromBps : Z -> Z -> res Z.
Variable newPublicKey : string -> res PublicKey.
Variable findProgramAddressSync : list (list Z) -> PublicKey -> res (PublicKey * Z).
Variable sha256 : list Z -> list Z.
Variable getAccountInfo : PublicKey -> res (option (list Z)).
Variable getMultipleAccountsInfo : list PublicKey -> res (list (option (list Z))).
Variable getMerklePath : string -> string -> res MerklePathResponse.
Variable fullProve : WithdrawWitness -> res (SnarkjsProof * list string).
Variable poseidon : list Z -> Z.

(** [generateProof(witness)]: the serialized proof and the public signals. *)
Definition generateProof (witness : WithdrawWitness) : Run (list Z * list string) :=
  r ← call (FullProve witness) (fullProve witness);
  let '(proof, publicSignals) := r in
  serializedProof ← lift (serializeProof proof);
  mret (serializedProof, publicSignals).

(** [{ ...note, rootAfter: freshRoot, siblings: freshSiblings }]. *)
Definition refreshed (note : Note) (freshRoot : string) (freshSiblings : list string) : Note :=
  {| id := id note; poolId := poolId note; commitment := commitment note;
     nullifierSecret := nullifierSecret note; noteSecret := noteSecret note;
     nullifierHash := nullifierHash note; leafIndex := leafIndex note;
     rootAfter := freshRoot; siblings := freshSiblings; depositTx := depositTx note;
     createdAt := createdAt note; status := status note; spentTx := spentTx note;
     spentAt := spentAt note |}.

(** [prepareWithdrawalForProtocol(connection, note, recipient, protocol, onProgress)]. *)
Definition prepareWithdrawalForProtocol (note : Note) (recipient protocol : PublicKey)
  : Run ProtocolSubmissionData :=
  poolConfig ← lift (getPoolConfig (poolId note));
  let denomination := denominationLamports poolConfig in
  maxFeeBps ← call (FeeRead (statePda poolConfig)) (getOnChainMaxFeeBps (statePda poolConfig));
  fee ← lift (calculateFeeFromBps denomination maxFeeBps);
  _ ← emit (OnProgress "Checking if root is in on-chain ring buffer...");
  let '(reads, rootResult) :=
    isAcceptedRoot newPublicKey getAccountInfo getMultipleAccountsInfo poolConfig
      (rootAfter note) in
  _ ← ((map ChainRead reads, Ok tt) : Run unit);
  fresh ← (if found rootResult
           then
             _ ← emit (OnProgress "Root found in on-chain ring buffer");
             mret (rootAfter note, siblings note)
           else
             _ ← emit (OnProgress "Root aged out, fetching fresh path from daemon...");
             daemonPath ← call (DaemonCall (poolId note) (commitment note))
                               (getMerklePath (poolId note) (commitment note));
             mret (mp_root daemonPath, mp_pathElements daemonPath));
  let '(freshRoot, freshSiblings) := fresh in
  _ ← emit (OnProgress "Building witness...");
  let refreshedNote := refreshed note freshRoot freshSiblings in
  let '(console, built) := buildWithdrawWitness poseidon refreshedNote recipient protocol fee 0 in
  witness ← ((map ConsoleError console, built) : Run WithdrawWitness);
  _ ← emit (OnProgress "Generating ZK proof...");
  generated ← generateProof witness;
  let proof := fst generated in
  nullifierHashBigInt ← lift (BigInt (w_nullifierHash witness));
  nullifierHashBytes ← lift (toBE32 nullifierHashBigInt);
  let rootHex := replace0x (chars freshRoot) in
  rootBigInt ← lift (match rootHex with
                     | [] => Ok 0
                     | _ => BigInt (of_chars ("0"%char :: "x"%char :: rootHex))
                     end);
  rootBytes ← lift (toBE32 rootBigInt);
  _ ← emit (OnProgress "Building instruction for protocol...");
  instruction ← lift (buildWithdrawInstruction getPoolConfig newPublicKey
                        findProgramAddressSync sha256 note recipient protocol fee proof
                        nullifierHashBytes rootBytes
                        (if found rootResult then Some rootResult else None));
  _ ← emit (OnProgress "Ready for protocol submission");
  mret {| psd_poolId := poolId note; psd_instruction := instruction; psd_note := note;
          psd_nullifierHashBytes := nullifierHashBytes; psd_rootBytes := rootBytes;
          psd_fee := fee |}.

End WithCollaborators.

(** The daemon is asked for a path. *)
Definition isDaemonCall (e : Event) : bool :=
  match e with DaemonCall _ _ => true | _ => false end.

(** The prover is run. *)
Definition isFullProve (e : Event) : bool :=
  match e with FullProve _ => true | _ => false end.

End Prepare.

(** ** Collaborators for the preparation examples *)

Module PrepareSamples.
Import Js Types.

(** A pool whose fee limit is 50 basis points, and the fee taken from it. *)
Definition maxFeeBps (statePda : string) : res Z := Ok 50.
Definition feeFromBps (denomination bps : Z) : res Z := Ok (denomination * bps / 10000).
Definition noFee (denomination bps : Z) : res Z := Ok 0.

(** A daemon that answers with another root, and one that is down. *)
Definition daemonRoot : string :=
  "0x2222222222222222222222222222222222222222222222222222222222222222".
Definition daemon (poolId commitment : string) : res Prepare.MerklePathResponse :=
  Ok {| Prepare.mp_root := daemonRoot; Prepare.mp_pathElements := ["0x03"; "0x04"]%string;
        Prepare.mp_pathIndices := []; Prepare.mp_leafIndex := 130 |}.
Definition daemonDown (poolId commitment : string) : res Prepare.MerklePathResponse :=
  Throw (Error "Daemon getMerklePath (recover) failed (500): down").

(** A prover that returns the sample proof. *)
Definition prover (w : Withdrawal.WithdrawWitness)
  : res (Serialization.SnarkjsProof * list string) :=
  Ok (Serialization.sample_proof, []).

(** Shards that do not hold the root. *)
Definition readEmptyShards (pks : list PublicKey) : res (list (option (list Z))) :=
  Ok [Some Samples.shardEmpty; Some Samples.shardEmpty].

(** Preparing the sample note against a chain whose state account is [st]
    and whose shards are read by [shards]. *)
Abbreviation prepare st shards getMerklePath :=
  (Prepare.prepareWithdrawalForProtocol Samples.poolTable maxFeeBps feeFromBps Samples.keyOf
     Samples.pdaOf Sha256.sha256 (Samples.readState st) shards getMerklePath
     prover Samples.hash Samples.note Samples.recipient Samples.protocol).

(** The witness built for the sample note from its own root and siblings. *)
Definition ownWitness : Withdrawal.WithdrawWitness := {|
  Withdrawal.w_nullifier := "1";
  Withdrawal.w_secret := "2";
  Withdrawal.w_pathElements := ["1"; "2"];
  Withdrawal.w_pathIndices := [0; 1; 0; 0; 0; 0; 0; 1; 0; 0; 0; 0; 0; 0; 0; 0; 0; 0; 0; 0];
  Withdrawal.w_root :=
    "7719472615821079694904732333912527190217998977709370935963838933860875309329";
  Withdrawal.w_nullifierHash :=
    "19321998414906712342737093331922571923461328494325615870852140381009276079041";
  Withdrawal.w_recipientHigh := "1334440654591915542993625911497130241";
  Withdrawal.w_recipientLow := "1334440654591915542993625911497130241";
  Withdrawal.w_protocolHigh := "2668881309183831085987251822994260482";
  Withdrawal.w_protocolLow := "2668881309183831085987251822994260482";
  Withdrawal.w_fee := "500000";
  Withdrawal.w_refund := "0";
|}.

End PrepareSamples.

(** ** resilient-connection.ts: what every state of the health map satisfies *)

Module Cooldowns.
Import Js Resilient.

(** No endpoint is disabled for longer than the cooldown from now. *)
Definition bounded (st : State) : Prop :=
  forall url health,
    endpointHealth st !! url = Some health -> disabledUntil health <= now st + COOLDOWN_MS.

(** The time an endpoint still has to wait, when it is in cooldown. *)
Definition remaining (st : State) (url : string) : option Z :=
  match endpointHealth st !! url with
  | Some health =>
      if disabledUntil health <=? now st then None else Some (disabledUntil health - now st)
  | None => None
  end.

End Cooldowns.

(** ** An endpoint for the retry examples *)

Module RetrySamples.
Import Js.

(** An endpoint whose first request, made before time 1500, fails with a
    network error, and which answers afterwards. *)
Definition flaky : Resilient.Env Z := {|
  Resilient.operation := fun url t =>
    if t <? 1500 then (inr (ErrorObj "fetch failed"), 40%nat) else (inl t, 40%nat);
  Resilient.jitter := fun _ => 0%nat;
  Resilient.admission := fun _ => 0%nat;
  Resilient.endpoints := ["A"]%string;
  Resilient.lag := fun _ _ => 0%nat;
|}.

(** The same endpoint on a machine where one millisecond passes before
    [getShortestCooldownMs] reads the clock. *)
Definition ticking : Resilient.Env Z := {|
  Resilient.operation := Resilient.operation flaky;
  Resilient.jitter := fun _ => 0%nat;
  Resilient.admission := fun _ => 0%nat;
  Resilient.endpoints := ["A"]%string;
  Resilient.lag := fun site _ =>
    match site with Resilient.CooldownRead => 1%nat | _ => 0%nat end;
|}.

End RetrySamples.

(** ** ws-confirmation.ts: how old the entries of the finalized-set are *)

Module FinalizedSet.
Import Js WsConfirm.

(** Every signature in the set has a deletion pending, and every pending
    deletion is due within the next five minutes. *)
Definition liveEntries (st : State) : Prop :=
  (forall s, s ∈ confirmedSignatures st -> exists due, (due, s) ∈ timers st) /\
  (forall tm, tm ∈ timers st -> now st < fst tm <= now st + TTL_MS).

End FinalizedSet.

(** ** http-confirm.ts: confirmation by polling, with a status instead of an exception *)

Module HttpConfirm.
Import Js WsConfirm.

Inductive Status : Type := status_confirmed | status_pending | status_failed.

Record ConfirmationResult : Type := {
  status : Status;
  message : option string;
}.

(** The module has a [confirmedSignatures] set of its own, of the same shape
    as the tracker's: the state is the clock, that set, the pending
    [setTimeout] deletions and the number of [executeWithRotation] calls. *)

(** [isAlreadyConfirmed(signature)]. *)
Definition isAlreadyConfirmed (signature : string) (st : State) : bool :=
  bool_decide (signature ∈ confirmedSignatures st).

(** [markConfirmed(signature)]: added, and deleted again after five minutes. *)
Definition markConfirmed (signature : string) (st : State) : State :=
  {| now := now st;
     confirmedSignatures := {[ signature ]} ∪ confirmedSignatures st;
     timers := timers st ++ [(now st + 5 * 60 * 1000, signature)];
     rpcCalls := rpcCalls st |}.

Definition RATE_LIMITED_MESSAGE : string :=
  "Transaction sent. Confirmation delayed due to rate limiting. Check explorer.".

Definition timeoutMessage (timeoutMs : Z) (signature : string) : string :=
  "Transaction confirmation timeout after " +:+ toString10 timeoutMs
  +:+ "ms. Check explorer: " +:+ signature.

(** [executeWithRotation] around [conn.confirmTransaction] and the check of
    [result.value.err], as [confirmWithFallback] sees it: it returns or throws,
    after some time. *)
Definition WsAttempt : Type := string -> Z -> (unit + thrown) * nat.

Section Polling.
Variable network : Network.
Variable wsAttempt : WsAttempt.

(** The [while] loop of [confirmViaHttpPolling], at most [fuel] iterations;
    [None] means the iterations ran out. *)
Fixpoint pollLoop (fuel : nat) (signature commitment : string) (timeoutMs startTime : Z)
    (consecutiveErrors : Z) (st : State) : State * option ConfirmationResult :=
  match fuel with
  | O => (st, None)
  | S fuel' =>
      let pollInterval := 3000 in
      let maxConsecutiveErrors := 3 in
      if now st - startTime <? timeoutMs then
        if isAlreadyConfirmed signature st
        then (st, Some {| status := status_confirmed;
                          message := Some "Confirmed by another path"%string |})
        else
          let '(r, d) := network signature (now st) in
          let st := advance (Z.of_nat d) (countCall st) in
          match r with
          | inl value =>
              let consecutiveErrors := 0 in
              match value with
              | Some value =>
                  match err value with
                  | Some json =>
                      (st, Some {| status := status_failed;
                                   message := Some ("Transaction failed: " +:+ json) |})
                  | None =>
                      if reachedCommitment commitment (confirmationStatus value)
                      then (markConfirmed signature st,
                            Some {| status := status_confirmed; message := None |})
                      else pollLoop fuel' signature commitment timeoutMs startTime
                             consecutiveErrors (advance pollInterval st)
                  end
              | None =>
                  pollLoop fuel' signature commitment timeoutMs startTime
                    consecutiveErrors (advance pollInterval st)
              end
          | inr pollError =>
              let consecutiveErrors := consecutiveErrors + 1 in
              if is429Error pollError then
                if maxConsecutiveErrors <=? consecutiveErrors
                then (st, Some {| status := status_pending;
                                  message := Some RATE_LIMITED_MESSAGE |})
                else pollLoop fuel' signature commitment timeoutMs startTime
                       consecutiveErrors (advance (pollInterval * 2) st)
              else pollLoop fuel' signature commitment timeoutMs startTime
                     consecutiveErrors (advance pollInterval st)
          end
      else (st, Some {| status := status_pending;
                        message := Some (timeoutMessage timeoutMs signature) |})
  end.

(** Every iteration that goes round again lets at least three seconds pass. *)
Definition pollFuel (timeoutMs : Z) : nat := S (Z.to_nat (timeoutMs / 3000 + 1)).

(** [confirmViaHttpPolling(signature, commitment, timeoutMs)]. *)
Definition confirmViaHttpPolling (signature commitment : string) (timeoutMs : Z)
    (st : State) : State * option ConfirmationResult :=
  if isAlreadyConfirmed signature st
  then (st, Some {| status := status_confirmed; message := Some "Already confirmed"%string |})
  else pollLoop (pollFuel timeoutMs) signature commitment timeoutMs (now st) 0 st.

(** [confirmWithFallback(_connection, signature, blockhash, lastValidBlockHeight,
    commitment)]. *)
Definition confirmWithFallback (signature commitment : string) (st : State)
  : State * option ConfirmationResult :=
  if isAlreadyConfirmed signature st
  then (st, Some {| status := status_confirmed; message := Some "Already confirmed"%string |})
  else
    let '(r, d) := wsAttempt signature (now st) in
    let st := advance (Z.of_nat d) (countCall st) in
    match r with
    | inl _ => (markConfirmed signature st,
                Some {| status := status_confirmed; message := None |})
    | inr wsError =>
        if isAlreadyConfirmed signature st
        then (st, Some {| status := status_confirmed;
                          message := Some "Confirmed by another path"%string |})
        else confirmViaHttpPolling signature commitment 60000 st
    end.

End Polling.

(** The chain reported the transaction at the commitment asked for, without
    an error, at a request made at time [t]. *)
Definition reportedConfirmed (network : Network) (signature commitment : string) (t : Z)
  : Prop :=
  exists value d,
    network signature t = (inl (Some value), d) /\ err value = None /\
    reachedCommitment commitment (confirmationStatus value) = true.

(** The chain reported the transaction failed with the error [json]. *)
Definition reportedFailed (network : Network) (signature : string) (t : Z) (json : string)
  : Prop :=
  exists value d, network signature t = (inl (Some value), d) /\ err value = Some json.

(** What a result of the polling says about the chain: confirmed only for a
    signature that is in the set afterwards, and, when it was the chain that
    said so, at the commitment asked for; failed only with the error the chain
    reported; pending with one of the two messages. *)
Definition verdictSound (network : Network) (signature commitment : string)
    (timeoutMs : Z) (st st' : State) (r : ConfirmationResult) : Prop :=
  match status r with
  | status_confirmed =>
      signature ∈ confirmedSignatures st' /\
      (message r = None ->
       exists t, now st <= t /\ reportedConfirmed network signature commitment t)
  | status_failed =>
      exists t json,
        now st <= t /\ reportedFailed network signature t json /\
        message r = Some ("Transaction failed: " +:+ json)%string
  | status_pending =>
      message r = Some RATE_LIMITED_MESSAGE \/
      message r = Some (timeoutMessage timeoutMs signature)
  end.

End HttpConfirm.

(** ** Networks for the polling examples *)

Module HttpSamples.
Import Js.

(** Every request is answered with HTTP 429 after 40 ms. *)
Definition limitedNetwork : WsConfirm.Network :=
  fun _ _ => (inr (ErrorObj "429 Too Many Requests"), 40%nat).

End HttpSamples.

(** ** A note for the batch examples *)

Module HandlerSamples.
Import Js Types.

(** The sample note as it was stored before deposits recorded the path: no
    siblings. *)
Definition noteWithoutPath : Note :=
  Prepare.refreshed Samples.note (rootAfter Samples.note) [].

End HandlerSamples.

(** ** deposit-event.ts: the DepositProofData event in the transaction logs *)

Module DepositEvent.
Import Js.

Record DepositEventData : Type := {
  ev_leafIndex : Z;
  ev_rootAfter : string;
  ev_siblings : list string;
  ev_positions : list Z;
}.

(** [s.split(sep)[1]]: what stands between the first and the second
    occurrence of the separator; [None] when there is no occurrence. *)
Fixpoint afterFirst (sep s : list ascii) : option (list ascii) :=
  if startsWith sep s then Some (drop (length sep) s)
  else match s with
       | [] => None
       | _ :: t => afterFirst sep t
       end.

Fixpoint beforeFirst (sep s : list ascii) : list ascii :=
  if startsWith sep s then []
  else match s with
       | [] => []
       | c :: t => c :: beforeFirst sep t
       end.

Definition secondPart (sep s : list ascii) : option (list ascii) :=
  beforeFirst sep <$> afterFirst sep s.

(** [a | (b << 8) | (c << 16) | (d << 24)] on bytes: the shifts and the
    [|] work on 32-bit signed integers. *)
Definition u32LE (a b c d : Z) : Z :=
  Z.lor (Z.lor (Z.lor a (Withdrawal.toInt32 (Z.shiftl b 8)))
               (Withdrawal.toInt32 (Z.shiftl c 16)))
        (Withdrawal.toInt32 (Z.shiftl d 24)).

(** ['0x' + Array.from(bytes).map(b => b.toString(16).padStart(2, '0')).join('')]. *)
Definition hex0x (bytes : list Z) : string := of_chars (Withdrawal.bytesToHex0x bytes).

Section WithPlatform.
(** The platform's [atob], from the base64 text to the bytes of the binary
    string it returns; it throws on text that is not base64. *)
Variable atob : string -> res (list Z).

(** The body of the loop for one log line: the event, or [None] when the
    loop goes on to the next line. *)
Definition parseLog (log : string) : option DepositEventData :=
  if includes (chars "Program data:") (chars log) then
    match secondPart (chars "Program data: ") (chars log) with
    | None => None
    | Some base64 =>
        match atob (of_chars base64) with
        | Throw _ => None
        | Ok data =>
            let expectedSize := (8 + 4 + 32 + 640 + 20)%nat in
            if (length data <? expectedSize)%nat then None
            else
              let offset := 8%nat in
              let leafIndex :=
                u32LE (nth offset data 0) (nth (offset + 1) data 0)
                      (nth (offset + 2) data 0) (nth (offset + 3) data 0) in
              let offset := (offset + 4)%nat in
              let rootAfterBytes := slice offset (offset + 32) data in
              let rootAfter := hex0x rootAfterBytes in
              let offset := (offset + 32)%nat in
              let siblings :=
                map (fun i => hex0x (slice (offset + 32 * i) (offset + 32 * i + 32) data))
                    (seq 0 20) in
              let offset := (offset + 32 * 20)%nat in
              let positions := map (fun i => nth (offset + i) data 0) (seq 0 20) in
              Some {| ev_leafIndex := leafIndex; ev_rootAfter := rootAfter;
                      ev_siblings := siblings; ev_positions := positions |}
        end
    end
  else None.

(** [parseDepositEventFromLogs(logs)]: the first line that holds an event. *)
Fixpoint parseDepositEventFromLogs (logs : list string) : option DepositEventData :=
  match logs with
  | [] => None
  | log :: rest =>
      match parseLog log with
      | Some ev => Some ev
      | None => parseDepositEventFromLogs rest
      end
  end.

End WithPlatform.

End DepositEvent.

(** ** A deposit event for the examples *)

Module DepositSamples.
Import Js.

(** An event for leaf 130 whose root and siblings are all the sample root. *)
Definition payload : list Z :=
  replicate 8 9 ++ [130; 0; 0; 0] ++ Samples.root
  ++ concat (replicate 20 Samples.root) ++ replicate 20 1.

(** A stand-in for [atob] that knows one text. *)
Definition decode (base64 : string) : res (list Z) :=
  if bool_decide (base64 = "EVENT"%string) then Ok payload else Throw (Error "InvalidCharacterError").

Definition logs : list string :=
  ["Program log: Instruction: Deposit"; "Program data: EVENT"; "Program log: done"]%string.

End DepositSamples.

(** ** network-config.ts: the network of a host and its endpoints *)

Module NetworkConfig.
Import Js.

Inductive NetworkId : Type := devnet | testnet | mainnet_beta | localnet.

#[export] Instance NetworkId_eq_dec : EqDecision NetworkId.
Proof. solve_decision. Defined.

(** The string a [NetworkId] is. *)
Definition networkName (network : NetworkId) : string :=
  match network with
  | devnet => "devnet"
  | testnet => "testnet"
  | mainnet_beta => "mainnet-beta"
  | localnet => "localnet"
  end.

Record NetworkEndpoints : Type := {
  rpc : list string;
  publicRpc : string;
  ws : list string;
  protocol : string;
}.

Definition NETWORK_ENDPOINTS (network : NetworkId) : NetworkEndpoints :=
  match network with
  | devnet =>
      {| rpc := ["https://api.devnet.solana.com"];
         publicRpc := "https://api.devnet.solana.com";
         ws := ["wss://api.devnet.solana.com"];
         protocol := "" |}
  | testnet =>
      {| rpc := ["https://api.testnet.solana.com"];
         publicRpc := "https://api.testnet.solana.com";
         ws := ["wss://api.testnet.solana.com"];
         protocol := "" |}
  | mainnet_beta =>
      {| rpc := ["https://api.mainnet-beta.solana.com"];
         publicRpc := "https://api.mainnet-beta.solana.com";
         ws := ["wss://api.mainnet-beta.solana.com"];
         protocol := "" |}
  | localnet =>
      {| rpc := ["http://localhost:8899"];
         publicRpc := "http://localhost:8899";
         ws := ["ws://localhost:8900"];
         protocol := "http://localhost:8789" |}
  end.

(** The variables of [process.env] the modules read; [None] is [undefined]. *)
Record Env : Type := {
  NEXT_PUBLIC_NETWORK : option string;
  NEXT_PUBLIC_RPC_PRIMARY_DEVNET : option string;
  NEXT_PUBLIC_RPC_PRIMARY_TESTNET : option string;
  NEXT_PUBLIC_RPC_PRIMARY_MAINNET : option string;
  NEXT_PUBLIC_PROTOCOL_URL_DEVNET : option string;
  NEXT_PUBLIC_PROTOCOL_URL_TESTNET : option string;
  NEXT_PUBLIC_PROTOCOL_URL_MAINNET : option string;
}.

(** Whether a string that may be [undefined] is truthy: defined and not empty. *)
Definition truthy (v : option string) : bool :=
  match v with
  | Some s => negb (bool_decide (s = ""%string))
  | None => false
  end.

(** [['devnet', 'testnet', 'mainnet-beta', 'localnet'].includes(network)],
    with the network it names. *)
Definition isValidNetwork (network : string) : option NetworkId :=
  if bool_decide (network = "devnet"%string) then Some devnet
  else if bool_decide (network = "testnet"%string) then Some testnet
  else if bool_decide (network = "mainnet-beta"%string) then Some mainnet_beta
  else if bool_decide (network = "localnet"%string) then Some localnet
  else None.

(** [detectNetworkFromHostname()]. [window] is [None] on the server and the
    host name of the page in the browser. *)
Definition detectNetworkFromHostname (window : option string) (env : Env) : NetworkId :=
  match window with
  | None =>
      match NEXT_PUBLIC_NETWORK env with
      | Some envNetwork =>
          if truthy (Some envNetwork) then default devnet (isValidNetwork envNetwork)
          else devnet
      | None => devnet
      end
  | Some hostname =>
      if startsWith (chars "devnet") (chars hostname) then devnet
      else if startsWith (chars "testnet") (chars hostname) then testnet
      else if bool_decide (hostname = "zerok.app"%string)
              || bool_decide (hostname = "www.zerok.app"%string) then devnet
      else if bool_decide (hostname = "localhost"%string)
              || bool_decide (hostname = "127.0.0.1"%string) then localnet
      else devnet
  end.

(** [s.toUpperCase()] on the ASCII letters. *)
Definition upperChar (c : ascii) : ascii :=
  let n := nat_of_ascii c in
  if ((97 <=? n) && (n <=? 122))%nat then ascii_of_nat (n - 32) else c.
Definition toUpperCase (s : list ascii) : list ascii := map upperChar s.

(** [s.replace(pattern, replacement)] for a text pattern: the first
    occurrence only. *)
Fixpoint replaceFirst (pattern replacement s : list ascii) : list ascii :=
  if startsWith pattern s then replacement ++ drop (length pattern) s
  else match s with
       | [] => []
       | c :: t => c :: replaceFirst pattern replacement t
       end.

(** [getNetworkEnvVar(prefix, network)]. *)
Definition getNetworkEnvVar (prefix : string) (network : NetworkId) (env : Env)
  : option string :=
  let suffix :=
    of_chars (replaceFirst (chars "-") (chars "_") (toUpperCase (chars (networkName network)))) in
  let varName := (prefix +:+ "_" +:+ suffix)%string in
  if bool_decide (varName = "NEXT_PUBLIC_RPC_PRIMARY_DEVNET"%string)
  then NEXT_PUBLIC_RPC_PRIMARY_DEVNET env
  else if bool_decide (varName = "NEXT_PUBLIC_RPC_PRIMARY_TESTNET"%string)
  then NEXT_PUBLIC_RPC_PRIMARY_TESTNET env
  else if bool_decide (varName = "NEXT_PUBLIC_RPC_PRIMARY_MAINNET_BETA"%string)
  then NEXT_PUBLIC_RPC_PRIMARY_MAINNET env
  else None.

(** [[...new Set(l)]]: every string once, where it first stands. *)
Fixpoint dedupFrom (seen l : list string) : list string :=
  match l with
  | [] => []
  | x :: t =>
      if bool_decide (x ∈ seen) then dedupFrom seen t else x :: dedupFrom (x :: seen) t
  end.
Definition dedup (l : list string) : list string := dedupFrom [] l.

(** [getRpcEndpoints()]. *)
Definition getRpcEndpoints (window : option string) (env : Env) : list string :=
  let network := detectNetworkFromHostname window env in
  let config := NETWORK_ENDPOINTS network in
  let envPrimary := getNetworkEnvVar "NEXT_PUBLIC_RPC_PRIMARY" network env in
  let endpoints := [] in
  let endpoints :=
    if truthy envPrimary then endpoints ++ [default ""%string envPrimary] else endpoints in
  let endpoints := endpoints ++ rpc config in
  dedup endpoints.

(** [getPublicRpcEndpoint()]. *)
Definition getPublicRpcEndpoint (window : option string) (env : Env) : string :=
  publicRpc (NETWORK_ENDPOINTS (detectNetworkFromHostname window env)).

(** [getWsEndpoints()]. *)
Definition getWsEndpoints (window : option string) (env : Env) : list string :=
  let network := detectNetworkFromHostname window env in
  let config := NETWORK_ENDPOINTS network in
  let rpcEndpoints := getRpcEndpoints window env in
  let wsEndpoints := [] in
  let wsEndpoints :=
    match rpcEndpoints !! 0%nat with
    | Some primaryRpc =>
        if truthy (Some primaryRpc) then
          let primaryWs :=
            replaceFirst (chars "http://") (chars "ws://")
              (replaceFirst (chars "https://") (chars "wss://") (chars primaryRpc)) in
          wsEndpoints ++ [of_chars primaryWs]
        else wsEndpoints
    | None => wsEndpoints
    end in
  let wsEndpoints := wsEndpoints ++ ws config in
  dedup wsEndpoints.

(** [getProtocolEndpoint()] of network-config.ts. *)
Definition getProtocolEndpoint (window : option string) (env : Env) : res string :=
  let network := detectNetworkFromHostname window env in
  let endpoint := protocol (NETWORK_ENDPOINTS network) in
  if negb (truthy (Some endpoint))
  then Throw (Error ("No protocol service endpoint configured for network: "
                     +:+ networkName network))
  else Ok endpoint.

End NetworkConfig.

(** ** protocol-client.ts: the relay's address *)

Module ProtocolClient.
Import Js NetworkConfig.

Definition PROTOCOL_ENDPOINTS (network : NetworkId) : string :=
  match network with
  | devnet => ""
  | testnet => ""
  | mainnet_beta => ""
  | localnet => "http://localhost:8789"
  end.

(** [getProtocolEndpoint()] of protocol-client.ts. *)
Definition getProtocolEndpoint (window : option string) (env : Env) : res string :=
  let network := detectNetworkFromHostname window env in
  if bool_decide (network = devnet) && truthy (NEXT_PUBLIC_PROTOCOL_URL_DEVNET env)
  then Ok (default ""%string (NEXT_PUBLIC_PROTOCOL_URL_DEVNET env))
  else if bool_decide (network = testnet) && truthy (NEXT_PUBLIC_PROTOCOL_URL_TESTNET env)
  then Ok (default ""%string (NEXT_PUBLIC_PROTOCOL_URL_TESTNET env))
  else if bool_decide (network = mainnet_beta) && truthy (NEXT_PUBLIC_PROTOCOL_URL_MAINNET env)
  then Ok (default ""%string (NEXT_PUBLIC_PROTOCOL_URL_MAINNET env))
  else
    let endpoint := PROTOCOL_ENDPOINTS network in
    if negb (truthy (Some endpoint))
    then Throw (Error ("No protocol service endpoint configured for network: "
                       +:+ networkName network))
    else Ok endpoint.

End ProtocolClient.

(** ** ws-connection.ts: one connection, rotated over the endpoints *)

Module WsConnection.
Import Js NetworkConfig.

(** A [Connection] is the two addresses it was made with. *)
Record Connection : Type := {
  c_http : string;
  c_ws : string;
}.

(** [httpEndpoint] is [None] when the code has stored [undefined] there. *)
Record WsConnectionState : Type := {
  connection : option Connection;
  wsEndpoint : string;
  httpEndpoint : option string;
  endpointIndex : nat;
  isConnecting : bool;
  lastError : option thrown;
}.

Definition initial : WsConnectionState :=
  {| connection := None; wsEndpoint := ""; httpEndpoint := Some ""%string;
     endpointIndex := 0; isConnecting := false; lastError := None |}.

Section OnHost.
Variable window : option string.
Variable env : Env.
(** web3.js' [new Connection(endpoint, { commitment, wsEndpoint })], given
    what [httpEndpoints[i]] is ([None] for [undefined]). *)
Variable newConnection : option string -> string -> res Connection.

(** [getWsConnection(commitment)]. *)
Definition getWsConnection (state : WsConnectionState) : WsConnectionState * res Connection :=
  let wsEndpoints := getWsEndpoints window env in
  let httpEndpoints := getRpcEndpoints window env in
  match connection state with
  | Some c => (state, Ok c)
  | None =>
      match wsEndpoints !! endpointIndex state with
      | None => (state, Throw TypeError)
      | Some wsEndpoint =>
          let httpEndpoint := httpEndpoints !! endpointIndex state in
          match newConnection httpEndpoint wsEndpoint with
          | Throw e => (state, Throw e)
          | Ok c =>
              ({| connection := Some c; wsEndpoint := wsEndpoint;
                  httpEndpoint := httpEndpoint;
                  endpointIndex := endpointIndex state;
                  isConnecting := isConnecting state; lastError := lastError state |},
               Ok c)
          end
      end
  end.

(** [rotateWsEndpoint()]. *)
Definition rotateWsEndpoint (state : WsConnectionState) : WsConnectionState * bool :=
  let wsEndpoints := getWsEndpoints window env in
  let state :=
    {| connection := None; wsEndpoint := wsEndpoint state;
       httpEndpoint := httpEndpoint state;
       endpointIndex := (endpointIndex state + 1) mod length wsEndpoints;
       isConnecting := isConnecting state; lastError := lastError state |} in
  if (endpointIndex state =? 0)%nat then (state, false) else (state, true).

(** [resetWsConnection()]. *)
Definition resetWsConnection (state : WsConnectionState) : WsConnectionState :=
  {| connection := None; wsEndpoint := wsEndpoint state;
     httpEndpoint := httpEndpoint state; endpointIndex := 0;
     isConnecting := isConnecting state; lastError := None |}.

End OnHost.

End WsConnection.

(** ** An environment for the endpoint examples *)

Module NetworkSamples.
Import NetworkConfig.

(** Nothing is configured. *)
Definition noEnv : Env :=
  {| NEXT_PUBLIC_NETWORK := None;
     NEXT_PUBLIC_RPC_PRIMARY_DEVNET := None;
     NEXT_PUBLIC_RPC_PRIMARY_TESTNET := None;
     NEXT_PUBLIC_RPC_PRIMARY_MAINNET := None;
     NEXT_PUBLIC_PROTOCOL_URL_DEVNET := None;
     NEXT_PUBLIC_PROTOCOL_URL_TESTNET := None;
     NEXT_PUBLIC_PROTOCOL_URL_MAINNET := None |}.

End NetworkSamples.

(** * Properties *)

Import Js Types.

(** ** Characters, digits and byte encodings *)

Section JsFacts.

Lemma digit_cases (d : Z) :
  0 <= d < 16 ->
  d = 0 \/ d = 1 \/ d = 2 \/ d = 3 \/ d = 4 \/ d = 5 \/ d = 6 \/ d = 7 \/
  d = 8 \/ d = 9 \/ d = 10 \/ d = 11 \/ d = 12 \/ d = 13 \/ d = 14 \/ d = 15.
Proof. lia. Qed.

Ltac each_digit d H :=
  let C := fresh "C" in
  pose proof (digit_cases d H) as C;
  repeat (destruct C as [-> | C]); [ .. | subst d ].

Lemma digitVal_digitChar (d : Z) : 0 <= d < 16 -> digitVal (digitChar d) = Some d.
Proof. intros H. each_digit d H; reflexivity. Qed.

(** Two hex digit characters read back as one byte. *)
Lemma parseInt16_pair (d1 d2 : Z) :
  0 <= d1 < 16 -> 0 <= d2 < 16 ->
  parseInt16 [digitChar d1; digitChar d2] = Some (16 * d1 + d2).
Proof.
  intros H1 H2. each_digit d1 H1; each_digit d2 H2; reflexivity.
Qed.

Lemma hexDigitAt_range (n : nat) (x : Z) (j : nat) : 0 <= hexDigitAt n x j < 16.
Proof. unfold hexDigitAt. apply Z.mod_pos_bound. lia. Qed.

Lemma pow16_pos (k : nat) : 0 < 16 ^ Z.of_nat k.
Proof. apply Z.pow_pos_nonneg; lia. Qed.

(** A non-negative value is below [16 ^ hexLen]. *)
Lemma below_hexLen (x : Z) : 0 <= x -> x < 16 ^ Z.of_nat (hexLen x).
Proof.
  intros Hx. unfold hexLen.
  destruct (Z.eq_dec x 0) as [-> | Hne]; [reflexivity |].
  assert (Hpos : 0 < x) by lia.
  pose proof (Z.log2_spec x Hpos) as [_ Hlt].
  pose proof (Z.log2_nonneg x) as Hl.
  set (l := Z.log2 x) in *.
  assert (Hq : 0 <= l / 4) by (apply Z.div_pos; lia).
  rewrite Nat2Z.inj_succ, Z2Nat.id by lia.
  replace 16 with (2 ^ 4) by reflexivity.
  rewrite <- Z.pow_mul_r by lia.
  eapply Z.lt_le_trans; [exact Hlt |].
  apply Z.pow_le_mono_r; [lia |].
  pose proof (Z.mul_succ_div_gt l 4). lia.
Qed.

Lemma hexLen_le (x : Z) (n : nat) : 0 <= x < 16 ^ Z.of_nat n -> (0 < n)%nat -> (hexLen x <= n)%nat.
Proof.
  intros [Hx Hlt] Hn. unfold hexLen.
  destruct (Z.eq_dec x 0) as [-> | Hne];
    [change (S (Z.to_nat (Z.log2 0 / 4))) with 1%nat; lia |].
  assert (Hpos : 0 < x) by lia.
  pose proof (Z.log2_spec x Hpos) as [Hle _].
  pose proof (Z.log2_nonneg x) as Hl.
  set (l := Z.log2 x) in *.
  assert (Hlog : l < 4 * Z.of_nat n).
  { apply (Z.pow_lt_mono_r_iff 2); [lia | lia |].
    rewrite Z.pow_mul_r by lia. change (2 ^ 4) with 16. lia. }
  assert (l / 4 < Z.of_nat n) by (apply Z.div_lt_upper_bound; lia).
  assert (0 <= l / 4) by (apply Z.div_pos; lia).
  lia.
Qed.

Lemma length_toString16_nonneg (x : Z) : 0 <= x -> length (toString16 x) = hexLen x.
Proof.
  intros Hx. unfold toString16.
  rewrite Z.abs_eq by lia.
  destruct (x <? 0) eqn:E; [apply Z.ltb_lt in E; lia |].
  by rewrite length_map, length_seq.
Qed.

(** The hex string of a value below [16^n], padded to [n] characters, is the
    [n] hex digits of the value, most significant first. *)
Lemma padStart_toString16 (n : nat) (x : Z) :
  0 <= x < 16 ^ Z.of_nat n -> (0 < n)%nat ->
  padStart n "0"%char (toString16 x)
  = map (fun j => digitChar (hexDigitAt n x j)) (seq 0 n).
Proof.
  intros Hx Hn.
  pose proof (hexLen_le x n Hx Hn) as Hk.
  pose proof (below_hexLen x (proj1 Hx)) as Hbelow.
  unfold padStart. rewrite length_toString16_nonneg by lia.
  unfold toString16. rewrite Z.abs_eq by lia.
  destruct (x <? 0) eqn:E; [apply Z.ltb_lt in E; lia |].
  set (k := hexLen x) in *.
  apply list_eq. intros i.
  destruct (decide (i < n - k)%nat) as [Hi | Hi].
  - rewrite lookup_app_l by (rewrite length_replicate; lia).
    rewrite lookup_replicate_2 by lia.
    rewrite list_lookup_fmap, lookup_seq_lt by lia. simpl.
    f_equal. unfold hexDigitAt.
    rewrite Z.div_small; [reflexivity |].
    split; [lia |].
    eapply Z.lt_le_trans; [exact Hbelow |].
    apply Z.pow_le_mono_r; lia.
  - rewrite lookup_app_r by (rewrite length_replicate; lia).
    rewrite length_replicate.
    rewrite !list_lookup_fmap.
    destruct (decide (i < n)%nat) as [Hin | Hin].
    + rewrite !lookup_seq_lt by lia. simpl.
      unfold hexDigitAt. do 5 f_equal. lia.
    + rewrite !lookup_seq_ge by lia. reflexivity.
Qed.

Lemma length_beBytes (n : nat) (x : Z) : length (beBytes n x) = n.
Proof. unfold beBytes. by rewrite length_map, length_seq. Qed.

Lemma beBytes_range (n : nat) (x : Z) : Forall (fun b => 0 <= b < 256) (beBytes n x).
Proof.
  unfold beBytes. apply Forall_fmap, Forall_forall. intros i _. simpl.
  apply Z.mod_pos_bound. lia.
Qed.

Lemma beBytes_S (n : nat) (x : Z) : beBytes (S n) x = beBytes n (x / 256) ++ [x mod 256].
Proof.
  unfold beBytes. rewrite seq_S, map_app. simpl. f_equal.
  - apply map_ext_in. intros i Hi. apply in_seq in Hi.
    replace (n - 0 - i)%nat with (S (n - 1 - i)) by lia.
    rewrite Nat2Z.inj_succ, Z.pow_succ_r by lia.
    rewrite Z.div_div by (try apply Z.pow_pos_nonneg; lia).
    reflexivity.
  - replace (n - 0 - n)%nat with 0%nat by lia. simpl.
    by rewrite Z.div_1_r.
Qed.

Lemma valueBE_snoc (base : Z) (ds : list Z) (d : Z) :
  valueBE base (ds ++ [d]) = valueBE base ds * base + d.
Proof. unfold valueBE. by rewrite fold_left_app. Qed.

(** Decoding the big-endian bytes gives the value back, modulo [256^n]. *)
Lemma bytesBE_beBytes (n : nat) (x : Z) : bytesBE (beBytes n x) = x mod 256 ^ Z.of_nat n.
Proof.
  revert x. induction n as [| n IH]; intros x.
  - simpl. by rewrite Z.mod_1_r.
  - rewrite beBytes_S. unfold bytesBE in *. rewrite valueBE_snoc, IH.
    rewrite Nat2Z.inj_succ, Z.pow_succ_r by lia.
    rewrite Z.rem_mul_r by (try apply Z.pow_pos_nonneg; lia).
    lia.
Qed.

End JsFacts.

(** ** Serialization: [toBE32] and [serializeProof] *)

Section SerializationFacts.
Import Serialization.

Lemma hexDigit_pair (x : Z) (i : nat) :
  (i < 32)%nat ->
  16 * hexDigitAt 64 x (i * 2) + hexDigitAt 64 x (i * 2 + 1)
  = (x / 256 ^ Z.of_nat (32 - 1 - i)) mod 256.
Proof.
  intros Hi. unfold hexDigitAt.
  set (e := (64 - 1 - (i * 2 + 1))%nat).
  replace (64 - 1 - i * 2)%nat with (S e) by lia.
  replace (256 ^ Z.of_nat (32 - 1 - i)) with (16 ^ Z.of_nat e).
  2:{ replace (Z.of_nat e) with (2 * Z.of_nat (32 - 1 - i)) by lia.
      rewrite Z.pow_mul_r by lia. reflexivity. }
  rewrite Nat2Z.inj_succ, Z.pow_succ_r by lia.
  pose proof (pow16_pos e) as Hp.
  rewrite (Z.mul_comm 16 (16 ^ Z.of_nat e)), <- Z.div_div by lia.
  set (y := x / 16 ^ Z.of_nat e).
  change 256 with (16 * 16).
  rewrite (Z.rem_mul_r y 16 16) by lia. lia.
Qed.

(** Read back in pairs, the 64 hex digits of a value are its 32 big-endian bytes. *)
Lemma hexToBytes32_digits (x : Z) :
  hexToBytes32 (map (fun j => digitChar (hexDigitAt 64 x j)) (seq 0 64)) = beBytes 32 x.
Proof.
  unfold hexToBytes32, beBytes.
  apply map_ext_in. intros i Hi. apply in_seq in Hi.
  unfold slice.
  rewrite <- fmap_drop, <- fmap_take, drop_seq, take_seq.
  replace (i * 2 + 2 - i * 2)%nat with 2%nat by lia.
  replace (2 `min` (64 - i * 2))%nat with 2%nat by lia.
  cbn [seq fmap list_fmap].
  rewrite parseInt16_pair by apply hexDigitAt_range.
  cbn [toUint8].
  replace (0 + i * 2)%nat with (i * 2)%nat by lia.
  replace (S (i * 2)) with (i * 2 + 1)%nat by lia.
  rewrite hexDigit_pair by lia.
  apply Z.mod_mod. lia.
Qed.

Lemma BN254_P_below : BN254_P < 16 ^ Z.of_nat 64.
Proof. reflexivity. Qed.

(** [toBE32] on a field element: its 32-byte big-endian encoding. *)
Lemma toBE32_spec (x : Z) : 0 <= x < BN254_P -> toBE32 x = Ok (beBytes 32 x).
Proof.
  intros [Hx Hlt]. unfold toBE32.
  destruct (BN254_P <=? x) eqn:E; [apply Z.leb_le in E; lia |].
  pose proof BN254_P_below as HP.
  assert (Hr : 0 <= x < 16 ^ Z.of_nat 64) by lia.
  rewrite length_toString16_nonneg by lia.
  pose proof (hexLen_le x 64 Hr ltac:(lia)) as Hk.
  destruct (64 <? hexLen x)%nat eqn:E2; [apply Nat.ltb_lt in E2; lia |].
  rewrite padStart_toString16 by (try lia; exact Hr).
  by rewrite hexToBytes32_digits.
Qed.

(** At or above the prime, [toBE32] throws. *)
Lemma toBE32_overflow (x : Z) : BN254_P <= x -> is_ok (toBE32 x) = false.
Proof.
  intros H. unfold toBE32.
  destruct (BN254_P <=? x) eqn:E; [reflexivity | apply Z.leb_gt in E; lia].
Qed.

(** Writing into the zeroed tail of an array. *)
Lemma u8_set_tail (pre src : list Z) (n : nat) :
  (length src <= n)%nat ->
  u8_set (pre ++ replicate n 0) src (length pre)
  = Ok (pre ++ src ++ replicate (n - length src) 0).
Proof.
  intros Hn. unfold u8_set.
  rewrite length_app, length_replicate.
  destruct (length pre + length src <=? length pre + n)%nat eqn:E;
    [| apply Nat.leb_gt in E; lia].
  rewrite take_app_length.
  rewrite drop_app_add, drop_replicate. reflexivity.
Qed.

Lemma u8_fill2 (n : nat) (a b : list Z) :
  length a = n -> length b = n ->
  (t ← u8_set (u8_new (n + n)) a 0; u8_set t b n) = Ok (a ++ b).
Proof.
  intros Ha Hb. unfold u8_new.
  pose proof (u8_set_tail [] a (n + n)) as H1. simpl in H1.
  rewrite H1 by lia. cbn [mbind res_bind].
  rewrite Ha. replace (n + n - n)%nat with n by lia.
  pose proof (u8_set_tail a b n) as H2. rewrite Ha in H2.
  rewrite H2 by lia. rewrite Hb, Nat.sub_diag. simpl.
  by rewrite app_nil_r.
Qed.

(** The double modulo of [serializeProof] is the negation modulo the prime,
    whatever the sign of the intermediate difference. *)
Lemma double_modulo (p a : Z) :
  0 < p -> Z.rem (Z.rem (p - a) p + p) p = (- a) mod p.
Proof.
  intros Hp.
  pose proof (Z.quot_rem' (p - a) p) as Hq.
  assert (Hb : - p < Z.rem (p - a) p < p).
  { pose proof (Z.rem_bound_abs (p - a) p ltac:(lia)). lia. }
  rewrite Z.rem_mod_nonneg by lia.
  replace (Z.rem (p - a) p + p) with (- a + (2 - (p - a) ÷ p) * p) by lia.
  apply Z_mod_plus_full.
Qed.

Lemma neg_inField (a : Z) : inField ((- a) mod BN254_P).
Proof. apply Z.mod_pos_bound. reflexivity. Qed.

(** C3. For every proof whose coordinates are in range, [serializeProof]
    returns exactly 256 bytes: the 64 bytes of A, the 128 bytes of B and the 64
    bytes of C in that order, each coordinate as 32 big-endian bytes; A's second
    coordinate is replaced by its negation modulo the prime, which is what the
    double modulo computes; and B's pairs are written high limb first. *)
Theorem serializeProof_layout (proof : SnarkjsProof) (c : Coordinates) :
  hasCoordinates proof c -> inRange c ->
  let negY := Z.rem (Z.rem (BN254_P - ay c) BN254_P + BN254_P) BN254_P in
  let A := beBytes 32 (ax c) ++ beBytes 32 negY in
  let B := (beBytes 32 (bx1 c) ++ beBytes 32 (bx0 c))
           ++ (beBytes 32 (by1 c) ++ beBytes 32 (by0 c)) in
  let C := beBytes 32 (cx c) ++ beBytes 32 (cy c) in
  serializeProof proof = Ok (A ++ B ++ C) /\
  length (A ++ B ++ C) = 256%nat /\
  length A = 64%nat /\ length B = 128%nat /\ length C = 64%nat /\
  negY = (- ay c) mod BN254_P.
Proof.
  intros (Hax & Hay & (bx & by_ & Hbx & Hby & Hbx0 & Hbx1 & Hby0 & Hby1) & Hcx & Hcy)
         (Rax & Ray & Rbx0 & Rbx1 & Rby0 & Rby1 & Rcx & Rcy).
  cbn zeta.
  assert (HnegY : Z.rem (Z.rem (BN254_P - ay c) BN254_P + BN254_P) BN254_P
                  = (- ay c) mod BN254_P) by (apply double_modulo; reflexivity).
  rewrite !length_app, !length_beBytes.
  repeat split; try reflexivity; try exact HnegY.
  unfold serializeProof.
  rewrite Hax, Hay, Hbx, Hby. cbn [mbind res_bind].
  rewrite HnegY.
  rewrite (toBE32_spec (ax c)) by exact Rax. cbn [mbind res_bind].
  pose proof (u8_set_tail [] (beBytes 32 (ax c)) 64) as S1.
  rewrite length_beBytes in S1. cbn [app length] in S1.
  unfold u8_new. rewrite S1 by lia. cbn [mbind res_bind].
  rewrite (toBE32_spec _ (neg_inField (ay c))). cbn [mbind res_bind].
  pose proof (u8_set_tail (beBytes 32 (ax c)) (beBytes 32 ((- ay c) mod BN254_P)) 32) as S2.
  rewrite !length_beBytes in S2.
  replace (64 - 32)%nat with 32%nat by lia.
  rewrite S2 by lia. cbn [mbind res_bind].
  rewrite Hbx1, Hbx0, Hby1, Hby0, Hcx, Hcy. cbn [mbind res_bind].
  rewrite (toBE32_spec (bx1 c)) by exact Rbx1. cbn [mbind res_bind].
  pose proof (u8_set_tail [] (beBytes 32 (bx1 c)) 128) as S3.
  rewrite length_beBytes in S3. cbn [app length] in S3.
  rewrite S3 by lia. cbn [mbind res_bind].
  rewrite (toBE32_spec (bx0 c)) by exact Rbx0. cbn [mbind res_bind].
  pose proof (u8_set_tail (beBytes 32 (bx1 c)) (beBytes 32 (bx0 c)) 96) as S4.
  rewrite !length_beBytes in S4.
  replace (128 - 32)%nat with 96%nat by lia.
  rewrite S4 by lia. cbn [mbind res_bind].
  rewrite (toBE32_spec (by1 c)) by exact Rby1. cbn [mbind res_bind].
  pose proof (u8_set_tail (beBytes 32 (bx1 c) ++ beBytes 32 (bx0 c)) (beBytes 32 (by1 c)) 64)
    as S5.
  rewrite !length_app, !length_beBytes in S5. rewrite <- !app_assoc in S5.
  replace (96 - 32)%nat with 64%nat by lia.
  change (32 + 32)%nat with 64%nat in S5.
  rewrite S5 by lia. cbn [mbind res_bind].
  rewrite (toBE32_spec (by0 c)) by exact Rby0. cbn [mbind res_bind].
  pose proof (u8_set_tail (beBytes 32 (bx1 c) ++ beBytes 32 (bx0 c) ++ beBytes 32 (by1 c))
                (beBytes 32 (by0 c)) 32) as S6.
  rewrite !length_app, !length_beBytes in S6. rewrite <- !app_assoc in S6.
  replace (64 - 32)%nat with 32%nat by lia.
  change (32 + (32 + 32))%nat with 96%nat in S6.
  rewrite S6 by lia. cbn [mbind res_bind].
  rewrite (toBE32_spec (cx c)) by exact Rcx. cbn [mbind res_bind].
  pose proof (u8_set_tail [] (beBytes 32 (cx c)) 64) as S7.
  rewrite length_beBytes in S7. cbn [app length] in S7.
  rewrite S7 by lia. cbn [mbind res_bind].
  rewrite (toBE32_spec (cy c)) by exact Rcy. cbn [mbind res_bind].
  pose proof (u8_set_tail (beBytes 32 (cx c)) (beBytes 32 (cy c)) 32) as S8.
  rewrite !length_beBytes in S8.
  replace (64 - 32)%nat with 32%nat by lia.
  rewrite S8 by lia. cbn [mbind res_bind].
  rewrite !Nat.sub_diag. change (replicate 0 0) with (@nil Z). rewrite !app_nil_r.
  set (A := beBytes 32 (ax c) ++ beBytes 32 ((- ay c) mod BN254_P)).
  set (B := beBytes 32 (bx1 c) ++ beBytes 32 (bx0 c) ++ beBytes 32 (by1 c) ++ beBytes 32 (by0 c)).
  set (C := beBytes 32 (cx c) ++ beBytes 32 (cy c)).
  assert (LA : length A = 64%nat) by (unfold A; rewrite !length_app, !length_beBytes; lia).
  assert (LB : length B = 128%nat) by (unfold B; rewrite !length_app, !length_beBytes; lia).
  assert (LC : length C = 64%nat) by (unfold C; rewrite !length_app, !length_beBytes; lia).
  pose proof (u8_set_tail [] A 256) as T1. cbn [app length] in T1.
  rewrite T1 by lia. cbn [mbind res_bind]. rewrite LA.
  pose proof (u8_set_tail A B 192) as T2. rewrite LA in T2.
  replace (256 - 64)%nat with 192%nat by lia.
  rewrite T2 by lia. cbn [mbind res_bind]. rewrite LB.
  pose proof (u8_set_tail (A ++ B) C 64) as T3.
  rewrite length_app, LA, LB in T3. rewrite <- app_assoc in T3.
  replace (192 - 128)%nat with 64%nat by lia.
  change (64 + 128)%nat with 192%nat in T3.
  rewrite T3 by lia. cbn [mbind res_bind].
  rewrite LC, Nat.sub_diag. change (replicate 0 0) with (@nil Z). rewrite app_nil_r.
  unfold A, B, C. by rewrite <- !app_assoc.
Qed.

End SerializationFacts.

Section SerializationWitness.
Import Serialization.

Lemma serializeProof_layout_witness :
  hasCoordinates sample_proof sample_coords /\ inRange sample_coords /\
  exists bytes, serializeProof sample_proof = Ok bytes /\ length bytes = 256%nat.
Proof.
  assert (Hc : hasCoordinates sample_proof sample_coords).
  { repeat split; try reflexivity.
    exists ["10"; "11"]%string, ["12"; "13"]%string. repeat split; reflexivity. }
  assert (Hr : inRange sample_coords).
  { unfold inRange, inField, sample_coords, BN254_P; simpl. lia. }
  split; [exact Hc |]. split; [exact Hr |].
  destruct (serializeProof_layout sample_proof sample_coords Hc Hr) as (H1 & H2 & _).
  eexists. split; [exact H1 | exact H2].
Defined.

End SerializationWitness.

(** ** Withdrawal: the instruction payload and its account list *)

Section InstructionFacts.
Import Withdrawal.

Lemma setBigUint64LE_tail (pre : list Z) (n : nat) (v : Z) :
  (8 <= n)%nat ->
  setBigUint64LE (pre ++ replicate n 0) (length pre) v
  = pre ++ leBytes 8 (v mod 2 ^ 64) ++ replicate (n - 8) 0.
Proof.
  intros Hn. unfold setBigUint64LE.
  rewrite take_app_length, drop_app_add, drop_replicate. reflexivity.
Qed.

Lemma insert_zero_tail (pre : list Z) (n i : nat) :
  <[(length pre + i)%nat := 0]> (pre ++ replicate n 0) = pre ++ replicate n 0.
Proof.
  rewrite insert_app_r. f_equal. apply list_eq. intros j.
  destruct (decide (i < n)%nat) as [Hi | Hi].
  - destruct (decide (j = i)) as [-> | Hne].
    + rewrite list_lookup_insert_eq by (rewrite length_replicate; lia).
      by rewrite lookup_replicate_2.
    + by rewrite list_lookup_insert_ne.
  - by rewrite list_insert_ge by (rewrite length_replicate; lia).
Qed.

Lemma insert_one_tail (pre : list Z) (n : nat) (v : Z) :
  <[S (length pre) := v]> (pre ++ replicate (S (S n)) 0) = pre ++ 0 :: v :: replicate n 0.
Proof.
  replace (S (length pre)) with (length pre + 1)%nat by lia.
  by rewrite insert_app_r.
Qed.

(** The instruction data is the concatenation of its seven fields. *)
Lemma instructionDataOf_spec (sha256 : list Z -> list Z) (fee : Z)
    (proof nullifierHashBytes rootBytes : list Z) :
  length (discriminator sha256) = 8%nat ->
  length nullifierHashBytes = 32%nat ->
  length proof = 256%nat ->
  length rootBytes = 32%nat ->
  instructionDataOf sha256 fee proof nullifierHashBytes rootBytes
  = Ok (discriminator sha256 ++ nullifierHashBytes ++ [0; 1; 0; 0] ++ proof ++ rootBytes
        ++ leBytes 8 (fee mod 2 ^ 64) ++ replicate 8 0).
Proof.
  intros Hd Hn Hp Hr. unfold instructionDataOf, u8_new.
  set (d := discriminator sha256) in *.
  change (8 + 32 + 4 + 256 + 32 + 8 + 8)%nat with 348%nat.
  (* discriminator *)
  pose proof (u8_set_tail [] d 348) as S1. cbn [app length] in S1.
  rewrite S1 by lia. cbn [mbind res_bind]. rewrite Hd.
  (* nullifier hash *)
  pose proof (u8_set_tail d nullifierHashBytes 340) as S2. rewrite Hd in S2.
  change (0 + 8)%nat with 8%nat. change (348 - 8)%nat with 340%nat.
  rewrite S2 by lia. cbn [mbind res_bind]. rewrite Hn.
  change (340 - 32)%nat with 308%nat. change (8 + 32)%nat with 40%nat.
  (* proof length, 256 as u32 LE *)
  rewrite app_assoc.
  assert (L40 : length (d ++ nullifierHashBytes) = 40%nat) by (rewrite length_app; lia).
  set (pre := d ++ nullifierHashBytes) in *.
  replace (<[40%nat:=0]> (pre ++ replicate 308 0)) with (pre ++ replicate 308 0)
    by (rewrite <- (insert_zero_tail pre 308 0) at 1; f_equal; lia).
  change 308%nat with (S (S 306)).
  replace (<[(40 + 1)%nat:=1]> (pre ++ replicate (S (S 306)) 0))
    with (pre ++ 0 :: 1 :: replicate 306 0)
    by (rewrite <- insert_one_tail; f_equal; lia).
  change (pre ++ 0 :: 1 :: replicate 306 0) with (pre ++ [0; 1] ++ replicate 306 0).
  rewrite app_assoc.
  assert (L42 : length (pre ++ [0; 1]) = 42%nat) by (rewrite length_app; simpl; lia).
  set (pre2 := pre ++ [0; 1]) in *.
  replace (<[(40 + 2)%nat:=0]> (pre2 ++ replicate 306 0)) with (pre2 ++ replicate 306 0)
    by (rewrite <- (insert_zero_tail pre2 306 0) at 1; f_equal; lia).
  replace (<[(40 + 3)%nat:=0]> (pre2 ++ replicate 306 0)) with (pre2 ++ replicate 306 0)
    by (rewrite <- (insert_zero_tail pre2 306 1) at 1; f_equal; lia).
  change (replicate 306 0) with ([0; 0] ++ replicate 304 0).
  rewrite app_assoc.
  assert (L44 : length (pre2 ++ [0; 0]) = 44%nat) by (rewrite length_app; simpl; lia).
  set (pre3 := pre2 ++ [0; 0]) in *.
  (* proof *)
  pose proof (u8_set_tail pre3 proof 304) as S3. rewrite L44 in S3.
  change (40 + 4)%nat with 44%nat.
  rewrite S3 by lia. cbn [mbind res_bind]. rewrite Hp.
  change (304 - 256)%nat with 48%nat. change (44 + 256)%nat with 300%nat.
  (* root *)
  rewrite app_assoc.
  assert (L300 : length (pre3 ++ proof) = 300%nat) by (rewrite length_app; lia).
  set (pre4 := pre3 ++ proof) in *.
  pose proof (u8_set_tail pre4 rootBytes 48) as S4. rewrite L300 in S4.
  rewrite S4 by lia. cbn [mbind res_bind]. rewrite Hr.
  change (48 - 32)%nat with 16%nat. change (300 + 32)%nat with 332%nat.
  (* fee and refund *)
  rewrite app_assoc.
  assert (L332 : length (pre4 ++ rootBytes) = 332%nat) by (rewrite length_app; lia).
  set (pre5 := pre4 ++ rootBytes) in *.
  pose proof (setBigUint64LE_tail pre5 16 fee) as S5. rewrite L332 in S5.
  rewrite S5 by lia.
  change (16 - 8)%nat with 8%nat. change (332 + 8)%nat with 340%nat.
  rewrite app_assoc.
  assert (L340 : length (pre5 ++ leBytes 8 (fee mod 2 ^ 64)) = 340%nat)
    by (rewrite length_app; unfold leBytes; rewrite length_map, length_seq; lia).
  set (pre6 := pre5 ++ leBytes 8 (fee mod 2 ^ 64)) in *.
  pose proof (setBigUint64LE_tail pre6 8 0) as S6. rewrite L340 in S6.
  rewrite S6 by lia.
  change (8 - 8)%nat with 0%nat. change (replicate 0 0) with (@nil Z).
  change (leBytes 8 (0 mod 2 ^ 64)) with (replicate 8 0).
  rewrite app_nil_r.
  unfold pre6, pre5, pre4, pre3, pre2, pre.
  rewrite <- !app_assoc. reflexivity.
Qed.

Lemma computeShardIndex_floor (leafIndex : Z) :
  0 <= leafIndex -> computeShardIndex leafIndex = (leafIndex mod 2560) / 128.
Proof.
  intros H. unfold computeShardIndex. cbn zeta.
  by rewrite Z.rem_mod_nonneg by lia.
Qed.

Lemma computeShardIndex_range (leafIndex : Z) :
  0 <= leafIndex -> 0 <= computeShardIndex leafIndex < 20.
Proof.
  intros H. rewrite computeShardIndex_floor by lia.
  pose proof (Z.mod_pos_bound leafIndex 2560 ltac:(lia)).
  split; [apply Z.div_pos; lia | apply Z.div_lt_upper_bound; lia].
Qed.

End InstructionFacts.

Section InstructionTheorem.
Import Withdrawal.

Variable getPoolConfig : string -> res PoolConfig.
Variable newPublicKey : string -> res PublicKey.
Variable findProgramAddressSync : list (list Z) -> PublicKey -> res (PublicKey * Z).
Variable sha256 : list Z -> list Z.

Lemma payloadSpec_data (fee : Z) (proof nullifierHashBytes rootBytes : list Z) :
  length (sha256 (utf8 "global:withdraw_v2_clean")) = 32%nat ->
  length nullifierHashBytes = 32%nat ->
  length proof = 256%nat ->
  length rootBytes = 32%nat ->
  0 <= fee < 2 ^ 64 ->
  instructionDataOf sha256 fee proof nullifierHashBytes rootBytes
  = Ok (payloadSpec (take 8 (sha256 (utf8 "global:withdraw_v2_clean")))
          nullifierHashBytes proof rootBytes fee).
Proof.
  intros Hs Hn Hp Hr Hfee.
  assert (Hd : length (discriminator sha256) = 8%nat).
  { unfold discriminator, slice. rewrite length_take, drop_0, Hs. lia. }
  rewrite instructionDataOf_spec by assumption.
  rewrite Z.mod_small by lia.
  reflexivity.
Qed.

(** C4. With the pool known and its addresses well-formed, a 32-byte
    nullifier hash and root, a 256-byte proof and a 64-bit fee, the built
    instruction carries exactly the payload: discriminator
    [sha256("global:withdraw_v2_clean")[0..8]], nullifier hash, the length 256
    in four little-endian bytes, proof, root, fee and a zero refund in eight
    little-endian bytes each (348 bytes). Its account list is the ten fixed
    accounts, followed by: the shard at [shardIndex] when the root was found in
    the sharded ring; nothing when it was found in the state history; the shard
    [floor((leafIndex mod 2560) / 128)] when no local tier matched (the result
    is not_found, or none was passed). The shard account is appended
    read-only and not a signer. *)
Theorem buildWithdrawInstruction_layout
    (note : Note) (recipient protocol : PublicKey) (fee : Z)
    (proof nullifierHashBytes rootBytes : list Z)
    (pc : PoolConfig) (programId statePda vaultPda vkPda metadataPda nullifierPda : PublicKey)
    (bump : Z) :
  getPoolConfig (poolId note) = Ok pc ->
  newPublicKey (Types.programId pc) = Ok programId ->
  newPublicKey (Types.statePda pc) = Ok statePda ->
  newPublicKey (Types.vaultPda pc) = Ok vaultPda ->
  newPublicKey (Types.vkPda pc) = Ok vkPda ->
  newPublicKey (Types.metadataPda pc) = Ok metadataPda ->
  findProgramAddressSync [utf8 "nullifier"; statePda; nullifierHashBytes] programId
    = Ok (nullifierPda, bump) ->
  length (sha256 (utf8 "global:withdraw_v2_clean")) = 32%nat ->
  length nullifierHashBytes = 32%nat ->
  length proof = 256%nat ->
  length rootBytes = 32%nat ->
  0 <= fee < 2 ^ 64 ->
  let build :=
    buildWithdrawInstruction getPoolConfig newPublicKey findProgramAddressSync sha256
      note recipient protocol fee proof nullifierHashBytes rootBytes in
  let payload :=
    payloadSpec (take 8 (sha256 (utf8 "global:withdraw_v2_clean")))
      nullifierHashBytes proof rootBytes fee in
  let base :=
    baseKeys statePda vkPda nullifierPda vaultPda recipient protocol programId metadataPda in
  (forall (r : RootAcceptanceResult) (k : Z) (pk : PublicKey),
      source r = sharded_ring -> shardIndex r = Some k ->
      newPublicKey_opt newPublicKey (js_index (shardPdas pc) k) = Ok pk ->
      build (Some r)
      = Ok {| ix_programId := programId; keys := base ++ [shardAccount pk];
              data := payload |}) /\
  (forall r : RootAcceptanceResult,
      source r = state_history ->
      build (Some r) = Ok {| ix_programId := programId; keys := base; data := payload |}) /\
  (forall (rootResult : option RootAcceptanceResult) (pk : PublicKey),
      noLocalTier rootResult ->
      0 <= leafIndex note ->
      newPublicKey_opt newPublicKey
        (js_index (shardPdas pc) ((leafIndex note mod 2560) / 128)) = Ok pk ->
      build rootResult
      = Ok {| ix_programId := programId; keys := base ++ [shardAccount pk];
              data := payload |}) /\
  length payload = 348%nat /\
  length (take 8 (sha256 (utf8 "global:withdraw_v2_clean"))) = 8%nat /\
  leBytes 4 256 = [0; 1; 0; 0] /\
  leBytes 8 0 = replicate 8 0 /\
  length base = 10%nat.
Proof.
  intros Hpool Hprog Hstate Hvault Hvk Hmeta Hpda Hs Hn Hp Hr Hfee build payload base.
  assert (Hdata := payloadSpec_data fee proof nullifierHashBytes rootBytes Hs Hn Hp Hr Hfee).
  assert (Hhead : forall rr,
    build rr =
      (targetShardPda ← targetShardPdaOf newPublicKey note pc rr;
       Ok {| ix_programId := programId;
             keys := match targetShardPda with
                     | Some pk => base ++ [shardAccount pk]
                     | None => base
                     end;
             data := payload |})).
  { intros rr. unfold build, buildWithdrawInstruction, deriveNullifierPda.
    rewrite Hpool. cbn [mbind res_bind].
    rewrite Hprog, Hstate, Hvault, Hvk, Hmeta. cbn [mbind res_bind].
    rewrite Hpda. cbn [mbind res_bind].
    rewrite Hdata. cbn [mbind res_bind].
    destruct (targetShardPdaOf newPublicKey note pc rr) as [[pk |] | e]; reflexivity. }
  repeat split.
  - intros r k pk Hsrc Hidx Hpk. rewrite Hhead.
    destruct r as [f s i]. simpl in Hsrc, Hidx. subst s i.
    unfold targetShardPdaOf. rewrite Hpk. reflexivity.
  - intros r Hsrc. rewrite Hhead.
    destruct r as [f s i]. simpl in Hsrc. subst s.
    reflexivity.
  - intros rr pk Hno Hleaf Hpk. rewrite Hhead.
    assert (Ht : targetShardPdaOf newPublicKey note pc rr
                 = (pk ← newPublicKey_opt newPublicKey
                           (js_index (shardPdas pc) (computeShardIndex (leafIndex note)));
                    Ok (Some pk))).
    { destruct rr as [[f s i] |]; [| reflexivity].
      cbn in Hno. destruct Hno as [Hne Hsh].
      destruct s; try reflexivity; [congruence |].
      destruct i; [specialize (Hsh eq_refl); discriminate | reflexivity]. }
    rewrite Ht, computeShardIndex_floor by lia. rewrite Hpk. reflexivity.
  - unfold payload, payloadSpec.
    rewrite !length_app, length_take, Hs, Hn, Hp, Hr.
    unfold leBytes. rewrite !length_map, !length_seq. lia.
  - rewrite length_take, Hs. lia.
Qed.

End InstructionTheorem.

(** ** Root acceptance: the state history before the sharded ring *)

Section RootAcceptanceFacts.
Import RootAcceptance.

Lemma bufEquals_decide (a b : list Z) : bufEquals a b = bool_decide (a = b).
Proof. reflexivity. Qed.

Lemma slice_take_drop {A} (a n : nat) (l : list A) :
  slice a (a + n) l = take n (drop a l).
Proof. unfold slice. f_equal. lia. Qed.

(** [every(b => b === 0)] fails exactly when some byte is not 0. *)
Lemma allZero_false (buf : list Z) :
  allZero buf = false <-> Exists (fun b => b <> 0) buf.
Proof.
  unfold allZero. induction buf as [| b t IH]; cbn [forallb].
  - split; [discriminate | by intros H%Exists_nil].
  - rewrite Exists_cons, andb_false_iff, IH, Z.eqb_neq. tauto.
Qed.

(** The history loop finds the root exactly when some slot of its list has a
    byte other than 0 and equals the root. *)
Lemma scanHistory_Exists (data root : list Z) (slots : list nat) :
  scanHistory data root slots = true
  <-> Exists (fun i => historySlot data i = root /\
                       Exists (fun b => b <> 0) (historySlot data i)) slots.
Proof.
  induction slots as [| i rest IH]; cbn [scanHistory].
  - split; [discriminate | by intros H%Exists_nil].
  - rewrite slice_take_drop. fold (historySlot data i).
    rewrite Exists_cons, <- IH, <- allZero_false.
    destruct (allZero (historySlot data i)).
    + split; [by right | intros [[_ ?] | ?]; [discriminate | done]].
    + rewrite bufEquals_decide. case_bool_decide as Heq.
      * split; [intros _; by left | done].
      * split; [by right | intros [[? _] | ?]; [done | done]].
Qed.

Lemma checkStateRootHistory_found
    (newPublicKey : string -> res PublicKey)
    (getAccountInfo : PublicKey -> res (option (list Z)))
    (pc : PoolConfig) (root : list Z) (stateKey : PublicKey) (stateInfo : option (list Z)) :
  newPublicKey (statePda pc) = Ok stateKey ->
  getAccountInfo stateKey = Ok stateInfo ->
  checkStateRootHistory newPublicKey getAccountInfo pc root
  = ([GetAccountInfo stateKey],
     if decide (inStateHistory stateInfo root)
     then {| found := true; source := state_history; shardIndex := None |}
     else {| found := false; source := not_found; shardIndex := None |}).
Proof.
  intros Hk Hr. unfold checkStateRootHistory. rewrite Hk, Hr. f_equal.
  destruct stateInfo as [data |]; [| rewrite decide_False by (cbn; tauto); reflexivity].
  rewrite (slice_take_drop CURRENT_ROOT_OFFSET ROOT_SIZE). fold (currentRootOf data).
  rewrite bufEquals_decide.
  pose proof (scanHistory_Exists data root (seq 0 STATE_ROOT_HISTORY_SIZE)) as Hscan.
  case_bool_decide as Hcur.
  - rewrite decide_True by (by left). reflexivity.
  - destruct (scanHistory data root (seq 0 STATE_ROOT_HISTORY_SIZE)).
    + rewrite decide_True by (right; by apply Hscan). reflexivity.
    + rewrite decide_False; [reflexivity |].
      intros [H | H]; [done |]. apply Hscan in H. discriminate.
Qed.

Lemma slot_readable (data : list Z) (j : nat) :
  (SHARD_ENTRIES_OFFSET + SHARD_CAPACITY * ROOT_ENTRY_SIZE <= length data)%nat ->
  (j < SHARD_CAPACITY)%nat ->
  readBigUInt64LE
    (slice (SHARD_ENTRIES_OFFSET + j * ROOT_ENTRY_SIZE + ROOT_SIZE)
           (SHARD_ENTRIES_OFFSET + j * ROOT_ENTRY_SIZE + ROOT_ENTRY_SIZE) data)
  = Ok (entrySeq data j).
Proof.
  unfold SHARD_ENTRIES_OFFSET, SHARD_CAPACITY, ROOT_ENTRY_SIZE, ROOT_SIZE.
  intros Hlen Hj. unfold readBigUInt64LE, entrySeq, slice.
  unfold SHARD_ENTRIES_OFFSET, ROOT_ENTRY_SIZE, ROOT_SIZE.
  replace (16 + j * 40 + 40 - (16 + j * 40 + 32))%nat with 8%nat by lia.
  assert (Hl : length (take 8 (drop (16 + j * 40 + 32) data)) = 8%nat)
    by (rewrite length_take, length_drop; lia).
  rewrite Hl. cbn [Nat.ltb Nat.leb].
  by rewrite take_take.
Qed.

(** On a complete shard the entry loop does not throw, and it finds the root
    exactly when an entry of its list with a sequence number other than 0
    holds it. *)
Lemma scanEntries_Exists (data root : list Z) (entries : list nat) :
  (SHARD_ENTRIES_OFFSET + SHARD_CAPACITY * ROOT_ENTRY_SIZE <= length data)%nat ->
  Forall (fun j => (j < SHARD_CAPACITY)%nat) entries ->
  exists hit, scanEntries data root entries = Ok hit /\
    (hit = true <-> Exists (fun j => entryRoot data j = root /\ entrySeq data j <> 0) entries).
Proof.
  intros Hlen Hall. induction Hall as [| j rest Hj _ IH].
  - exists false. split; [reflexivity |]. split; [discriminate | by intros H%Exists_nil].
  - destruct IH as (hit & Hscan & Hhit). cbn [scanEntries].
    rewrite slot_readable by assumption. cbn [mbind res_bind].
    rewrite (slice_take_drop _ ROOT_SIZE). fold (entryRoot data j).
    destruct (entrySeq data j =? 0) eqn:Eseq.
    + apply Z.eqb_eq in Eseq. exists hit. split; [exact Hscan |].
      rewrite Exists_cons, <- Hhit. split; [by right | intros [[_ ?] | ?]; done].
    + apply Z.eqb_neq in Eseq. rewrite bufEquals_decide. case_bool_decide as Heq.
      * exists true. split; [reflexivity |]. split; [intros _; by left | done].
      * exists hit. split; [exact Hscan |].
        rewrite Exists_cons, <- Hhit. split; [by right | intros [[? _] | ?]; done].
Qed.

Lemma scanShard_complete (data root : list Z) :
  completeShard (Some data) ->
  scanEntries data root (seq 0 SHARD_CAPACITY)
  = Ok (bool_decide (shardHolds (Some data) root)).
Proof.
  intros Hc. destruct (scanEntries_Exists data root (seq 0 SHARD_CAPACITY) Hc)
    as (hit & -> & Hhit).
  { apply Forall_forall. intros j Hj. apply list_elem_of_In, in_seq in Hj. lia. }
  f_equal. destruct hit.
  - symmetry. apply bool_decide_eq_true. by apply Hhit.
  - symmetry. apply bool_decide_eq_false. intros H. apply Hhit in H. discriminate.
Qed.

(** The shard loop stops at the first shard that holds the root, when that
    shard and those before it are complete. *)
Lemma scanShards_hit (root : list Z) (shardInfos : list (option (list Z)))
    (base k : nat) (info : option (list Z)) :
  shardInfos !! k = Some info -> shardHolds info root -> completeShard info ->
  (forall k' info', (k' < k)%nat -> shardInfos !! k' = Some info' ->
     completeShard info' /\ ~ shardHolds info' root) ->
  scanShards root shardInfos base = Ok (Some (base + k)%nat).
Proof.
  revert base k. induction shardInfos as [| first rest IH]; intros base k Hk Hholds Hc Hbefore.
  - by rewrite lookup_nil in Hk.
  - destruct k as [| k].
    + cbn in Hk. injection Hk as ->. destruct info as [data |]; [| done].
      cbn [scanShards]. rewrite scanShard_complete by exact Hc. cbn [mbind res_bind].
      rewrite bool_decide_eq_true_2 by exact Hholds. do 2 f_equal. lia.
    + destruct (Hbefore 0%nat first ltac:(lia) eq_refl) as [Hc0 Hno0].
      assert (Hrest : scanShards root rest (S base) = Ok (Some (S base + k)%nat)).
      { apply (IH (S base) k); [exact Hk | exact Hholds | exact Hc |].
        intros k' info' Hlt Hk'. apply (Hbefore (S k') info'); [lia | exact Hk']. }
      cbn [scanShards]. destruct first as [data |].
      * rewrite scanShard_complete by exact Hc0. cbn [mbind res_bind].
        rewrite bool_decide_eq_false_2 by exact Hno0. rewrite Hrest. do 2 f_equal. lia.
      * rewrite Hrest. do 2 f_equal. lia.
Qed.

(** It finds nothing when no shard holds the root and all are complete. *)
Lemma scanShards_miss (root : list Z) (shardInfos : list (option (list Z))) (base : nat) :
  (forall k info, shardInfos !! k = Some info -> completeShard info /\ ~ shardHolds info root) ->
  scanShards root shardInfos base = Ok None.
Proof.
  revert base. induction shardInfos as [| first rest IH]; intros base Hall; [reflexivity |].
  destruct (Hall 0%nat first eq_refl) as [Hc0 Hno0].
  assert (Hrest : scanShards root rest (S base) = Ok None).
  { apply IH. intros k info Hk. by apply (Hall (S k) info). }
  cbn [scanShards]. destruct first as [data |]; [| exact Hrest].
  rewrite scanShard_complete by exact Hc0. cbn [mbind res_bind].
  by rewrite bool_decide_eq_false_2 by exact Hno0.
Qed.

Lemma mapPublicKey_length (newPublicKey : string -> res PublicKey) (pdas : list string)
    (keys : list PublicKey) :
  mapPublicKey newPublicKey pdas = Ok keys -> length keys = length pdas.
Proof.
  revert keys. induction pdas as [| p rest IH]; intros keys H; cbn in H.
  - by inversion H.
  - destruct (newPublicKey p); [| discriminate]. cbn in H.
    destruct (mapPublicKey newPublicKey rest) as [ks |]; [| discriminate].
    cbn in H. inversion H. cbn. f_equal. by apply IH.
Qed.

End RootAcceptanceFacts.

Section RootAcceptanceTheorems.
Import RootAcceptance.

Variable newPublicKey : string -> res PublicKey.
Variable getAccountInfo : PublicKey -> res (option (list Z)).
Variable getMultipleAccountsInfo : list PublicKey -> res (list (option (list Z))).

(** What [isAcceptedRoot] returns once the state tier has missed, when the
    shard keys parse and the batched read succeeds. *)
Lemma isAcceptedRoot_shard_tier (pc : PoolConfig) (rootHex : string)
    (stateKey : PublicKey) (stateInfo : option (list Z))
    (shardKeys : list PublicKey) (shardInfos : list (option (list Z))) :
  let root := hexDecode (replace0x (chars rootHex)) in
  length root = 32%nat ->
  newPublicKey (statePda pc) = Ok stateKey ->
  getAccountInfo stateKey = Ok stateInfo ->
  shardPdas pc <> [] ->
  mapPublicKey newPublicKey (shardPdas pc) = Ok shardKeys ->
  getMultipleAccountsInfo shardKeys = Ok shardInfos ->
  ~ inStateHistory stateInfo root ->
  isAcceptedRoot newPublicKey getAccountInfo getMultipleAccountsInfo pc rootHex
  = ([GetAccountInfo stateKey; GetMultipleAccountsInfo shardKeys],
     match scanShards root shardInfos 0 with
     | Ok (Some k) => {| found := true; source := sharded_ring;
                         shardIndex := Some (Z.of_nat k) |}
     | _ => {| found := false; source := not_found; shardIndex := None |}
     end).
Proof.
  intros root Hlen Hk Hs Hne Hmap Hget Hhist.
  unfold isAcceptedRoot. fold root. rewrite Hlen. cbn [Nat.eqb negb].
  rewrite (checkStateRootHistory_found _ _ _ _ _ _ Hk Hs).
  rewrite decide_False by exact Hhist. cbn [found].
  unfold checkShardedRootRing.
  destruct (shardPdas pc) as [| p rest] eqn:Epdas; [done |].
  rewrite Hmap, Hget. cbn [mbind res_bind app]. f_equal.
  by destruct (scanShards root shardInfos 0) as [[k |] | e].
Qed.

(** C2, as the code has it. For a root of 32 bytes, when the state account's
    key parses and its read succeeds, [isAcceptedRoot] checks the state
    history first: a root equal to the current root or to a slot of the
    history array that is not all zero gives state_history, and the state
    account is the only one read. Otherwise, when the shard keys parse and
    the batched read succeeds, a root held by shard [k] in an entry with a
    sequence number other than 0 gives sharded_ring with [shardIndex = k],
    provided shard [k] is complete and the shards before it are complete and
    do not hold the root; and a root that no shard holds, all of them
    complete, gives not_found. A pool without shards gives not_found after
    the state read alone. *)
Theorem isAcceptedRoot_tiers (pc : PoolConfig) (rootHex : string)
    (stateKey : PublicKey) (stateInfo : option (list Z)) :
  let root := hexDecode (replace0x (chars rootHex)) in
  length root = 32%nat ->
  newPublicKey (statePda pc) = Ok stateKey ->
  getAccountInfo stateKey = Ok stateInfo ->
  let result :=
    isAcceptedRoot newPublicKey getAccountInfo getMultipleAccountsInfo pc rootHex in
  (inStateHistory stateInfo root ->
     result = ([GetAccountInfo stateKey],
               {| found := true; source := state_history; shardIndex := None |})) /\
  (~ inStateHistory stateInfo root ->
     forall (shardKeys : list PublicKey) (shardInfos : list (option (list Z))),
       shardPdas pc <> [] ->
       mapPublicKey newPublicKey (shardPdas pc) = Ok shardKeys ->
       getMultipleAccountsInfo shardKeys = Ok shardInfos ->
       (forall (k : nat) (info : option (list Z)),
          shardInfos !! k = Some info -> shardHolds info root -> completeShard info ->
          (forall (k' : nat) (info' : option (list Z)),
             (k' < k)%nat -> shardInfos !! k' = Some info' ->
             completeShard info' /\ ~ shardHolds info' root) ->
          result = ([GetAccountInfo stateKey; GetMultipleAccountsInfo shardKeys],
                    {| found := true; source := sharded_ring;
                       shardIndex := Some (Z.of_nat k) |})) /\
       ((forall (k : nat) (info : option (list Z)),
           shardInfos !! k = Some info -> completeShard info /\ ~ shardHolds info root) ->
        result = ([GetAccountInfo stateKey; GetMultipleAccountsInfo shardKeys],
                  {| found := false; source := not_found; shardIndex := None |}))) /\
  (~ inStateHistory stateInfo root -> shardPdas pc = [] ->
     result = ([GetAccountInfo stateKey],
               {| found := false; source := not_found; shardIndex := None |})).
Proof.
  intros root Hlen Hk Hs result.
  split; [| split].
  - intros Hhist. unfold result, isAcceptedRoot. fold root.
    rewrite Hlen. cbn [Nat.eqb negb].
    rewrite (checkStateRootHistory_found _ _ _ _ _ _ Hk Hs).
    by rewrite decide_True by exact Hhist.
  - intros Hhist shardKeys shardInfos Hne Hmap Hget.
    pose proof (isAcceptedRoot_shard_tier pc rootHex stateKey stateInfo shardKeys shardInfos
                  Hlen Hk Hs Hne Hmap Hget Hhist) as Htier.
    fold root result in Htier. split.
    + intros k info Hlook Hholds Hc Hbefore. rewrite Htier.
      by rewrite (scanShards_hit root shardInfos 0 k info Hlook Hholds Hc Hbefore).
    + intros Hnone. rewrite Htier. by rewrite (scanShards_miss root shardInfos 0 Hnone).
  - intros Hhist Hnil. unfold result, isAcceptedRoot. fold root.
    rewrite Hlen. cbn [Nat.eqb negb].
    rewrite (checkStateRootHistory_found _ _ _ _ _ _ Hk Hs).
    rewrite decide_False by exact Hhist. cbn [found].
    unfold checkShardedRootRing. by rewrite Hnil.
Qed.

End RootAcceptanceTheorems.

Section RootAcceptanceExamples.
Import RootAcceptance.

(** The root in slot 1 of the history is answered from the state account
    alone; with an empty state account it is found in shard 1. *)
Lemma isAcceptedRoot_tiers_witness :
  let stateKey := take 32 (Withdrawal.utf8 "state" ++ replicate 32 0) in
  let shardKeys := [take 32 (Withdrawal.utf8 "shard0" ++ replicate 32 0);
                    take 32 (Withdrawal.utf8 "shard1" ++ replicate 32 0)] in
  hexDecode (replace0x (chars Samples.rootHex)) = Samples.root /\
  currentRootOf Samples.stateHistoric <> Samples.root /\
  historySlot Samples.stateHistoric 1 = Samples.root /\
  isAcceptedRoot Samples.keyOf (Samples.readState Samples.stateHistoric) Samples.readShards
    Samples.pool Samples.rootHex
  = ([GetAccountInfo stateKey],
     {| found := true; source := state_history; shardIndex := None |}) /\
  ~ inStateHistory (Some Samples.stateEmpty) Samples.root /\
  entryRoot Samples.shardWithRoot 0 = Samples.root /\
  entrySeq Samples.shardWithRoot 0 = 1 /\
  isAcceptedRoot Samples.keyOf (Samples.readState Samples.stateEmpty) Samples.readShards
    Samples.pool Samples.rootHex
  = ([GetAccountInfo stateKey; GetMultipleAccountsInfo shardKeys],
     {| found := true; source := sharded_ring; shardIndex := Some 1 |}).
Proof.
  cbn zeta.
  assert (Hroot : hexDecode (replace0x (chars Samples.rootHex)) = Samples.root)
    by (vm_compute; reflexivity).
  assert (Hlen : length (hexDecode (replace0x (chars Samples.rootHex))) = 32%nat)
    by (rewrite Hroot; reflexivity).
  assert (Hin : inStateHistory (Some Samples.stateHistoric) Samples.root).
  { refine (bool_decide_unpack _ _). vm_compute. exact I. }
  assert (Hout : ~ inStateHistory (Some Samples.stateEmpty) Samples.root).
  { intros H. apply (bool_decide_pack _) in H. vm_compute in H. exact H. }
  assert (Hholds : shardHolds (Some Samples.shardWithRoot) Samples.root).
  { refine (bool_decide_unpack _ _). vm_compute. exact I. }
  assert (Hempty : ~ shardHolds (Some Samples.shardEmpty) Samples.root).
  { intros H. apply (bool_decide_pack _) in H. vm_compute in H. exact H. }
  split; [exact Hroot |].
  split; [intros H; vm_compute in H; discriminate |].
  split; [vm_compute; reflexivity |].
  split.
  { pose proof (isAcceptedRoot_tiers Samples.keyOf (Samples.readState Samples.stateHistoric)
                  Samples.readShards Samples.pool Samples.rootHex
                  (take 32 (Withdrawal.utf8 "state" ++ replicate 32 0))
                  (Some Samples.stateHistoric) Hlen eq_refl eq_refl) as (H1 & _).
    apply H1. by rewrite Hroot. }
  split; [exact Hout |].
  split; [vm_compute; reflexivity |].
  split; [vm_compute; reflexivity |].
  pose proof (isAcceptedRoot_tiers Samples.keyOf (Samples.readState Samples.stateEmpty)
                Samples.readShards Samples.pool Samples.rootHex
                (take 32 (Withdrawal.utf8 "state" ++ replicate 32 0))
                (Some Samples.stateEmpty) Hlen eq_refl eq_refl) as (_ & H2 & _).
  rewrite Hroot in H2.
  destruct (H2 Hout
              [take 32 (Withdrawal.utf8 "shard0" ++ replicate 32 0);
               take 32 (Withdrawal.utf8 "shard1" ++ replicate 32 0)]
              [Some Samples.shardEmpty; Some Samples.shardWithRoot]
              ltac:(discriminate) eq_refl eq_refl) as [Hhit _].
  apply (Hhit 1%nat (Some Samples.shardWithRoot) eq_refl Hholds).
  - vm_compute. lia.
  - intros k' info' Hlt Hlook.
    destruct k' as [| k']; [| lia].
    cbn in Hlook. injection Hlook as <-. split; [vm_compute; lia | exact Hempty].
Defined.

(** C2 as stated fails for a pool state: shard 1 holds the root in entry 0
    with sequence number 1, the account at shard 0 is 20 bytes long, and the
    result is not_found. Reading the sequence number of the first entry of
    shard 0 throws, and the catch of [isAcceptedRoot] answers not_found. *)
Lemma isAcceptedRoot_short_shard_hides_root :
  ~ RootAcceptance.inStateHistory (Some Samples.stateEmpty) Samples.root /\
  entryRoot Samples.shardWithRoot 0 = Samples.root /\
  entrySeq Samples.shardWithRoot 0 = 1 /\
  length Samples.shardTruncated = 20%nat /\
  isAcceptedRoot Samples.keyOf (Samples.readState Samples.stateEmpty) Samples.readShardsCut
    Samples.pool Samples.rootHex
  = ([GetAccountInfo (take 32 (Withdrawal.utf8 "state" ++ replicate 32 0));
      GetMultipleAccountsInfo
        [take 32 (Withdrawal.utf8 "shard0" ++ replicate 32 0);
         take 32 (Withdrawal.utf8 "shard1" ++ replicate 32 0)]],
     {| found := false; source := not_found; shardIndex := None |}).
Proof.
  split.
  { intros H. apply (bool_decide_pack _) in H. vm_compute in H. exact H. }
  repeat split; vm_compute; reflexivity.
Qed.

End RootAcceptanceExamples.

Section RootAcceptanceFailures.
Import RootAcceptance.

Variable newPublicKey : string -> res PublicKey.
Variable getAccountInfo : PublicKey -> res (option (list Z)).
Variable getMultipleAccountsInfo : list PublicKey -> res (list (option (list Z))).

Lemma checkStateRootHistory_shape (pc : PoolConfig) (root : list Z) :
  let r := snd (checkStateRootHistory newPublicKey getAccountInfo pc root) in
  r = notFound \/ r = foundInStateHistory.
Proof.
  unfold checkStateRootHistory.
  destruct (newPublicKey (statePda pc)) as [key | e]; cbn [snd]; [| by left].
  destruct (getAccountInfo key) as [[data |] | e]; try by left.
  destruct (bufEquals _ root); [by right |].
  destruct (scanHistory data root _); [by right | by left].
Qed.

Lemma checkStateRootHistory_fails (pc : PoolConfig) (root : list Z) :
  stateReadFails newPublicKey getAccountInfo pc ->
  snd (checkStateRootHistory newPublicKey getAccountInfo pc root) = notFound.
Proof.
  unfold checkStateRootHistory. intros [H | (key & Hk & H)].
  - destruct (newPublicKey (statePda pc)); [discriminate | reflexivity].
  - rewrite Hk. destruct (getAccountInfo key); [discriminate | reflexivity].
Qed.

Lemma checkShardedRootRing_shape (pc : PoolConfig) (root : list Z) (r : RootAcceptanceResult) :
  snd (checkShardedRootRing newPublicKey getMultipleAccountsInfo pc root) = Ok r ->
  r = notFound \/ exists k, r = foundInShard k.
Proof.
  unfold checkShardedRootRing.
  destruct (shardPdas pc) as [| p rest]; cbn [snd].
  - intros H. inversion H. by left.
  - destruct (mapPublicKey newPublicKey (p :: rest)) as [keys | e]; cbn [snd];
      [| discriminate].
    destruct (getMultipleAccountsInfo keys) as [infos | e]; cbn [mbind res_bind];
      [| discriminate].
    destruct (scanShards root infos 0) as [[k |] | e]; cbn [mbind res_bind];
      try discriminate.
    + intros H. inversion H. right. by exists k.
    + intros H. inversion H. by left.
Qed.

(** How [isAcceptedRoot] combines the two tiers on a 32-byte root. *)
Lemma isAcceptedRoot_combine (pc : PoolConfig) (rootHex : string) :
  let root := hexDecode (replace0x (chars rootHex)) in
  length root = 32%nat ->
  snd (isAcceptedRoot newPublicKey getAccountInfo getMultipleAccountsInfo pc rootHex)
  = if found (snd (checkStateRootHistory newPublicKey getAccountInfo pc root))
    then foundInStateHistory
    else match snd (checkShardedRootRing newPublicKey getMultipleAccountsInfo pc root) with
         | Ok r => r
         | Throw _ => notFound
         end.
Proof.
  intros root Hlen. unfold isAcceptedRoot. fold root. rewrite Hlen. cbn [Nat.eqb negb].
  pose proof (checkStateRootHistory_shape pc root) as Hs. cbn zeta in Hs.
  destruct (checkStateRootHistory newPublicKey getAccountInfo pc root) as [reads1 r1].
  cbn [snd] in *.
  destruct Hs as [-> | ->]; cbn [found notFound foundInStateHistory]; [| reflexivity].
  pose proof (checkShardedRootRing_shape pc root) as Hr.
  destruct (checkShardedRootRing newPublicKey getMultipleAccountsInfo pc root)
    as [reads2 [r2 | e]]; cbn [snd] in *; [| reflexivity].
  destruct (Hr r2 eq_refl) as [-> | [k ->]]; reflexivity.
Qed.


End RootAcceptanceFailures.

Section RootAcceptanceCounterexample.
Import RootAcceptance.


End RootAcceptanceCounterexample.

Section InstructionExamples.
Import Withdrawal.

(** The discriminator of the withdrawal method. *)
Lemma discriminator_value :
  discriminator Sha256.sha256 = [211; 247; 45; 19; 75; 184; 28; 172].
Proof. vm_compute. reflexivity. Qed.

(** The instruction built for the sample note of leaf 130 with no root result:
    348 bytes of payload and the shard 1 account as the eleventh key. *)
Lemma buildWithdrawInstruction_layout_witness :
  exists ix,
    buildWithdrawInstruction Samples.poolTable Samples.keyOf Samples.pdaOf Sha256.sha256
      Samples.note Samples.recipient Samples.protocol 500000
      Samples.proofBytes Samples.nullifierHashBytes Samples.root None = Ok ix /\
    length (data ix) = 348%nat /\
    take 8 (data ix) = [211; 247; 45; 19; 75; 184; 28; 172] /\
    length (keys ix) = 11%nat /\
    last (keys ix) = Some (shardAccount (take 32 (utf8 "shard1" ++ replicate 32 0))).
Proof.
  pose proof (buildWithdrawInstruction_layout
                Samples.poolTable Samples.keyOf Samples.pdaOf Sha256.sha256
                Samples.note Samples.recipient Samples.protocol 500000
                Samples.proofBytes Samples.nullifierHashBytes Samples.root
                Samples.pool
                (take 32 (utf8 "program" ++ replicate 32 0))
                (take 32 (utf8 "state" ++ replicate 32 0))
                (take 32 (utf8 "vault" ++ replicate 32 0))
                (take 32 (utf8 "vk" ++ replicate 32 0))
                (take 32 (utf8 "metadata" ++ replicate 32 0))
                (Sha256.sha256 (concat [utf8 "nullifier";
                                        take 32 (utf8 "state" ++ replicate 32 0);
                                        Samples.nullifierHashBytes]
                                ++ take 32 (utf8 "program" ++ replicate 32 0)))
                255
                eq_refl eq_refl eq_refl eq_refl eq_refl eq_refl eq_refl
                ltac:(vm_compute; reflexivity) ltac:(vm_compute; reflexivity)
                ltac:(vm_compute; reflexivity) ltac:(vm_compute; reflexivity)
                ltac:(lia)) as (_ & _ & H3 & _).
  specialize (H3 None (take 32 (utf8 "shard1" ++ replicate 32 0)) I
                ltac:(vm_compute; discriminate) ltac:(vm_compute; reflexivity)).
  eexists. split; [exact H3 |].
  vm_compute. repeat split; reflexivity.
Defined.

End InstructionExamples.

(** ** Witness building and the stored commitment *)

Section WitnessFacts.
Import Withdrawal Poseidon.

Variable poseidon : list Z -> Z.


End WitnessFacts.

Section WitnessCounterexample.
Import Withdrawal Poseidon.


End WitnessCounterexample.

(** ** The batch withdrawal handler *)

Section WithdrawBarFacts.
Import WithdrawBar.

Variable Submission : Type.
Variable newPublicKey : string -> res PublicKey.
Variable checkProtocolHealth : ProtocolHealthResponse + thrown.
Variable prepareWithdrawalForProtocol :
  nat -> Note -> PublicKey -> PublicKey -> Submission + thrown.
Variable submitWithdrawalToProtocol : nat -> Submission -> ProtocolWithdrawResponse + thrown.

Abbreviation phase2' := (phase2 Submission prepareWithdrawalForProtocol).
Abbreviation phase3' := (phase3 Submission submitWithdrawalToProtocol).
Abbreviation prepareAll' := (prepareAll Submission prepareWithdrawalForProtocol).
Abbreviation submitResults' := (submitResults Submission submitWithdrawalToProtocol).

Lemma setError_successTxs (msg : string) (ui : UiState) :
  successTxs (setError msg ui) = successTxs ui.
Proof. reflexivity. Qed.

(** Phase 3 submits every prepared item, whatever the others came to. *)
Lemma phase3_all (subs : list Submission) (i total : nat) (ui : UiState)
    (sigs : list string) :
  let '(ui', evs, sigs') := phase3' subs i total ui sigs in
  submitted evs = seq i (length subs) /\
  prepared evs = [] /\
  sigs' = sigs ++ omap Datatypes.id (submitResults' i subs) /\
  errorsSet evs = length (filter (fun r => r = None) (submitResults' i subs)) /\
  successTxs ui' = successTxs ui /\ cleared ui' = cleared ui /\
  (Forall (fun r => is_Some r) (submitResults' i subs) -> error ui' = error ui).
Proof.
  revert i ui sigs. induction subs as [| s rest IH]; intros i ui sigs.
  - cbn. rewrite app_nil_r. repeat split; reflexivity.
  - cbn [phase3 submitResults length seq].
    set (ui0 := setProofProgress _ ui).
    destruct (submitWithdrawalToProtocol i s) as [result | e] eqn:E; cbn [accepted];
      [destruct (r_status result) eqn:Es |].
    all: match goal with
         | |- context [phase3' ?r ?j ?t ?u ?g] =>
             specialize (IH j u g); destruct (phase3' r j t u g) as [[ui' evs] sigs']
         end.
    all: destruct IH as (H1 & H2 & H3 & H4 & H5 & H6 & H7).
    all: unfold submitted, prepared, errorsSet in *; cbn.
    all: repeat case_decide; try congruence.
    all: rewrite ?H1, ?H2, ?H3, <- ?app_assoc; cbn [length app].
    all: repeat split; try assumption; try reflexivity; try (f_equal; assumption).
    all: intros Hall; inversion Hall as [| ? ? Hx Hrest]; subst.
    all: try (apply H7; assumption).
    all: try (by destruct Hx).
Qed.

(** Phase 2 hands over every submission when all preparations succeed, and
    stops at the first that fails. *)
Lemma phase2_all (notes : list Note) (i total : nat) (recipient protocol : PublicKey)
    (ui : UiState) (acc : list Submission) :
  let '(ui', evs, r) := phase2' notes i total recipient protocol ui acc in
  submitted evs = [] /\ errorsSet evs = 0%nat /\
  successTxs ui' = successTxs ui /\ cleared ui' = cleared ui /\ error ui' = error ui /\
  match prepareAll' i notes recipient protocol with
  | Some subs => r = inl (acc ++ subs) /\ prepared evs = seq i (length notes)
  | None =>
      exists (k : nat) (n : Note) (e : thrown),
        notes !! k = Some n /\
        prepareWithdrawalForProtocol (i + k) n recipient protocol = inr e /\
        prepared evs = seq i (S k) /\
        r = inr (ErrorObj ("Failed to generate proof for note " +:+ ordinal (i + k) +:+ ": "
                           +:+ messageOr "Unknown error" e))
  end.
Proof.
  revert i ui acc. induction notes as [| n rest IH]; intros i ui acc.
  - cbn. rewrite app_nil_r. repeat split; reflexivity.
  - cbn [phase2 prepareAll length seq].
    set (ui0 := setProofProgress _ ui).
    destruct (prepareWithdrawalForProtocol i n recipient protocol) as [s | e] eqn:E.
    + specialize (IH (S i) ui0 (acc ++ [s])).
      destruct (phase2' rest (S i) total recipient protocol ui0 (acc ++ [s]))
        as [[ui' evs] r].
      destruct IH as (H1 & H2 & H3 & H4 & H5 & H6).
      unfold submitted, prepared, errorsSet in *. cbn.
      repeat case_decide; try congruence.
      repeat split; try assumption.
      destruct (prepareAll' (S i) rest recipient protocol) as [subs |]; cbn.
      * destruct H6 as [-> H6]. rewrite H6, <- app_assoc. split; reflexivity.
      * destruct H6 as (k & n' & e & Hk & He & Hp & Hr).
        exists (S k), n', e. cbn.
        replace (i + S k)%nat with (S i + k)%nat by lia.
        repeat split; try assumption. by rewrite Hp.
    + cbn. repeat split; try reflexivity.
      exists 0%nat, n, e. rewrite Nat.add_0_r. repeat split; try assumption; reflexivity.
Qed.

End WithdrawBarFacts.

Section WithdrawBarTheorems.
Import WithdrawBar.

Variable Submission : Type.
Variable newPublicKey : string -> res PublicKey.
Variable checkProtocolHealth : ProtocolHealthResponse + thrown.
Variable prepareWithdrawalForProtocol :
  nat -> Note -> PublicKey -> PublicKey -> Submission + thrown.
Variable submitWithdrawalToProtocol : nat -> Submission -> ProtocolWithdrawResponse + thrown.

Abbreviation handle :=
  (handleWithdraw Submission newPublicKey checkProtocolHealth
     prepareWithdrawalForProtocol submitWithdrawalToProtocol).
Abbreviation prepareAll0 := (prepareAll Submission prepareWithdrawalForProtocol 0).
Abbreviation submitResults0 := (submitResults Submission submitWithdrawalToProtocol 0).

Lemma no_missing_data (notes : list Note) :
  Forall (fun n => missingData n = false) notes ->
  filter (fun n => missingData n = true) notes = [].
Proof.
  induction 1 as [| n rest Hn _ IH]; [reflexivity |].
  rewrite filter_cons_False by (rewrite Hn; discriminate). exact IH.
Qed.

(** What a batch comes to once the recipient parses, the notes carry their
    Merkle data and the relay is healthy: by the two phase lemmas. *)
Lemma handleWithdraw_outcome (notes : list Note) (recipientText : string) (ui : UiState)
    (recipient protocol : PublicKey) :
  newPublicKey recipientText = Ok recipient ->
  Forall (fun n => missingData n = false) notes ->
  phase1 newPublicKey checkProtocolHealth = Ok protocol ->
  let '(ui', evs) := handle notes recipientText ui in
  match prepareAll0 notes recipient protocol with
  | Some subs =>
      prepared evs = seq 0 (length notes) /\
      submitted evs = seq 0 (length subs) /\
      length subs = length notes /\
      successTxs ui' = omap Datatypes.id (submitResults0 subs) /\
      errorsSet evs
      = (length (filter (fun r => r = None) (submitResults0 subs))
         + match omap Datatypes.id (submitResults0 subs) with [] => 1 | _ => 0 end)%nat
  | None =>
      submitted evs = [] /\ successTxs ui' = [] /\ errorsSet evs = 1%nat /\
      is_Some (error ui') /\
      exists k : nat, (k < length notes)%nat /\ prepared evs = seq 0 (S k)
  end.
Proof.
  intros Hrec Hdata Hhealth. unfold handleWithdraw.
  rewrite Hrec, (no_missing_data notes Hdata). cbn [length Nat.ltb Nat.leb].
  rewrite Hhealth.
  set (ui0 := setProofProgress "Connecting..." _).
  pose proof (phase2_all Submission prepareWithdrawalForProtocol notes 0 (length notes)
                recipient protocol ui0 []) as H2.
  destruct (phase2 Submission prepareWithdrawalForProtocol notes 0 (length notes)
              recipient protocol ui0 []) as [[ui2 evs2] r2].
  destruct H2 as (Hs2 & He2 & Htx2 & Hcl2 & Herr2 & Hprep).
  destruct (prepareAll0 notes recipient protocol) as [subs |] eqn:Eprep.
  - destruct Hprep as [-> Hp2]. cbn [app].
    pose proof (phase3_all Submission submitWithdrawalToProtocol subs 0 (length subs)
                  ui2 []) as H3.
    destruct (phase3 Submission submitWithdrawalToProtocol subs 0 (length subs) ui2 [])
      as [[ui3 evs3] sigs].
    destruct H3 as (Hs3 & Hp3 & Hsig & He3 & Htx3 & Hcl3 & _).
    cbn [app] in Hsig. subst sigs.
    assert (Hlen : length subs = length notes).
    { clear -Eprep. revert subs Eprep. generalize 0%nat.
      induction notes as [| n rest IH]; intros i subs H; cbn in H.
      - by inversion H.
      - destruct (prepareWithdrawalForProtocol i n recipient protocol); [| discriminate].
        destruct (prepareAll Submission prepareWithdrawalForProtocol (S i) rest
                    recipient protocol) as [l |] eqn:El; [| discriminate].
        cbn in H. inversion H. cbn. f_equal. by apply (IH (S i)). }
    unfold submitted, prepared, errorsSet in *.
    destruct (omap Datatypes.id (submitResults0 subs)) as [| sig0 sigs] eqn:Eok.
    + cbn [length Nat.ltb Nat.leb].
      rewrite !omap_app, !filter_app, !length_app, Hs2, Hp2, Hs3, Hp3, He2, He3.
      repeat split; cbn; rewrite ?app_nil_r, ?Htx3, ?Htx2;
        try assumption; try reflexivity; try lia.
    + cbn [length Nat.ltb Nat.leb].
      rewrite !omap_app, !filter_app, !length_app, Hs2, Hp2, Hs3, Hp3, He2, He3.
      repeat split; cbn; rewrite ?app_nil_r, ?Htx3, ?Htx2;
        try assumption; try reflexivity; try lia.
  - destruct Hprep as (k & n & e & Hk & Hfail & Hp2 & ->).
    unfold submitted, prepared, errorsSet in *.
    rewrite !omap_app, filter_app, length_app, Hs2, Hp2, He2. cbn.
    rewrite app_nil_r, Htx2.
    repeat split; try reflexivity; [by eexists |].
    exists k. split; [| reflexivity]. by apply lookup_lt_Some in Hk.
Qed.

(** C5, as the code has it. Once every note of the batch has been prepared, a
    failure raised or reported while submitting one item is recorded with
    [setError] and every other item is still submitted: all items are submitted
    in order, the successes are the items whose own submission was accepted,
    and each item that failed set one error (with one more message when none
    succeeded). A failure while preparing an item ends the whole batch instead:
    nothing is submitted, and the items after it are not prepared. In
    particular, in a batch of three whose second submission fails while the
    first and the third are accepted, all three are submitted and there are
    exactly two successes and one recorded failure. *)
Theorem handleWithdraw_isolates_submissions (notes : list Note) (recipientText : string)
    (ui : UiState) (recipient protocol : PublicKey) :
  newPublicKey recipientText = Ok recipient ->
  Forall (fun n => missingData n = false) notes ->
  phase1 newPublicKey checkProtocolHealth = Ok protocol ->
  let '(ui', evs) := handle notes recipientText ui in
  match prepareAll0 notes recipient protocol with
  | Some subs =>
      prepared evs = seq 0 (length notes) /\
      submitted evs = seq 0 (length subs) /\
      length subs = length notes /\
      successTxs ui' = omap Datatypes.id (submitResults0 subs) /\
      errorsSet evs
      = (length (filter (fun r => r = None) (submitResults0 subs))
         + match omap Datatypes.id (submitResults0 subs) with [] => 1 | _ => 0 end)%nat
  | None =>
      submitted evs = [] /\ successTxs ui' = [] /\ errorsSet evs = 1%nat /\
      is_Some (error ui') /\
      exists k : nat, (k < length notes)%nat /\ prepared evs = seq 0 (S k)
  end /\
  (forall (n1 n2 n3 : Note) (s1 s2 s3 : Submission) (sig1 sig3 : string),
      notes = [n1; n2; n3] ->
      prepareWithdrawalForProtocol 0 n1 recipient protocol = inl s1 ->
      prepareWithdrawalForProtocol 1 n2 recipient protocol = inl s2 ->
      prepareWithdrawalForProtocol 2 n3 recipient protocol = inl s3 ->
      accepted (submitWithdrawalToProtocol 0 s1) = Some sig1 ->
      accepted (submitWithdrawalToProtocol 1 s2) = None ->
      accepted (submitWithdrawalToProtocol 2 s3) = Some sig3 ->
      submitted evs = [0; 1; 2]%nat /\
      successTxs ui' = [sig1; sig3] /\
      errorsSet evs = 1%nat).
Proof.
  intros Hrec Hdata Hhealth.
  pose proof (handleWithdraw_outcome notes recipientText ui recipient protocol
                Hrec Hdata Hhealth) as H.
  destruct (handle notes recipientText ui) as [ui' evs].
  split; [exact H |].
  intros n1 n2 n3 s1 s2 s3 sig1 sig3 -> P1 P2 P3 A1 A2 A3.
  cbn [prepareAll] in H. rewrite P1, P2, P3 in H. cbn [fmap option_fmap option_map] in H.
  cbn [submitResults] in H. rewrite A1, A2, A3 in H.
  destruct H as (_ & Hs & _ & Htx & He).
  split; [exact Hs |]. split; [exact Htx |].
  rewrite He. cbn. repeat case_decide; try congruence. reflexivity.
Qed.

End WithdrawBarTheorems.

Section WithdrawBarExamples.
Import WithdrawBar.

(** Three notes, all prepared; the relay refuses the second: the first and
    the third are withdrawn, and the one error set is the second's. *)
Lemma handleWithdraw_isolates_submissions_witness :
  let '(ui', evs) :=
    handleWithdraw nat Samples.keyOf Samples.healthOk Samples.prepareOk
      Samples.submitSecondFails Samples.notes3 "recipient" idle in
  prepared evs = [0; 1; 2]%nat /\
  submitted evs = [0; 1; 2]%nat /\
  successTxs ui' = ["sig1"; "sig3"]%string /\
  errorsSet evs = 1%nat /\
  error ui' = Some "Withdrawal 2 failed: custom program error: 0x1772"%string.
Proof.
  pose proof (handleWithdraw_isolates_submissions nat Samples.keyOf Samples.healthOk
                Samples.prepareOk Samples.submitSecondFails Samples.notes3 "recipient" idle
                (take 32 (Withdrawal.utf8 "recipient" ++ replicate 32 0))
                (take 32 (Withdrawal.utf8 "protocol" ++ replicate 32 0))
                eq_refl
                ltac:(repeat constructor)
                eq_refl) as H.
  destruct (handleWithdraw nat Samples.keyOf Samples.healthOk Samples.prepareOk
              Samples.submitSecondFails Samples.notes3 "recipient" idle)
    as [ui' evs] eqn:E.
  destruct H as [H _].
  vm_compute in H. destruct H as (Hp & Hs & _ & Htx & He).
  split; [exact Hp |]. split; [exact Hs |]. split; [exact Htx |]. split; [exact He |].
  vm_compute in E. inversion E. reflexivity.
Defined.

(** C5 as stated fails: the second note's preparation throws, and the batch
    ends there. The first note, already prepared, is never submitted, and the
    third is not even prepared: no success, though only one item failed. *)
Lemma handleWithdraw_preparation_failure_aborts :
  let '(ui', evs) :=
    handleWithdraw nat Samples.keyOf Samples.healthOk Samples.prepareSecondFails
      Samples.submitOk Samples.notes3 "recipient" idle in
  prepared evs = [0; 1]%nat /\
  submitted evs = [] /\
  successTxs ui' = [] /\
  error ui'
  = Some "Failed to generate proof for note 2: Daemon getMerklePath (recover) failed (500): down"%string.
Proof. vm_compute. repeat split; reflexivity. Qed.

End WithdrawBarExamples.

(** ** Confirmation: the finalized-set and the polling loop *)

Section WsConfirmFacts.
Import WsConfirm.

Variable network : Network.

Lemma now_advance (ms : Z) (st : State) : now (advance ms st) = now st + ms.
Proof. unfold advance. destruct (fireDue _ _ _). reflexivity. Qed.

Lemma rpcCalls_advance (ms : Z) (st : State) : rpcCalls (advance ms st) = rpcCalls st.
Proof. unfold advance. destruct (fireDue _ _ _). reflexivity. Qed.

Lemma fireDue_subseteq (t : Z) (set : gset string) (tms : list (Z * string)) :
  fst (fireDue t set tms) ⊆ set.
Proof.
  unfold fireDue. cbn [fst]. induction tms as [| tm rest IH]; cbn [foldr]; [done |].
  destruct (fst tm <=? t); set_solver.
Qed.

Lemma confirmedSignatures_advance (ms : Z) (st : State) :
  confirmedSignatures (advance ms st) ⊆ confirmedSignatures st.
Proof.
  unfold advance.
  pose proof (fireDue_subseteq (now st + ms) (confirmedSignatures st) (timers st)) as H.
  by destruct (fireDue _ _ _).
Qed.

(** A signature stays in the set as long as none of its timers is due. *)
Lemma fireDue_keeps (t : Z) (set : gset string) (tms : list (Z * string)) (s : string) :
  s ∈ set ->
  (forall tm, tm ∈ tms -> snd tm = s -> t < fst tm) ->
  s ∈ fst (fireDue t set tms).
Proof.
  intros Hin Hlate. unfold fireDue. cbn [fst].
  induction tms as [| tm rest IH]; cbn [foldr]; [done |].
  assert (IH' : s ∈ foldr (fun tm s0 => if fst tm <=? t then s0 ∖ {[ snd tm ]} else s0)
                       set rest).
  { apply IH. intros tm' Hin' Hs. apply Hlate; [by right | done]. }
  destruct (fst tm <=? t) eqn:E; [| done].
  apply Z.leb_le in E.
  assert (snd tm <> s).
  { intros Heq. specialize (Hlate tm ltac:(by left) Heq). lia. }
  set_solver.
Qed.

Lemma timersSound_advance (ms : Z) (st : State) :
  timersSound st -> timersSound (advance ms st).
Proof.
  intros [Hnd Hin]. unfold timersSound, advance, fireDue. cbn.
  set (t := now st + ms).
  split.
  - clear Hin. induction (timers st) as [| tm rest IH]; [constructor |].
    cbn in Hnd. apply NoDup_cons in Hnd as [Hnotin Hnd].
    destruct (decide (t < fst tm)) as [Hlt | Hge].
    + rewrite filter_cons_True by done. cbn. apply NoDup_cons. split; [| by apply IH].
      intros Hin. apply Hnotin. apply list_elem_of_fmap in Hin as (y & Hy & Hin).
      apply list_elem_of_fmap. exists y. split; [done |].
      by apply list_elem_of_filter in Hin as [_ Hin].
    + rewrite filter_cons_False by done. by apply IH.
  - intros tm Htm. apply list_elem_of_filter in Htm as [Hlate Htm].
    pose proof (fireDue_keeps t (confirmedSignatures st) (timers st) (snd tm)
                  (Hin tm Htm)) as Hk.
    unfold fireDue in Hk. cbn [fst] in Hk. apply Hk.
    intros tm' Htm' Heq.
    assert (tm' = tm); [| by subst].
    clear -Hnd Htm Htm' Heq.
    induction (timers st) as [| x rest IH]; [by apply elem_of_nil in Htm |].
    cbn in Hnd. apply NoDup_cons in Hnd as [Hnotin Hnd].
    apply elem_of_cons in Htm as [-> | Htm]; apply elem_of_cons in Htm' as [-> | Htm'].
    + reflexivity.
    + exfalso. apply Hnotin. rewrite <- Heq. apply list_elem_of_fmap. by exists tm'.
    + exfalso. apply Hnotin. rewrite Heq. apply list_elem_of_fmap. by exists tm.
    + by apply IH.
Qed.

Lemma timersSound_countCall (st : State) : timersSound st -> timersSound (countCall st).
Proof. intros H. exact H. Qed.

Lemma timersSound_mark (signature : string) (st : State) :
  timersSound st -> signature ∉ confirmedSignatures st ->
  timersSound (markSignatureConfirmed signature st).
Proof.
  intros [Hnd Hin] Hnot. unfold timersSound, markSignatureConfirmed. cbn.
  split.
  - rewrite map_app. cbn. apply NoDup_app. split; [done |]. split.
    + intros x Hx Hx'. apply list_elem_of_singleton in Hx'. subst x.
      apply list_elem_of_fmap in Hx as (tm & Hs & Htm).
      apply Hnot. rewrite Hs. by apply Hin.
    + apply NoDup_singleton.
  - intros tm Htm. apply elem_of_app in Htm as [Htm | Htm].
    + apply elem_of_union_r. by apply Hin.
    + apply list_elem_of_singleton in Htm. subst tm. cbn. set_solver.
Qed.

(** The polling loop never puts a signature into the set, keeps the timers
    sound, and only lets time go forward. *)
Lemma pollLoop_state (fuel : nat) (signature commitment : string) (timeoutMs startTime : Z)
    (st : State) :
  let '(st', r) := pollLoop network fuel signature commitment timeoutMs startTime st in
  confirmedSignatures st' ⊆ confirmedSignatures st /\
  (timersSound st -> timersSound st') /\
  now st <= now st' /\
  (rpcCalls st <= rpcCalls st')%nat.
Proof.
  revert st. induction fuel as [| fuel IH]; intros st; cbn [pollLoop].
  - split; [set_solver | split; [tauto | split; lia]].
  - destruct (now st - startTime <? timeoutMs);
      [| split; [set_solver | split; [tauto | split; lia]]].
    destruct (isSignatureConfirmed signature st);
      [split; [set_solver | split; [tauto | split; lia]] |].
    destruct (network signature (now st)) as [r d].
    set (st1 := advance (Z.of_nat d) (countCall st)).
    assert (H1 : confirmedSignatures st1 ⊆ confirmedSignatures st)
      by exact (confirmedSignatures_advance (Z.of_nat d) (countCall st)).
    assert (H2 : timersSound st -> timersSound st1)
      by (intros; by apply timersSound_advance, timersSound_countCall).
    assert (H3 : now st <= now st1)
      by (unfold st1; rewrite now_advance; cbn; lia).
    assert (H4 : (rpcCalls st <= rpcCalls st1)%nat)
      by (unfold st1; rewrite rpcCalls_advance; cbn; lia).
    assert (Hnext : forall ms, 0 <= ms ->
      let '(st', r) := pollLoop network fuel signature commitment timeoutMs startTime
                         (advance ms st1) in
      confirmedSignatures st' ⊆ confirmedSignatures st /\
      (timersSound st -> timersSound st') /\ now st <= now st' /\
      (rpcCalls st <= rpcCalls st')%nat).
    { intros ms Hms. specialize (IH (advance ms st1)).
      destruct (pollLoop network fuel signature commitment timeoutMs startTime
                  (advance ms st1)) as [st' r'].
      destruct IH as (I1 & I2 & I3 & I4).
      pose proof (confirmedSignatures_advance ms st1).
      rewrite now_advance in I3. rewrite rpcCalls_advance in I4.
      split; [set_solver |]. split; [| split; lia].
      intros Hs. apply I2. by apply timersSound_advance, H2. }
    destruct (pollStep commitment r) as [| | pollError].
    + split; [assumption |]. split; [assumption |]. split; assumption.
    + apply (Hnext 1000). lia.
    + destruct (is429Error pollError); [apply (Hnext (1000 * 2)) | apply (Hnext 1000)]; lia.
Qed.

(** With the iterations [pollFuel] allows, the loop always comes to an end. *)
Lemma pollLoop_ends (fuel : nat) (signature commitment : string) (timeoutMs startTime : Z)
    (st : State) :
  timeoutMs - (now st - startTime) <= 1000 * Z.of_nat fuel ->
  snd (pollLoop network (S fuel) signature commitment timeoutMs startTime st) <> None.
Proof.
  revert st. induction fuel as [| fuel IH]; intros st Hm.
  - cbn [pollLoop].
    destruct (now st - startTime <? timeoutMs) eqn:E; [apply Z.ltb_lt in E; lia | done].
  - cbn [pollLoop]. fold (pollLoop network).
    destruct (now st - startTime <? timeoutMs) eqn:E; [| done].
    destruct (isSignatureConfirmed signature st); [done |].
    destruct (network signature (now st)) as [r d].
    set (st1 := advance (Z.of_nat d) (countCall st)).
    assert (H3 : now st <= now st1)
      by (unfold st1; rewrite now_advance; cbn; lia).
    destruct (pollStep commitment r) as [| | pollError]; [done | |].
    + apply IH. rewrite now_advance. lia.
    + destruct (is429Error pollError); apply IH; rewrite now_advance; lia.
Qed.

Lemma confirmViaHttpPolling_returns (signature commitment : string) (timeoutMs : Z)
    (st : State) :
  snd (confirmViaHttpPolling network signature commitment timeoutMs st) <> None.
Proof.
  unfold confirmViaHttpPolling, pollFuel. apply pollLoop_ends.
  destruct (Z.le_gt_cases timeoutMs 0) as [Hle | Hpos]; [lia |].
  rewrite Z2Nat.id by (pose proof (Z.div_pos timeoutMs 1000); lia).
  pose proof (Z.mul_succ_div_gt timeoutMs 1000). lia.
Qed.

(** The only exception the polling loop lets out is the timeout. *)
Lemma pollLoop_throws_timeout (fuel : nat) (signature commitment : string)
    (timeoutMs startTime : Z) (st st' : State) (e : thrown) :
  pollLoop network fuel signature commitment timeoutMs startTime st = (st', Some (inr e)) ->
  e = ErrorObj (timeoutMessage timeoutMs).
Proof.
  revert st. induction fuel as [| fuel IH]; intros st; cbn [pollLoop]; [discriminate |].
  destruct (now st - startTime <? timeoutMs); [| by inversion 1].
  destruct (isSignatureConfirmed signature st); [discriminate |].
  destruct (network signature (now st)) as [r d].
  destruct (pollStep commitment r) as [| | pollError]; [discriminate | apply IH |].
  destruct (is429Error pollError); apply IH.
Qed.

End WsConfirmFacts.

Section WsConfirmTheorems.
Import WsConfirm.

Variable network : Network.

(** C8. A confirm call for a signature that is in the finalized-set returns
    the confirmed result at once and leaves the state as it was: no network
    call is issued. And after a first confirmation that succeeded by polling,
    a second call for the same signature made within the five minutes the
    entry lives is such a call: it issues no network call. *)
Theorem confirm_short_circuit (signature commitment : string) (httpTimeoutMs : Z)
    (st : State) :
  (signature ∈ confirmedSignatures st ->
     confirmTransactionWsFirst network signature commitment httpTimeoutMs st
     = (st, Some alreadyConfirmed)) /\
  (forall (st1 : State) (r : WsConfirmationResult) (idle : Z),
     timersSound st ->
     signature ∉ confirmedSignatures st ->
     confirmTransactionWsFirst network signature commitment httpTimeoutMs st = (st1, Some r) ->
     confirmed r = true ->
     0 <= idle < TTL_MS ->
     let st2 := advance idle st1 in
     confirmTransactionWsFirst network signature commitment httpTimeoutMs st2
     = (st2, Some alreadyConfirmed) /\
     rpcCalls st2 = rpcCalls st1).
Proof.
  assert (Hshort : forall s : State, signature ∈ confirmedSignatures s ->
            confirmTransactionWsFirst network signature commitment httpTimeoutMs s
            = (s, Some alreadyConfirmed)).
  { intros s Hin. unfold confirmTransactionWsFirst, isSignatureConfirmed.
    by rewrite bool_decide_eq_true_2. }
  split; [apply Hshort |].
  intros st1 r idle Hsound Hnot Hfirst Hconf Hidle st2.
  split; [| apply rpcCalls_advance].
  apply Hshort.
  unfold confirmTransactionWsFirst, isSignatureConfirmed in Hfirst.
  rewrite bool_decide_eq_false_2 in Hfirst by exact Hnot.
  unfold confirmViaHttpPolling in Hfirst.
  pose proof (pollLoop_state network (pollFuel httpTimeoutMs) signature commitment
                httpTimeoutMs (now st) st) as Hst.
  destruct (pollLoop network (pollFuel httpTimeoutMs) signature commitment httpTimeoutMs
              (now st) st) as [st' [[duration | e] |]].
  - destruct Hst as (Hsub & Hs' & _ & _).
    inversion Hfirst; subst st1 r. clear Hfirst.
    assert (Hnot' : signature ∉ confirmedSignatures st') by set_solver.
    destruct (Hs' Hsound) as [Hnd Hin'].
    unfold st2, advance, markSignatureConfirmed. cbn [now confirmedSignatures timers].
    pose proof (fireDue_keeps (now st' + idle) ({[signature]} ∪ confirmedSignatures st')
                  (timers st' ++ [(now st' + TTL_MS, signature)]) signature) as Hk.
    destruct (fireDue (now st' + idle) ({[signature]} ∪ confirmedSignatures st')
                (timers st' ++ [(now st' + TTL_MS, signature)])) as [set' tms'].
    cbn [confirmedSignatures fst] in *.
    apply Hk; [set_solver |].
    intros tm Htm Heq. apply elem_of_app in Htm as [Htm | Htm].
    + exfalso. apply Hnot'. rewrite <- Heq. by apply Hin'.
    + apply list_elem_of_singleton in Htm. subst tm. cbn. lia.
  - inversion Hfirst; subst. discriminate.
  - discriminate.
Qed.

(** The confirm call always returns a result: the polling loop ends. *)
Lemma confirmTransactionWsFirst_returns (signature commitment : string) (httpTimeoutMs : Z)
    (st : State) :
  snd (confirmTransactionWsFirst network signature commitment httpTimeoutMs st) <> None.
Proof.
  unfold confirmTransactionWsFirst.
  destruct (isSignatureConfirmed signature st); [done |].
  pose proof (confirmViaHttpPolling_returns network signature commitment httpTimeoutMs st)
    as H.
  destruct (confirmViaHttpPolling network signature commitment httpTimeoutMs st)
    as [st' [[d | e] |]]; cbn in *; done.
Qed.

(** The failure a confirm call reports is always the timeout: the error the
    loop raises for an on-chain failure is caught by the loop itself. *)
Lemma confirm_reports_only_timeout (signature commitment : string) (httpTimeoutMs : Z)
    (st st' : State) (r : WsConfirmationResult) :
  confirmTransactionWsFirst network signature commitment httpTimeoutMs st = (st', Some r) ->
  confirmed r = false ->
  error r = Some (timeoutMessage httpTimeoutMs).
Proof.
  unfold confirmTransactionWsFirst, confirmViaHttpPolling.
  destruct (isSignatureConfirmed signature st); [by inversion 1; subst |].
  destruct (pollLoop network (pollFuel httpTimeoutMs) signature commitment httpTimeoutMs
              (now st) st) as [st1 [[d | e] |]] eqn:E.
  - inversion 1; subst. discriminate.
  - apply pollLoop_throws_timeout in E. subst e.
    inversion 1; subst. reflexivity.
  - discriminate.
Qed.

End WsConfirmTheorems.

Section WsConfirmExamples.
Import WsConfirm.

(** The first confirm polls once; the second, a minute later, polls not at all. *)
Lemma confirm_short_circuit_witness :
  let first :=
    confirmTransactionWsFirst Samples.confirmsAtOnce "5xSig" "confirmed" 60000 (initial 0) in
  let st2 := advance 60000 (fst first) in
  snd first = Some {| confirmed := true; confirmMode := http_fallback; durationMs := 280;
                      wsRotations := 0; error := None |} /\
  rpcCalls (fst first) = 1%nat /\
  confirmTransactionWsFirst Samples.confirmsAtOnce "5xSig" "confirmed" 60000 st2
  = (st2, Some alreadyConfirmed) /\
  rpcCalls st2 = 1%nat.
Proof.
  cbn zeta.
  assert (Hr : snd (confirmTransactionWsFirst Samples.confirmsAtOnce "5xSig" "confirmed"
                      60000 (initial 0))
               = Some {| confirmed := true; confirmMode := http_fallback; durationMs := 280;
                         wsRotations := 0; error := None |})
    by (vm_compute; reflexivity).
  assert (Hc : rpcCalls (fst (confirmTransactionWsFirst Samples.confirmsAtOnce "5xSig"
                                "confirmed" 60000 (initial 0))) = 1%nat)
    by (vm_compute; reflexivity).
  split; [exact Hr |]. split; [exact Hc |].
  destruct (confirmTransactionWsFirst Samples.confirmsAtOnce "5xSig" "confirmed" 60000
              (initial 0)) as [st1 r1] eqn:E.
  cbn [fst snd] in *. subst r1.
  destruct (confirm_short_circuit Samples.confirmsAtOnce "5xSig" "confirmed" 60000
              (initial 0)) as [_ H2].
  assert (Hsound : timersSound (initial 0)).
  { split; [constructor | intros tm Htm; by apply elem_of_nil in Htm]. }
  assert (Hnot : "5xSig"%string ∉ confirmedSignatures (initial 0)) by set_solver.
  assert (Hidle : 0 <= 60000 < TTL_MS) by (unfold TTL_MS; lia).
  destruct (H2 st1 _ 60000 Hsound Hnot E eq_refl Hidle) as [H3 H4].
  split; [exact H3 |]. rewrite H4. exact Hc.
Defined.

(** C9 on the code: the transaction failed on chain at the first poll, and
    the caller is told so only by the timeout, a minute and 47 polls later,
    in the words a transaction that never landed gets. *)
Lemma confirm_on_chain_failure_is_timeout :
  snd (confirmTransactionWsFirst Samples.failsOnChain "5xSig" "confirmed" 60000 (initial 0))
  = Some {| confirmed := false; confirmMode := http_fallback; durationMs := 60160;
            wsRotations := 0;
            error := Some "HTTP confirmation timeout after 60000ms"%string |} /\
  rpcCalls (fst (confirmTransactionWsFirst Samples.failsOnChain "5xSig" "confirmed" 60000
                   (initial 0))) = 47%nat /\
  snd (confirmTransactionWsFirst Samples.neverLands "5xSig" "confirmed" 60000 (initial 0))
  = snd (confirmTransactionWsFirst Samples.failsOnChain "5xSig" "confirmed" 60000
           (initial 0)).
Proof. vm_compute. repeat split; reflexivity. Qed.

End WsConfirmExamples.

(** ** Endpoint rotation: the cooldown after a rate limit *)

Section ResilientFacts.
Import Resilient.

Lemma segment_refl (st : State) : segment st [] st.
Proof.
  unfold segment. split; [lia |]. split; [intros; lia |].
  split; [intros b Hb; by apply elem_of_nil in Hb |].
  split; [| intros a Ha; by apply elem_of_nil in Ha].
  intros i j a b _ Hi. by rewrite lookup_nil in Hi.
Qed.

Lemma segment_trans (st st1 st2 : State) (tr1 tr2 : list Attempt) :
  segment st tr1 st1 -> segment st1 tr2 st2 -> segment st (tr1 ++ tr2) st2.
Proof.
  intros (N1 & M1 & A1 & R1 & L1) (N2 & M2 & A2 & R2 & L2).
  unfold segment.
  split; [lia |].
  split; [intros url; specialize (M1 url); specialize (M2 url); lia |].
  split.
  { intros b Hb. apply elem_of_app in Hb as [Hb | Hb].
    - destruct (A1 b Hb). split; [done | lia].
    - destruct (A2 b Hb). specialize (M1 (a_url b)). split; [lia | done]. }
  split.
  { intros i j a b Hij Hi Hj Hlim Hurl.
    destruct (decide (j < length tr1)%nat) as [Hj1 | Hj1].
    - rewrite lookup_app_l in Hi by lia. rewrite lookup_app_l in Hj by lia.
      by apply (R1 i j a b).
    - rewrite lookup_app_r in Hj by lia.
      assert (Hb : b ∈ tr2) by (by eapply list_elem_of_lookup_2).
      destruct (A2 b Hb) as [Hstart _].
      destruct (decide (i < length tr1)%nat) as [Hi1 | Hi1].
      + rewrite lookup_app_l in Hi by lia.
        assert (Ha : a ∈ tr1) by (by eapply list_elem_of_lookup_2).
        specialize (L1 a Ha Hlim). rewrite Hurl in Hstart. lia.
      + rewrite lookup_app_r in Hi by lia.
        apply (R2 (i - length tr1)%nat (j - length tr1)%nat a b); try done. lia. }
  intros a Ha Hlim. apply elem_of_app in Ha as [Ha | Ha].
  - specialize (L1 a Ha Hlim). specialize (M2 (a_url a)). lia.
  - by apply L2.
Qed.

Lemma segment_sleep (ms : Z) (st : State) : 0 <= ms -> segment st [] (sleep ms st).
Proof.
  intros Hms. unfold segment, sleep, availableFrom. cbn.
  split; [lia |].
  split; [intros url; destruct (endpointHealth st !! url); lia |].
  split; [intros b Hb; by apply elem_of_nil in Hb |].
  split; [| intros a Ha; by apply elem_of_nil in Ha].
  intros i j a b _ Hi. by rewrite lookup_nil in Hi.
Qed.

(** [isEndpointAvailable] as a stretch of execution; when it answers yes the
    endpoint has no health entry left and is available now. *)
Lemma isEndpointAvailable_segment (url : string) (st : State) :
  let '(available, st') := isEndpointAvailable url st in
  segment st [] st' /\ now st' = now st /\
  (available = true ->
     endpointHealth st' !! url = None /\ availableFrom st url = now st).
Proof.
  unfold isEndpointAvailable.
  destruct (endpointHealth st !! url) as [health |] eqn:E.
  - destruct (disabledUntil health <=? now st) eqn:Ed.
    + apply Z.leb_le in Ed.
      split; [| split; [reflexivity |]].
      * unfold segment, availableFrom, setHealth. cbn.
        split; [lia |]. split.
        { intros u. destruct (decide (u = url)) as [-> | Hne].
          - rewrite lookup_delete_eq, E. lia.
          - rewrite lookup_delete_ne by done. lia. }
        split; [intros b Hb; by apply elem_of_nil in Hb |].
        split; [| intros a Ha; by apply elem_of_nil in Ha].
        intros i j a b _ Hi. by rewrite lookup_nil in Hi.
      * intros _. unfold setHealth, availableFrom. cbn.
        rewrite lookup_delete_eq, E. split; [reflexivity | lia].
    + split; [apply segment_refl | split; [reflexivity | discriminate]].
  - split; [apply segment_refl | split; [reflexivity |]].
    intros _. unfold availableFrom. by rewrite E.
Qed.

(** What [tryEndpointWithRetry] does on one endpoint: every attempt is on that
    endpoint, and a rate-limited attempt is the last one, ends the loop at once
    and is what the loop throws. *)
Lemma tryEndpointLoop_attempts {T} (env : Env T) (url : string) (maxRetries : Z)
    (left : nat) (attempt t : Z) :
  let '(tr, t', r) := tryEndpointLoop env url maxRetries left attempt t in
  t <= t' /\
  (forall b, b ∈ tr -> a_url b = url /\ t <= a_started b /\ a_finished b <= t') /\
  (forall i a, tr !! i = Some a -> limited a = true ->
     S i = length tr /\ a_finished a = t' /\
     exists e, r = inr e /\ is429Error e = true) /\
  (forall v, r = inl v ->
     exists a, last tr = Some a /\ succeeded a = true /\ a_url a = url).
Proof.
  revert attempt t. induction left as [| left IH]; intros attempt t; cbn [tryEndpointLoop].
  - split; [lia |]. split; [intros b Hb; by apply elem_of_nil in Hb |].
    split; [intros i a Hi; by rewrite lookup_nil in Hi | discriminate].
  - destruct (operation env url t) as [[v | error] d].
    + split; [lia |]. split.
      { intros b Hb. apply list_elem_of_singleton in Hb as ->. cbn.
        split; [reflexivity | lia]. }
      split.
      { intros i a Hi Hlim. apply list_lookup_singleton_Some in Hi as [_ <-].
        discriminate. }
      intros v' _. eexists. split; [reflexivity |]. by split.
    + destruct (is429Error error) eqn:E429.
      { split; [lia |]. split.
        { intros b Hb. apply list_elem_of_singleton in Hb as ->. cbn.
        split; [reflexivity | lia]. }
        split; [| discriminate].
        intros i a Hi _. apply list_lookup_singleton_Some in Hi as [-> <-].
        split; [reflexivity |]. split; [reflexivity |]. by exists error. }
      assert (Hdelay : 0 <= 2 ^ attempt * 500 + Z.of_nat (jitter env (t + Z.of_nat d))).
      { assert (0 <= 2 ^ attempt) by (apply Z.pow_nonneg; lia). lia. }
      destruct (attempt <? maxRetries).
      * specialize (IH (attempt + 1)
                      (t + Z.of_nat d +
                       (2 ^ attempt * 500 + Z.of_nat (jitter env (t + Z.of_nat d))))).
        destruct (tryEndpointLoop env url maxRetries left (attempt + 1) _)
          as [[tr t''] r'].
        destruct IH as (Ht & Hall & Hlim & Hok).
        split; [lia |]. split.
        { intros b Hb. apply elem_of_cons in Hb as [-> | Hb].
          - cbn. split; [reflexivity | lia].
          - destruct (Hall b Hb) as (? & ? & ?). repeat split; [done | lia | lia]. }
        split.
        { intros [| i] a Hi Hl.
          - injection Hi as <-. unfold limited in Hl. cbn in Hl. congruence.
          - cbn in Hi. destruct (Hlim i a Hi Hl) as (Hlast & ? & ?).
            split; [cbn; lia | by split]. }
        intros v Hv. destruct (Hok v Hv) as (a & Hlast & ? & ?).
        exists a. split; [| by split].
        destruct tr as [| b tr]; [discriminate |]. exact Hlast.
      * split; [lia |]. split.
        { intros b Hb. apply list_elem_of_singleton in Hb as ->. cbn.
        split; [reflexivity | lia]. }
        split; [| discriminate].
        intros i a Hi Hl. apply list_lookup_singleton_Some in Hi as [_ <-].
        unfold limited in Hl. cbn in Hl. congruence.
Qed.

Lemma segment_reach {T} (env : Env T) (site : ClockRead) (st : State) :
  segment st [] (reach env site st).
Proof. apply segment_sleep. lia. Qed.

(** One visit of an endpoint that has just passed [isEndpointAvailable]: the
    attempts, then, [ms] later, the bookkeeping of [executeWithRotation]. *)
Lemma tryEndpoint_segment {T} (env : Env T) (url : string) (st : State) (ms : Z) :
  0 <= ms ->
  endpointHealth st !! url = None ->
  let '(tr, t', r) := tryEndpointWithRetry env url 2 (now st) in
  segment st tr (settle url r (sleep ms (setNow t' st))) /\
  (forall v, r = inl v ->
     exists a, last tr = Some a /\ succeeded a = true /\
       endpointHealth (settle url r (sleep ms (setNow t' st))) !! a_url a = None).
Proof.
  intros Hms Hnone. unfold tryEndpointWithRetry.
  pose proof (tryEndpointLoop_attempts env url 2 (Z.to_nat 2) 1 (now st)) as H.
  destruct (tryEndpointLoop env url 2 (Z.to_nat 2) 1 (now st)) as [[tr t'] r].
  destruct H as (Ht & Hall & Hlim & Hok).
  set (st1 := sleep ms (setNow t' st)).
  assert (Hnow1 : now st1 = t' + ms) by reflexivity.
  assert (Hnone1 : endpointHealth st1 !! url = None) by exact Hnone.
  assert (Hfrom : availableFrom st url = now st)
    by (unfold availableFrom; by rewrite Hnone).
  assert (Hresp : respectsCooldown tr).
  { intros i j a b Hij Hi Hj Hl _. destruct (Hlim i a Hi Hl) as (Hlast & _).
    apply lookup_lt_Some in Hj. lia. }
  assert (Hhealthy : markEndpointHealthy url st1 = st1).
  { unfold markEndpointHealthy. by rewrite Hnone1. }
  assert (Hmono : forall u, availableFrom st u <= availableFrom st1 u).
  { intros u. unfold availableFrom. cbn. destruct (endpointHealth st !! u); lia. }
  assert (Hatt : forall st', t' <= now st' -> forall b, b ∈ tr ->
            availableFrom st (a_url b) <= a_started b /\ a_finished b <= now st').
  { intros st' Hn b Hb. destruct (Hall b Hb) as (-> & ? & ?). rewrite Hfrom. lia. }
  destruct r as [v | e]; cbn [settle].
  - rewrite Hhealthy. split.
    + unfold segment. split; [cbn; lia |]. split; [exact Hmono |].
      split; [apply Hatt; lia |]. split; [exact Hresp |].
      intros a Ha Hl. apply list_elem_of_lookup in Ha as [i Hi].
      destruct (Hlim i a Hi Hl) as (_ & _ & e & He & _). discriminate.
    + intros _ _. destruct (Hok v eq_refl) as (a & Hlast & Hs & Hurl).
      exists a. split; [done |]. split; [done |]. rewrite Hurl. exact Hnone.
  - split; [| discriminate]. destruct (is429Error e) eqn:E429.
    + unfold segment. split; [cbn; lia |]. split.
      { intros u. unfold availableFrom, markEndpointDisabled. cbn.
        destruct (decide (u = url)) as [-> | Hne].
        - rewrite lookup_insert_eq, Hnone. cbn. unfold COOLDOWN_MS. lia.
        - rewrite lookup_insert_ne by done. destruct (endpointHealth st !! u); lia. }
      split; [apply Hatt; cbn; lia |]. split; [exact Hresp |].
      intros a Ha Hl. apply list_elem_of_lookup in Ha as [i Hi].
      destruct (Hlim i a Hi Hl) as (_ & Hfin & _).
      assert (Ha : a ∈ tr) by (by eapply list_elem_of_lookup_2).
      destruct (Hall a Ha) as (-> & _).
      unfold availableFrom, markEndpointDisabled. cbn.
      rewrite lookup_insert_eq. cbn. lia.
    + unfold segment. split; [cbn; lia |]. split; [exact Hmono |].
      split; [apply Hatt; lia |]. split; [exact Hresp |].
      intros a Ha Hl. apply list_elem_of_lookup in Ha as [i Hi].
      destruct (Hlim i a Hi Hl) as (_ & _ & e' & He & He'). congruence.
Qed.

Lemma rotate_segment {T} (env : Env T) (eps : list string) (i : nat) (st : State)
    (triedAny : bool) (errors : list (string * string)) :
  let '(tr, st', r) := rotate env eps i st triedAny errors in
  segment st tr st' /\
  (forall v, r = inl v ->
     exists a, last tr = Some a /\ succeeded a = true /\
       endpointHealth st' !! a_url a = None).
Proof.
  revert i st triedAny errors.
  induction eps as [| endpoint rest IH]; intros i st triedAny errors; cbn [rotate].
  - split; [apply segment_refl | discriminate].
  - pose proof (segment_reach env (MainCheck i) st) as Hreach.
    set (st0 := reach env (MainCheck i) st) in *.
    pose proof (isEndpointAvailable_segment endpoint st0) as Ha.
    destruct (isEndpointAvailable endpoint st0) as [available sta].
    destruct Ha as (Hseg & Hnow & Hav).
    assert (Hseg0 : segment st [] sta) by (by apply (segment_trans st st0 sta [] [])).
    destruct available; cbn [negb].
    + destruct (Hav eq_refl) as [Hnone _].
      pose proof (tryEndpoint_segment env endpoint sta
                    (Z.of_nat (lag env (MainSettle i) (now (setNow
                       (snd (fst (tryEndpointWithRetry env endpoint 2 (now sta)))) sta))))
                    ltac:(lia) Hnone) as Htry.
      unfold reach.
      destruct (tryEndpointWithRetry env endpoint 2 (now sta)) as [[tr t'] r].
      cbn [fst snd] in Htry. destruct Htry as [Hs Hlast].
      destruct r as [v | error].
      * split.
        -- by apply (segment_trans st sta _ [] tr).
        -- intros _ _. exact (Hlast v eq_refl).
      * match goal with
        | |- context [rotate env rest ?k ?s ?b ?e] =>
            specialize (IH k s b e); destruct (rotate env rest k s b e) as [[tr' st'] r']
        end.
        destruct IH as [Hs' Hok]. split.
        -- apply (segment_trans st sta st' [] (tr ++ tr')); [done |].
           eapply segment_trans; eassumption.
        -- intros v Hv. destruct (Hok v Hv) as (a & Hl & ?).
           exists a. split; [| done]. by rewrite last_app, Hl.
    + specialize (IH (S i) sta triedAny errors).
      destruct (rotate env rest (S i) sta triedAny errors) as [[tr' st'] r'].
      destruct IH as [Hs' Hok]. split; [| done].
      by apply (segment_trans st sta st' [] tr').
Qed.

Lemma retryAfterWait_segment {T} (env : Env T) (eps : list string) (i : nat) (st : State) :
  let '(tr, st', r) := retryAfterWait env eps i st in
  segment st tr st' /\
  (forall v, r = Some (inl v) ->
     exists a, last tr = Some a /\ succeeded a = true /\
       endpointHealth st' !! a_url a = None).
Proof.
  revert i st. induction eps as [| endpoint rest IH]; intros i st; cbn [retryAfterWait].
  - split; [apply segment_refl | discriminate].
  - pose proof (segment_reach env (RetryCheck i) st) as Hreach.
    set (st0 := reach env (RetryCheck i) st) in *.
    pose proof (isEndpointAvailable_segment endpoint st0) as Ha.
    destruct (isEndpointAvailable endpoint st0) as [available sta].
    destruct Ha as (Hseg & Hnow & Hav).
    assert (Hseg0 : segment st [] sta) by (by apply (segment_trans st st0 sta [] [])).
    destruct available; cbn [negb].
    + destruct (Hav eq_refl) as [Hnone _].
      pose proof (tryEndpoint_segment env endpoint sta
                    (Z.of_nat (lag env (RetrySettle i) (now (setNow
                       (snd (fst (tryEndpointWithRetry env endpoint 2 (now sta)))) sta))))
                    ltac:(lia) Hnone) as Htry.
      unfold reach.
      destruct (tryEndpointWithRetry env endpoint 2 (now sta)) as [[tr t'] r].
      cbn [fst snd] in Htry. destruct Htry as [Hs Hlast].
      destruct r as [v | error].
      * split.
        -- by apply (segment_trans st sta _ [] tr).
        -- intros _ _. exact (Hlast v eq_refl).
      * split; [| discriminate]. by apply (segment_trans st sta _ [] tr).
    + specialize (IH (S i) sta).
      destruct (retryAfterWait env rest (S i) sta) as [[tr' st'] r'].
      destruct IH as [Hs' Hok]. split; [| done].
      by apply (segment_trans st sta st' [] tr').
Qed.

Lemma getShortestCooldownMs_nonneg (eps : list string) (st : State) :
  0 <= getShortestCooldownMs eps st.
Proof.
  unfold getShortestCooldownMs.
  assert (H : forall w, (forall x, w = Some x -> 0 <= x) ->
            0 <= shortestCooldownLoop eps st w).
  { induction eps as [| url rest IH]; intros w Hw; cbn [shortestCooldownLoop].
    - destruct w as [x |]; cbn; [by apply Hw | lia].
    - destruct (endpointHealth st !! url) as [health |]; [| lia].
      destruct (disabledUntil health <=? now st) eqn:E; [lia |].
      apply Z.leb_gt in E. apply IH. intros x Hx.
      destruct w as [w |].
      + destruct (disabledUntil health - now st <? w); injection Hx as <-;
          [lia | by apply Hw].
      + injection Hx as <-. lia. }
  apply H. discriminate.
Qed.

(** One call of [executeWithRotation], as a stretch of execution. *)
Lemma executeWithRotation_segment {T} (env : Env T) (preferNonPrimary : bool)
    (st : State) :
  let '(tr, st', r) := executeWithRotation env preferNonPrimary st in
  segment st tr st' /\
  (forall v, r = inl v ->
     exists a, last tr = Some a /\ succeeded a = true /\
       endpointHealth st' !! a_url a = None).
Proof.
  unfold executeWithRotation.
  pose proof (segment_sleep (Z.of_nat (admission env (now st))) st
                ltac:(lia)) as Hadm.
  set (st0 := sleep (Z.of_nat (admission env (now st))) st) in *.
  set (eps := if preferNonPrimary then rev (endpoints env) else endpoints env).
  pose proof (rotate_segment env eps 0 st0 false []) as Hrot.
  destruct (rotate env eps 0 st0 false []) as [[tr st1] r].
  destruct Hrot as [Hs1 Hok1].
  assert (Hs : segment st tr st1) by (by apply (segment_trans st st0 st1 [] tr)).
  destruct r as [v | [triedAny errors]].
  { split; [exact Hs |]. intros v' _. exact (Hok1 v eq_refl). }
  destruct triedAny; cbn [negb]; [split; [done | discriminate] |].
  pose proof (segment_reach env CooldownRead st1) as Hread.
  set (st1' := reach env CooldownRead st1) in *.
  assert (Hsr : segment st tr st1').
  { rewrite <- (app_nil_r tr). by apply (segment_trans st st1 st1' tr []). }
  destruct (_ && _) eqn:Ewait; [| split; [done | discriminate]].
  apply andb_true_iff in Ewait as [Hpos _]. apply Z.ltb_lt in Hpos.
  set (waitMs := getShortestCooldownMs (endpoints env) st1') in *.
  pose proof (segment_sleep (waitMs + 100) st1' ltac:(lia)) as Hwait.
  pose proof (retryAfterWait_segment env (endpoints env) 0 (sleep (waitMs + 100) st1'))
    as Hretry.
  destruct (retryAfterWait env (endpoints env) 0 (sleep (waitMs + 100) st1'))
    as [[tr' st2] r'].
  destruct Hretry as [Hs2 Hok2].
  assert (Hs' : segment st (tr ++ tr') st2).
  { eapply segment_trans; [exact Hsr |].
    by apply (segment_trans st1' (sleep (waitMs + 100) st1') st2 [] tr'). }
  destruct r' as [out |]; (split; [done |]); [| discriminate].
  intros v ->. destruct (Hok2 v eq_refl) as (a & Hl & ?).
  exists a. split; [| done]. by rewrite last_app, Hl.
Qed.

Lemma runCalls_segment {T} (calls : list (Call T)) (st : State) :
  let '(tr, st') := runCalls calls st in segment st tr st'.
Proof.
  revert st. induction calls as [| c rest IH]; intros st; cbn [runCalls].
  - apply segment_refl.
  - pose proof (segment_sleep (Z.of_nat (c_idle c)) st ltac:(lia)) as Hidle.
    set (st0 := sleep (Z.of_nat (c_idle c)) st) in *.
    pose proof (executeWithRotation_segment (c_env c) (c_preferNonPrimary c) st0)
      as Hcall.
    destruct (executeWithRotation (c_env c) (c_preferNonPrimary c) st0)
      as [[tr st1] r].
    destruct Hcall as [Hs1 _].
    specialize (IH st1). destruct (runCalls rest st1) as [tr' st2].
    apply (segment_trans st st0 st2 [] (tr ++ tr')); [done |].
    eapply segment_trans; eassumption.
Qed.

(** [availableFrom] is the time from which [isEndpointAvailable] says yes. *)
Lemma isEndpointAvailable_availableFrom (url : string) (st : State) :
  fst (isEndpointAvailable url st) = true <-> availableFrom st url <= now st.
Proof.
  unfold isEndpointAvailable, availableFrom.
  destruct (endpointHealth st !! url) as [health |]; [| cbn; split; [lia | done]].
  destruct (disabledUntil health <=? now st) eqn:E; cbn.
  - apply Z.leb_le in E. split; [lia | done].
  - apply Z.leb_gt in E. split; [done | lia].
Qed.

Lemma isEndpointAvailable_other (url u : string) (st : State) :
  u <> url ->
  endpointHealth (snd (isEndpointAvailable url st)) !! u = endpointHealth st !! u.
Proof.
  intros Hne. unfold isEndpointAvailable.
  destruct (endpointHealth st !! url) as [h |]; [| reflexivity].
  destruct (disabledUntil h <=? now st); [| reflexivity].
  cbn. by rewrite lookup_delete_ne.
Qed.

Lemma settle_other {T} (url u : string) (r : T + thrown) (st : State) :
  u <> url -> endpointHealth (settle url r st) !! u = endpointHealth st !! u.
Proof.
  intros Hne. unfold settle. destruct r as [v | e].
  - unfold markEndpointHealthy. destruct (endpointHealth st !! url); [| reflexivity].
    cbn. by rewrite lookup_delete_ne.
  - destruct (is429Error e); [| reflexivity].
    unfold markEndpointDisabled. cbn. by rewrite lookup_insert_ne.
Qed.

(** An endpoint whose cooldown, if it has one, is over at time [t]. *)
Lemma isEndpointAvailable_expired (url : string) (st : State) :
  (forall h, endpointHealth st !! url = Some h -> disabledUntil h <= now st) ->
  fst (isEndpointAvailable url st) = true.
Proof.
  intros H. unfold isEndpointAvailable.
  destruct (endpointHealth st !! url) as [h |]; [| reflexivity].
  specialize (H h eq_refl). apply Z.leb_le in H. by rewrite H.
Qed.

Lemma isEndpointAvailable_false (url : string) (st : State) (st' : State) :
  isEndpointAvailable url st = (false, st') -> st' = st.
Proof.
  unfold isEndpointAvailable.
  destruct (endpointHealth st !! url) as [h |]; [| discriminate].
  destruct (disabledUntil h <=? now st); [discriminate |]. by intros [= <-].
Qed.

Lemma tryEndpointWithRetry_attempts {T} (env : Env T) (url : string) (t : Z) :
  let '(tr, t', r) := tryEndpointWithRetry env url 2 t in
  tr <> [] /\ t <= t' /\
  (forall b, b ∈ tr -> a_url b = url) /\
  (forall i a, tr !! i = Some a -> limited a = true ->
     S i = length tr /\ a_finished a = t' /\ exists e, r = inr e /\ is429Error e = true) /\
  (forall v, r = inl v -> exists a, a ∈ tr /\ succeeded a = true).
Proof.
  unfold tryEndpointWithRetry.
  pose proof (tryEndpointLoop_attempts env url 2 (Z.to_nat 2) 1 t) as H.
  assert (Hne : fst (fst (tryEndpointLoop env url 2 (Z.to_nat 2) 1 t)) <> []).
  { change (Z.to_nat 2) with 2%nat. cbn [tryEndpointLoop].
    destruct (operation env url t) as [[v | error] d]; [discriminate |].
    destruct (is429Error error); [discriminate |].
    destruct (1 <? 2); [| discriminate].
    destruct (let '(r, d0) := operation env url _ in _) as [[tr t''] r'].
    discriminate. }
  destruct (tryEndpointLoop env url 2 (Z.to_nat 2) 1 t) as [[tr t'] r].
  destruct H as (Ht & Hall & Hlim & Hok). cbn [fst] in Hne.
  split; [exact Hne |]. split; [exact Ht |].
  split; [intros b Hb; by destruct (Hall b Hb) |]. split; [exact Hlim |].
  intros v Hv. destruct (Hok v Hv) as (a & Hl & Hs & _).
  exists a. split; [| exact Hs]. by apply last_Some_elem_of.
Qed.

(** How the main loop goes through its list: it leaves the health entries of
    other endpoints alone; its attempts follow the order of the list; an
    endpoint whose cooldown is over is tried unless the call has its answer
    first; and after a 429 the loop does not come back to the endpoint and
    goes on to those that follow. *)
Lemma rotate_visits {T} (env : Env T) (eps : list string) (k : nat) (st : State)
    (triedAny : bool) (errors : list (string * string)) :
  let '(tr, st', r) := rotate env eps k st triedAny errors in
  now st <= now st' /\
  (forall u, u ∉ eps -> endpointHealth st' !! u = endpointHealth st !! u) /\
  (forall errs, r = inr (false, errs) -> triedAny = false /\ tr = []) /\
  (forall i j a b, (i <= j)%nat -> tr !! i = Some a -> tr !! j = Some b ->
     exists p q, (p <= q)%nat /\ eps !! p = Some (a_url a) /\ eps !! q = Some (a_url b)) /\
  (NoDup eps ->
     (forall v, v ∈ eps ->
        (forall h, endpointHealth st !! v = Some h -> disabledUntil h <= now st) ->
        exists b, b ∈ tr /\ (a_url b = v \/ succeeded b = true)) /\
     (forall i a, tr !! i = Some a -> limited a = true ->
        (forall j b, (i < j)%nat -> tr !! j = Some b -> a_url b <> a_url a) /\
        (forall p q v, eps !! p = Some (a_url a) -> eps !! q = Some v -> (p < q)%nat ->
           (forall h, endpointHealth st !! v = Some h -> disabledUntil h <= a_finished a) ->
           exists j b, (i < j)%nat /\ tr !! j = Some b /\
                       (a_url b = v \/ succeeded b = true)))).
Proof.
  revert k st triedAny errors.
  induction eps as [| endpoint rest IH]; intros k st triedAny errors; cbn [rotate].
  - split; [lia |]. split; [done |].
    split; [intros errs [= -> _]; by split |].
    split; [intros i j a b _ Hi; by rewrite lookup_nil in Hi |].
    intros _. split; [intros v Hv; by apply elem_of_nil in Hv |].
    intros i a Hi. by rewrite lookup_nil in Hi.
  - set (st0 := reach env (MainCheck k) st).
    assert (Hnow0 : now st <= now st0) by (unfold st0, reach; cbn; lia).
    assert (Hh0 : endpointHealth st0 = endpointHealth st) by reflexivity.
    pose proof (isEndpointAvailable_segment endpoint st0) as Hav.
    pose proof (fun u => isEndpointAvailable_other endpoint u st0) as Hoth.
    pose proof (isEndpointAvailable_expired endpoint st0) as Hexp.
    pose proof (isEndpointAvailable_false endpoint st0) as Hfalse.
    destruct (isEndpointAvailable endpoint st0) as [available sta].
    destruct Hav as (_ & Hnowa & Hav). cbn [fst snd] in Hoth, Hexp.
    assert (Hha : forall u, u <> endpoint -> endpointHealth sta !! u = endpointHealth st !! u).
    { intros u Hu. rewrite <- Hh0. by apply Hoth. }
    assert (Hnotin : forall u, u ∉ endpoint :: rest -> u <> endpoint /\ u ∉ rest).
    { intros u Hu. split; intros H; apply Hu; [subst; by left | by right]. }
    destruct available; cbn [negb].
    + clear Hfalse Hexp. destruct (Hav eq_refl) as [Hnone _].
      pose proof (tryEndpointWithRetry_attempts env endpoint (now sta)) as Htry.
      destruct (tryEndpointWithRetry env endpoint 2 (now sta)) as [[tr0 t'] r0].
      destruct Htry as (Hne0 & Ht' & Hurl0 & Hlim0 & Hok0).
      set (st1 := settle endpoint r0 (reach env (MainSettle k) (setNow t' sta))).
      assert (Hnow1 : t' <= now st1).
      { unfold st1, settle, reach. destruct r0 as [v | e].
        - unfold markEndpointHealthy. cbn. destruct (endpointHealth sta !! endpoint); cbn; lia.
        - destruct (is429Error e); cbn; lia. }
      assert (Hh1 : forall u, u <> endpoint -> endpointHealth st1 !! u = endpointHealth st !! u).
      { intros u Hu. unfold st1. rewrite settle_other by exact Hu. cbn. by apply Hha. }
      assert (Hin0 : forall i a, tr0 !! i = Some a -> a_url a = endpoint).
      { intros i a Hi. apply Hurl0. by eapply list_elem_of_lookup_2. }
      destruct r0 as [v | error].
      * split; [lia |].
        split; [intros u Hu; apply Hh1; by destruct (Hnotin u Hu) |].
        split; [discriminate |].
        split.
        { intros i j a b _ Hi Hj. exists 0%nat, 0%nat. cbn.
          rewrite (Hin0 i a Hi), (Hin0 j b Hj). by split. }
        intros _. split.
        { intros u _ _. destruct (Hok0 v eq_refl) as (a & Ha & Hs).
          exists a. split; [exact Ha | by right]. }
        intros i a Hi Hl. destruct (Hlim0 i a Hi Hl) as (_ & _ & e & He & _). discriminate.
      * specialize (IH (S k) st1 true (errors ++ [(endpoint, messageOr "Unknown error" error)])).
        destruct (rotate env rest (S k) st1 true _) as [[tr' st'] r'].
        destruct IH as (Hnow' & Hoth' & Hnone' & Hord' & Hnd').
        split; [lia |].
        split.
        { intros u Hu. destruct (Hnotin u Hu) as [Hu1 Hu2].
          rewrite (Hoth' u Hu2). by apply Hh1. }
        split.
        { intros errs ->. destruct (Hnone' errs eq_refl) as [? _]. discriminate. }
        assert (Hrest : forall j b, tr' !! j = Some b -> exists q, rest !! q = Some (a_url b)).
        { intros j b Hj. destruct (Hord' j j b b ltac:(lia) Hj Hj) as (p & q & _ & _ & Hq).
          by exists q. }
        split.
        { intros i j a b Hij Hi Hj.
          destruct (decide (j < length tr0)%nat) as [Hj0 | Hj0].
          - rewrite lookup_app_l in Hi by lia. rewrite lookup_app_l in Hj by lia.
            exists 0%nat, 0%nat. cbn. rewrite (Hin0 i a Hi), (Hin0 j b Hj). by split.
          - rewrite lookup_app_r in Hj by lia.
            destruct (decide (i < length tr0)%nat) as [Hi0 | Hi0].
            + rewrite lookup_app_l in Hi by lia.
              destruct (Hrest _ b Hj) as [q Hq].
              exists 0%nat, (S q). cbn. rewrite (Hin0 i a Hi). split; [lia | by split].
            + rewrite lookup_app_r in Hi by lia.
              destruct (Hord' (i - length tr0)%nat (j - length tr0)%nat a b ltac:(lia) Hi Hj)
                as (p & q & Hpq & Hp & Hq).
              exists (S p), (S q). cbn. split; [lia | by split]. }
        intros Hnd. apply NoDup_cons in Hnd as [Hfresh Hnd].
        destruct (Hnd' Hnd) as [Hreach' Hmove'].
        assert (Hneq : forall v, v ∈ rest -> v <> endpoint) by (intros v Hv ->; done).
        split.
        { intros v Hv Hexp. apply elem_of_cons in Hv as [-> | Hv].
          - destruct tr0 as [| b tr0]; [done |]. exists b.
            split; [apply elem_of_app; left; by left |]. left. by apply (Hin0 0%nat).
          - destruct (Hreach' v Hv) as (b & Hb & Hbv).
            { intros h Hh. rewrite (Hh1 v (Hneq v Hv)) in Hh. specialize (Hexp h Hh). lia. }
            exists b. split; [apply elem_of_app; by right | exact Hbv]. }
        intros i a Hi Hl.
        destruct (decide (i < length tr0)%nat) as [Hi0 | Hi0].
        -- rewrite lookup_app_l in Hi by lia.
           destruct (Hlim0 i a Hi Hl) as (Hlast & Hfin & _).
           pose proof (Hin0 i a Hi) as Ha.
           split.
           { intros j b Hij Hj. rewrite lookup_app_r in Hj by lia.
             destruct (Hrest _ b Hj) as [q Hq]. rewrite Ha.
             apply Hneq. by eapply list_elem_of_lookup_2. }
           intros p q v Hp Hq Hpq Hexp.
           destruct q as [| q]; [lia |]. cbn in Hq.
           assert (Hv : v ∈ rest) by (by eapply list_elem_of_lookup_2).
           destruct (Hreach' v Hv) as (b & Hb & Hbv).
           { intros h Hh. rewrite (Hh1 v (Hneq v Hv)) in Hh. specialize (Hexp h Hh). lia. }
           apply list_elem_of_lookup in Hb as [j Hj].
           exists (length tr0 + j)%nat, b. split; [lia |].
           split; [| exact Hbv]. rewrite lookup_app_r by lia.
           by replace (length tr0 + j - length tr0)%nat with j by lia.
        -- rewrite lookup_app_r in Hi by lia.
           destruct (Hmove' _ a Hi Hl) as [Hno Hgo].
           destruct (Hrest _ a Hi) as [pa Hpa].
           assert (Hain : a_url a ∈ rest) by (by eapply list_elem_of_lookup_2).
           split.
           { intros j b Hij Hj. rewrite lookup_app_r in Hj by lia.
             apply (Hno (j - length tr0)%nat b); [lia | exact Hj]. }
           intros p q v Hp Hq Hpq Hexp.
           destruct p as [| p]; [cbn in Hp; injection Hp as Hp; by destruct (Hneq _ Hain) |].
           destruct q as [| q]; [lia |]. cbn in Hp, Hq.
           assert (Hv : v ∈ rest) by (by eapply list_elem_of_lookup_2).
           destruct (Hgo p q v Hp Hq ltac:(lia)) as (j & b & Hij & Hj & Hbv).
           { intros h Hh. rewrite (Hh1 v (Hneq v Hv)) in Hh. by apply Hexp. }
           exists (length tr0 + j)%nat, b. split; [lia |].
           split; [| exact Hbv]. rewrite lookup_app_r by lia.
           by replace (length tr0 + j - length tr0)%nat with j by lia.
    + specialize (Hfalse sta eq_refl). subst sta.
      specialize (IH (S k) st0 triedAny errors).
      destruct (rotate env rest (S k) st0 triedAny errors) as [[tr' st'] r'].
      destruct IH as (Hnow' & Hoth' & Hnone' & Hord' & Hnd').
      split; [lia |].
      split.
      { intros u Hu. destruct (Hnotin u Hu) as [Hu1 Hu2]. by rewrite (Hoth' u Hu2). }
      split; [exact Hnone' |].
      split.
      { intros i j a b Hij Hi Hj.
        destruct (Hord' i j a b Hij Hi Hj) as (p & q & Hpq & Hp & Hq).
        exists (S p), (S q). cbn. split; [lia | by split]. }
      intros Hnd. apply NoDup_cons in Hnd as [Hfresh Hnd].
      destruct (Hnd' Hnd) as [Hreach' Hmove'].
      assert (Hneq : forall v, v ∈ rest -> v <> endpoint) by (intros v Hv ->; done).
      split.
      { intros v Hv Hexpv. apply elem_of_cons in Hv as [-> | Hv].
        - assert (Ht : fst (false, st0) = true); [| discriminate].
          apply Hexp. intros h Hh. rewrite Hh0 in Hh. specialize (Hexpv h Hh). lia.
        - apply (Hreach' v Hv). intros h Hh. rewrite Hh0 in Hh.
          specialize (Hexpv h Hh). lia. }
      intros i a Hi Hl. destruct (Hmove' i a Hi Hl) as [Hno Hgo].
      split; [exact Hno |].
      destruct (Hord' i i a a ltac:(lia) Hi Hi) as (pa & _ & _ & Hpa & _).
      assert (Hain : a_url a ∈ rest) by (by eapply list_elem_of_lookup_2).
      intros p q v Hp Hq Hpq Hexpv.
      destruct p as [| p]; [cbn in Hp; injection Hp as Hp; by destruct (Hneq _ Hain) |].
      destruct q as [| q]; [lia |]. cbn in Hp, Hq.
      apply (Hgo p q v Hp Hq ltac:(lia)). intros h Hh. rewrite Hh0 in Hh. by apply Hexpv.
Qed.

(** The retry loop tries one endpoint of its list, and a 429 there ends the
    call with the error of the retry. *)
Lemma retryAfterWait_visits {T} (env : Env T) (eps : list string) (k : nat) (st : State) :
  let '(tr, st', r) := retryAfterWait env eps k st in
  tr = [] \/
  exists u, u ∈ eps /\ (forall b, b ∈ tr -> a_url b = u) /\
    (forall i a, tr !! i = Some a -> limited a = true ->
       S i = length tr /\
       exists msg, r = Some (inr (ErrorObj ("RPC failed after cooldown wait: " +:+ msg)))).
Proof.
  revert k st. induction eps as [| endpoint rest IH]; intros k st; cbn [retryAfterWait].
  - by left.
  - destruct (isEndpointAvailable endpoint (reach env (RetryCheck k) st)) as [available sta].
    destruct available; cbn [negb].
    + pose proof (tryEndpointWithRetry_attempts env endpoint (now sta)) as Htry.
      destruct (tryEndpointWithRetry env endpoint 2 (now sta)) as [[tr0 t'] r0].
      destruct Htry as (_ & _ & Hurl0 & Hlim0 & _).
      destruct r0 as [v | error]; right; exists endpoint;
        (split; [by left |]); (split; [exact Hurl0 |]); intros i a Hi Hl;
        destruct (Hlim0 i a Hi Hl) as (Hlast & _ & e & He & _); [discriminate |].
      split; [exact Hlast |]. by eexists.
    + specialize (IH (S k) sta).
      destruct (retryAfterWait env rest (S k) sta) as [[tr' st'] r'].
      destruct IH as [-> | (u & Hu & Hall & Hlim)]; [by left |].
      right. exists u. split; [by right |]. by split.
Qed.

(** One call: its attempts follow the order in which it goes through the
    endpoints, and after a 429 it does not come back to the endpoint and goes
    on to the endpoints that follow, unless it is the retry after a wait. *)
Lemma executeWithRotation_moves_on {T} (env : Env T) (preferNonPrimary : bool)
    (st : State) :
  NoDup (endpoints env) ->
  let eps := if preferNonPrimary then rev (endpoints env) else endpoints env in
  let '(tr, st', r) := executeWithRotation env preferNonPrimary st in
  (forall i j a b, (i <= j)%nat -> tr !! i = Some a -> tr !! j = Some b ->
     exists p q, (p <= q)%nat /\ eps !! p = Some (a_url a) /\ eps !! q = Some (a_url b)) /\
  (forall i a, tr !! i = Some a -> limited a = true ->
     (forall j b, (i < j)%nat -> tr !! j = Some b -> a_url b <> a_url a) /\
     ((exists msg, r = inr (ErrorObj ("RPC failed after cooldown wait: " +:+ msg))) \/
      forall p q v, eps !! p = Some (a_url a) -> eps !! q = Some v -> (p < q)%nat ->
        (forall h, endpointHealth st !! v = Some h -> disabledUntil h <= a_finished a) ->
        exists j b, (i < j)%nat /\ tr !! j = Some b /\
                    (a_url b = v \/ succeeded b = true))).
Proof.
  intros Hnd. cbn zeta. unfold executeWithRotation.
  set (st0 := sleep (Z.of_nat (admission env (now st))) st).
  set (eps := if preferNonPrimary then rev (endpoints env) else endpoints env).
  assert (Hnd' : NoDup eps).
  { unfold eps. destruct preferNonPrimary; [| exact Hnd].
    apply NoDup_ListNoDup, List.NoDup_rev, NoDup_ListNoDup, Hnd. }
  assert (Heps : forall u, u ∈ endpoints env -> u ∈ eps).
  { intros u Hu. unfold eps. destruct preferNonPrimary; [| exact Hu].
    apply list_elem_of_In. apply -> in_rev. by apply list_elem_of_In. }
  pose proof (rotate_visits env eps 0 st0 false []) as Hrot.
  destruct (rotate env eps 0 st0 false []) as [[tr st1] r].
  destruct Hrot as (_ & _ & Hnone & Hord & Hgo). destruct (Hgo Hnd') as [_ Hmove].
  assert (Hmain : forall r0 : T + thrown,
    (forall i j a b, (i <= j)%nat -> tr !! i = Some a -> tr !! j = Some b ->
       exists p q, (p <= q)%nat /\ eps !! p = Some (a_url a) /\ eps !! q = Some (a_url b)) /\
    (forall i a, tr !! i = Some a -> limited a = true ->
       (forall j b, (i < j)%nat -> tr !! j = Some b -> a_url b <> a_url a) /\
       ((exists msg, r0 = inr (ErrorObj ("RPC failed after cooldown wait: " +:+ msg))) \/
        forall p q v, eps !! p = Some (a_url a) -> eps !! q = Some v -> (p < q)%nat ->
          (forall h, endpointHealth st !! v = Some h -> disabledUntil h <= a_finished a) ->
          exists j b, (i < j)%nat /\ tr !! j = Some b /\
                      (a_url b = v \/ succeeded b = true)))).
  { intros r0. split; [exact Hord |]. intros i a Hi Hl.
    destruct (Hmove i a Hi Hl) as [Hno Hon]. split; [exact Hno |]. right. exact Hon. }
  destruct r as [v | [triedAny errors]]; [apply Hmain |].
  destruct triedAny; cbn [negb]; [apply Hmain |].
  destruct (Hnone errors eq_refl) as [_ ->].
  destruct (_ && _); [| apply Hmain].
  match goal with
  | |- context [retryAfterWait env ?l ?k ?s] =>
      pose proof (retryAfterWait_visits env l k s) as Hretry;
      destruct (retryAfterWait env l k s) as [[tr' st2] r']
  end.
  cbn [app].
  assert (Hout : forall out : T + thrown,
    (tr' = [] \/
     exists u, u ∈ endpoints env /\ (forall b, b ∈ tr' -> a_url b = u) /\
       (forall i a, tr' !! i = Some a -> limited a = true ->
          S i = length tr' /\
          exists msg, inr (ErrorObj ("RPC failed after cooldown wait: " +:+ msg)) = out)) ->
    (forall i j a b, (i <= j)%nat -> tr' !! i = Some a -> tr' !! j = Some b ->
       exists p q, (p <= q)%nat /\ eps !! p = Some (a_url a) /\ eps !! q = Some (a_url b)) /\
    (forall i a, tr' !! i = Some a -> limited a = true ->
       (forall j b, (i < j)%nat -> tr' !! j = Some b -> a_url b <> a_url a) /\
       ((exists msg, out = inr (ErrorObj ("RPC failed after cooldown wait: " +:+ msg))) \/
        forall p q v, eps !! p = Some (a_url a) -> eps !! q = Some v -> (p < q)%nat ->
          (forall h, endpointHealth st !! v = Some h -> disabledUntil h <= a_finished a) ->
          exists j b, (i < j)%nat /\ tr' !! j = Some b /\
                      (a_url b = v \/ succeeded b = true)))).
  { intros out [-> | (u & Hu & Hall & Hlim)].
    - split; [intros i j a b _ Hi; by rewrite lookup_nil in Hi |].
      intros i a Hi. by rewrite lookup_nil in Hi.
    - split.
      + intros i j a b _ Hi Hj.
        apply Heps, list_elem_of_lookup in Hu as [p Hp].
        exists p, p. split; [lia |].
        rewrite (Hall a) by (by eapply list_elem_of_lookup_2).
        rewrite (Hall b) by (by eapply list_elem_of_lookup_2). by split.
      + intros i a Hi Hl. destruct (Hlim i a Hi Hl) as (Hlast & msg & Hmsg). split.
        * intros j b Hij Hj. apply lookup_lt_Some in Hj. lia.
        * left. by exists msg. }
  destruct r' as [out |]; apply Hout.
  - destruct Hretry as [-> | (u & Hu & Hall & Hlim)]; [by left |].
    right. exists u. split; [exact Hu |]. split; [exact Hall |].
    intros i a Hi Hl. destruct (Hlim i a Hi Hl) as (Hlast & msg & Hmsg).
    split; [exact Hlast |]. exists msg. by injection Hmsg as ->.
  - destruct Hretry as [-> | (u & Hu & Hall & Hlim)]; [by left |].
    right. exists u. split; [exact Hu |]. split; [exact Hall |].
    intros i a Hi Hl. by destruct (Hlim i a Hi Hl) as (_ & msg & Hmsg).
Qed.

End ResilientFacts.

Section ResilientTheorems.
Import Resilient.

(** C6, as the code has it. A 429 disables the endpoint from the moment the
    response is handled: from then on it passes [isEndpointAvailable] no
    earlier than [COOLDOWN_MS] after the response; and in a session whose
    calls run one after the other, every later attempt on that endpoint
    starts at least [COOLDOWN_MS] after the rate-limited one ended. A call
    that returns a value ends with a successful attempt on an endpoint that
    is left without a health entry. Within one call over a list without
    repetitions, the attempts follow the order of the list; after a 429 the
    call makes no further attempt on that endpoint and goes on: every
    endpoint that follows in the list and whose cooldown, if it has one, is
    over when the 429 arrives is tried, unless the call has its answer
    before. The one exception is the retry made after waiting out a
    cooldown: a 429 there ends the call with the error of that retry. *)
Theorem executeWithRotation_cooldown {T : Type} :
  (forall (calls : list (Call T)) (st : State),
     respectsCooldown (fst (runCalls calls st))) /\
  (forall (env : Env T) (preferNonPrimary : bool) (st : State),
     let '(tr, st', r) := executeWithRotation env preferNonPrimary st in
     respectsCooldown tr /\
     (forall a, a ∈ tr -> limited a = true ->
        a_finished a + COOLDOWN_MS <= availableFrom st' (a_url a)) /\
     (forall v, r = inl v ->
        exists a, last tr = Some a /\ succeeded a = true /\
          endpointHealth st' !! a_url a = None)) /\
  (forall (url : string) (e : thrown) (st : State),
     is429Error e = true ->
     availableFrom (settle (T:=T) url (inr e) st) url = now st + COOLDOWN_MS) /\
  (forall (url : string) (st : State),
     fst (isEndpointAvailable url st) = true <-> availableFrom st url <= now st) /\
  (forall (env : Env T) (preferNonPrimary : bool) (st : State),
     NoDup (endpoints env) ->
     let eps := if preferNonPrimary then rev (endpoints env) else endpoints env in
     let '(tr, st', r) := executeWithRotation env preferNonPrimary st in
     (forall i j a b, (i <= j)%nat -> tr !! i = Some a -> tr !! j = Some b ->
        exists p q, (p <= q)%nat /\
          eps !! p = Some (a_url a) /\ eps !! q = Some (a_url b)) /\
     (forall i a, tr !! i = Some a -> limited a = true ->
        (forall j b, (i < j)%nat -> tr !! j = Some b -> a_url b <> a_url a) /\
        ((exists msg, r = inr (ErrorObj ("RPC failed after cooldown wait: " +:+ msg))) \/
         forall p q v, eps !! p = Some (a_url a) -> eps !! q = Some v -> (p < q)%nat ->
           (forall h, endpointHealth st !! v = Some h ->
                      disabledUntil h <= a_finished a) ->
           exists j b, (i < j)%nat /\ tr !! j = Some b /\
                       (a_url b = v \/ succeeded b = true)))).
Proof.
  split; [| split; [| split; [| split]]].
  - intros calls st. pose proof (runCalls_segment calls st) as H.
    destruct (runCalls calls st) as [tr st']. cbn [fst].
    by destruct H as (_ & _ & _ & H & _).
  - intros env preferNonPrimary st.
    pose proof (executeWithRotation_segment env preferNonPrimary st) as H.
    destruct (executeWithRotation env preferNonPrimary st) as [[tr st'] r].
    destruct H as [(_ & _ & _ & Hresp & Hlim) Hok]. by repeat split.
  - intros url e st He. cbn [settle]. rewrite He.
    unfold availableFrom, markEndpointDisabled. cbn.
    rewrite lookup_insert_eq. cbn. unfold COOLDOWN_MS. lia.
  - apply isEndpointAvailable_availableFrom.
  - intros env preferNonPrimary st Hnd.
    exact (executeWithRotation_moves_on env preferNonPrimary st Hnd).
Qed.

(** C7, as the code has it. Whatever the endpoint's history, [markEndpointDisabled]
    disables it for exactly [COOLDOWN_MS] from now and counts one more
    failure; the count has no part in the window. *)
Theorem markEndpointDisabled_fixed_window (url : string) (st : State) :
  let st' := markEndpointDisabled url st in
  now st' = now st /\
  exists health,
    endpointHealth st' !! url = Some health /\
    disabledUntil health - now st' = COOLDOWN_MS /\
    failCount health
    = failCount (default {| disabledUntil := 0; failCount := 0 |}
                   (endpointHealth st !! url)) + 1.
Proof.
  cbn zeta. split; [reflexivity |]. eexists. split.
  - unfold markEndpointDisabled. cbn. apply lookup_insert_eq.
  - cbn. split; [lia | reflexivity].
Qed.

End ResilientTheorems.

Section ResilientExamples.
Import Resilient.

(** Three calls, at 0, 580 and 3620 ms: A answers the first with a 429, the
    second goes straight to B, the third finds A's cooldown over. *)
Example rotation_session :
  fst (runCalls [Samples.call (Samples.twoEndpoints 1000) 0;
                 Samples.call (Samples.twoEndpoints 1000) 500;
                 Samples.call (Samples.twoEndpoints 1000) 3000] (initial 0))
  = [ {| a_url := "A"; a_started := 0; a_finished := 40;
         a_error := Some Samples.rateLimited |};
      {| a_url := "B"; a_started := 40; a_finished := 80; a_error := None |};
      {| a_url := "B"; a_started := 580; a_finished := 620; a_error := None |};
      {| a_url := "A"; a_started := 3620; a_finished := 3660; a_error := None |} ].
Proof. vm_compute. reflexivity. Qed.

(** Both endpoints are in cooldown when the call arrives at 900 ms, A until
    1000 and B until 1050. The call waits 200 ms and retries: A answers with a
    429 and the call ends there, although B is available by then. *)
Example retry_after_wait_stops :
  let st := {| now := 900;
               endpointHealth :=
                 {[ "A"%string := {| disabledUntil := 1000; failCount := 1 |};
                    "B"%string := {| disabledUntil := 1050; failCount := 1 |} ]} |} in
  let '(tr, st', r) := executeWithRotation (Samples.twoEndpoints 5000) false st in
  tr = [ {| a_url := "A"; a_started := 1100; a_finished := 1140;
            a_error := Some Samples.rateLimited |} ] /\
  r = inr (ErrorObj "RPC failed after cooldown wait: 429 Too Many Requests") /\
  fst (isEndpointAvailable "B" st') = true.
Proof. vm_compute. repeat split; reflexivity. Qed.

(** C6, counterexample. Two calls overlap on A: both find it available, the
    first is answered with a 429 at 600 ms, which disables A until 2600 ms,
    and the second is answered normally at 700 ms, which deletes A's entry.
    The call made at 1000 ms selects A, 1600 ms before the cooldown is over. *)
Lemma overlapping_success_clears_cooldown :
  let checkX := isEndpointAvailable "A" (initial 0) in
  let checkY := isEndpointAvailable "A" (setNow 500 (snd checkX)) in
  let st3 := settle (T:=Z) "A" (inr Samples.rateLimited) (setNow 600 (snd checkY)) in
  let st4 := settle (T:=Z) "A" (inl 500) (setNow 700 st3) in
  fst checkX = true /\ fst checkY = true /\
  endpointHealth st3 !! "A" = Some {| disabledUntil := 2600; failCount := 1 |} /\
  endpointHealth st4 !! "A" = None /\
  fst (fst (executeWithRotation (Samples.twoEndpoints 0) false (setNow 1000 st4)))
  = [ {| a_url := "A"; a_started := 1000; a_finished := 1040; a_error := None |} ].
Proof. vm_compute. repeat split; reflexivity. Qed.

(** C7, counterexample. An endpoint answers two calls in a row with a 429, at
    40 ms and at 3080 ms: after the second it is disabled until 5080 ms, the
    same 2000 ms as after the first, with the failure count back at 1. Two
    429s handled while the entry is still there (calls that overlap) raise the
    count to 2 and leave the window at 2000 ms as well. *)
Lemma second_rate_limit_same_window :
  let first := runCalls [Samples.call Samples.alwaysLimited 0] (initial 0) in
  let second := runCalls [Samples.call Samples.alwaysLimited 3000] (snd first) in
  map a_finished (fst first) = [40] /\ map limited (fst first) = [true] /\
  endpointHealth (snd first) !! "A" = Some {| disabledUntil := 2040; failCount := 1 |} /\
  map a_finished (fst second) = [3080] /\ map limited (fst second) = [true] /\
  endpointHealth (snd second) !! "A" = Some {| disabledUntil := 5080; failCount := 1 |} /\
  5080 - 3080 = COOLDOWN_MS /\
  endpointHealth (markEndpointDisabled "A" (setNow 100 (markEndpointDisabled "A" (initial 0))))
    !! "A" = Some {| disabledUntil := 2100; failCount := 2 |} /\
  2100 - 100 = COOLDOWN_MS.
Proof. vm_compute. repeat split; reflexivity. Qed.

End ResilientExamples.

(** * Further properties *)

Import Js Types.

(** ** Numerals: printing and parsing integers *)

Section NumeralFacts.
Import Numerals.

Lemma uintDigits_range (d : Decimal.uint) : Forall (fun x => 0 <= x < 10) (uintDigits d).
Proof. induction d; constructor; (lia || assumption). Qed.

Lemma chars_string_of_uint (d : Decimal.uint) :
  chars (NilEmpty.string_of_uint d) = map digitChar (uintDigits d).
Proof. induction d; cbn; [reflexivity | ..]; f_equal; exact IHd. Qed.

Lemma digitPrefix_digits (base : Z) (ds : list Z) :
  base <= 16 -> Forall (fun x => 0 <= x < base) ds ->
  digitPrefix base (map digitChar ds) = ds.
Proof.
  intros Hb. induction 1 as [| d ds Hd _ IH]; [reflexivity |].
  cbn [map digitPrefix]. rewrite digitVal_digitChar by lia.
  destruct (d <? base) eqn:E; [by rewrite IH | apply Z.ltb_ge in E; lia].
Qed.

Lemma allDigits_digits (base : Z) (ds : list Z) :
  base <= 16 -> Forall (fun x => 0 <= x < base) ds ->
  allDigits base (map digitChar ds) = true.
Proof.
  intros Hb H. unfold allDigits. rewrite digitPrefix_digits by assumption.
  rewrite length_map. apply Nat.eqb_refl.
Qed.

Lemma valueBE_uintDigits (d : Decimal.uint) (a : Z) :
  fold_left (fun acc x => acc * 10 + x) (uintDigits d) a
  = a * 10 ^ Z.of_N (DecimalPos.Unsigned.usize d)
    + Z.of_N (DecimalPos.Unsigned.of_lu (Decimal.rev d)).
Proof.
  revert a. induction d; intros a;
    cbn [uintDigits fold_left DecimalPos.Unsigned.usize];
    [cbn; lia | ..];
    rewrite IHd; set (r := Decimal.rev d);
    unfold Decimal.rev; cbn [Decimal.revapp];
    rewrite (DecimalPos.Unsigned.of_lu_revapp d); fold r;
    cbn [DecimalPos.Unsigned.of_lu];
    rewrite N2Z.inj_succ, Z.pow_succ_r by lia;
    rewrite N2Z.inj_add, N2Z.inj_mul, N2Z.inj_pow;
    cbn; lia.
Qed.

Lemma valueBE_to_uint (p : positive) : valueBE 10 (uintDigits (Pos.to_uint p)) = Z.pos p.
Proof.
  unfold valueBE. rewrite valueBE_uintDigits.
  rewrite <- DecimalPos.Unsigned.of_uint_alt, DecimalPos.Unsigned.of_to. cbn. lia.
Qed.

Ltac dec_digit d H :=
  let C := fresh "C" in
  assert (C : 0 <= d < 16) by lia;
  apply digit_cases in C;
  repeat (destruct C as [-> | C]); [ .. | subst d ].

(** [BigInt(s)] on a string that starts with a decimal digit not followed by
    an [x]: the decimal branch. *)
Lemma BigInt_decimal (c : ascii) (t : list ascii) :
  (exists d, 0 <= d < 10 /\ c = digitChar d) ->
  (forall c2 t2, t = c2 :: t2 -> exists d, 0 <= d < 10 /\ c2 = digitChar d) ->
  BigInt (of_chars (c :: t))
  = if allDigits 10 (c :: t) then Ok (valueBE 10 (digitPrefix 10 (c :: t)))
    else Throw SyntaxError.
Proof.
  intros (d & Hd & ->) Ht. unfold BigInt, chars, of_chars.
  rewrite list_ascii_of_string_of_list_ascii.
  dec_digit d Hd; try lia; try reflexivity.
  destruct t as [| c2 t2]; [reflexivity |].
  destruct (Ht c2 t2 eq_refl) as (d2 & Hd2 & ->).
  dec_digit d2 Hd2; try lia; reflexivity.
Qed.

Lemma BigInt_digits (ds : list Z) :
  ds <> [] -> Forall (fun x => 0 <= x < 10) ds ->
  BigInt (of_chars (map digitChar ds)) = Ok (valueBE 10 ds).
Proof.
  intros Hne Hds. destruct ds as [| d rest]; [done |].
  cbn [map]. rewrite BigInt_decimal.
  - change (digitChar d :: map digitChar rest) with (map digitChar (d :: rest)).
    rewrite allDigits_digits, digitPrefix_digits by (lia || assumption). reflexivity.
  - exists d. split; [by inversion Hds | reflexivity].
  - intros c2 t2 Heq. destruct rest as [| d2 rest]; [discriminate |].
    inversion Heq. exists d2. split; [| reflexivity].
    inversion Hds as [| ? ? _ Hrest]. by inversion Hrest.
Qed.

Lemma uintDigits_nonnil (d : Decimal.uint) : d <> Decimal.Nil -> uintDigits d <> [].
Proof. destruct d; intros H; try discriminate. by destruct H. Qed.

Lemma toString10_pos (p : positive) :
  toString10 (Z.pos p) = of_chars (map digitChar (uintDigits (Pos.to_uint p))).
Proof.
  unfold toString10, of_chars. cbn [Z.to_int NilZero.string_of_int].
  rewrite <- chars_string_of_uint. unfold chars.
  rewrite string_of_list_ascii_of_string.
  unfold NilZero.string_of_uint.
  pose proof (DecimalPos.Unsigned.to_uint_nonnil p) as H.
  destruct (Pos.to_uint p); [by destruct H | reflexivity ..].
Qed.

(** Printing an integer in decimal and parsing it back with [BigInt]. *)
Lemma BigInt_toString10 (x : Z) : BigInt (toString10 x) = Ok x.
Proof.
  destruct x as [| p | p].
  - reflexivity.
  - rewrite toString10_pos, BigInt_digits.
    + by rewrite valueBE_to_uint.
    + apply uintDigits_nonnil, DecimalPos.Unsigned.to_uint_nonnil.
    + apply uintDigits_range.
  - assert (Hs : toString10 (Z.neg p)
                 = String "-"%char (toString10 (Z.pos p))) by reflexivity.
    rewrite Hs, toString10_pos.
    pose proof (uintDigits_nonnil _ (DecimalPos.Unsigned.to_uint_nonnil p)) as Hne.
    pose proof (uintDigits_range (Pos.to_uint p)) as Hr.
    pose proof (valueBE_to_uint p) as Hv.
    destruct (uintDigits (Pos.to_uint p)) as [| d rest]; [done |].
    unfold BigInt, chars, of_chars. cbn [list_ascii_of_string].
    rewrite list_ascii_of_string_of_list_ascii. cbn [map].
    change (digitChar d :: map digitChar rest) with (map digitChar (d :: rest)).
    rewrite allDigits_digits, digitPrefix_digits by (lia || assumption).
    by rewrite Hv.
Qed.

End NumeralFacts.

(** ** Bytes, hexadecimal text and field elements *)

Section HexFacts.

(** The two hexadecimal digits of each byte, high digit first. *)
Lemma padStart_byte (b : Z) :
  0 <= b < 256 ->
  padStart 2 "0"%char (toString16 b) = [digitChar (b / 16); digitChar (b mod 16)].
Proof.
  intros Hb. rewrite padStart_toString16 by (cbn; lia).
  cbn [seq map]. unfold hexDigitAt. cbn [Nat.sub Z.of_nat].
  change (16 ^ Z.pos 1) with 16. change (16 ^ 0) with 1.
  rewrite Z.div_1_r. f_equal. rewrite Z.mod_small; [reflexivity |].
  split; [apply Z.div_pos; lia | apply Z.div_lt_upper_bound; lia].
Qed.

Lemma hexDecode_pairs (bs : list Z) :
  Forall (fun b => 0 <= b < 256) bs ->
  RootAcceptance.hexDecode
    (concat (map (fun b => padStart 2 "0"%char (toString16 b)) bs)) = bs.
Proof.
  induction 1 as [| b bs Hb _ IH]; [reflexivity |].
  cbn [map concat]. rewrite padStart_byte by assumption.
  cbn [app RootAcceptance.hexDecode].
  assert (H1 : 0 <= b / 16 < 16)
    by (split; [apply Z.div_pos; lia | apply Z.div_lt_upper_bound; lia]).
  assert (H2 : 0 <= b mod 16 < 16) by (apply Z.mod_pos_bound; lia).
  rewrite !digitVal_digitChar by assumption.
  rewrite IH. f_equal. rewrite (Z.div_mod b 16) at 3 by lia. lia.
Qed.

(** [Buffer.from(hex, 'hex')] undoes the hexadecimal printing of bytes, with
    the [0x] in front removed. *)
Lemma hexDecode_bytesToHex0x (bs : list Z) :
  Forall (fun b => 0 <= b < 256) bs ->
  RootAcceptance.hexDecode (replace0x (Withdrawal.bytesToHex0x bs)) = bs.
Proof. intros H. unfold Withdrawal.bytesToHex0x. cbn [replace0x]. by apply hexDecode_pairs. Qed.

End HexFacts.

Section ByteFacts.
Import Serialization Poseidon.

Lemma bytesBE_range (data : list Z) :
  Forall (fun b => 0 <= b < 256) data ->
  0 <= bytesBE data < 256 ^ Z.of_nat (length data).
Proof.
  induction data as [| d ds IH] using rev_ind; intros H.
  - cbn. lia.
  - apply Forall_app in H as [Hds Hd]. inversion Hd as [| ? ? Hd' _]; subst.
    unfold bytesBE in *. rewrite valueBE_snoc, length_app. cbn [length].
    replace (Z.of_nat (length ds + 1)) with (Z.succ (Z.of_nat (length ds))) by lia.
    rewrite Z.pow_succ_r by lia. specialize (IH Hds). nia.
Qed.

Lemma beBytes_bytesBE (data : list Z) :
  Forall (fun b => 0 <= b < 256) data ->
  beBytes (length data) (bytesBE data) = data.
Proof.
  induction data as [| d ds IH] using rev_ind; intros H; [reflexivity |].
  apply Forall_app in H as [Hds Hd]. inversion Hd as [| ? ? Hd' _]; subst.
  rewrite length_app. cbn [length]. rewrite Nat.add_1_r, beBytes_S.
  unfold bytesBE in *. rewrite valueBE_snoc.
  replace ((valueBE 256 ds * 256 + d) / 256) with (valueBE 256 ds)
    by (apply Z.div_unique with d; lia).
  replace ((valueBE 256 ds * 256 + d) mod 256) with d
    by (apply Z.mod_unique with (valueBE 256 ds); lia).
  by rewrite IH.
Qed.

Lemma fieldToBytesBE_beBytes (x : Z) :
  0 <= x < 2 ^ 256 -> fieldToBytesBE x = beBytes 32 x.
Proof.
  intros Hx. unfold fieldToBytesBE.
  rewrite padStart_toString16; [apply hexToBytes32_digits | | lia].
  change (16 ^ Z.of_nat 64) with (2 ^ 256). exact Hx.
Qed.

Lemma BN254_P_256 : BN254_P < 2 ^ 256.
Proof. reflexivity. Qed.

Lemma bytesLE_rev (bs : list Z) : bytesLE (rev bs) = bytesBE bs.
Proof.
  induction bs as [| b bs IH] using rev_ind; [reflexivity |].
  rewrite rev_app_distr. cbn [rev app bytesLE]. rewrite IH.
  unfold bytesBE. rewrite valueBE_snoc. lia.
Qed.

End ByteFacts.

Section FieldEncodingTheorems.
Import Serialization Poseidon.

(** X1. [toBE32] and [bytesToFieldBE] are inverse on the field: a value below the
    prime is written as 32 bytes that read back as the value. A value at or
    above the prime is refused. There is no lower bound: a negative value that
    fits 63 hexadecimal digits is not refused. *)
Theorem toBE32_round_trip (x : Z) :
  (0 <= x < BN254_P ->
     exists bytes,
       toBE32 x = Ok bytes /\ length bytes = 32%nat /\
       Forall (fun b => 0 <= b < 256) bytes /\
       bytesToFieldBE bytes = Ok x) /\
  (BN254_P <= x ->
     toBE32 x = Throw (Error ("Value " +:+ toString10 x +:+ " exceeds field modulus"))) /\
  (- 16 ^ 63 < x < 0 -> is_ok (toBE32 x) = true).
Proof.
  split; [| split].
  - intros Hx. exists (beBytes 32 x).
    split; [by apply toBE32_spec |]. split; [apply length_beBytes |].
    split; [apply beBytes_range |].
    unfold bytesToFieldBE. rewrite length_beBytes. cbn [Nat.eqb negb].
    rewrite bytesBE_beBytes, Z.mod_small; [reflexivity |].
    pose proof BN254_P_256. change (256 ^ Z.of_nat 32) with (2 ^ 256). lia.
  - intros Hx. unfold toBE32.
    destruct (BN254_P <=? x) eqn:E; [reflexivity | apply Z.leb_gt in E; lia].
  - intros Hx. unfold toBE32.
    destruct (BN254_P <=? x) eqn:E.
    { apply Z.leb_le in E. assert (0 < BN254_P) by reflexivity. lia. }
    assert (Hlen : (length (toString16 x) <= 64)%nat).
    { unfold toString16. destruct (x <? 0) eqn:En; [| apply Z.ltb_ge in En; lia].
      cbn [length]. rewrite length_map, length_seq.
      assert (hexLen (Z.abs x) <= 63)%nat; [| lia].
      apply hexLen_le; [| lia]. change (16 ^ Z.of_nat 63) with (16 ^ 63). lia. }
    destruct (64 <? length (toString16 x))%nat eqn:E64; [| reflexivity].
    apply Nat.ltb_lt in E64. lia.
Qed.

(** X2. [fieldToBytesBE] and [bytesToFieldBE] are inverse on 32 bytes, and the
    little-endian variant holds the same value read from the other end. A
    byte array of another length is refused. *)
Theorem fieldToBytesBE_round_trip :
  (forall x, 0 <= x < 2 ^ 256 ->
     bytesToFieldBE (fieldToBytesBE x) = Ok x /\
     bytesLE (fieldToBytesLE x) = x /\
     length (fieldToBytesBE x) = 32%nat) /\
  (forall data, length data = 32%nat -> Forall (fun b => 0 <= b < 256) data ->
     exists x, bytesToFieldBE data = Ok x /\ 0 <= x < 2 ^ 256 /\
               fieldToBytesBE x = data) /\
  (forall data, length data <> 32%nat ->
     bytesToFieldBE data
     = Throw (Error ("Expected 32 bytes, got " +:+ toString10 (Z.of_nat (length data))))).
Proof.
  split; [| split].
  - intros x Hx. rewrite (fieldToBytesBE_beBytes x Hx).
    assert (Hv : bytesBE (beBytes 32 x) = x).
    { rewrite bytesBE_beBytes. apply Z.mod_small.
      change (256 ^ Z.of_nat 32) with (2 ^ 256). exact Hx. }
    split; [| split].
    + unfold bytesToFieldBE. rewrite length_beBytes. cbn [Nat.eqb negb]. by rewrite Hv.
    + unfold fieldToBytesLE. cbn zeta. rewrite (fieldToBytesBE_beBytes x Hx).
      by rewrite bytesLE_rev.
    + apply length_beBytes.
  - intros data Hlen Hdata. exists (bytesBE data).
    pose proof (bytesBE_range data Hdata) as Hr. rewrite Hlen in Hr.
    change (256 ^ Z.of_nat 32) with (2 ^ 256) in Hr.
    split; [| split; [exact Hr |]].
    + unfold bytesToFieldBE. rewrite Hlen. reflexivity.
    + rewrite fieldToBytesBE_beBytes by exact Hr.
      rewrite <- Hlen. by apply beBytes_bytesBE.
  - intros data Hlen. unfold bytesToFieldBE.
    destruct (length data =? 32)%nat eqn:E; [apply Nat.eqb_eq in E; lia | reflexivity].
Qed.

(** X3. [u64ToBE32]: 24 zero bytes and the value in eight big-endian bytes. A
    value above the 64-bit range is refused; a negative one is not, and is
    written modulo 2^64. *)
Theorem u64ToBE32_layout (x : Z) :
  (0 <= x < 2 ^ 64 ->
     u64ToBE32 x = Ok (replicate 24 0 ++ beBytes 8 x) /\
     length (replicate 24 0 ++ beBytes 8 x) = 32%nat /\
     bytesBE (replicate 24 0 ++ beBytes 8 x) = x) /\
  (2 ^ 64 <= x ->
     u64ToBE32 x = Throw (Error ("Value " +:+ toString10 x +:+ " exceeds u64"))) /\
  (x < 0 -> u64ToBE32 x = Ok (replicate 24 0 ++ beBytes 8 (x mod 2 ^ 64))).
Proof.
  assert (Hz : forall bs, bytesBE (replicate 24 0 ++ bs) = bytesBE bs).
  { intros bs. unfold bytesBE, valueBE. rewrite fold_left_app.
    replace (fold_left (fun acc d => acc * 256 + d) (replicate 24 0) 0) with 0
      by reflexivity.
    reflexivity. }
  split; [| split].
  - intros Hx. unfold u64ToBE32, u8_new.
    destruct (18446744073709551615 <? x) eqn:E; [apply Z.ltb_lt in E; lia |].
    rewrite Z.mod_small by lia.
    split; [reflexivity |]. split.
    + rewrite length_app, length_replicate, length_beBytes. reflexivity.
    + rewrite Hz, bytesBE_beBytes. apply Z.mod_small.
      change (256 ^ Z.of_nat 8) with (2 ^ 64). lia.
  - intros Hx. unfold u64ToBE32.
    destruct (18446744073709551615 <? x) eqn:E; [reflexivity | apply Z.ltb_ge in E; lia].
  - intros Hx. unfold u64ToBE32, u8_new.
    destruct (18446744073709551615 <? x) eqn:E; [apply Z.ltb_lt in E; lia | reflexivity].
Qed.

End FieldEncodingTheorems.

Section AddressTheorems.
Import Serialization Poseidon.

Lemma bytesBE_app (a b : list Z) :
  bytesBE (a ++ b) = bytesBE a * 256 ^ Z.of_nat (length b) + bytesBE b.
Proof.
  induction b as [| d ds IH] using rev_ind.
  - rewrite app_nil_r. cbn. lia.
  - rewrite app_assoc. unfold bytesBE in *. rewrite !valueBE_snoc, IH, length_app.
    cbn [length]. replace (Z.of_nat (length ds + 1)) with (Z.succ (Z.of_nat (length ds))) by lia.
    rewrite Z.pow_succ_r by lia. lia.
Qed.

Lemma bytesBE_zeros (n : nat) (bs : list Z) : bytesBE (replicate n 0 ++ bs) = bytesBE bs.
Proof.
  rewrite bytesBE_app.
  assert (H : bytesBE (replicate n 0) = 0).
  { induction n as [| n IH]; [reflexivity |].
    replace (replicate (S n) 0) with (replicate n 0 ++ [0])
      by (rewrite <- replicate_cons_app; reflexivity).
    unfold bytesBE in *. rewrite valueBE_snoc, IH. reflexivity. }
  rewrite H. lia.
Qed.

(** X4. [addressToBE32Parts] splits a 32-byte address into the integers of its
    first and last 16 bytes; each is below 2^128 and together they give the
    address back. An address of another length is refused. *)
Theorem addressToBE32Parts_split (address : list Z) :
  (length address = 32%nat -> Forall (fun b => 0 <= b < 256) address ->
     exists high low,
       addressToBE32Parts address = Ok (high, low) /\
       high = bytesBE (take 16 address) /\ low = bytesBE (drop 16 address) /\
       0 <= high < 2 ^ 128 /\ 0 <= low < 2 ^ 128 /\
       high * 2 ^ 128 + low = bytesBE address) /\
  (length address <> 32%nat ->
     addressToBE32Parts address = Throw (Error "Address must be 32 bytes")).
Proof.
  split.
  - intros Hlen Hb.
    exists (bytesBE (take 16 address)), (bytesBE (drop 16 address)).
    assert (Hhi : length (take 16 address) = 16%nat) by (rewrite length_take; lia).
    assert (Hlo : length (drop 16 address) = 16%nat) by (rewrite length_drop; lia).
    assert (Hset : forall src, length src = 16%nat ->
              u8_set (u8_new 32) src 16 = Ok (replicate 16 0 ++ src)).
    { intros src Hs. unfold u8_set, u8_new. rewrite length_replicate, Hs. cbn [Nat.add Nat.leb].
      rewrite take_replicate, drop_replicate. cbn [Nat.min Nat.sub replicate].
      by rewrite app_nil_r. }
    split.
    + unfold addressToBE32Parts. rewrite Hlen. cbn [Nat.eqb negb].
      unfold slice. rewrite drop_0. cbn [Nat.sub].
      rewrite (Hset (take 16 address) Hhi). cbn [mbind res_bind].
      replace (take 16 (drop 16 address)) with (drop 16 address)
        by (symmetry; apply take_ge; lia).
      rewrite (Hset (drop 16 address) Hlo). cbn [mbind res_bind].
      by rewrite !bytesBE_zeros.
    + split; [reflexivity |]. split; [reflexivity |].
      pose proof (bytesBE_range (take 16 address) ltac:(by apply Forall_take)) as R1.
      pose proof (bytesBE_range (drop 16 address) ltac:(by apply Forall_drop)) as R2.
      rewrite Hhi in R1. rewrite Hlo in R2.
      change (256 ^ Z.of_nat 16) with (2 ^ 128) in *.
      split; [exact R1 |]. split; [exact R2 |].
      rewrite <- (take_drop 16 address) at 3. rewrite bytesBE_app, Hlo. reflexivity.
  - intros Hlen. unfold addressToBE32Parts.
    destruct (length address =? 32)%nat eqn:E; [apply Nat.eqb_eq in E; lia | reflexivity].
Qed.

(** X5. A random field element is always inside the field, so [toBE32] never
    refuses it and it survives being printed as a decimal string. *)
Theorem generateRandomFieldElement_inField (getRandomValues : list Z -> list Z) :
  fillsWithBytes getRandomValues ->
  exists x,
    generateRandomFieldElement getRandomValues = Ok x /\
    0 <= x < BN254_P /\
    toBE32 x = Ok (beBytes 32 x) /\
    BigInt (toString10 x) = Ok x.
Proof.
  intros Hfill. destruct (Hfill (u8_new 32)) as [Hlen Hbytes].
  unfold u8_new in *. rewrite length_replicate in Hlen.
  pose proof (bytesBE_range _ Hbytes) as Hr.
  exists (Z.rem (bytesBE (getRandomValues (replicate 32 0))) BN254_P).
  assert (Hin : 0 <= Z.rem (bytesBE (getRandomValues (replicate 32 0))) BN254_P < BN254_P).
  { rewrite Z.rem_mod_nonneg by (reflexivity || lia).
    apply Z.mod_pos_bound. reflexivity. }
  split; [| split; [exact Hin | split; [by apply toBE32_spec | apply BigInt_toString10]]].
  unfold generateRandomFieldElement, bytesToFieldBE, u8_new. cbn zeta.
  rewrite Hlen. reflexivity.
Qed.

End AddressTheorems.

Section RandomExamples.
Import Serialization Poseidon.

Lemma generateRandomFieldElement_inField_witness :
  fillsWithBytes (fun buf => map (fun _ => 255) buf) /\
  exists x,
    generateRandomFieldElement (fun buf => map (fun _ => 255) buf) = Ok x /\
    0 <= x < BN254_P.
Proof.
  assert (H : fillsWithBytes (fun buf => map (fun _ => 255) buf)).
  { intros buf. split; [apply length_map |].
    apply Forall_forall. intros b Hb. apply list_elem_of_fmap in Hb as (? & -> & _). lia. }
  split; [exact H |].
  destruct (generateRandomFieldElement_inField _ H) as (x & Hx & Hr & _).
  exists x. by split.
Defined.

End RandomExamples.

(** ** Witness inputs: path indices, path elements and the shard of a leaf *)

Section WitnessInputTheorems.
Import Serialization Poseidon Withdrawal.

Lemma toInt32_small (x : Z) : - 2 ^ 31 <= x < 2 ^ 31 -> toInt32 x = x.
Proof. intros H. unfold toInt32. rewrite Z.mod_small; lia. Qed.

Lemma pathBits_value (n : nat) (idx : Z) :
  0 <= idx < 2 ^ 31 ->
  bitsLE (pathBits n idx) = idx mod 2 ^ Z.of_nat n /\
  Forall (fun b => b = 0 \/ b = 1) (pathBits n idx) /\
  length (pathBits n idx) = n.
Proof.
  revert idx. induction n as [| n IH]; intros idx Hidx.
  - cbn. rewrite Z.mod_1_r. by repeat split.
  - assert (Hland : forall x, Z.land x 1 = x mod 2).
    { intros x. change 1 with (Z.ones 1). rewrite Z.land_ones by lia. reflexivity. }
    cbn [pathBits bitsLE length]. rewrite toInt32_small by lia.
    rewrite Hland, Z.shiftr_div_pow2 by lia. change (2 ^ 1) with 2.
    assert (Hhalf : 0 <= idx / 2 < 2 ^ 31).
    { split; [apply Z.div_pos; lia | apply Z.div_lt_upper_bound; lia]. }
    destruct (IH (idx / 2) Hhalf) as (Hv & Hb & Hl).
    split; [| split].
    + rewrite Hv, Nat2Z.inj_succ, Z.pow_succ_r by lia.
      rewrite Z.rem_mul_r by lia. reflexivity.
    + constructor; [| exact Hb].
      pose proof (Z.mod_pos_bound idx 2 ltac:(lia)). lia.
    + by rewrite Hl.
Qed.

(** X6. The twenty path indices are the bits of the leaf index, lowest first: for
    a leaf below 2^20 they give the index back; the bits above the twentieth
    are dropped without notice. *)
Theorem pathBits_leafIndex (leafIndex : Z) :
  0 <= leafIndex < 2 ^ 31 ->
  length (pathBits 20 leafIndex) = 20%nat /\
  Forall (fun b => b = 0 \/ b = 1) (pathBits 20 leafIndex) /\
  bitsLE (pathBits 20 leafIndex) = leafIndex mod 2 ^ 20 /\
  (leafIndex < 2 ^ 20 -> bitsLE (pathBits 20 leafIndex) = leafIndex).
Proof.
  intros H. destruct (pathBits_value 20 leafIndex H) as (Hv & Hb & Hl).
  change (2 ^ Z.of_nat 20) with (2 ^ 20) in Hv.
  repeat split; try assumption.
  intros Hsmall. rewrite Hv. apply Z.mod_small. lia.
Qed.

(** X7. Every leaf index from 0 on falls into one of the twenty shards; the 128
    leaves of a block share a shard and the assignment repeats every 2560
    leaves. A negative index that is not a multiple of 2560 gives a negative
    shard number, for which the pool has no shard. *)
Theorem computeShardIndex_shards (leafIndex : Z) :
  (0 <= leafIndex ->
     0 <= computeShardIndex leafIndex < 20 /\
     computeShardIndex (leafIndex + 2560) = computeShardIndex leafIndex /\
     computeShardIndex (128 * (leafIndex / 128)) = computeShardIndex leafIndex) /\
  (leafIndex < 0 -> Z.rem leafIndex 2560 <> 0 ->
     computeShardIndex leafIndex < 0 /\
     forall shardPdas : list string, js_index shardPdas (computeShardIndex leafIndex) = None).
Proof.
  split.
  - intros H. split; [by apply computeShardIndex_range |].
    assert (H128 : 0 <= 128 * (leafIndex / 128)) by (pose proof (Z.div_pos leafIndex 128); lia).
    rewrite !computeShardIndex_floor by lia.
    split.
    + replace (leafIndex + 2560) with (leafIndex + 1 * 2560) by lia.
      by rewrite Z.mod_add by lia.
    + assert (Hshard : forall l, (l mod 2560) / 128 = (l / 128) mod 20).
      { intros l. change 2560 with (128 * 20). rewrite Z.rem_mul_r by lia.
        pose proof (Z.mod_pos_bound l 128 ltac:(lia)).
        rewrite Z.mul_comm, Z.div_add by lia.
        rewrite (Z.div_small (l mod 128)) by lia. lia. }
      rewrite !Hshard. rewrite (Z.mul_comm 128), Z.div_mul by lia. reflexivity.
  - intros Hneg Hrem.
    assert (Hlt : computeShardIndex leafIndex < 0).
    { unfold computeShardIndex. cbn zeta.
      pose proof (Z.rem_bound_pos_neg leafIndex 2560 ltac:(lia) ltac:(lia)) as Hb.
      assert (Z.rem leafIndex 2560 < 0) by lia.
      apply Z.div_lt_upper_bound; lia. }
    split; [exact Hlt |]. intros shardPdas. unfold js_index.
    destruct (computeShardIndex leafIndex <? 0) eqn:E; [reflexivity |].
    apply Z.ltb_ge in E. lia.
Qed.

End WitnessInputTheorems.

Section WitnessInputExamples.
Import Withdrawal.

Lemma pathBits_leafIndex_witness :
  0 <= 130 < 2 ^ 31 /\
  pathBits 20 130 = [0; 1; 0; 0; 0; 0; 0; 1; 0; 0; 0; 0; 0; 0; 0; 0; 0; 0; 0; 0] /\
  bitsLE (pathBits 20 130) = 130.
Proof.
  split; [lia |]. split; [reflexivity |].
  destruct (pathBits_leafIndex 130 ltac:(lia)) as (_ & _ & _ & H). apply H. lia.
Defined.

End WitnessInputExamples.

Section PathElementTheorems.
Import Serialization Poseidon Withdrawal.

Lemma valueBE_nonneg (base : Z) (ds : list Z) :
  0 <= base -> Forall (fun d => 0 <= d) ds -> 0 <= valueBE base ds.
Proof.
  intros Hb H. induction ds as [| d ds IH] using rev_ind; [cbn; lia |].
  apply Forall_app in H as [Hds Hd]. inversion Hd; subst.
  rewrite valueBE_snoc. specialize (IH Hds). nia.
Qed.

Lemma digitVal_nonneg (c : ascii) (d : Z) : digitVal c = Some d -> 0 <= d.
Proof.
  unfold digitVal. intros H.
  repeat match type of H with
         | (if ?b then _ else _) = _ => destruct b eqn:?
         end; inversion H; subst; lia.
Qed.

Lemma digitPrefix_nonneg (base : Z) (s : list ascii) :
  Forall (fun d => 0 <= d) (digitPrefix base s).
Proof.
  induction s as [| c t IH]; [constructor |].
  cbn [digitPrefix]. destruct (digitVal c) as [d |] eqn:E; [| constructor].
  destruct (d <? base); [| constructor].
  constructor; [by eapply digitVal_nonneg | exact IH].
Qed.

(** [BigInt('0x' + hex)] is never negative, and needs at least one digit. *)
Lemma BigInt_0x (t : list ascii) (v : Z) :
  BigInt (of_chars ("0"%char :: "x"%char :: t)) = Ok v -> 0 <= v /\ t <> [].
Proof.
  unfold BigInt, chars, of_chars. rewrite list_ascii_of_string_of_list_ascii.
  destruct t as [| c t']; [discriminate |].
  destruct (allDigits 16 (c :: t')); [| discriminate].
  intros H. split; [| discriminate].
  assert (Hv : v = valueBE 16 (digitPrefix 16 (c :: t'))) by congruence.
  rewrite Hv. apply valueBE_nonneg; [lia | apply digitPrefix_nonneg].
Qed.

(** X8. The path elements handed to the prover: one for each sibling, each the
    decimal text of the sibling's value reduced into the scalar field. *)
Theorem pathElementsOf_reduced (siblings elems : list string) :
  pathElementsOf siblings = Ok elems ->
  Forall2
    (fun s e =>
       exists v, BigInt (of_chars ("0"%char :: "x"%char :: replace0x (chars s))) = Ok v /\
                 BigInt e = Ok (v mod BN254_FIELD_MODULUS) /\
                 0 <= v mod BN254_FIELD_MODULUS < BN254_FIELD_MODULUS)
    siblings elems.
Proof.
  revert elems. induction siblings as [| s rest IH]; intros elems H.
  - inversion H. constructor.
  - cbn [pathElementsOf] in H.
    destruct (BigInt (of_chars ("0"%char :: "x"%char :: replace0x (chars s))))
      as [v | e] eqn:Ev; [| discriminate].
    cbn [mbind res_bind] in H.
    destruct (pathElementsOf rest) as [tl | e]; [| discriminate].
    cbn [mbind res_bind] in H. inversion H; subst. clear H.
    constructor; [| by apply IH].
    exists v. split; [exact Ev |].
    destruct (BigInt_0x _ _ Ev) as [Hv _].
    rewrite Z.rem_mod_nonneg by (reflexivity || lia).
    split; [apply BigInt_toString10 | apply Z.mod_pos_bound; reflexivity].
Qed.

(** A sibling without a hexadecimal digit, such as the empty string, makes
    the conversion throw. *)
Lemma pathElementsOf_empty_sibling (pre rest : list string) (s : string) :
  replace0x (chars s) = [] -> is_ok (pathElementsOf (pre ++ s :: rest)) = false.
Proof.
  intros Hs. induction pre as [| p pre IH]; cbn [app pathElementsOf].
  - rewrite Hs. reflexivity.
  - destruct (BigInt _); [| reflexivity]. cbn [mbind res_bind].
    destruct (pathElementsOf (pre ++ s :: rest)); [discriminate | reflexivity].
Qed.

End PathElementTheorems.

Section PathElementExamples.
Import Withdrawal.

(** Three siblings: with the prefix, without it, and one above the modulus
    (the modulus plus one), which is reduced to 1. *)
Lemma pathElementsOf_reduced_witness :
  let siblings :=
    ["0x01"; "ff";
     "0x30644e72e131a029b85045b68181585d2833e84879b9709143e1f593f0000002"]%string in
  pathElementsOf siblings = Ok ["1"; "255"; "1"]%string /\
  Forall2
    (fun s e =>
       exists v, BigInt (of_chars ("0"%char :: "x"%char :: replace0x (chars s))) = Ok v /\
                 BigInt e = Ok (v mod BN254_FIELD_MODULUS) /\
                 0 <= v mod BN254_FIELD_MODULUS < BN254_FIELD_MODULUS)
    siblings ["1"; "255"; "1"]%string.
Proof.
  cbn zeta.
  assert (H : pathElementsOf
                ["0x01"; "ff";
                 "0x30644e72e131a029b85045b68181585d2833e84879b9709143e1f593f0000002"]%string
              = Ok ["1"; "255"; "1"]%string) by (vm_compute; reflexivity).
  split; [exact H | exact (pathElementsOf_reduced _ _ H)].
Defined.

End PathElementExamples.

(** ** The witness that is built *)

Section WitnessFieldTheorems.
Import Serialization Poseidon Withdrawal.

Variable poseidon : list Z -> Z.

Lemma addressToBE32Parts_default : addressToBE32Parts PublicKey_default = Ok (0, 0).
Proof. reflexivity. Qed.

Lemma addressToBE32Parts_halves (address : list Z) :
  length address = 32%nat ->
  addressToBE32Parts address
  = Ok (bytesBE (take 16 address), bytesBE (drop 16 address)).
Proof.
  intros Hlen.
  assert (Hhi : length (take 16 address) = 16%nat) by (rewrite length_take; lia).
  assert (Hlo : length (drop 16 address) = 16%nat) by (rewrite length_drop; lia).
  assert (Hset : forall src, length src = 16%nat ->
            u8_set (u8_new 32) src 16 = Ok (replicate 16 0 ++ src)).
  { intros src Hs. unfold u8_set, u8_new. rewrite length_replicate, Hs. cbn [Nat.add Nat.leb].
    rewrite take_replicate, drop_replicate. cbn [Nat.min Nat.sub replicate].
    by rewrite app_nil_r. }
  unfold addressToBE32Parts. rewrite Hlen. cbn [Nat.eqb negb].
  unfold slice. rewrite drop_0. cbn [Nat.sub].
  rewrite (Hset (take 16 address) Hhi). cbn [mbind res_bind].
  replace (take 16 (drop 16 address)) with (drop 16 address)
    by (symmetry; apply take_ge; lia).
  rewrite (Hset (drop 16 address) Hlo). cbn [mbind res_bind].
  by rewrite !bytesBE_zeros.
Qed.

(** X9. What a witness that [buildWithdrawWitness] returns holds: the two secrets
    as the note has them; the bits of the leaf index; one reduced path element
    per sibling; fee and refund in decimal; the recipient split in two halves
    that give the address back; and for the protocol account the same, except
    that with a zero fee both halves are 0 whatever account was passed. With
    the nullifier and its hash within 256 bits, the nullifier hash is the
    single-input hash of the nullifier. *)
Theorem buildWithdrawWitness_fields (note : Note) (recipient protocol : PublicKey)
    (fee refund : Z) (w : WithdrawWitness) :
  snd (buildWithdrawWitness poseidon note recipient protocol fee refund) = Ok w ->
  exists nullifier secret,
    BigInt (nullifierSecret note) = Ok nullifier /\
    BigInt (noteSecret note) = Ok secret /\
    BigInt (w_nullifier w) = Ok nullifier /\
    BigInt (w_secret w) = Ok secret /\
    w_pathIndices w = pathBits 20 (leafIndex note) /\
    pathElementsOf (siblings note) = Ok (w_pathElements w) /\
    w_fee w = toString10 fee /\ w_refund w = toString10 refund /\
    addressToBE32Parts recipient
    = Ok (bytesBE (take 16 recipient), bytesBE (drop 16 recipient)) /\
    BigInt (w_recipientHigh w) = Ok (bytesBE (take 16 recipient)) /\
    BigInt (w_recipientLow w) = Ok (bytesBE (drop 16 recipient)) /\
    (fee = 0 -> w_protocolHigh w = "0"%string /\ w_protocolLow w = "0"%string) /\
    (fee <> 0 ->
       BigInt (w_protocolHigh w) = Ok (bytesBE (take 16 protocol)) /\
       BigInt (w_protocolLow w) = Ok (bytesBE (drop 16 protocol))) /\
    (0 <= nullifier < 2 ^ 256 -> 0 <= poseidon [nullifier] < 2 ^ 256 ->
       w_nullifierHash w = toString10 (poseidon [nullifier])).
Proof.
  assert (Hparts : forall address parts,
            addressToBE32Parts address = Ok parts ->
            parts = (bytesBE (take 16 address), bytesBE (drop 16 address))).
  { intros address parts H.
    destruct (decide (length address = 32%nat)) as [Hlen | Hlen].
    - rewrite (addressToBE32Parts_halves address Hlen) in H. congruence.
    - unfold addressToBE32Parts in H.
      destruct (length address =? 32)%nat eqn:E;
        [apply Nat.eqb_eq in E; lia | discriminate]. }
  unfold buildWithdrawWitness. intros H.
  destruct (BigInt (nullifierSecret note)) as [nullifier | e]; [| discriminate].
  destruct (BigInt (noteSecret note)) as [secret | e]; [| discriminate].
  cbn [snd] in H.
  destruct (poseidonHashSingle poseidon (fieldToBytesBE nullifier))
    as [nullifierHashBytes | e] eqn:Ehash; [| discriminate].
  cbn [mbind res_bind] in H.
  destruct (bytesToFieldBE nullifierHashBytes) as [nullifierHash | e] eqn:Efield;
    [| discriminate].
  cbn [mbind res_bind] in H.
  match type of H with
  | (mbind _ ?m) = _ => destruct m as [rootBigInt | e]; [| discriminate]
  end.
  cbn [mbind res_bind] in H.
  destruct (pathElementsOf (siblings note)) as [pathElements | e]; [| discriminate].
  cbn [mbind res_bind] in H.
  destruct (addressToBE32Parts recipient) as [recipientParts | e] eqn:Erec;
    [| discriminate].
  cbn [mbind res_bind] in H.
  destruct (addressToBE32Parts (if fee =? 0 then PublicKey_default else protocol))
    as [protocolParts | e] eqn:Eprot; [| discriminate].
  cbn [mbind res_bind] in H. inversion H; subst w; clear H. cbn.
  apply Hparts in Erec. subst recipientParts. cbn [fst snd].
  exists nullifier, secret.
  repeat (split; [first [reflexivity | apply BigInt_toString10] |]).
  split; [| split].
  - intros ->. cbn [Z.eqb] in Eprot. rewrite addressToBE32Parts_default in Eprot.
    inversion Eprot. by split.
  - intros Hfee. apply Z.eqb_neq in Hfee. rewrite Hfee in Eprot.
    apply Hparts in Eprot. subst protocolParts. cbn [fst snd].
    split; apply BigInt_toString10.
  - intros Hn Hh. f_equal.
    unfold poseidonHashSingle in Ehash.
    rewrite (fieldToBytesBE_beBytes nullifier Hn) in Ehash.
    unfold bytesToFieldBE in Ehash at 1. rewrite length_beBytes in Ehash.
    cbn [Nat.eqb negb mbind res_bind] in Ehash.
    rewrite bytesBE_beBytes, Z.mod_small in Ehash
      by (change (256 ^ Z.of_nat 32) with (2 ^ 256); lia).
    inversion Ehash; subst nullifierHashBytes.
    rewrite (fieldToBytesBE_beBytes _ Hh) in Efield.
    unfold bytesToFieldBE in Efield. rewrite length_beBytes in Efield.
    cbn [Nat.eqb negb] in Efield.
    rewrite bytesBE_beBytes, Z.mod_small in Efield
      by (change (256 ^ Z.of_nat 32) with (2 ^ 256); lia).
    congruence.
Qed.

End WitnessFieldTheorems.

Section WitnessFieldExamples.
Import Withdrawal.

(** The sample note, recipient and protocol account give a witness. *)
Lemma buildWithdrawWitness_fields_witness :
  exists w,
    snd (buildWithdrawWitness Samples.hash Samples.note Samples.recipient Samples.protocol
           500000 0) = Ok w /\
    w_fee w = "500000"%string /\
    w_pathIndices w = pathBits 20 (leafIndex Samples.note).
Proof.
  destruct (snd (buildWithdrawWitness Samples.hash Samples.note Samples.recipient
                   Samples.protocol 500000 0)) as [w | e] eqn:E;
    [| vm_compute in E; discriminate].
  exists w. split; [reflexivity |].
  destruct (buildWithdrawWitness_fields Samples.hash Samples.note Samples.recipient
              Samples.protocol 500000 0 w E)
    as (n & s & _ & _ & _ & _ & Hidx & _ & Hfee & _).
  split; [rewrite Hfee; reflexivity | exact Hidx].
Defined.

End WitnessFieldExamples.

(** ** The root as text, as a number and as bytes *)

Section RootBytesFacts.
Import Serialization Poseidon Withdrawal RootAcceptance.

Lemma digitVal_range (c : ascii) (d : Z) : digitVal c = Some d -> 0 <= d < 16.
Proof.
  unfold digitVal. intros H.
  repeat match type of H with
         | (if ?b then _ else _) = _ => destruct b eqn:?
         end; inversion H; subst; lia.
Qed.

Lemma length_digitPrefix (base : Z) (s : list ascii) :
  (length (digitPrefix base s) <= length s)%nat.
Proof.
  induction s as [| c t IH]; [done |]. cbn [digitPrefix].
  destruct (digitVal c) as [d |]; [| cbn; lia].
  destruct (d <? base); cbn; lia.
Qed.

Lemma allDigits_cons (base : Z) (c : ascii) (t : list ascii) :
  allDigits base (c :: t) = true ->
  exists d, digitVal c = Some d /\ d < base /\
            digitPrefix base (c :: t) = d :: digitPrefix base t /\
            allDigits base t = true.
Proof.
  unfold allDigits. cbn [digitPrefix]. intros H. apply Nat.eqb_eq in H.
  pose proof (length_digitPrefix base t) as Hle.
  destruct (digitVal c) as [d |]; [| discriminate].
  destruct (d <? base) eqn:E; [| discriminate].
  apply Z.ltb_lt in E. exists d. cbn [length] in H.
  repeat split; try done. apply Nat.eqb_eq. lia.
Qed.

(** Decoding an even number of hex digits as bytes gives the same number as
    reading them as one hexadecimal numeral. *)
Lemma hexDecode_value (n : nat) (h : list ascii) :
  length h = (2 * n)%nat -> allDigits 16 h = true ->
  length (hexDecode h) = n /\
  Forall (fun b => 0 <= b < 256) (hexDecode h) /\
  forall acc,
    fold_left (fun a d => a * 256 + d) (hexDecode h) acc
    = fold_left (fun a d => a * 16 + d) (digitPrefix 16 h) acc.
Proof.
  revert h. induction n as [| n IH]; intros h Hlen Hall.
  - destruct h; [| discriminate]. repeat split; constructor.
  - destruct h as [| a [| b t]]; try (cbn in Hlen; lia).
    apply allDigits_cons in Hall as (x & Ex & _ & Px & Hall).
    apply allDigits_cons in Hall as (y & Ey & _ & Py & Hall).
    destruct (IH t ltac:(cbn in Hlen; lia) Hall) as (L & F & V).
    pose proof (digitVal_range _ _ Ex). pose proof (digitVal_range _ _ Ey).
    cbn [hexDecode]. rewrite Ex, Ey, Px, Py. cbn [length fold_left].
    split; [by rewrite L |]. split; [constructor; [lia | exact F] |].
    intros acc. rewrite V. f_equal. lia.
Qed.

Lemma BigInt_0x_value (t : list ascii) (v : Z) :
  BigInt (of_chars ("0"%char :: "x"%char :: t)) = Ok v ->
  allDigits 16 t = true /\ v = valueBE 16 (digitPrefix 16 t).
Proof.
  unfold BigInt, chars, of_chars. rewrite list_ascii_of_string_of_list_ascii.
  destruct t as [| c t']; [discriminate |].
  destruct (allDigits 16 (c :: t')); [| discriminate].
  intros H. split; [reflexivity | congruence].
Qed.

Lemma toBE32_inv (x : Z) (bs : list Z) :
  0 <= x -> toBE32 x = Ok bs -> bs = beBytes 32 x /\ x < BN254_P /\ length bs = 32%nat.
Proof.
  intros Hx H.
  assert (Hlt : x < BN254_P).
  { destruct (Z_lt_le_dec x BN254_P) as [|Hge]; [done |].
    apply toBE32_overflow in Hge. rewrite H in Hge. discriminate. }
  rewrite toBE32_spec in H by lia. inversion H. by rewrite length_beBytes.
Qed.

(** The root as [prepareWithdrawalForProtocol] encodes it and as
    [isAcceptedRoot] decodes it: the same 32 bytes for 64 hex digits. *)
Lemma rootBytes_hexDecode (h : list ascii) (v : Z) (bs : list Z) :
  length h = 64%nat ->
  BigInt (of_chars ("0"%char :: "x"%char :: h)) = Ok v ->
  toBE32 v = Ok bs ->
  bs = hexDecode h.
Proof.
  intros Hlen Hv Hbs.
  pose proof (BigInt_0x _ _ Hv) as [Hpos _].
  apply BigInt_0x_value in Hv as [Hall ->].
  apply toBE32_inv in Hbs as (-> & _ & _); [| exact Hpos].
  destruct (hexDecode_value 32 h Hlen Hall) as (L & F & V).
  unfold valueBE. rewrite <- V. fold (valueBE 256 (hexDecode h)). fold (bytesBE (hexDecode h)).
  rewrite <- L at 1. by apply beBytes_bytesBE.
Qed.

Lemma u8_set_inv (target src : list Z) (offset : nat) (r : list Z) :
  u8_set target src offset = Ok r ->
  r = take offset target ++ src ++ drop (offset + length src) target /\
  length r = length target /\ (offset + length src <= length target)%nat.
Proof.
  unfold u8_set. destruct (offset + length src <=? length target)%nat eqn:E; [| discriminate].
  apply Nat.leb_le in E. intros H. inversion H; subst r. split; [done |].
  split; [| done]. rewrite !length_app, length_take, length_drop. lia.
Qed.

Lemma length_setBigUint64LE (buf : list Z) (offset : nat) (v : Z) :
  (offset + 8 <= length buf)%nat -> length (setBigUint64LE buf offset v) = length buf.
Proof.
  intros H. unfold setBigUint64LE, leBytes.
  rewrite !length_app, length_take, length_map, length_seq, length_drop. lia.
Qed.

(** Whatever the other fields are, the 32 bytes at offset 300 of the
    instruction data are the root, and the 32 at offset 8 the nullifier hash. *)
Lemma instructionDataOf_root (sha256 : list Z -> list Z) (fee : Z)
    (proof nullifierHashBytes rootBytes d : list Z) :
  instructionDataOf sha256 fee proof nullifierHashBytes rootBytes = Ok d ->
  length rootBytes = 32%nat ->
  length d = 348%nat /\ slice 300 332 d = rootBytes.
Proof.
  unfold instructionDataOf. intros H Hr.
  destruct (u8_set (u8_new (8 + 32 + 4 + 256 + 32 + 8 + 8)) (discriminator sha256) 0)
    as [d1 |] eqn:E1; [| discriminate].
  cbn [mbind res_bind] in H.
  destruct (u8_set d1 nullifierHashBytes (0 + 8)) as [d2 |] eqn:E2; [| discriminate].
  cbn [mbind res_bind] in H.
  match type of H with
  | mbind _ (u8_set ?t _ _) = _ => set (d3 := t) in *
  end.
  destruct (u8_set d3 proof (0 + 8 + 32 + 4)) as [d4 |] eqn:E4; [| discriminate].
  cbn [mbind res_bind] in H.
  destruct (u8_set d4 rootBytes (0 + 8 + 32 + 4 + 256)) as [d5 |] eqn:E5; [| discriminate].
  cbn [mbind res_bind] in H. inversion H; subst d; clear H.
  apply u8_set_inv in E1 as (_ & L1 & _). apply u8_set_inv in E2 as (_ & L2 & _).
  apply u8_set_inv in E4 as (_ & L4 & _). apply u8_set_inv in E5 as (-> & L5 & _).
  assert (L3 : length d3 = 348%nat).
  { unfold d3. rewrite !length_insert, L2, L1. unfold u8_new. by rewrite length_replicate. }
  rewrite L4, L3 in L5. rewrite Hr in *.
  change (0 + 8 + 32 + 4 + 256)%nat with 300%nat in *.
  change (300 + 32)%nat with 332%nat in *.
  set (d5 := take 300 d4 ++ rootBytes ++ drop 332 d4) in *.
  assert (L6 : length (setBigUint64LE d5 332 fee) = 348%nat)
    by (rewrite length_setBigUint64LE; lia).
  split; [rewrite length_setBigUint64LE; change (332 + 8)%nat with 340%nat; lia |].
  assert (L300 : length (take 300 d4) = 300%nat) by (rewrite length_take; lia).
  assert (Lle : forall v, length (leBytes 8 v) = 8%nat)
    by (intros v; unfold leBytes; by rewrite length_map, length_seq).
  assert (T1 : take 332 d5 = take 300 d4 ++ rootBytes).
  { unfold d5. rewrite app_assoc. apply take_app_length'. rewrite length_app. lia. }
  assert (T2 : take 340 (setBigUint64LE d5 332 fee)
               = take 300 d4 ++ rootBytes ++ leBytes 8 (fee mod 2 ^ 64)).
  { unfold setBigUint64LE. rewrite T1, <- app_assoc, 2!app_assoc.
    rewrite take_app_length'; [by rewrite <- app_assoc |].
    rewrite !length_app, Lle. lia. }
  unfold slice. unfold setBigUint64LE at 1.
  change (332 + 8)%nat with 340%nat. rewrite T2.
  rewrite <- !app_assoc. rewrite drop_app_length' by lia.
  apply take_app_length'. change (332 - 300)%nat with 32%nat. lia.
Qed.

End RootBytesFacts.

(** ** Preparing a withdrawal: ring first, daemon second *)

Section PrepareTheorems.
Import Serialization Poseidon Withdrawal RootAcceptance Prepare.

Variable getPoolConfig : string -> res PoolConfig.
Variable getOnChainMaxFeeBps : string -> res Z.
Variable calculateFeeFromBps : Z -> Z -> res Z.
Variable newPublicKey : string -> res PublicKey.
Variable findProgramAddressSync : list (list Z) -> PublicKey -> res (PublicKey * Z).
Variable sha256 : list Z -> list Z.
Variable getAccountInfo : PublicKey -> res (option (list Z)).
Variable getMultipleAccountsInfo : list PublicKey -> res (list (option (list Z))).
Variable getMerklePath : string -> string -> res MerklePathResponse.
Variable fullProve : WithdrawWitness -> res (SnarkjsProof * list string).
Variable poseidon : list Z -> Z.

Let prepare := prepareWithdrawalForProtocol getPoolConfig getOnChainMaxFeeBps
  calculateFeeFromBps newPublicKey findProgramAddressSync sha256 getAccountInfo
  getMultipleAccountsInfo getMerklePath fullProve poseidon.
Let accepted := isAcceptedRoot newPublicKey getAccountInfo getMultipleAccountsInfo.

Lemma In_map_ChainRead (e : Event) (reads : list RpcCall) :
  In e (map ChainRead reads) -> isDaemonCall e = false /\ isFullProve e = false.
Proof. intros H. apply in_map_iff in H as (c & <- & _). by split. Qed.

Lemma In_map_ConsoleError (e : Event) (console : list string) :
  In e (map ConsoleError console) -> isDaemonCall e = false /\ isFullProve e = false.
Proof. intros H. apply in_map_iff in H as (c & <- & _). by split. Qed.

Lemma run_bind_ok {A B} (m : Run A) (k : A -> Run B) (b : B) :
  snd (m ≫= k) = Ok b ->
  exists a, snd m = Ok a /\ snd (k a) = Ok b /\ fst (m ≫= k) = fst m ++ fst (k a).
Proof.
  destruct m as [t [a | e]]; cbn; [| discriminate].
  destruct (k a) as [t' r] eqn:E. cbn. intros ->. exists a. by rewrite E.
Qed.

Lemma run_bind_fst {A B} (m : Run A) (k : A -> Run B) :
  fst (m ≫= k) = fst m ++ match snd m with Ok a => fst (k a) | Throw _ => [] end.
Proof.
  destruct m as [t [a | e]]; cbn; [| by rewrite app_nil_r].
  by destruct (k a).
Qed.

Lemma run_bind_snd {A B} (m : Run A) (k : A -> Run B) :
  snd (m ≫= k) = match snd m with Ok a => snd (k a) | Throw e => Throw e end.
Proof. destruct m as [t [a | e]]; cbn; [| done]. by destruct (k a). Qed.

Lemma In_bind {A B} (e : Event) (m : Run A) (k : A -> Run B) :
  In e (fst (m ≫= k)) -> In e (fst m) \/ exists a, snd m = Ok a /\ In e (fst (k a)).
Proof.
  rewrite run_bind_fst, in_app_iff. intros [H | H]; [by left |].
  destruct (snd m) as [a | x]; [right; by exists a | destruct H].
Qed.

Lemma In_bind_later {A B} (e : Event) (m : Run A) (k : A -> Run B) (a : A) :
  snd m = Ok a -> In e (fst (k a)) -> In e (fst (m ≫= k)).
Proof. intros E H. rewrite run_bind_fst, in_app_iff, E. by right. Qed.

Lemma In_bind_now {A B} (e : Event) (m : Run A) (k : A -> Run B) :
  In e (fst m) -> In e (fst (m ≫= k)).
Proof. intros H. rewrite run_bind_fst, in_app_iff. by left. Qed.

Ltac run_step H :=
  lazymatch type of H with
  | In _ (fst (mbind _ _)) =>
      let a := fresh "a" in let E := fresh "E" in
      apply In_bind in H as [H | (a & E & H)]
  | In _ (fst (let '(_, _) := ?x in _)) =>
      let E := fresh "E" in destruct x eqn:E
  | In _ (fst (if ?b then _ else _)) =>
      let E := fresh "E" in destruct b eqn:E
  | In _ (fst (lift _)) => destruct H
  | In _ (fst (mret _)) => destruct H
  | In _ (fst (emit _)) => destruct H as [H | []]
  | In _ (fst (call _ _)) => destruct H as [H | []]
  | In _ (fst (map ChainRead _, _)) => apply In_map_ChainRead in H as [? ?]
  | In _ (fst (map ConsoleError _, _)) => apply In_map_ConsoleError in H as [? ?]
  end.

(** Stepping through a run that returned: each bind gives the value it passed on. *)
Tactic Notation "ok_bind" hyp(H) "as" ident(a) ident(E) :=
  let T := fresh "T" in
  apply run_bind_ok in H as (a & E & H & T); clear T; cbn [snd lift call emit] in E.

(** X10. Ring first: [prepareWithdrawalForProtocol] asks the daemon only when
    [isAcceptedRoot] did not find the note's root on chain, and then for this
    note's pool and commitment; and a preparation that succeeded without the
    root on chain did ask the daemon and was answered. *)
Theorem prepare_ring_first (note : Note) (recipient protocol : PublicKey) :
  (forall p c, In (DaemonCall p c) (fst (prepare note recipient protocol)) ->
     p = poolId note /\ c = commitment note /\
     exists poolConfig,
       getPoolConfig (poolId note) = Ok poolConfig /\
       found (snd (accepted poolConfig (rootAfter note))) = false) /\
  (forall psd poolConfig,
     snd (prepare note recipient protocol) = Ok psd ->
     getPoolConfig (poolId note) = Ok poolConfig ->
     found (snd (accepted poolConfig (rootAfter note))) = false ->
     In (DaemonCall (poolId note) (commitment note)) (fst (prepare note recipient protocol)) /\
     is_ok (getMerklePath (poolId note) (commitment note)) = true).
Proof.
  split.
  - intros p c. unfold prepare, prepareWithdrawalForProtocol, generateProof. intros H.
    repeat (run_step H; try discriminate).
    inversion H; subst p c. split; [done |]. split; [done |].
    exists a. cbn [snd lift] in E. split; [exact E |]. unfold accepted. by rewrite E3.
  - intros psd pc H Hpc Hnot. unfold accepted in Hnot.
    unfold prepare, prepareWithdrawalForProtocol in H |- *.
    assert (Hboth : is_ok (getMerklePath (poolId note) (commitment note)) = true /\
                    (is_ok (getMerklePath (poolId note) (commitment note)) = true ->
                     In (DaemonCall (poolId note) (commitment note))
                        (fst (prepare note recipient protocol)))); [| tauto].
    unfold prepare, prepareWithdrawalForProtocol.
    ok_bind H as pc' Epc. assert (pc' = pc) by congruence. subst pc'.
    ok_bind H as maxFeeBps Ebps. ok_bind H as fee Efee. ok_bind H as u1 Eu1.
    destruct (isAcceptedRoot newPublicKey getAccountInfo getMultipleAccountsInfo pc
                (rootAfter note)) as [reads rootResult] eqn:Eacc.
    cbn [snd] in Hnot. rewrite Hnot in *.
    ok_bind H as u2 Eu2. ok_bind H as fresh Efresh.
    ok_bind Efresh as u3 Eu3. ok_bind Efresh as daemonPath Epath.
    split; [by rewrite Epath |]. intros _.
    eapply In_bind_later; [exact Hpc |].
    eapply In_bind_later; [exact Ebps |].
    eapply In_bind_later; [exact Efee |].
    eapply In_bind_later; [exact Eu1 |]. rewrite Eacc.
    eapply In_bind_later; [exact Eu2 |].
    apply In_bind_now. rewrite Hnot. eapply In_bind_later; [exact Eu3 |].
    apply In_bind_now. by left.
Qed.


(** X11. The witness handed to the prover is the one [buildWithdrawWitness] makes
    of the note with the fee computed from the chain's limit and a zero
    refund: from the note's own root and siblings when the root was found on
    chain, from the daemon's answer otherwise. The prover never runs when the
    pool, the fee or the daemon's answer is missing. *)
Theorem prepare_proves_fresh_path (note : Note) (recipient protocol : PublicKey)
    (witness : WithdrawWitness) :
  In (FullProve witness) (fst (prepare note recipient protocol)) ->
  exists poolConfig maxFeeBps fee freshRoot freshSiblings,
    getPoolConfig (poolId note) = Ok poolConfig /\
    getOnChainMaxFeeBps (statePda poolConfig) = Ok maxFeeBps /\
    calculateFeeFromBps (denominationLamports poolConfig) maxFeeBps = Ok fee /\
    snd (buildWithdrawWitness poseidon (refreshed note freshRoot freshSiblings)
           recipient protocol fee 0) = Ok witness /\
    (if found (snd (accepted poolConfig (rootAfter note)))
     then freshRoot = rootAfter note /\ freshSiblings = siblings note
     else exists daemonPath,
            getMerklePath (poolId note) (commitment note) = Ok daemonPath /\
            freshRoot = mp_root daemonPath /\
            freshSiblings = mp_pathElements daemonPath).
Proof.
  unfold prepare, prepareWithdrawalForProtocol, generateProof. intros H.
  repeat (run_step H; try discriminate).
  inversion H; subst a6. cbn [snd lift call] in *.
  exists a, a0, a1, s, l0. repeat (split; [first [assumption | by rewrite E8] |]).
  unfold accepted. rewrite E3. cbn [snd].
  destruct (found r).
  - apply run_bind_ok in E5 as (? & _ & E5 & _). cbn in E5. by inversion E5.
  - apply run_bind_ok in E5 as (? & _ & E5 & _).
    apply run_bind_ok in E5 as (daemonPath & Epath & E5 & _).
    cbn in E5, Epath. exists daemonPath. by inversion E5.
Qed.


Lemma buildWithdrawInstruction_inv (note : Note) (recipient protocol : PublicKey) (fee : Z)
    (proof nullifierHashBytes rootBytes : list Z) (rr : option RootAcceptanceResult)
    (pc : PoolConfig) (ix : TransactionInstruction) :
  getPoolConfig (poolId note) = Ok pc ->
  buildWithdrawInstruction getPoolConfig newPublicKey findProgramAddressSync sha256
    note recipient protocol fee proof nullifierHashBytes rootBytes rr = Ok ix ->
  instructionDataOf sha256 fee proof nullifierHashBytes rootBytes = Ok (data ix) /\
  exists base shard,
    length base = 10%nat /\
    targetShardPdaOf newPublicKey note pc rr = Ok shard /\
    keys ix = base ++ match shard with Some pk => [shardAccount pk] | None => [] end.
Proof.
  intros Hpc. unfold buildWithdrawInstruction. rewrite Hpc. cbn [mbind res_bind].
  destruct (newPublicKey (programId pc)) as [programId |]; [| discriminate].
  cbn [mbind res_bind].
  destruct (newPublicKey (statePda pc)) as [statePda |]; [| discriminate].
  cbn [mbind res_bind].
  destruct (newPublicKey (vaultPda pc)) as [vaultPda |]; [| discriminate].
  cbn [mbind res_bind].
  destruct (newPublicKey (vkPda pc)) as [vkPda |]; [| discriminate].
  cbn [mbind res_bind].
  destruct (newPublicKey (metadataPda pc)) as [metadataPda |]; [| discriminate].
  cbn [mbind res_bind].
  destruct (deriveNullifierPda _ _ _ _) as [nullifierPda |]; [| discriminate].
  cbn [mbind res_bind].
  destruct (instructionDataOf sha256 fee proof nullifierHashBytes rootBytes)
    as [instructionData |]; [| discriminate].
  cbn [mbind res_bind].
  destruct (targetShardPdaOf newPublicKey note pc rr) as [shard |]; [| discriminate].
  cbn [mbind res_bind]. intros H. inversion H; subst ix; clear H. cbn [data keys].
  split; [reflexivity |].
  exists (baseKeys statePda vkPda (fst nullifierPda) vaultPda recipient protocol programId
            metadataPda), shard.
  split; [reflexivity |]. split; [reflexivity |]. by destruct shard.
Qed.

(** What a successful preparation consists of. *)
Lemma prepare_ok_inv (note : Note) (recipient protocol : PublicKey)
    (psd : ProtocolSubmissionData) :
  snd (prepare note recipient protocol) = Ok psd ->
  exists pc fee freshRoot rootBigInt,
    getPoolConfig (poolId note) = Ok pc /\
    (if found (snd (accepted pc (rootAfter note)))
     then freshRoot = rootAfter note
     else exists daemonPath,
            getMerklePath (poolId note) (commitment note) = Ok daemonPath /\
            freshRoot = mp_root daemonPath) /\
    (let rootHex := replace0x (chars freshRoot) in
     match rootHex with
     | [] => Ok 0
     | _ => BigInt (of_chars ("0"%char :: "x"%char :: rootHex))
     end) = Ok rootBigInt /\
    toBE32 rootBigInt = Ok (psd_rootBytes psd) /\
    (exists proof,
       buildWithdrawInstruction getPoolConfig newPublicKey findProgramAddressSync sha256
         note recipient protocol fee proof (psd_nullifierHashBytes psd) (psd_rootBytes psd)
         (if found (snd (accepted pc (rootAfter note)))
          then Some (snd (accepted pc (rootAfter note))) else None)
       = Ok (psd_instruction psd)) /\
    psd_fee psd = fee /\ psd_note psd = note /\ psd_poolId psd = poolId note.
Proof.
  unfold prepare, prepareWithdrawalForProtocol. intros H.
  ok_bind H as pc Epc. ok_bind H as maxFeeBps Ebps. ok_bind H as fee Efee.
  ok_bind H as u1 Eu1. unfold accepted.
  destruct (isAcceptedRoot newPublicKey getAccountInfo getMultipleAccountsInfo pc
              (rootAfter note)) as [reads rootResult] eqn:Eacc.
  ok_bind H as u2 Eu2. ok_bind H as fresh Efresh. destruct fresh as [freshRoot freshSiblings].
  ok_bind H as u3 Eu3.
  destruct (buildWithdrawWitness poseidon (refreshed note freshRoot freshSiblings)
              recipient protocol fee 0) as [console built] eqn:Ebuilt.
  ok_bind H as witness Ewitness. ok_bind H as u4 Eu4. ok_bind H as generated Egen.
  ok_bind H as nullifierHashBigInt En. ok_bind H as nullifierHashBytes Enb.
  ok_bind H as rootBigInt Erb. ok_bind H as rootBytes Erbs. ok_bind H as u5 Eu5.
  ok_bind H as instruction Eix. ok_bind H as u6 Eu6.
  cbn in H. inversion H; subst psd; clear H. cbn [psd_rootBytes psd_nullifierHashBytes
    psd_instruction psd_fee psd_note psd_poolId snd].
  exists pc, fee, freshRoot, rootBigInt. rewrite Eacc. cbn [snd].
  split; [exact Epc |]. split.
  { destruct (found rootResult).
    - ok_bind Efresh as u7 Eu7. cbn in Efresh. congruence.
    - ok_bind Efresh as u7 Eu7. ok_bind Efresh as daemonPath Epath. cbn in Efresh.
      exists daemonPath. split; [exact Epath | congruence]. }
  split; [exact Erb |]. split; [exact Erbs |].
  split; [by exists (fst generated) |]. done.
Qed.

(** X12. A preparation that found the note's root on chain sends the bytes it
    looked up: for a root of 64 hex digits, the root bytes of the submission
    are the buffer [isAcceptedRoot] compared with the chain, and they are the
    32 bytes at offset 300 of the instruction data. *)
Theorem prepare_sends_checked_root (note : Note) (recipient protocol : PublicKey)
    (psd : ProtocolSubmissionData) (poolConfig : PoolConfig) :
  snd (prepare note recipient protocol) = Ok psd ->
  getPoolConfig (poolId note) = Ok poolConfig ->
  found (snd (accepted poolConfig (rootAfter note))) = true ->
  length (replace0x (chars (rootAfter note))) = 64%nat ->
  psd_rootBytes psd = hexDecode (replace0x (chars (rootAfter note))) /\
  slice 300 332 (data (psd_instruction psd)) = psd_rootBytes psd /\
  length (data (psd_instruction psd)) = 348%nat.
Proof.
  intros H Hpc Hfound Hlen.
  apply prepare_ok_inv in H
    as (pc & fee & freshRoot & rootBigInt & Epc & Hfresh & Hbig & Hbytes & [proof Hix] & _).
  assert (pc = poolConfig) by congruence. subst pc.
  rewrite Hfound in Hfresh, Hix. subst freshRoot.
  cbn zeta in Hbig.
  destruct (replace0x (chars (rootAfter note))) as [| c t] eqn:Eh; [discriminate |].
  pose proof (rootBytes_hexDecode _ _ _ Hlen Hbig Hbytes) as Hroot.
  split; [exact Hroot |].
  apply (buildWithdrawInstruction_inv _ _ _ _ _ _ _ _ _ _ Hpc) in Hix as [Hdata _].
  pose proof (BigInt_0x _ _ Hbig) as [Hpos _].
  apply toBE32_inv in Hbytes as (_ & _ & L); [| exact Hpos].
  destruct (instructionDataOf_root _ _ _ _ _ _ Hdata L) as [Ld Hs]. by split.
Qed.

(** X13. The shard account a preparation sends along: none when the root was
    found in the state history (ten accounts); the account of the shard the
    root was found in, as the eleventh, when it was found in the ring; and
    the shard of the leaf index when the daemon supplied the path. *)
Theorem prepare_shard_account (note : Note) (recipient protocol : PublicKey)
    (psd : ProtocolSubmissionData) (poolConfig : PoolConfig) :
  snd (prepare note recipient protocol) = Ok psd ->
  getPoolConfig (poolId note) = Ok poolConfig ->
  let result := snd (accepted poolConfig (rootAfter note)) in
  let accounts := keys (psd_instruction psd) in
  (result = foundInStateHistory -> length accounts = 10%nat) /\
  (forall k, result = foundInShard k ->
     exists pk, newPublicKey_opt newPublicKey (js_index (shardPdas poolConfig) (Z.of_nat k))
                = Ok pk /\
                length accounts = 11%nat /\ last accounts = Some (shardAccount pk)) /\
  (found result = false ->
     exists pk, newPublicKey_opt newPublicKey
                  (js_index (shardPdas poolConfig) (computeShardIndex (leafIndex note)))
                = Ok pk /\
                length accounts = 11%nat /\ last accounts = Some (shardAccount pk)).
Proof.
  intros H Hpc result accounts.
  apply prepare_ok_inv in H
    as (pc & fee & freshRoot & rootBigInt & Epc & _ & _ & _ & [proof Hix] & _).
  assert (pc = poolConfig) by congruence. subst pc. fold result in Hix.
  apply (buildWithdrawInstruction_inv _ _ _ _ _ _ _ _ _ _ Hpc) in Hix
    as (_ & base & shard & Lb & Hshard & Hkeys).
  fold accounts in Hkeys.
  split; [| split].
  - intros Hr. rewrite Hr in Hshard. cbn in Hshard. inversion Hshard; subst shard.
    rewrite Hkeys, app_nil_r. exact Lb.
  - intros k Hr. rewrite Hr in Hshard. cbn in Hshard.
    destruct (newPublicKey_opt newPublicKey (js_index (shardPdas poolConfig) (Z.of_nat k)))
      as [pk |]; [| discriminate].
    cbn in Hshard. inversion Hshard; subst shard. exists pk.
    split; [reflexivity |]. rewrite Hkeys, length_app, Lb, last_app. by split.
  - intros Hr. rewrite Hr in Hshard. cbn in Hshard.
    destruct (newPublicKey_opt newPublicKey
                (js_index (shardPdas poolConfig) (computeShardIndex (leafIndex note))))
      as [pk |]; [| discriminate].
    cbn in Hshard. inversion Hshard; subst shard. exists pk.
    split; [reflexivity |]. rewrite Hkeys, length_app, Lb, last_app. by split.
Qed.

End PrepareTheorems.

Section PrepareExamples.
Import Serialization Withdrawal RootAcceptance Prepare.

(** The sample note, its root being the chain's current root: the prover is
    given the witness built from the note's own path. *)
Lemma prepare_proves_fresh_path_witness :
  In (FullProve PrepareSamples.ownWitness)
     (fst (PrepareSamples.prepare Samples.stateCurrent Samples.readShards
             PrepareSamples.daemon)) /\
  exists fee,
    snd (buildWithdrawWitness Samples.hash Samples.note Samples.recipient Samples.protocol
           fee 0) = Ok PrepareSamples.ownWitness.
Proof.
  assert (H : In (FullProve PrepareSamples.ownWitness)
                 (fst (PrepareSamples.prepare Samples.stateCurrent Samples.readShards
                         PrepareSamples.daemon))).
  { vm_compute. do 9 right. left. reflexivity. }
  split; [exact H |].
  destruct (prepare_proves_fresh_path Samples.poolTable PrepareSamples.maxFeeBps PrepareSamples.feeFromBps
              Samples.keyOf Samples.pdaOf Sha256.sha256 (Samples.readState Samples.stateCurrent)
              Samples.readShards PrepareSamples.daemon PrepareSamples.prover Samples.hash
              Samples.note Samples.recipient Samples.protocol
              PrepareSamples.ownWitness H)
    as (pc & bps & fee & freshRoot & freshSiblings & Hpc & _ & _ & Hw & Hfresh).
  exists fee.
  assert (Hpool : Samples.poolTable (poolId Samples.note) = Ok Samples.pool)
    by (vm_compute; reflexivity).
  injection (eq_trans (eq_sym Hpc) Hpool) as Epc. subst pc.
  assert (Ef : found (snd (isAcceptedRoot Samples.keyOf (Samples.readState Samples.stateCurrent)
                             Samples.readShards Samples.pool (rootAfter Samples.note)))
               = true) by (vm_compute; reflexivity).
  rewrite Ef in Hfresh. destruct Hfresh as [-> ->]. exact Hw.
Defined.

(** The sample note with its root the chain's current root. *)
Lemma prepare_sends_checked_root_witness :
  exists psd,
    snd (PrepareSamples.prepare Samples.stateCurrent Samples.readShards PrepareSamples.daemon)
    = Ok psd /\
    psd_rootBytes psd = Samples.root /\
    slice 300 332 (data (psd_instruction psd)) = Samples.root.
Proof.
  assert (H : exists psd,
             snd (PrepareSamples.prepare Samples.stateCurrent Samples.readShards
                    PrepareSamples.daemon) = Ok psd)
    by (eexists; vm_compute; reflexivity).
  destruct H as [psd E]. exists psd. split; [exact E |].
  destruct (prepare_sends_checked_root Samples.poolTable PrepareSamples.maxFeeBps PrepareSamples.feeFromBps
              Samples.keyOf Samples.pdaOf Sha256.sha256 (Samples.readState Samples.stateCurrent)
              Samples.readShards PrepareSamples.daemon PrepareSamples.prover Samples.hash
              Samples.note Samples.recipient Samples.protocol
              psd Samples.pool E)
    as (Hroot & Hslice & _); try (vm_compute; reflexivity).
  rewrite Hslice, Hroot. split; vm_compute; reflexivity.
Defined.

(** The sample note with its root in shard 1 only: the instruction has eleven
    accounts, the last one shard 1's. *)
Lemma prepare_shard_account_witness :
  exists psd pk,
    snd (PrepareSamples.prepare Samples.stateEmpty Samples.readShards PrepareSamples.daemon)
    = Ok psd /\
    Samples.keyOf "shard1" = Ok pk /\
    last (keys (psd_instruction psd)) = Some (shardAccount pk).
Proof.
  assert (H : exists psd,
             snd (PrepareSamples.prepare Samples.stateEmpty Samples.readShards
                    PrepareSamples.daemon) = Ok psd)
    by (eexists; vm_compute; reflexivity).
  destruct H as [psd E].
  destruct (prepare_shard_account Samples.poolTable PrepareSamples.maxFeeBps PrepareSamples.feeFromBps
              Samples.keyOf Samples.pdaOf Sha256.sha256 (Samples.readState Samples.stateEmpty)
              Samples.readShards PrepareSamples.daemon PrepareSamples.prover Samples.hash
              Samples.note Samples.recipient Samples.protocol
              psd Samples.pool E)
    as (_ & Hshard & _); [vm_compute; reflexivity |].
  destruct (Hshard 1%nat) as (pk & Hpk & _ & Hlast); [vm_compute; reflexivity |].
  exists psd, pk. split; [exact E |]. split; [exact Hpk | exact Hlast].
Defined.

End PrepareExamples.

(** ** The root text [isAcceptedRoot] accepts *)

Section RootTextTheorems.
Import Withdrawal RootAcceptance.

Variable newPublicKey : string -> res PublicKey.
Variable getAccountInfo : PublicKey -> res (option (list Z)).
Variable getMultipleAccountsInfo : list PublicKey -> res (list (option (list Z))).

Let accepted := isAcceptedRoot newPublicKey getAccountInfo getMultipleAccountsInfo.

Lemma chars_of_chars (l : list ascii) : chars (of_chars l) = l.
Proof. apply list_ascii_of_string_of_list_ascii. Qed.

Lemma replace0x_hex (s : list ascii) : allDigits 16 s = true -> replace0x s = s.
Proof.
  induction s as [| c t IH]; [reflexivity |]. intros H.
  apply allDigits_cons in H as (d & Ed & _ & _ & Ht).
  specialize (IH Ht).
  assert (Hx : forall t', t = "x"%char :: t' -> False).
  { intros t' ->. apply allDigits_cons in Ht as (d' & Ed' & _). discriminate. }
  cbn [replace0x].
  destruct c as [[] [] [] [] [] [] [] []]; try (by rewrite IH).
  destruct t as [| c' t']; [reflexivity |].
  destruct c' as [[] [] [] [] [] [] [] []]; try (by rewrite IH).
  by destruct (Hx t').
Qed.

Lemma digitVal_lowerChar (c : ascii) : digitVal (lowerChar c) = digitVal c.
Proof. destruct c as [[] [] [] [] [] [] [] []]; reflexivity. Qed.

Lemma hexDecode_toLowerCase (s : list ascii) : hexDecode (toLowerCase s) = hexDecode s.
Proof.
  unfold toLowerCase.
  assert (H : forall n s, (length s <= n)%nat -> hexDecode (map lowerChar s) = hexDecode s).
  { clear s. induction n as [| n IH]; intros s Hn.
    - destruct s; [reflexivity | cbn in Hn; lia].
    - destruct s as [| a [| b t]]; try reflexivity.
      cbn [map hexDecode]. rewrite !digitVal_lowerChar.
      rewrite IH by (cbn in Hn; lia). reflexivity. }
  by apply (H (length s)).
Qed.

Lemma allDigits_toLowerCase (s : list ascii) :
  allDigits 16 s = true -> allDigits 16 (toLowerCase s) = true.
Proof.
  unfold allDigits, toLowerCase. rewrite length_map.
  replace (digitPrefix 16 (map lowerChar s)) with (digitPrefix 16 s); [done |].
  induction s as [| c t IH]; [reflexivity |].
  cbn [map digitPrefix]. rewrite digitVal_lowerChar, IH. reflexivity.
Qed.

Lemma length_hexDecode (n : nat) (h : list ascii) :
  length h = (2 * n)%nat \/ length h = (2 * n + 1)%nat ->
  allDigits 16 h = true -> length (hexDecode h) = n.
Proof.
  revert h. induction n as [| n IH]; intros h Hlen Hall.
  - destruct h as [| a [| b t]]; try reflexivity. cbn in Hlen. lia.
  - destruct h as [| a [| b t]]; try (cbn in Hlen; lia).
    apply allDigits_cons in Hall as (x & Ex & _ & _ & Hall).
    apply allDigits_cons in Hall as (y & Ey & _ & _ & Hall).
    cbn [hexDecode]. rewrite Ex, Ey. cbn [length]. f_equal.
    apply IH; [cbn in Hlen; lia | exact Hall].
Qed.

(** X14. The text of a root: for hex digits, a leading [0x] and the case of the
    letters make no difference to [isAcceptedRoot]; fewer than 64 digits, or
    more than 65, are not a root, and the chain is not read for them. *)
Theorem isAcceptedRoot_text_forms (pc : PoolConfig) (h : list ascii) :
  allDigits 16 h = true ->
  accepted pc (of_chars ("0"%char :: "x"%char :: h)) = accepted pc (of_chars h) /\
  accepted pc (of_chars (toLowerCase h)) = accepted pc (of_chars h) /\
  ((length h < 64)%nat \/ (65 < length h)%nat -> accepted pc (of_chars h) = ([], notFound)).
Proof.
  intros Hall. unfold accepted, isAcceptedRoot. rewrite !chars_of_chars.
  cbn [replace0x].
  rewrite (replace0x_hex h Hall).
  rewrite (replace0x_hex _ (allDigits_toLowerCase h Hall)), hexDecode_toLowerCase.
  split; [reflexivity |]. split; [reflexivity |].
  intros Hlen.
  pose proof (Nat.div_mod_eq (length h) 2) as E.
  pose proof (Nat.mod_upper_bound (length h) 2 ltac:(lia)) as Hm.
  assert (Hn : length (hexDecode h) = (length h / 2)%nat)
    by (apply length_hexDecode; [lia | exact Hall]).
  assert (Hne : length (hexDecode h) <> 32%nat) by lia.
  apply Nat.eqb_neq in Hne. by rewrite Hne.
Qed.

End RootTextTheorems.

Section RootTextExamples.
Import Withdrawal RootAcceptance.

(** The sample root, written in capitals and with the prefix, is found like
    the sample root itself. *)
Lemma isAcceptedRoot_text_forms_witness :
  isAcceptedRoot Samples.keyOf (Samples.readState Samples.stateCurrent) Samples.readShards
    Samples.pool (of_chars ("0"%char :: "x"%char :: replicate 64 "1"%char))
  = isAcceptedRoot Samples.keyOf (Samples.readState Samples.stateCurrent) Samples.readShards
      Samples.pool (of_chars (replicate 64 "1"%char)).
Proof.
  exact (proj1 (isAcceptedRoot_text_forms Samples.keyOf
                  (Samples.readState Samples.stateCurrent) Samples.readShards Samples.pool
                  (replicate 64 "1"%char) eq_refl)).
Defined.

End RootTextExamples.

(** ** Endpoint rotation: cooldowns, retries and the wait *)

Section CooldownTheorems.
Import Resilient Cooldowns.

Lemma isEndpointAvailable_remaining (url : string) (st : State) :
  fst (isEndpointAvailable url st) = bool_decide (remaining st url = None).
Proof.
  unfold isEndpointAvailable, remaining.
  destruct (endpointHealth st !! url) as [h |]; [| reflexivity].
  by destruct (disabledUntil h <=? now st).
Qed.

Lemma remaining_pos (st : State) (url : string) (w : Z) : remaining st url = Some w -> 0 < w.
Proof.
  unfold remaining. destruct (endpointHealth st !! url) as [h |]; [| discriminate].
  destruct (disabledUntil h <=? now st) eqn:E; [discriminate |].
  apply Z.leb_gt in E. intros H. inversion H. lia.
Qed.

Lemma shortestCooldownLoop_step (url : string) (rest : list string) (st : State)
    (acc : option Z) :
  shortestCooldownLoop (url :: rest) st acc
  = match remaining st url with
    | None => 0
    | Some r =>
        shortestCooldownLoop rest st
          (Some match acc with Some w => if r <? w then r else w | None => r end)
    end.
Proof.
  cbn [shortestCooldownLoop]. unfold remaining.
  destruct (endpointHealth st !! url) as [h |]; [| reflexivity].
  destruct (disabledUntil h <=? now st); [reflexivity |].
  destruct acc as [w |]; [| reflexivity].
  by destruct (disabledUntil h - now st <? w).
Qed.

Lemma shortestCooldownLoop_available (eps : list string) (st : State) (acc : option Z) :
  (exists url, url ∈ eps /\ remaining st url = None) ->
  shortestCooldownLoop eps st acc = 0.
Proof.
  revert acc. induction eps as [| url rest IH]; intros acc (u & Hu & Hr).
  - by apply elem_of_nil in Hu.
  - rewrite shortestCooldownLoop_step.
    destruct (remaining st url) as [r |] eqn:E; [| reflexivity].
    apply IH. exists u. split; [| exact Hr].
    apply elem_of_cons in Hu as [-> | Hu]; [congruence | exact Hu].
Qed.

Lemma shortestCooldownLoop_cooling (eps : list string) (st : State) (acc : Z) :
  (forall url, url ∈ eps -> remaining st url <> None) ->
  let w := shortestCooldownLoop eps st (Some acc) in
  w <= acc /\
  (forall url r, url ∈ eps -> remaining st url = Some r -> w <= r) /\
  (w = acc \/ exists url, url ∈ eps /\ remaining st url = Some w).
Proof.
  revert acc. induction eps as [| url rest IH]; intros acc Hall; cbn zeta.
  - cbn. split; [lia |]. split; [| by left]. intros url r Hu. by apply elem_of_nil in Hu.
  - rewrite shortestCooldownLoop_step.
    destruct (remaining st url) as [r |] eqn:E;
      [| exfalso; apply (Hall url); [apply elem_of_cons; by left | exact E]].
    set (acc' := if r <? acc then r else acc).
    assert (Hacc' : acc' <= acc /\ acc' <= r /\ (acc' = acc \/ acc' = r)).
    { unfold acc'. destruct (r <? acc) eqn:El;
        [apply Z.ltb_lt in El | apply Z.ltb_ge in El]; lia. }
    destruct (IH acc') as (H1 & H2 & H3).
    { intros u Hu. apply Hall. apply elem_of_cons. by right. }
    cbn zeta in H1, H2, H3. split; [lia |]. split.
    + intros u r' Hu Hr'. apply elem_of_cons in Hu as [-> | Hu].
      * assert (r' = r) by congruence. lia.
      * by apply (H2 u).
    + destruct H3 as [H3 | (u & Hu & Hr)].
      * destruct Hacc' as (_ & _ & [Ha | Ha]); [left; lia |].
        right. exists url. split; [apply elem_of_cons; by left |]. rewrite E. f_equal. lia.
      * right. exists u. split; [apply elem_of_cons; by right | exact Hr].
Qed.

(** With every endpoint in cooldown, the wait is the least remaining time. *)
Lemma getShortestCooldownMs_cooling (eps : list string) (st : State) :
  eps <> [] ->
  (forall url, url ∈ eps -> remaining st url <> None) ->
  let w := getShortestCooldownMs eps st in
  (forall url r, url ∈ eps -> remaining st url = Some r -> w <= r) /\
  exists url, url ∈ eps /\ remaining st url = Some w.
Proof.
  intros Hne Hall. cbn zeta. unfold getShortestCooldownMs.
  destruct eps as [| url rest]; [done |].
  rewrite shortestCooldownLoop_step.
  destruct (remaining st url) as [r |] eqn:E;
    [| exfalso; apply (Hall url); [apply elem_of_cons; by left | exact E]].
  destruct (shortestCooldownLoop_cooling rest st r) as (H1 & H2 & H3).
  { intros u Hu. apply Hall. apply elem_of_cons. by right. }
  cbn zeta in H1, H2, H3.
  set (w := shortestCooldownLoop rest st (Some r)) in *.
  split.
  - intros u r' Hu Hr'. apply elem_of_cons in Hu as [-> | Hu].
    + assert (r' = r) by congruence. lia.
    + by apply (H2 u).
  - destruct H3 as [H3 | (u & Hu & Hr)].
    + exists url. split; [apply elem_of_cons; by left | by rewrite H3].
    + exists u. split; [apply elem_of_cons; by right | exact Hr].
Qed.

(** An endpoint is available once its remaining cooldown has passed. *)
Lemma remaining_sleep (st : State) (url : string) (r ms : Z) :
  remaining st url = Some r -> r <= ms -> remaining (sleep ms st) url = None.
Proof.
  unfold remaining. cbn [sleep endpointHealth now].
  destruct (endpointHealth st !! url) as [h |]; [| discriminate].
  destruct (disabledUntil h <=? now st); [discriminate |].
  intros Hr Hms. inversion Hr.
  destruct (disabledUntil h <=? now st + ms) eqn:E2;
    [reflexivity | apply Z.leb_gt in E2; lia].
Qed.

(** X15. [getShortestCooldownMs] is 0 exactly when there is no endpoint or one of
    them is available; otherwise it is the least remaining cooldown, and
    after waiting that long the endpoint it belongs to is available. *)
Theorem getShortestCooldownMs_spec (eps : list string) (st : State) :
  let w := getShortestCooldownMs eps st in
  (w = 0 <-> eps = [] \/ exists url, url ∈ eps /\ fst (isEndpointAvailable url st) = true) /\
  (0 < w ->
     (forall url r, url ∈ eps -> remaining st url = Some r -> w <= r) /\
     exists url, url ∈ eps /\ remaining st url = Some w /\
                 fst (isEndpointAvailable url (sleep w st)) = true).
Proof.
  cbn zeta.
  destruct (decide (Exists (fun url => remaining st url = None) eps)) as [Hav | Hno];
    rewrite Exists_exists in *.
  - unfold getShortestCooldownMs. rewrite shortestCooldownLoop_available by exact Hav.
    split; [| lia]. split; [| reflexivity]. intros _. right.
    destruct Hav as (u & Hu & Hr). exists u. split; [exact Hu |].
    rewrite isEndpointAvailable_remaining, Hr. reflexivity.
  - assert (Hall : forall url, url ∈ eps -> remaining st url <> None).
    { intros u Hu Hr. apply Hno. by exists u. }
    destruct (decide (eps = [])) as [-> | Hne].
    { cbn. split; [| lia]. split; [by left | reflexivity]. }
    destruct (getShortestCooldownMs_cooling eps st Hne Hall) as (Hmin & u & Hu & Hr).
    cbn zeta in Hmin, Hr. pose proof (remaining_pos _ _ _ Hr) as Hpos.
    split.
    + split; [lia |]. intros [Hnil | (u' & Hu' & Hr')]; [done |].
      rewrite isEndpointAvailable_remaining in Hr'. apply bool_decide_eq_true in Hr'.
      by destruct (Hall u' Hu').
    + intros _. split; [exact Hmin |].
      exists u. split; [exact Hu |]. split; [exact Hr |].
      rewrite isEndpointAvailable_remaining. apply bool_decide_eq_true.
      by apply (remaining_sleep st u _ _ Hr).
Qed.

Section Retry.
Context {T : Type}.
Variable env : Env T.

(** The retry loop with [left] iterations to go from attempt number [attempt]. *)
Lemma tryEndpointLoop_backoff (url : string) (maxRetries : Z) (left : nat) (attempt t : Z) :
  (1 <= left)%nat -> 1 <= attempt -> Z.of_nat left = maxRetries - attempt + 1 ->
  let '(tr, t', r) := tryEndpointLoop env url maxRetries left attempt t in
  (1 <= length tr <= left)%nat /\
  (forall i a b, tr !! i = Some a -> tr !! S i = Some b ->
     succeeded a = false /\ limited a = false /\
     a_finished a + 2 ^ (attempt + Z.of_nat i) * 500 <= a_started b) /\
  (exists a, last tr = Some a /\ a_finished a = t' /\
     match r with
     | inl _ => a_error a = None
     | inr e => a_error a = Some e
     end).
Proof.
  revert attempt t. induction left as [| left IH]; intros attempt t Hl Ha Hn; [lia |].
  cbn [tryEndpointLoop].
  destruct (operation env url t) as [[v | error] d].
  - split; [cbn; lia |]. split; [intros i a b Hi Hj; destruct i; discriminate |].
    eexists. split; [reflexivity |]. by split.
  - destruct (is429Error error) eqn:E429.
    { split; [cbn; lia |]. split; [intros i a b Hi Hj; destruct i; discriminate |].
      eexists. split; [reflexivity |]. by split. }
    destruct (attempt <? maxRetries) eqn:Elt.
    2: { split; [cbn; lia |]. split; [intros i a b Hi Hj; destruct i; discriminate |].
         eexists. split; [reflexivity |]. by split. }
    apply Z.ltb_lt in Elt.
    set (t1 := t + Z.of_nat d + (2 ^ attempt * 500 + Z.of_nat (jitter env (t + Z.of_nat d)))).
    specialize (IH (attempt + 1) t1 ltac:(lia) ltac:(lia) ltac:(lia)).
    pose proof (tryEndpointLoop_attempts env url maxRetries left (attempt + 1) t1) as Hat.
    destruct (tryEndpointLoop env url maxRetries left (attempt + 1) t1) as [[tr t''] r'].
    destruct IH as (Hlen & Hgap & a' & Hlast & Hfin & Hr).
    destruct Hat as (_ & Hin & _).
    split; [cbn [length]; lia |]. split.
    + intros i a b Hi Hj. destruct i as [| i].
      * cbn in Hi. inversion Hi; subst a. cbn in Hj.
        unfold limited, succeeded. cbn [a_error a_finished]. rewrite E429.
        split; [reflexivity |]. split; [reflexivity |].
        destruct (Hin b ltac:(by eapply list_elem_of_lookup_2)) as (_ & Hs & _).
        rewrite Z.add_0_r. unfold t1 in Hs. lia.
      * cbn in Hi, Hj. destruct (Hgap i a b Hi Hj) as (H1 & H2 & H3).
        split; [exact H1 |]. split; [exact H2 |].
        replace (attempt + Z.of_nat (S i)) with (attempt + 1 + Z.of_nat i) by lia. exact H3.
    + exists a'. split; [| by split].
      destruct tr as [| x tr]; [cbn in Hlen; lia |]. exact Hlast.
Qed.

(** X16. [tryEndpointWithRetry] makes between one and [maxRetries] attempts, all on
    its endpoint. Only its last attempt can have succeeded or been rate
    limited; after the [k]-th failed attempt it waits at least [2^k * 500] ms;
    and what it returns or throws is the outcome of its last attempt. *)
Theorem tryEndpointWithRetry_backoff (url : string) (maxRetries t : Z) :
  1 <= maxRetries ->
  let '(tr, t', r) := tryEndpointWithRetry env url maxRetries t in
  1 <= Z.of_nat (length tr) <= maxRetries /\
  (forall a, a ∈ tr -> a_url a = url) /\
  (forall i a b, tr !! i = Some a -> tr !! S i = Some b ->
     succeeded a = false /\ limited a = false /\
     a_finished a + 2 ^ Z.of_nat (S i) * 500 <= a_started b) /\
  (exists a, last tr = Some a /\ a_finished a = t' /\
     match r with
     | inl _ => a_error a = None
     | inr e => a_error a = Some e
     end).
Proof.
  intros Hm. unfold tryEndpointWithRetry.
  pose proof (tryEndpointLoop_backoff url maxRetries (Z.to_nat maxRetries) 1 t
                ltac:(lia) ltac:(lia) ltac:(lia)) as H.
  pose proof (tryEndpointLoop_attempts env url maxRetries (Z.to_nat maxRetries) 1 t) as Hat.
  destruct (tryEndpointLoop env url maxRetries (Z.to_nat maxRetries) 1 t) as [[tr t'] r].
  destruct H as (Hlen & Hgap & Hlast). destruct Hat as (_ & Hin & _).
  split; [lia |]. split; [intros a Ha; by destruct (Hin a Ha) |].
  split; [| exact Hlast].
  intros i a b Hi Hj. destruct (Hgap i a b Hi Hj) as (H1 & H2 & H3).
  split; [exact H1 |]. split; [exact H2 |].
  replace (Z.of_nat (S i)) with (1 + Z.of_nat i) by lia. exact H3.
Qed.

End Retry.

Section RetryExamples.

(** An endpoint that fails once with a network error and then answers. *)
Lemma tryEndpointWithRetry_backoff_witness :
  let '(tr, t', r) := tryEndpointWithRetry RetrySamples.flaky "A" 2 1000 in
  length tr = 2%nat /\
  (forall i a b, tr !! i = Some a -> tr !! S i = Some b ->
     a_finished a + 2 ^ Z.of_nat (S i) * 500 <= a_started b).
Proof.
  pose proof (tryEndpointWithRetry_backoff RetrySamples.flaky "A" 2 1000 ltac:(lia)) as H.
  destruct (tryEndpointWithRetry RetrySamples.flaky "A" 2 1000) as [[tr t'] r] eqn:E.
  destruct H as (_ & _ & Hgap & _).
  split; [by inversion E |].
  intros i a b Hi Hj. by destruct (Hgap i a b Hi Hj) as (_ & _ & H).
Defined.

End RetryExamples.


Section AlwaysTries.
Context {T : Type}.
Variable env : Env T.

Lemma bounded_sleep (ms : Z) (st : State) : 0 <= ms -> bounded st -> bounded (sleep ms st).
Proof. intros Hms Hb url h Hl. cbn in *. specialize (Hb url h Hl). lia. Qed.

Lemma bounded_setNow (t : Z) (st : State) : now st <= t -> bounded st -> bounded (setNow t st).
Proof. intros Ht Hb url h Hl. cbn in *. specialize (Hb url h Hl). lia. Qed.

Lemma bounded_isEndpointAvailable (url : string) (st : State) :
  bounded st -> bounded (snd (isEndpointAvailable url st)).
Proof.
  intros Hb. unfold isEndpointAvailable.
  destruct (endpointHealth st !! url) as [h |]; [| exact Hb].
  destruct (disabledUntil h <=? now st); [| exact Hb].
  intros u h' Hl. cbn in *. apply lookup_delete_Some in Hl as [_ Hl]. by apply (Hb u).
Qed.

Lemma bounded_settle (url : string) (r : T + thrown) (st : State) :
  bounded st -> bounded (settle url r st).
Proof.
  intros Hb. unfold settle. destruct r as [v | error].
  - unfold markEndpointHealthy. destruct (endpointHealth st !! url); [| exact Hb].
    intros u h' Hl. cbn in *. apply lookup_delete_Some in Hl as [_ Hl]. by apply (Hb u).
  - destruct (is429Error error); [| exact Hb].
    intros u h' Hl. unfold markEndpointDisabled in Hl. cbn in *.
    apply lookup_insert_Some in Hl as [[_ <-] | [_ Hl]]; [cbn; lia | by apply (Hb u)].
Qed.

Lemma tryEndpointWithRetry_tries (url : string) (t : Z) :
  let '(tr, t', r) := tryEndpointWithRetry env url 2 t in tr <> [] /\ t <= t'.
Proof.
  unfold tryEndpointWithRetry.
  pose proof (tryEndpointLoop_backoff env url 2 (Z.to_nat 2) 1 t
                ltac:(lia) ltac:(lia) ltac:(lia)) as H.
  pose proof (tryEndpointLoop_attempts env url 2 (Z.to_nat 2) 1 t) as Hat.
  destruct (tryEndpointLoop env url 2 (Z.to_nat 2) 1 t) as [[tr t'] r].
  destruct H as (Hlen & _). destruct Hat as (Ht & _).
  split; [| exact Ht]. destruct tr; [cbn in Hlen; lia | discriminate].
Qed.

Lemma sleep_0 (st : State) : sleep 0 st = st.
Proof. destruct st as [t m]. unfold sleep. cbn. f_equal. lia. Qed.

Lemma bounded_reach (site : ClockRead) (st : State) : bounded st -> bounded (reach env site st).
Proof. apply bounded_sleep. lia. Qed.

Lemma reach_0 (site : ClockRead) (st : State) :
  (forall site t, lag env site t = 0%nat) -> reach env site st = st.
Proof. intros H. unfold reach. rewrite H. apply sleep_0. Qed.

(** The main loop keeps the bound; it made an attempt unless every endpoint
    was in cooldown when it was checked, and then only time has passed. *)
Lemma rotate_tries (eps : list string) (k : nat) (st : State) (triedAny : bool)
    (errors : list (string * string)) :
  bounded st ->
  let '(tr, st', r) := rotate env eps k st triedAny errors in
  bounded st' /\
  match r with
  | inl _ => tr <> []
  | inr (triedAny', _) =>
      if triedAny' then triedAny = true \/ tr <> []
      else triedAny = false /\ tr = [] /\
           endpointHealth st' = endpointHealth st /\ now st <= now st' /\
           ((forall site t, lag env site t = 0%nat) -> st' = st) /\
           forall url, url ∈ eps ->
             exists h, endpointHealth st !! url = Some h /\ now st < disabledUntil h
  end.
Proof.
  revert k st triedAny errors. induction eps as [| endpoint rest IH];
    intros k st triedAny errors Hb; cbn [rotate].
  - split; [exact Hb |]. destruct triedAny; [by left |].
    split; [reflexivity |]. split; [reflexivity |]. split; [reflexivity |].
    split; [lia |]. split; [done |].
    intros u Hu. by apply elem_of_nil in Hu.
  - pose proof (bounded_reach (MainCheck k) st Hb) as Hb0.
    set (st0 := reach env (MainCheck k) st) in *.
    assert (Hnow0 : now st <= now st0) by (unfold st0, reach; cbn; lia).
    pose proof (bounded_isEndpointAvailable endpoint st0 Hb0) as Hb1.
    destruct (isEndpointAvailable endpoint st0) as [available st1] eqn:Eav.
    cbn [fst snd] in Hb1. destruct available; cbn [negb].
    + pose proof (tryEndpointWithRetry_tries endpoint (now st1)) as Htry.
      destruct (tryEndpointWithRetry env endpoint 2 (now st1)) as [[tr t'] r].
      destruct Htry as [Hne Ht].
      pose proof (bounded_settle endpoint r _
                    (bounded_reach (MainSettle k) _ (bounded_setNow t' st1 Ht Hb1))) as Hb2.
      destruct r as [v | error]; [by split |].
      specialize (IH (S k) (settle endpoint (inr error)
                              (reach env (MainSettle k) (setNow t' st1))) true
                    (errors ++ [(endpoint, messageOr "Unknown error" error)]) Hb2).
      destruct (rotate env rest (S k) _ true _) as [[tr' st'] r'].
      destruct IH as [Hb' Hr']. split; [exact Hb' |].
      destruct r' as [v | [triedAny' errs]].
      * destruct tr; [done | discriminate].
      * destruct triedAny'.
        -- right. destruct tr; [done | discriminate].
        -- by destruct Hr' as (? & _).
    + assert (Est : st1 = st0 /\
                    exists h, endpointHealth st !! endpoint = Some h /\ now st0 < disabledUntil h).
      { unfold isEndpointAvailable in Eav.
        change (endpointHealth st0) with (endpointHealth st) in Eav.
        destruct (endpointHealth st !! endpoint) as [h |]; [| by inversion Eav].
        destruct (disabledUntil h <=? now st0) eqn:El; inversion Eav.
        apply Z.leb_gt in El. split; [reflexivity |]. by exists h. }
      destruct Est as [-> (h & Hh & Hlt)].
      specialize (IH (S k) st0 triedAny errors Hb0).
      destruct (rotate env rest (S k) st0 triedAny errors) as [[tr' st'] r'].
      destruct IH as [Hb' Hr']. split; [exact Hb' |].
      destruct r' as [v | [triedAny' errs]]; [exact Hr' |].
      destruct triedAny'; [exact Hr' |].
      destruct Hr' as (H0 & H1 & H2 & H3 & H4 & H5).
      split; [exact H0 |]. split; [exact H1 |]. split; [exact H2 |]. split; [lia |].
      split.
      { intros Hlag. rewrite (H4 Hlag). unfold st0. by apply reach_0. }
      intros u Hu. apply elem_of_cons in Hu as [-> | Hu].
      * exists h. split; [exact Hh | lia].
      * destruct (H5 u Hu) as (h' & Hh' & Hlt'). exists h'. split; [exact Hh' | lia].
Qed.

(** The retry after the wait keeps the bound, and tries the first endpoint
    that is available. *)
Lemma retryAfterWait_tries (eps : list string) (k : nat) (st : State) :
  bounded st ->
  let '(tr, st', r) := retryAfterWait env eps k st in
  bounded st' /\
  ((exists url, url ∈ eps /\ remaining st url = None) -> tr <> [] /\ r <> None).
Proof.
  revert k st. induction eps as [| endpoint rest IH]; intros k st Hb; cbn [retryAfterWait].
  - split; [exact Hb |]. intros (u & Hu & _). by apply elem_of_nil in Hu.
  - pose proof (bounded_reach (RetryCheck k) st Hb) as Hb0.
    set (st0 := reach env (RetryCheck k) st) in *.
    assert (Hrem0 : forall u, remaining st u = None -> remaining st0 u = None).
    { intros u. unfold remaining, st0, reach. cbn.
      destruct (endpointHealth st !! u) as [h |]; [| done].
      destruct (disabledUntil h <=? now st) eqn:E1; [| discriminate].
      apply Z.leb_le in E1. intros _.
      destruct (disabledUntil h <=? _) eqn:E2; [done |]. apply Z.leb_gt in E2. lia. }
    pose proof (isEndpointAvailable_remaining endpoint st0) as Hav.
    pose proof (bounded_isEndpointAvailable endpoint st0 Hb0) as Hb1.
    destruct (isEndpointAvailable endpoint st0) as [available st1] eqn:Eav.
    cbn [fst snd] in Hav, Hb1. destruct available; cbn [negb].
    + pose proof (tryEndpointWithRetry_tries endpoint (now st1)) as Htry.
      destruct (tryEndpointWithRetry env endpoint 2 (now st1)) as [[tr t'] r].
      destruct Htry as [Hne Ht].
      pose proof (bounded_settle endpoint r _
                    (bounded_reach (RetrySettle k) _ (bounded_setNow t' st1 Ht Hb1))) as Hb2.
      destruct r as [v | error]; (split; [exact Hb2 |]); intros _; by split.
    + assert (Est : st1 = st0).
      { unfold isEndpointAvailable in Eav.
        destruct (endpointHealth st0 !! endpoint) as [h |]; [| by inversion Eav].
        destruct (disabledUntil h <=? now st0); by inversion Eav. }
      subst st1. specialize (IH (S k) st0 Hb0).
      destruct (retryAfterWait env rest (S k) st0) as [[tr' st'] r'].
      destruct IH as [Hb' Hr']. split; [exact Hb' |].
      intros (u & Hu & Hr). apply Hr'. exists u. split; [| by apply Hrem0].
      apply elem_of_cons in Hu as [-> | Hu]; [| exact Hu].
      symmetry in Hav. apply bool_decide_eq_false in Hav. by destruct Hav, (Hrem0 endpoint).
Qed.

Lemma executeWithRotation_bounded (preferNonPrimary : bool) (st : State) :
  bounded st -> bounded (snd (fst (executeWithRotation env preferNonPrimary st))).
Proof.
  intros Hb. unfold executeWithRotation.
  set (st1 := sleep (Z.of_nat (admission env (now st))) st).
  assert (Hb1 : bounded st1) by (apply bounded_sleep; [lia | exact Hb]).
  set (eps := if preferNonPrimary then rev (endpoints env) else endpoints env).
  pose proof (rotate_tries eps 0 st1 false [] Hb1) as Hrot.
  destruct (rotate env eps 0 st1 false []) as [[tr st2] r].
  destruct Hrot as [Hb2 _].
  destruct r as [v | [triedAny errors]]; [exact Hb2 |].
  destruct triedAny; cbn [negb]; [exact Hb2 |].
  pose proof (bounded_reach CooldownRead st2 Hb2) as Hb2'.
  set (st2' := reach env CooldownRead st2) in *.
  pose proof (getShortestCooldownMs_nonneg (endpoints env) st2') as Hw.
  destruct ((0 <? getShortestCooldownMs (endpoints env) st2')
            && (getShortestCooldownMs (endpoints env) st2' <=? COOLDOWN_MS)); [| exact Hb2'].
  pose proof (retryAfterWait_tries (endpoints env) 0
                (sleep (getShortestCooldownMs (endpoints env) st2' + 100) st2')
                (bounded_sleep (getShortestCooldownMs (endpoints env) st2' + 100) st2'
                   ltac:(lia) Hb2')) as Hretry.
  destruct (retryAfterWait env (endpoints env) 0 _) as [[tr' st3] r'].
  destruct Hretry as [Hb3 _]. by destruct r'.
Qed.

(** X17. When a call gives up without asking an endpoint. In a state where no
    endpoint is disabled for longer than the cooldown (every state the module
    reaches when calls follow one another), and with at least one endpoint
    configured, [executeWithRotation] leaves such a state again, and it makes
    at least one attempt, waiting out the shortest cooldown when all
    endpoints are disabled, with one exception: every endpoint was in
    cooldown when the call came, and the cooldown of one of them ran out
    before [getShortestCooldownMs] read the clock, after the main loop had
    found that endpoint disabled. Then the call throws the all-in-cooldown
    error without an attempt. When no time passes between the readings of
    the clock, there is always an attempt. *)
Theorem executeWithRotation_always_tries (preferNonPrimary : bool) (st : State) :
  bounded st -> endpoints env <> [] ->
  let '(tr, st', r) := executeWithRotation env preferNonPrimary st in
  bounded st' /\
  (tr = [] ->
     r = inr (ErrorObj COOLDOWN_ERROR) /\
     (forall url, url ∈ endpoints env ->
        exists h, endpointHealth st !! url = Some h /\ now st < disabledUntil h) /\
     (exists url h, url ∈ endpoints env /\ endpointHealth st !! url = Some h /\
        disabledUntil h <= now st')) /\
  ((forall site t, lag env site t = 0%nat) -> tr <> []).
Proof.
  intros Hb Hne. unfold executeWithRotation.
  set (st1 := sleep (Z.of_nat (admission env (now st))) st).
  assert (Hb1 : bounded st1) by (apply bounded_sleep; [lia | exact Hb]).
  assert (Hnow1 : now st <= now st1) by (unfold st1; cbn; lia).
  set (eps := if preferNonPrimary then rev (endpoints env) else endpoints env).
  assert (Heps : forall u, u ∈ endpoints env -> u ∈ eps).
  { intros u Hu. unfold eps. destruct preferNonPrimary; [| exact Hu].
    apply list_elem_of_In. apply -> in_rev. by apply list_elem_of_In. }
  pose proof (rotate_tries eps 0 st1 false [] Hb1) as Hrot.
  destruct (rotate env eps 0 st1 false []) as [[tr st2] r].
  destruct Hrot as [Hb2 Hr].
  destruct r as [v | [triedAny errors]]; [by repeat split |].
  destruct triedAny; cbn [negb].
  { destruct Hr as [Hr | Hr]; [done |]. by repeat split. }
  destruct Hr as (_ & -> & Hh2 & Hnow2 & Hlag2 & Hall).
  pose proof (bounded_reach CooldownRead st2 Hb2) as Hb2'.
  set (st2' := reach env CooldownRead st2) in *.
  assert (Hnow2' : now st2 <= now st2') by (unfold st2', reach; cbn; lia).
  assert (Hh2' : endpointHealth st2' = endpointHealth st) by exact Hh2.
  assert (Hcool : forall url, url ∈ endpoints env ->
            exists h, endpointHealth st !! url = Some h /\ now st < disabledUntil h).
  { intros u Hu. destruct (Hall u (Heps u Hu)) as (h & Hh & Hlt).
    exists h. split; [exact Hh | lia]. }
  set (w := getShortestCooldownMs (endpoints env) st2').
  destruct (decide (Exists (fun url => remaining st2' url = None) (endpoints env)))
    as [Hav | Hno]; rewrite Exists_exists in *.
  - (* a cooldown ran out before the clock was read again *)
    assert (Hw : w = 0) by (by apply shortestCooldownLoop_available).
    rewrite Hw. cbn [Z.ltb andb app].
    split; [exact Hb2' |]. split.
    + intros _. split; [reflexivity |]. split; [exact Hcool |].
      destruct Hav as (u & Hu & Hrem). destruct (Hcool u Hu) as (h & Hh & _).
      exists u, h. split; [exact Hu |]. split; [exact Hh |].
      unfold remaining in Hrem. rewrite Hh2', Hh in Hrem.
      destruct (disabledUntil h <=? now st2') eqn:E; [| discriminate].
      by apply Z.leb_le in E.
    + intros Hlag. exfalso. destruct Hav as (u & Hu & Hrem).
      destruct (Hall u (Heps u Hu)) as (h & Hh & Hlt).
      assert (Est : st2' = st1).
      { unfold st2'. rewrite reach_0 by exact Hlag. by apply Hlag2. }
      rewrite Est in Hrem. unfold remaining in Hrem. rewrite Hh in Hrem.
      destruct (disabledUntil h <=? now st1) eqn:E; [| discriminate].
      apply Z.leb_le in E. lia.
  - assert (Hall' : forall url, url ∈ endpoints env -> remaining st2' url <> None).
    { intros u Hu Hrem. apply Hno. by exists u. }
    destruct (getShortestCooldownMs_cooling (endpoints env) st2' Hne Hall')
      as (_ & u & Hu & Hrem).
    cbn zeta in Hrem. fold w in Hrem.
    pose proof (remaining_pos _ _ _ Hrem) as Hpos.
    assert (Hle : w <= COOLDOWN_MS).
    { unfold remaining in Hrem. destruct (endpointHealth st2' !! u) as [h |] eqn:El;
        [| discriminate].
      destruct (disabledUntil h <=? now st2'); [discriminate |].
      assert (Hw : disabledUntil h - now st2' = w) by congruence.
      specialize (Hb2' u h El). lia. }
    replace (0 <? w) with true by (symmetry; apply Z.ltb_lt; lia).
    replace (w <=? COOLDOWN_MS) with true by (symmetry; apply Z.leb_le; lia).
    cbn [andb app].
    pose proof (retryAfterWait_tries (endpoints env) 0 (sleep (w + 100) st2')
                  (bounded_sleep (w + 100) st2' ltac:(lia) Hb2')) as Hretry.
    destruct (retryAfterWait env (endpoints env) 0 (sleep (w + 100) st2')) as [[tr' st3] r'].
    destruct Hretry as [Hb3 Htr].
    destruct Htr as [Htr Hsome].
    { exists u. split; [exact Hu |]. apply (remaining_sleep st2' u w); [exact Hrem | lia]. }
    destruct r' as [out |]; [| done]. by repeat split.
Qed.

End AlwaysTries.

(** Calls made one after the other from the initial state keep the bound. *)
Lemma runCalls_bounded {T} (calls : list (Call T)) (st : State) :
  bounded st -> bounded (snd (runCalls calls st)).
Proof.
  revert st. induction calls as [| c rest IH]; intros st Hb; [exact Hb |].
  cbn [runCalls].
  pose proof (executeWithRotation_bounded (c_env c) (c_preferNonPrimary c)
                (sleep (Z.of_nat (c_idle c)) st)
                (bounded_sleep (Z.of_nat (c_idle c)) st ltac:(lia) Hb)) as H.
  destruct (executeWithRotation (c_env c) (c_preferNonPrimary c) _) as [[tr st1] r].
  cbn [fst snd] in H. specialize (IH st1 H).
  by destruct (runCalls rest st1).
Qed.

Lemma bounded_initial (t0 : Z) : bounded (initial t0).
Proof. intros url h Hl. cbn in Hl. by rewrite lookup_empty in Hl. Qed.

Section AlwaysTriesExamples.

(** A single endpoint that was rate limited 500 ms ago: the call waits for the
    cooldown to end and asks it again. *)
Example waits_out_the_cooldown :
  let st := {| now := 10000;
               endpointHealth := {[ "A"%string := {| disabledUntil := 11500; failCount := 1 |} ]} |} in
  map a_started (fst (fst (executeWithRotation RetrySamples.flaky false st))) = [11600].
Proof. vm_compute. reflexivity. Qed.

(** A single endpoint whose cooldown ends at 1000 ms, a call that arrives at
    999 ms, and a clock that has moved on to 1000 ms when
    [getShortestCooldownMs] reads it: the main loop finds the endpoint
    disabled, the wait comes out as 0, and the call throws without having
    asked the endpoint. *)
Lemma executeWithRotation_always_tries_witness :
  let st := {| now := 999;
               endpointHealth := {[ "A"%string := {| disabledUntil := 1000; failCount := 1 |} ]} |} in
  let '(tr, st', r) := executeWithRotation RetrySamples.ticking false st in
  tr = [] /\ r = inr (ErrorObj COOLDOWN_ERROR) /\ now st' = 1000 /\ bounded st'.
Proof.
  cbn zeta.
  set (st := {| now := 999;
                endpointHealth := {[ "A"%string := {| disabledUntil := 1000; failCount := 1 |} ]} |}).
  assert (Hb : bounded st).
  { intros url h Hl. cbn [endpointHealth st] in Hl.
    apply lookup_singleton_Some in Hl as [_ <-]. cbn. unfold COOLDOWN_MS. lia. }
  pose proof (executeWithRotation_always_tries RetrySamples.ticking false st Hb
                ltac:(discriminate)) as H.
  assert (Hrun : fst (fst (executeWithRotation RetrySamples.ticking false st)) = [] /\
                 now (snd (fst (executeWithRotation RetrySamples.ticking false st))) = 1000)
    by (vm_compute; by split).
  destruct (executeWithRotation RetrySamples.ticking false st) as [[tr st'] r].
  cbn [fst snd] in Hrun. destruct Hrun as [Htr Hnow].
  destruct H as (Hb' & Hgives & _). destruct (Hgives Htr) as (Hr & _).
  by repeat split.
Defined.

End AlwaysTriesExamples.

End CooldownTheorems.

(** ** The finalized-set: expiry, and how often the chain is asked *)

Section FinalizedSetTheorems.
Import WsConfirm FinalizedSet.

Variable network : Network.

(** A signature that is still in the set has no deletion that was due. *)
Lemma fireDue_member (t : Z) (set : gset string) (tms : list (Z * string)) (s : string) :
  s ∈ fst (fireDue t set tms) ->
  s ∈ set /\ forall tm, tm ∈ tms -> snd tm = s -> t < fst tm.
Proof.
  unfold fireDue. cbn [fst]. induction tms as [| tm rest IH]; cbn [foldr].
  - intros H. split; [exact H |]. intros tm Htm. by apply elem_of_nil in Htm.
  - destruct (fst tm <=? t) eqn:E.
    + intros H. apply elem_of_difference in H as [H Hne].
      destruct (IH H) as [Hin Hlate]. split; [exact Hin |].
      intros tm' Htm' Hs. apply elem_of_cons in Htm' as [-> | Htm']; [| by apply Hlate].
      exfalso. apply Hne. rewrite Hs. by apply elem_of_singleton.
    + apply Z.leb_gt in E. intros H. destruct (IH H) as [Hin Hlate]. split; [exact Hin |].
      intros tm' Htm' Hs. apply elem_of_cons in Htm' as [-> | Htm']; [lia | by apply Hlate].
Qed.

Lemma liveEntries_advance (ms : Z) (st : State) :
  0 <= ms -> liveEntries st -> liveEntries (advance ms st).
Proof.
  intros Hms [Hhas Hdue]. unfold liveEntries, advance.
  pose proof (fireDue_member (now st + ms) (confirmedSignatures st) (timers st)) as Hm.
  unfold fireDue in *. cbn [fst] in Hm. cbn. split.
  - intros s Hs. destruct (Hm s Hs) as [Hin Hlate].
    destruct (Hhas s Hin) as [due Hd]. exists due.
    apply list_elem_of_filter. split; [| exact Hd]. by apply (Hlate (due, s)).
  - intros tm Htm. apply list_elem_of_filter in Htm as [Hlate Htm].
    specialize (Hdue tm Htm). lia.
Qed.

Lemma liveEntries_mark (signature : string) (st : State) :
  liveEntries st -> liveEntries (markSignatureConfirmed signature st).
Proof.
  intros [Hhas Hdue]. unfold liveEntries, markSignatureConfirmed. cbn. split.
  - intros s Hs. apply elem_of_union in Hs as [Hs | Hs].
    + apply elem_of_singleton in Hs as ->. exists (now st + TTL_MS).
      apply elem_of_app. right. by apply list_elem_of_singleton.
    + destruct (Hhas s Hs) as [due Hd]. exists due. apply elem_of_app. by left.
  - intros tm Htm. apply elem_of_app in Htm as [Htm | Htm]; [by apply Hdue |].
    apply list_elem_of_singleton in Htm as ->. cbn. unfold TTL_MS. lia.
Qed.

Lemma liveEntries_pollLoop (fuel : nat) (signature commitment : string)
    (timeoutMs startTime : Z) (st : State) :
  liveEntries st ->
  liveEntries (fst (pollLoop network fuel signature commitment timeoutMs startTime st)).
Proof.
  revert st. induction fuel as [| fuel IH]; intros st Hl; cbn [pollLoop]; [exact Hl |].
  destruct (now st - startTime <? timeoutMs); [| exact Hl].
  destruct (isSignatureConfirmed signature st); [exact Hl |].
  destruct (network signature (now st)) as [r d].
  assert (H1 : liveEntries (advance (Z.of_nat d) (countCall st)))
    by (apply liveEntries_advance; [lia | exact Hl]).
  destruct (pollStep commitment r) as [| | pollError]; [exact H1 | |].
  - apply IH, liveEntries_advance; [lia | exact H1].
  - destruct (is429Error pollError); apply IH, liveEntries_advance; (lia || exact H1).
Qed.

(** X18. The finalized-set holds nothing older than five minutes. A confirm call
    keeps every entry paired with its pending deletion, due within five
    minutes; so once five minutes have passed without a confirmation the set
    is empty, and no deletion is left pending. *)
Theorem finalized_set_expires (signature commitment : string) (httpTimeoutMs : Z)
    (st : State) :
  liveEntries st ->
  let st' := fst (confirmTransactionWsFirst network signature commitment httpTimeoutMs st) in
  liveEntries st' /\
  forall ms, TTL_MS <= ms ->
    confirmedSignatures (advance ms st') = ∅ /\ timers (advance ms st') = [].
Proof.
  intros Hl. cbn zeta.
  assert (Hl' : liveEntries
                  (fst (confirmTransactionWsFirst network signature commitment
                          httpTimeoutMs st))).
  { unfold confirmTransactionWsFirst.
    destruct (isSignatureConfirmed signature st); [exact Hl |].
    unfold confirmViaHttpPolling.
    pose proof (liveEntries_pollLoop (pollFuel httpTimeoutMs) signature commitment
                  httpTimeoutMs (now st) st Hl) as Hp.
    destruct (pollLoop network (pollFuel httpTimeoutMs) signature commitment httpTimeoutMs
                (now st) st) as [st1 [[duration | e] |]]; cbn [fst] in *.
    - by apply liveEntries_mark.
    - exact Hp.
    - exact Hp. }
  split; [exact Hl' |]. intros ms Hms.
  set (st' := fst (confirmTransactionWsFirst network signature commitment httpTimeoutMs st))
    in *.
  assert (Ht : timers (advance ms st') = []).
  { unfold advance, fireDue. cbn. destruct Hl' as [_ Hdue].
    induction (timers st') as [| tm rest IH]; [reflexivity |].
    rewrite filter_cons_False.
    - apply IH. intros tm' Htm'. apply Hdue. by right.
    - specialize (Hdue tm ltac:(by left)). lia. }
  split; [| exact Ht].
  pose proof (liveEntries_advance ms st' ltac:(unfold TTL_MS in Hms; lia) Hl') as [Hhas _].
  apply set_eq. intros s. split; [| by intros H%elem_of_empty].
  intros Hs. destruct (Hhas s Hs) as [due Hd]. rewrite Ht in Hd. by apply elem_of_nil in Hd.
Qed.

(** X19. A polling loop asks for the status at most once per second of its
    timeout, whatever the answers are: at most [ceil(timeoutMs / 1000)] calls. *)
Theorem confirmViaHttpPolling_call_bound (signature commitment : string) (timeoutMs : Z)
    (st : State) :
  let st' := fst (confirmViaHttpPolling network signature commitment timeoutMs st) in
  Z.of_nat (rpcCalls st') - Z.of_nat (rpcCalls st) <= Z.max 0 ((timeoutMs + 999) / 1000).
Proof.
  cbn zeta. unfold confirmViaHttpPolling.
  set (bound := fun e => if e <? timeoutMs then (timeoutMs - e + 999) / 1000 else 0).
  assert (Hb0 : forall e, 0 <= bound e).
  { intros e. unfold bound. destruct (e <? timeoutMs) eqn:E; [| lia].
    apply Z.ltb_lt in E. apply Z.div_pos; lia. }
  assert (Hb1 : forall e, e < timeoutMs -> 1 <= bound e).
  { intros e He. unfold bound. replace (e <? timeoutMs) with true by (symmetry; by apply Z.ltb_lt).
    apply Z.div_le_lower_bound; lia. }
  assert (Hstep : forall e e', e < timeoutMs -> e + 1000 <= e' -> bound e' <= bound e - 1).
  { intros e e' He He'. unfold bound at 1.
    destruct (e' <? timeoutMs) eqn:E; [| specialize (Hb1 e He); lia].
    unfold bound. replace (e <? timeoutMs) with true by (symmetry; by apply Z.ltb_lt).
    replace (timeoutMs - e + 999) with ((timeoutMs - e - 1000 + 999) + 1 * 1000) by lia.
    rewrite Z.div_add by lia.
    assert ((timeoutMs - e' + 999) / 1000 <= (timeoutMs - e - 1000 + 999) / 1000)
      by (apply Z.div_le_mono; lia).
    lia. }
  assert (H : forall fuel startTime s,
            Z.of_nat (rpcCalls (fst (pollLoop network fuel signature commitment timeoutMs
                                       startTime s)))
            - Z.of_nat (rpcCalls s) <= bound (now s - startTime)).
  { induction fuel as [| fuel IH]; intros startTime s; cbn [pollLoop].
    - cbn [fst]. specialize (Hb0 (now s - startTime)). lia.
    - destruct (now s - startTime <? timeoutMs) eqn:E;
        [| cbn [fst]; specialize (Hb0 (now s - startTime)); lia].
      apply Z.ltb_lt in E.
      destruct (isSignatureConfirmed signature s);
        [cbn [fst]; specialize (Hb0 (now s - startTime)); lia |].
      destruct (network signature (now s)) as [r d].
      set (s1 := advance (Z.of_nat d) (countCall s)).
      assert (Hc : rpcCalls s1 = S (rpcCalls s))
        by (unfold s1; rewrite rpcCalls_advance; reflexivity).
      assert (Hn : now s1 = now s + Z.of_nat d)
        by (unfold s1; rewrite now_advance; reflexivity).
      assert (Hnext : forall ms, 1000 <= ms ->
                Z.of_nat (rpcCalls (fst (pollLoop network fuel signature commitment
                                           timeoutMs startTime (advance ms s1))))
                - Z.of_nat (rpcCalls s) <= bound (now s - startTime)).
      { intros ms Hms. specialize (IH startTime (advance ms s1)).
        rewrite rpcCalls_advance, now_advance, Hc, Hn in IH.
        pose proof (Hstep (now s - startTime) (now s + Z.of_nat d + ms - startTime)
                      E ltac:(lia)).
        lia. }
      destruct (pollStep commitment r) as [| | pollError].
      + cbn [fst]. rewrite Hc. specialize (Hb1 _ E). lia.
      + apply Hnext. lia.
      + destruct (is429Error pollError); apply Hnext; lia. }
  specialize (H (pollFuel timeoutMs) (now st) st).
  rewrite Z.sub_diag in H. unfold bound in H.
  destruct (0 <? timeoutMs) eqn:E; [| lia].
  rewrite Z.sub_0_r in H. lia.
Qed.

End FinalizedSetTheorems.

Section FinalizedSetExamples.
Import WsConfirm FinalizedSet.

(** From the initial state: the first confirmation enters the set and is gone
    five minutes later. *)
Lemma finalized_set_expires_witness :
  let st' := fst (confirmTransactionWsFirst Samples.confirmsAtOnce "sig" "confirmed" 30000
                    (initial 0)) in
  "sig"%string ∈ confirmedSignatures st' /\
  confirmedSignatures (advance TTL_MS st') = ∅.
Proof.
  cbn zeta. split; [vm_compute; set_solver |].
  refine (proj1 (proj2 (finalized_set_expires Samples.confirmsAtOnce "sig" "confirmed" 30000
                          (initial 0) _) TTL_MS _)); [| lia].
  split.
  - intros s Hs. cbn in Hs. by apply elem_of_empty in Hs.
  - intros tm Htm. cbn in Htm. by apply elem_of_nil in Htm.
Defined.

End FinalizedSetExamples.

(** ** Confirmation by polling: what each status means *)

Section HttpConfirmTheorems.
Import WsConfirm HttpConfirm.

Variable network : Network.
Variable wsAttempt : WsAttempt.

Lemma http_pollLoop_verdict (fuel : nat) (signature commitment : string)
    (timeoutMs startTime consecutiveErrors : Z) (st st' : State) (r : ConfirmationResult) :
  pollLoop network fuel signature commitment timeoutMs startTime consecutiveErrors st
  = (st', Some r) ->
  verdictSound network signature commitment timeoutMs st st' r.
Proof.
  revert st consecutiveErrors st' r.
  induction fuel as [| fuel IH]; intros st k st' r; cbn [pollLoop]; [discriminate |].
  destruct (now st - startTime <? timeoutMs);
    [| intros H; inversion H; subst; unfold verdictSound; cbn; by right].
  destruct (isAlreadyConfirmed signature st) eqn:Eset.
  { intros H; inversion H; subst. unfold verdictSound. cbn.
    split; [by apply bool_decide_eq_true in Eset | discriminate]. }
  destruct (network signature (now st)) as [res d] eqn:Enet.
  set (st1 := advance (Z.of_nat d) (countCall st)).
  assert (Hn1 : now st <= now st1) by (unfold st1; rewrite now_advance; cbn; lia).
  assert (Hlater : forall ms k' s r',
            0 <= ms ->
            pollLoop network fuel signature commitment timeoutMs startTime k'
              (advance ms st1) = (s, Some r') ->
            verdictSound network signature commitment timeoutMs st s r').
  { intros ms k' s r' Hms H. specialize (IH _ _ _ _ H).
    unfold verdictSound in *. rewrite now_advance in IH.
    destruct (status r').
    - destruct IH as [I1 I2]. split; [exact I1 |]. intros Hm.
      destruct (I2 Hm) as (t & Ht & Hrep). exists t. split; [lia | exact Hrep].
    - exact IH.
    - destruct IH as (t & json & Ht & Hrep). exists t, json. split; [lia | exact Hrep]. }
  destruct res as [[value |] | pollError].
  - destruct (err value) as [json |] eqn:Eerr.
    + intros H; inversion H; subst. unfold verdictSound. cbn.
      exists (now st), json. split; [lia |]. split; [| reflexivity].
      by exists value, d.
    + destruct (reachedCommitment commitment (confirmationStatus value)) eqn:Ereach.
      * intros H; inversion H; subst. unfold verdictSound. cbn.
        split; [set_solver |]. intros _. exists (now st). split; [lia |].
        by exists value, d.
      * apply Hlater. lia.
  - apply Hlater. lia.
  - destruct (is429Error pollError).
    + destruct (3 <=? k + 1).
      * intros H; inversion H; subst. unfold verdictSound. cbn. by left.
      * apply Hlater. lia.
    + apply Hlater. lia.
Qed.

Lemma http_pollLoop_ends (fuel : nat) (signature commitment : string)
    (timeoutMs startTime consecutiveErrors : Z) (st : State) :
  timeoutMs - (now st - startTime) <= 3000 * Z.of_nat fuel ->
  snd (pollLoop network (S fuel) signature commitment timeoutMs startTime
         consecutiveErrors st) <> None.
Proof.
  revert st consecutiveErrors. induction fuel as [| fuel IH]; intros st k Hm.
  - cbn [pollLoop].
    destruct (now st - startTime <? timeoutMs) eqn:E; [apply Z.ltb_lt in E; lia | done].
  - cbn [pollLoop]. fold (pollLoop network).
    destruct (now st - startTime <? timeoutMs) eqn:E; [| done].
    destruct (isAlreadyConfirmed signature st); [done |].
    destruct (network signature (now st)) as [res d].
    set (st1 := advance (Z.of_nat d) (countCall st)).
    assert (H3 : now st <= now st1) by (unfold st1; rewrite now_advance; cbn; lia).
    destruct res as [[value |] | pollError].
    + destruct (err value); [done |].
      destruct (reachedCommitment _ _); [done |].
      apply IH. rewrite now_advance. lia.
    + apply IH. rewrite now_advance. lia.
    + destruct (is429Error pollError).
      * destruct (3 <=? k + 1); [done |]. apply IH. rewrite now_advance. lia.
      * apply IH. rewrite now_advance. lia.
Qed.

(** With the iterations [pollFuel] allows, the loop comes to an end. *)
Lemma http_pollLoop_fuel (signature commitment : string) (timeoutMs : Z) (st : State) :
  snd (pollLoop network (pollFuel timeoutMs) signature commitment timeoutMs (now st) 0 st)
  <> None.
Proof.
  unfold pollFuel. apply http_pollLoop_ends.
  destruct (Z.le_gt_cases timeoutMs 0) as [Hle | Hpos]; [lia |].
  rewrite Z2Nat.id by (pose proof (Z.div_pos timeoutMs 3000); lia).
  pose proof (Z.mul_succ_div_gt timeoutMs 3000). lia.
Qed.



(** The loop adds a signature to the set only by the confirmation it returns. *)
Lemma http_pollLoop_subseteq (fuel : nat) (signature commitment : string)
    (timeoutMs startTime k : Z) (st : State) :
  let '(st', r) := pollLoop network fuel signature commitment timeoutMs startTime k st in
  forall res, r = Some res ->
    confirmedSignatures st' ⊆ confirmedSignatures st \/ message res = None.
Proof.
  revert k st. induction fuel as [| fuel IH]; intros k st; cbn [pollLoop]; [discriminate |].
  destruct (now st - startTime <? timeoutMs); [| intros res _; by left].
  destruct (isAlreadyConfirmed signature st); [intros res _; by left |].
  destruct (network signature (now st)) as [r d].
  set (st1 := advance (Z.of_nat d) (countCall st)).
  assert (H1 : confirmedSignatures st1 ⊆ confirmedSignatures st)
    by exact (confirmedSignatures_advance (Z.of_nat d) (countCall st)).
  assert (Hlater : forall ms k',
            let '(st', r) := pollLoop network fuel signature commitment timeoutMs startTime
                               k' (advance ms st1) in
            forall res, r = Some res ->
              confirmedSignatures st' ⊆ confirmedSignatures st \/ message res = None).
  { intros ms k'. specialize (IH k' (advance ms st1)).
    destruct (pollLoop network fuel signature commitment timeoutMs startTime k'
                (advance ms st1)) as [st' r'].
    intros res Hres. destruct (IH res Hres) as [Hs | Hm]; [left | by right].
    pose proof (confirmedSignatures_advance ms st1). set_solver. }
  destruct r as [[value |] | pollError].
  - destruct (err value); [intros res _; by left |].
    destruct (reachedCommitment _ _); [intros res H; inversion H; by right |].
    apply Hlater.
  - apply Hlater.
  - destruct (is429Error pollError); [| apply Hlater].
    destruct (3 <=? k + 1); [intros res _; by left | apply Hlater].
Qed.

(** Under persistent rate limiting the loop stops at the third request. *)
Lemma http_pollLoop_rate_limited (fuel : nat) (signature commitment : string)
    (timeoutMs startTime k : Z) (st : State) :
  (forall t, exists e d, network signature t = (inr e, d) /\ is429Error e = true) ->
  0 <= k < 3 ->
  let '(st', r) := pollLoop network fuel signature commitment timeoutMs startTime k st in
  Z.of_nat (rpcCalls st') - Z.of_nat (rpcCalls st) <= 3 - k /\
  forall res, r = Some res ->
    status res = status_confirmed \/ status res = status_pending.
Proof.
  intros Hnet. revert k st. induction fuel as [| fuel IH]; intros k st Hk; cbn [pollLoop].
  - split; [lia | discriminate].
  - destruct (now st - startTime <? timeoutMs);
      [| split; [lia | intros res H; inversion H; by right]].
    destruct (isAlreadyConfirmed signature st);
      [split; [lia | intros res H; inversion H; by left] |].
    destruct (Hnet (now st)) as (e & d & -> & E429). rewrite E429.
    set (st1 := advance (Z.of_nat d) (countCall st)).
    assert (Hc : rpcCalls st1 = S (rpcCalls st))
      by (unfold st1; rewrite rpcCalls_advance; reflexivity).
    destruct (3 <=? k + 1) eqn:E3.
    + rewrite Hc. split; [lia | intros res H; inversion H; by right].
    + apply Z.leb_gt in E3.
      specialize (IH (k + 1) (advance (3000 * 2) st1) ltac:(lia)).
      destruct (pollLoop network fuel signature commitment timeoutMs startTime (k + 1)
                  (advance (3000 * 2) st1)) as [st' r].
      rewrite rpcCalls_advance, Hc in IH. destruct IH as [I1 I2]. split; [lia | exact I2].
Qed.

(** X21. When every request is answered with a 429, [confirmViaHttpPolling] makes
    at most three requests and reports the transaction as pending: it does
    not keep asking until the timeout, and it does not report a failure. *)
Theorem confirmViaHttpPolling_rate_limited (signature commitment : string) (timeoutMs : Z)
    (st : State) :
  (forall t, exists e d, network signature t = (inr e, d) /\ is429Error e = true) ->
  signature ∉ confirmedSignatures st ->
  let '(st', r) := confirmViaHttpPolling network signature commitment timeoutMs st in
  (rpcCalls st' <= rpcCalls st + 3)%nat /\
  exists res, r = Some res /\ status res = status_pending /\
    (message res = Some RATE_LIMITED_MESSAGE \/
     message res = Some (timeoutMessage timeoutMs signature)).
Proof.
  intros Hnet Hnot.
  unfold confirmViaHttpPolling.
  assert (Eset : isAlreadyConfirmed signature st = false)
    by (by apply bool_decide_eq_false).
  rewrite Eset.
  pose proof (http_pollLoop_fuel signature commitment timeoutMs st) as Hends.
  pose proof (http_pollLoop_verdict (pollFuel timeoutMs) signature commitment timeoutMs
                (now st) 0 st) as Hverdict.
  pose proof (http_pollLoop_rate_limited (pollFuel timeoutMs) signature commitment timeoutMs
                (now st) 0 st Hnet ltac:(lia)) as Hrl.
  pose proof (http_pollLoop_subseteq (pollFuel timeoutMs) signature commitment timeoutMs
                (now st) 0 st) as Hsub.
  destruct (pollLoop network (pollFuel timeoutMs) signature commitment timeoutMs (now st) 0 st)
    as [st' [res |]]; [| done].
  specialize (Hverdict st' res eq_refl) as Hsound.
  destruct Hrl as [Hcalls Hstatus].
  split; [lia |]. exists res. split; [reflexivity |].
  unfold verdictSound in Hsound.
  destruct (Hstatus res eq_refl) as [Hc | Hp].
  - exfalso. rewrite Hc in Hsound. destruct Hsound as [Hin Hrep].
    destruct (Hsub res eq_refl) as [Hsub' | Hmark].
    + apply Hnot. by apply Hsub'.
    + destruct (Hrep Hmark) as (t & _ & value & d & Hv & _).
      destruct (Hnet t) as (e & d' & He & _). congruence.
  - rewrite Hp in Hsound. by split.
Qed.

(** X22. [confirmWithFallback] always comes back with a status. Confirmed means
    the signature is in the confirmed set afterwards, so that the next call
    for it is answered at once; a WebSocket attempt that succeeds settles it
    with that one call. A failure of the WebSocket attempt is never reported
    as a failure of the transaction: the call falls back to polling, and
    reports failed only with an error the chain returned for the signature. *)
Theorem confirmWithFallback_verdicts (signature commitment : string) (st : State) :
  exists r,
    snd (confirmWithFallback network wsAttempt signature commitment st) = Some r /\
    let st' := fst (confirmWithFallback network wsAttempt signature commitment st) in
    (status r = status_confirmed -> signature ∈ confirmedSignatures st') /\
    (status r = status_failed ->
       exists t json,
         now st <= t /\ reportedFailed network signature t json /\
         message r = Some ("Transaction failed: " +:+ json)%string) /\
    (signature ∉ confirmedSignatures st ->
     forall u d, wsAttempt signature (now st) = (inl u, d) ->
       status r = status_confirmed /\ rpcCalls st' = S (rpcCalls st)).
Proof.
  unfold confirmWithFallback.
  destruct (isAlreadyConfirmed signature st) eqn:Eset.
  { apply bool_decide_eq_true in Eset. eexists. split; [reflexivity |]. cbn.
    split; [done |]. split; [discriminate | done]. }
  destruct (wsAttempt signature (now st)) as [res d].
  set (st1 := advance (Z.of_nat d) (countCall st)).
  assert (Hn1 : now st <= now st1) by (unfold st1; rewrite now_advance; cbn; lia).
  destruct res as [u | wsError].
  { assert (Hc : rpcCalls (markConfirmed signature st1) = S (rpcCalls st))
      by (unfold markConfirmed, st1; cbn [rpcCalls]; by rewrite rpcCalls_advance).
    eexists. split; [reflexivity |]. cbn [fst status].
    split; [intros _; cbn; set_solver |]. split; [discriminate |].
    intros _ u' d' _. by split. }
  destruct (isAlreadyConfirmed signature st1) eqn:Eset1.
  { apply bool_decide_eq_true in Eset1. eexists. split; [reflexivity |]. cbn.
    split; [done |]. split; [discriminate |]. intros _ u d' H. discriminate. }
  unfold confirmViaHttpPolling. rewrite Eset1.
  pose proof (http_pollLoop_fuel signature commitment 60000 st1) as Hends.
  pose proof (http_pollLoop_verdict (pollFuel 60000) signature commitment 60000 (now st1) 0 st1)
    as Hverdict.
  destruct (pollLoop network (pollFuel 60000) signature commitment 60000 (now st1) 0 st1)
    as [st' [r |]]; [| done].
  specialize (Hverdict st' r eq_refl). unfold verdictSound in Hverdict.
  exists r. split; [reflexivity |]. cbn [fst].
  split; [| split; [| intros _ u d' H; discriminate]].
  - intros Hc. rewrite Hc in Hverdict. by destruct Hverdict.
  - intros Hf. rewrite Hf in Hverdict. destruct Hverdict as (t & json & Ht & Hrep).
    exists t, json. split; [lia | exact Hrep].
Qed.

End HttpConfirmTheorems.

Section HttpConfirmExamples.
Import WsConfirm HttpConfirm.

(** A network that answers every request with a 429: three requests, then pending. *)
Lemma confirmViaHttpPolling_rate_limited_witness :
  let '(st', r) :=
    confirmViaHttpPolling HttpSamples.limitedNetwork "sig" "confirmed" 60000 (initial 0) in
  (rpcCalls st' <= 3)%nat /\
  exists res, r = Some res /\ status res = status_pending.
Proof.
  pose proof (confirmViaHttpPolling_rate_limited HttpSamples.limitedNetwork
                "sig" "confirmed" 60000 (initial 0)) as H.
  destruct (confirmViaHttpPolling HttpSamples.limitedNetwork "sig" "confirmed" 60000
              (initial 0)) as [st' r].
  destruct H as (Hcalls & res & Hres & Hp & _).
  - intros t. by exists (ErrorObj "429 Too Many Requests"), 40%nat.
  - cbn. set_solver.
  - split; [exact Hcalls |]. by exists res.
Defined.

End HttpConfirmExamples.

(** ** The batch handler: refusals, and how a batch ends *)

Section HandlerTheorems.
Import WithdrawBar.

Variable Submission : Type.
Variable newPublicKey : string -> res PublicKey.
Variable checkProtocolHealth : ProtocolHealthResponse + thrown.
Variable prepareWithdrawalForProtocol :
  nat -> Note -> PublicKey -> PublicKey -> Submission + thrown.
Variable submitWithdrawalToProtocol : nat -> Submission -> ProtocolWithdrawResponse + thrown.

Let handle := handleWithdraw Submission newPublicKey checkProtocolHealth
                prepareWithdrawalForProtocol submitWithdrawalToProtocol.

(** Phase 2 leaves the flags of the component as they are. *)
Lemma phase2_flags (notes : list Note) (i total : nat) (recipient protocol : PublicKey)
    (ui : UiState) (acc : list Submission) :
  let '(ui', evs, r) :=
    phase2 Submission prepareWithdrawalForProtocol notes i total recipient protocol ui acc in
  isWithdrawing ui' = isWithdrawing ui /\ showProofOverlay ui' = showProofOverlay ui.
Proof.
  revert i ui acc. induction notes as [| n rest IH]; intros i ui acc; [by split |].
  cbn [phase2]. set (ui0 := setProofProgress _ ui).
  destruct (prepareWithdrawalForProtocol i n recipient protocol) as [s | e]; [| by split].
  specialize (IH (S i) ui0 (acc ++ [s])).
  by destruct (phase2 _ _ rest (S i) total recipient protocol ui0 (acc ++ [s])) as [[ui' evs] r].
Qed.

(** Phase 3 leaves them too, and an item that was not accepted leaves an
    error message behind. *)
Lemma phase3_flags (subs : list Submission) (i total : nat) (ui : UiState)
    (sigs : list string) :
  let '(ui', evs, sigs') :=
    phase3 Submission submitWithdrawalToProtocol subs i total ui sigs in
  isWithdrawing ui' = isWithdrawing ui /\ showProofOverlay ui' = showProofOverlay ui /\
  (length sigs <= length sigs' <= length sigs + length subs)%nat /\
  ((length sigs' < length sigs + length subs)%nat -> is_Some (error ui')) /\
  (is_Some (error ui) -> is_Some (error ui')).
Proof.
  revert i ui sigs. induction subs as [| s rest IH]; intros i ui sigs.
  - cbn. repeat split; try done; lia.
  - cbn [phase3 length]. set (ui0 := setProofProgress _ ui).
    destruct (submitWithdrawalToProtocol i s) as [result | e];
      [destruct (r_status result) |].
    all: match goal with
         | |- context [phase3 _ _ ?r ?j ?t ?u ?g] =>
             specialize (IH j u g); destruct (phase3 _ _ r j t u g) as [[ui' evs] sigs']
         end.
    all: destruct IH as (H1 & H2 & H3 & H4 & H5).
    all: try rewrite length_app in *; cbn [length] in *.
    all: split; [exact H1 |]; split; [exact H2 |]; split; [lia |].
    all: split; [| first [exact H5 | intros _; apply H5; by eexists]].
    all: first [ intros Hlt; apply H4; lia
               | intros _; apply H5; by eexists ].
Qed.


(** X24. A batch that starts always ends with the overlay closed and the
    withdrawing flag off, whatever failed on the way; the selection is
    cleared exactly when at least one withdrawal went through; and a batch
    that brought nothing through leaves an error message. *)
Theorem handleWithdraw_always_finishes (notes : list Note) (recipientText : string)
    (ui : UiState) (recipient : PublicKey) :
  newPublicKey recipientText = Ok recipient ->
  Forall (fun n => missingData n = false) notes ->
  cleared ui = false ->
  let '(ui', evs) := handle notes recipientText ui in
  isWithdrawing ui' = false /\ showProofOverlay ui' = false /\
  (cleared ui' = true <-> successTxs ui' <> []) /\
  (successTxs ui' = [] -> is_Some (error ui')) /\
  ((length (successTxs ui') < length notes)%nat -> is_Some (error ui')) /\
  (length (successTxs ui') <= length notes)%nat.
Proof.
  intros Hrec Hdata Hcl. unfold handle, handleWithdraw.
  rewrite Hrec, (no_missing_data notes Hdata). cbn [length Nat.ltb Nat.leb].
  destruct (phase1 newPublicKey checkProtocolHealth) as [protocol | e].
  2: { cbn. rewrite Hcl. repeat split; try done; lia. }
  set (ui0 := setProofProgress "Connecting..." _).
  pose proof (phase2_flags notes 0 (length notes) recipient protocol ui0 []) as F2.
  pose proof (phase2_all Submission prepareWithdrawalForProtocol notes 0 (length notes)
                recipient protocol ui0 []) as A2.
  destruct (phase2 Submission prepareWithdrawalForProtocol notes 0 (length notes) recipient
              protocol ui0 []) as [[ui2 evs2] r].
  destruct F2 as [F2a F2b]. destruct A2 as (_ & _ & S2 & C2 & E2 & A2).
  destruct r as [subs | err].
  2: { cbn. rewrite S2, C2. cbn. rewrite Hcl. repeat split; try done; lia. }
  assert (Hsubs : length subs = length notes).
  { destruct (prepareAll Submission prepareWithdrawalForProtocol 0 notes recipient protocol)
      as [subs' |] eqn:Ep.
    - destruct A2 as [A2 _]. cbn in A2. inversion A2; subst subs'.
      clear -Ep. revert Ep. generalize 0%nat. revert subs.
      induction notes as [| n rest IH]; intros subs i Ep; cbn in Ep.
      + by inversion Ep.
      + destruct (prepareWithdrawalForProtocol i n recipient protocol); [| discriminate].
        destruct (prepareAll _ _ (S i) rest recipient protocol) as [l |] eqn:El;
          [| discriminate].
        cbn in Ep. inversion Ep. cbn. f_equal. by apply (IH l (S i)).
    - destruct A2 as (k & n & e & _ & _ & _ & A2). discriminate. }
  pose proof (phase3_flags subs 0 (length subs) ui2 []) as F3.
  pose proof (phase3_all Submission submitWithdrawalToProtocol subs 0 (length subs) ui2 [])
    as A3.
  destruct (phase3 Submission submitWithdrawalToProtocol subs 0 (length subs) ui2 [])
    as [[ui3 evs3] sigs].
  destruct F3 as (F3a & F3b & F3c & F3d & _). destruct A3 as (_ & _ & _ & _ & S3 & C3 & _).
  destruct sigs as [| sg sigs]; cbn.
  - rewrite S3, S2, C3, C2. cbn. rewrite Hcl. repeat split; try done; lia.
  - cbn in F3c, F3d. repeat split; try done; [| lia].
    intros Hlt. apply F3d. lia.
Qed.
End HandlerTheorems.

Section HandlerExamples.
Import WithdrawBar.


(** The batch of three with the second submission refused: the overlay is
    closed, the selection cleared, and the refusal is on display. *)
Lemma handleWithdraw_always_finishes_witness :
  let '(ui', evs) :=
    handleWithdraw nat Samples.keyOf Samples.healthOk Samples.prepareOk
      Samples.submitSecondFails Samples.notes3 "recipient" idle in
  showProofOverlay ui' = false /\ isWithdrawing ui' = false /\
  (cleared ui' = true <-> successTxs ui' <> []).
Proof.
  pose proof (handleWithdraw_always_finishes nat Samples.keyOf Samples.healthOk
                Samples.prepareOk Samples.submitSecondFails Samples.notes3 "recipient" idle
                (take 32 (Withdrawal.utf8 "recipient" ++ replicate 32 0))
                eq_refl ltac:(repeat constructor) eq_refl) as H.
  destruct (handleWithdraw nat Samples.keyOf Samples.healthOk Samples.prepareOk
              Samples.submitSecondFails Samples.notes3 "recipient" idle) as [ui' evs].
  destruct H as (Hw & Ho & Hc & _). by split.
Defined.

End HandlerExamples.

(** ** The deposit event: from the logs to the note's path *)

Section DepositEventTheorems.
Import Withdrawal RootAcceptance DepositEvent.

Variable atob : string -> res (list Z).

Lemma lor_high (a c : Z) (k : Z) :
  0 <= k -> 0 <= a < 2 ^ k -> Z.lor a (c * 2 ^ k) = a + c * 2 ^ k.
Proof.
  intros Hk Ha.
  assert (Hland : Z.land a (c * 2 ^ k) = 0).
  { apply Z.bits_inj'. intros n Hn. rewrite Z.land_spec, Z.bits_0.
    destruct (Z.lt_ge_cases n k) as [Hlt | Hge].
    - rewrite Z.mul_pow2_bits_low by lia. apply andb_false_r.
    - destruct (Z.eq_dec a 0) as [-> | Hne]; [by rewrite Z.bits_0 |].
      rewrite (Z.bits_above_log2 a n); [reflexivity | lia |].
      apply Z.log2_lt_pow2; [lia |].
      apply Z.lt_le_trans with (2 ^ k); [lia |]. apply Z.pow_le_mono_r; lia. }
  rewrite <- Z.lxor_lor by exact Hland. symmetry. by apply Z.add_nocarry_lxor.
Qed.

Lemma u32LE_value (a b c d : Z) :
  0 <= a < 256 -> 0 <= b < 256 -> 0 <= c < 256 -> 0 <= d < 256 ->
  u32LE a b c d = toInt32 (bytesLE [a; b; c; d]) /\
  (d < 128 -> u32LE a b c d = bytesLE [a; b; c; d]).
Proof.
  intros Ha Hb Hc Hd. unfold u32LE. cbn [bytesLE].
  rewrite !Z.shiftl_mul_pow2 by lia.
  rewrite (toInt32_small (b * 2 ^ 8)) by lia.
  rewrite (toInt32_small (c * 2 ^ 16)) by lia.
  rewrite (lor_high a b 8) by lia.
  rewrite (lor_high (a + b * 2 ^ 8) c 16) by lia.
  assert (Hd' : toInt32 (d * 2 ^ 24) = (if d <? 128 then d else d - 256) * 2 ^ 24).
  { destruct (d <? 128) eqn:E; [apply Z.ltb_lt in E | apply Z.ltb_ge in E].
    - apply toInt32_small. lia.
    - unfold toInt32.
      replace (d * 2 ^ 24 + 2 ^ 31) with ((d - 128) * 2 ^ 24 + 1 * 2 ^ 32) by lia.
      rewrite Z.mod_add by lia. rewrite Z.mod_small by lia. lia. }
  rewrite Hd'. rewrite lor_high by lia.
  destruct (d <? 128) eqn:E; [apply Z.ltb_lt in E | apply Z.ltb_ge in E].
  - split; [| intros _; lia]. rewrite toInt32_small by lia. lia.
  - split; [| lia]. unfold toInt32.
    replace (a + 256 * (b + 256 * (c + 256 * (d + 256 * 0))) + 2 ^ 31)
      with ((a + b * 2 ^ 8 + c * 2 ^ 16 + (d - 128) * 2 ^ 24) + 1 * 2 ^ 32) by lia.
    rewrite Z.mod_add by lia. rewrite Z.mod_small by lia. lia.
Qed.

Lemma nth_slice (a n : nat) (data : list Z) :
  (a + n <= length data)%nat ->
  map (fun i => nth (a + i) data 0) (seq 0 n) = slice a (a + n) data.
Proof.
  intros Hlen. unfold slice. replace (a + n - a)%nat with n by lia.
  apply list_eq. intros i. rewrite list_lookup_fmap.
  destruct (decide (i < n)%nat) as [Hi | Hi].
  - rewrite lookup_seq_lt by lia. cbn.
    rewrite lookup_take_lt by lia. rewrite lookup_drop.
    destruct (lookup_lt_is_Some_2 data (a + i)) as [x Hx]; [lia |].
    rewrite Hx. f_equal. by apply nth_lookup_Some.
  - rewrite lookup_seq_ge by lia. cbn. symmetry.
    apply lookup_ge_None. rewrite length_take. lia.
Qed.

Lemma bytes_hex_digits (bs : list Z) :
  Forall (fun b => 0 <= b < 256) bs ->
  allDigits 16 (concat (map (fun b => padStart 2 "0"%char (toString16 b)) bs)) = true.
Proof.
  intros H.
  replace (concat (map (fun b => padStart 2 "0"%char (toString16 b)) bs))
    with (map digitChar (concat (map (fun b => [b / 16; b mod 16]) bs))).
  - apply allDigits_digits; [lia |].
    induction H as [| b rest Hb _ IH]; [constructor |].
    cbn [map concat app]. constructor; [| constructor; [| exact IH]].
    + split; [apply Z.div_pos; lia | apply Z.div_lt_upper_bound; lia].
    + apply Z.mod_pos_bound. lia.
  - induction H as [| b rest Hb _ IH]; [reflexivity |].
    cbn [map concat app]. rewrite padStart_byte by exact Hb. cbn [app]. by rewrite IH.
Qed.

(** The hex text of bytes reads back as the bytes, and as a number. *)
Lemma hex0x_reads_back (bs : list Z) :
  Forall (fun b => 0 <= b < 256) bs -> bs <> [] ->
  hexDecode (replace0x (chars (hex0x bs))) = bs /\
  is_ok (BigInt (of_chars ("0"%char :: "x"%char :: replace0x (chars (hex0x bs))))) = true.
Proof.
  intros Hb Hne. unfold hex0x. rewrite chars_of_chars.
  split; [by apply hexDecode_bytesToHex0x |].
  unfold bytesToHex0x. cbn [replace0x].
  unfold BigInt. rewrite chars_of_chars.
  pose proof (bytes_hex_digits bs Hb) as Hd.
  destruct (concat (map (fun b => padStart 2 "0"%char (toString16 b)) bs)) as [| c t] eqn:E.
  - exfalso. destruct bs as [| b rest]; [done |].
    inversion Hb as [| ? ? Hb1 _]; subst.
    cbn [map concat] in E. rewrite padStart_byte in E by exact Hb1. discriminate.
  - by rewrite Hd.
Qed.

Lemma pathElementsOf_hex (bss : list (list Z)) :
  Forall (fun bs => Forall (fun b => 0 <= b < 256) bs /\ bs <> []) bss ->
  is_ok (pathElementsOf (map hex0x bss)) = true.
Proof.
  induction 1 as [| bs rest [Hb Hne] _ IH]; [reflexivity |].
  cbn [map pathElementsOf].
  destruct (hex0x_reads_back bs Hb Hne) as [_ Hok].
  destruct (BigInt _) as [v |]; [| discriminate]. cbn [mbind res_bind].
  destruct (pathElementsOf (map hex0x rest)); [reflexivity | discriminate].
Qed.

(** X25. What a parsed event holds. The event comes from a log line with
    [Program data: ] whose payload decodes to at least 704 bytes. Its root
    text reads back, as [isAcceptedRoot] reads it, as bytes 12 to 43 of the
    payload; its twenty siblings read back as the twenty 32-byte groups that
    follow, and [buildWithdrawWitness] can convert all of them; its positions
    are the last twenty bytes; and its leaf index is the little-endian
    number in bytes 8 to 11, as long as that is below 2^31 (a larger one
    comes out negative). *)
Theorem parseDepositEventFromLogs_decodes (logs : list string) (ev : DepositEventData) :
  (forall s data, atob s = Ok data -> Forall (fun b => 0 <= b < 256) data) ->
  parseDepositEventFromLogs atob logs = Some ev ->
  exists log base64 data,
    log ∈ logs /\
    secondPart (chars "Program data: ") (chars log) = Some base64 /\
    atob (of_chars base64) = Ok data /\ (704 <= length data)%nat /\
    hexDecode (replace0x (chars (ev_rootAfter ev))) = slice 12 44 data /\
    length (ev_siblings ev) = 20%nat /\
    (forall i s, ev_siblings ev !! i = Some s ->
       hexDecode (replace0x (chars s)) = slice (44 + 32 * i) (44 + 32 * i + 32) data) /\
    is_ok (pathElementsOf (ev_siblings ev)) = true /\
    ev_positions ev = slice 684 704 data /\
    ev_leafIndex ev = toInt32 (bytesLE (slice 8 12 data)) /\
    (nth 11 data 0 < 128 -> ev_leafIndex ev = bytesLE (slice 8 12 data)).
Proof.
  intros Hbytes. induction logs as [| log rest IH]; cbn [parseDepositEventFromLogs];
    [discriminate |].
  destruct (parseLog atob log) as [ev' |] eqn:Elog.
  2: { intros H. destruct (IH H) as (l & b & d & Hin & Hrest).
       exists l, b, d. split; [by right | exact Hrest]. }
  intros H. inversion H; subst ev'. clear H IH.
  unfold parseLog in Elog.
  destruct (includes _ (chars log)); [| discriminate].
  destruct (secondPart _ (chars log)) as [base64 |] eqn:Esplit; [| discriminate].
  destruct (atob (of_chars base64)) as [data |] eqn:Eatob; [| discriminate].
  destruct (length data <? 8 + 4 + 32 + 640 + 20)%nat eqn:Elen; [discriminate |].
  apply Nat.ltb_ge in Elen. cbn in Elen.
  pose proof (Hbytes _ _ Eatob) as Hb.
  match type of Elog with Some ?r = _ => set (ev0 := r) in Elog end.
  assert (Eev : ev = ev0) by congruence. rewrite Eev. unfold ev0. clear Elog Eev ev0.
  cbv beta iota delta [ev_leafIndex ev_rootAfter ev_siblings ev_positions].
  change (8 + 4)%nat with 12%nat. change (12 + 32)%nat with 44%nat.
  change (44 + 32 * 20)%nat with 684%nat.
  exists log, base64, data.
  split; [by left |]. split; [exact Esplit |]. split; [exact Eatob |]. split; [exact Elen |].
  assert (Hslice : forall a n, (a + n <= length data)%nat -> (0 < n)%nat ->
            Forall (fun b => 0 <= b < 256) (slice a (a + n) data) /\
            slice a (a + n) data <> []).
  { intros a n Ha Hn. unfold slice. split; [by apply Forall_take, Forall_drop |].
    intros E. apply (f_equal length) in E. rewrite length_take, length_drop in E.
    cbn in E. lia. }
  split.
  { apply hex0x_reads_back; apply (Hslice 12 32)%nat; lia. }
  split; [by rewrite length_map, length_seq |].
  split.
  { intros i s Hi. rewrite list_lookup_fmap in Hi.
    destruct (seq 0 20 !! i) as [j |] eqn:Ej; [| discriminate].
    apply lookup_seq in Ej as [-> Hlt]. cbn in Hi. inversion Hi; subst s.
    cbn [Nat.add]. apply hex0x_reads_back; apply (Hslice (44 + 32 * i) 32)%nat; lia. }
  split.
  { rewrite <- (map_map (fun i => slice (44 + 32 * i) (44 + 32 * i + 32) data) hex0x).
    apply pathElementsOf_hex. apply Forall_forall. intros bs Hin.
    apply list_elem_of_fmap in Hin as (i & -> & Hi).
    apply list_elem_of_In, in_seq in Hi. apply (Hslice (44 + 32 * i) 32)%nat; lia. }
  split; [apply (nth_slice 684 20); lia |].
  assert (H4 : slice 8 12 data = [nth 8 data 0; nth 9 data 0; nth 10 data 0; nth 11 data 0]).
  { rewrite <- (nth_slice 8 4) by lia. reflexivity. }
  rewrite H4.
  assert (Hnth : forall i, (i < length data)%nat -> 0 <= nth i data 0 < 256).
  { intros i Hi. rewrite Forall_forall in Hb. apply Hb.
    apply list_elem_of_In, nth_In. exact Hi. }
  change (8 + 1)%nat with 9%nat. change (8 + 2)%nat with 10%nat.
  change (8 + 3)%nat with 11%nat.
  apply u32LE_value; apply Hnth; lia.
Qed.

End DepositEventTheorems.

Section DepositEventExamples.
Import Withdrawal RootAcceptance DepositEvent.

(** The sample logs hold one event: leaf 130 under the sample root. *)
Lemma parseDepositEventFromLogs_decodes_witness :
  exists ev,
    parseDepositEventFromLogs DepositSamples.decode DepositSamples.logs = Some ev /\
    hexDecode (replace0x (chars (ev_rootAfter ev))) = Samples.root /\
    ev_leafIndex ev = 130.
Proof.
  assert (H : exists ev,
             parseDepositEventFromLogs DepositSamples.decode DepositSamples.logs = Some ev)
    by (eexists; vm_compute; reflexivity).
  destruct H as [ev E]. exists ev. split; [exact E |].
  assert (Hbytes : forall s data, DepositSamples.decode s = Ok data ->
                     Forall (fun b => 0 <= b < 256) data).
  { intros s data. unfold DepositSamples.decode. case_bool_decide; [| discriminate].
    intros Hd. inversion Hd.
    refine (bool_decide_unpack _ _). vm_compute. exact I. }
  destruct (parseDepositEventFromLogs_decodes DepositSamples.decode DepositSamples.logs ev
              Hbytes E)
    as (log & base64 & data & Hin & Hsplit & Hatob & _ & Hroot & _ & _ & _ & _ & _ & Hleaf).
  assert (Hdata : data = DepositSamples.payload).
  { unfold DepositSamples.decode in Hatob. case_bool_decide; [| discriminate].
    by inversion Hatob. }
  subst data. rewrite Hroot, Hleaf; [| vm_compute; reflexivity].
  split; vm_compute; reflexivity.
Defined.

End DepositEventExamples.

(** ** The network of a host, its endpoints and the shared connection *)

Section NetworkTheorems.
Import NetworkConfig.

Lemma dedupFrom_spec (seen l : list string) :
  NoDup (dedupFrom seen l) /\
  forall x, x ∈ dedupFrom seen l <-> x ∈ l /\ x ∉ seen.
Proof.
  revert seen. induction l as [| y t IH]; intros seen; cbn [dedupFrom].
  - split; [constructor |]. intros x. split; [by intros H%elem_of_nil | by intros [H%elem_of_nil _]].
  - case_bool_decide as Hy.
    + destruct (IH seen) as [Hnd Hin]. split; [exact Hnd |].
      intros x. rewrite Hin, elem_of_cons. split; [intros [? ?]; split; [by right | done] |].
      intros [[-> | Hx] Hs]; [done | by split].
    + destruct (IH (y :: seen)) as [Hnd Hin]. split.
      * apply NoDup_cons. split; [| exact Hnd].
        intros H. apply Hin in H as [_ H]. apply H. by left.
      * intros x. rewrite !elem_of_cons, Hin, elem_of_cons. split.
        -- intros [-> | [Hx Hs]]; [split; [by left | exact Hy] |].
           split; [by right | intros H; apply Hs; by right].
        -- intros [[-> | Hx] Hs]; [by left |].
           destruct (decide (x = y)) as [-> | Hne]; [by left |].
           right. split; [exact Hx |]. intros [? | ?]; [done | by apply Hs].
Qed.

Lemma dedup_length (l : list string) : (length (dedup l) <= length l)%nat.
Proof.
  unfold dedup. generalize (@nil string).
  induction l as [| y t IH]; intros seen; cbn [dedupFrom length]; [lia |].
  case_bool_decide; [specialize (IH seen) | specialize (IH (y :: seen)); cbn [length]]; lia.
Qed.

Lemma dedup_head (x : string) (t : list string) : dedup (x :: t) = x :: dedupFrom [x] t.
Proof.
  unfold dedup. cbn [dedupFrom]. rewrite bool_decide_eq_false_2; [reflexivity |].
  by intros H%elem_of_nil.
Qed.




(** What the two lists are on each network, by their lengths: off localnet
    the WebSocket list is never longer than the RPC list; on localnet the
    RPC list has one entry and the WebSocket list two. *)
Lemma endpoints_shape (window : option string) (env : Env) :
  let network := detectNetworkFromHostname window env in
  let rpcs := getRpcEndpoints window env in
  let wss := getWsEndpoints window env in
  (1 <= length wss)%nat /\
  (network <> localnet -> (length wss <= length rpcs)%nat) /\
  (network = localnet ->
   rpcs = ["http://localhost:8899"%string] /\
   wss = ["ws://localhost:8899"%string; "ws://localhost:8900"%string]).
Proof.
  cbv zeta. unfold getWsEndpoints. cbv zeta.
  unfold getRpcEndpoints. cbv zeta.
  set (network := detectNetworkFromHostname window env).
  set (envPrimary := getNetworkEnvVar "NEXT_PUBLIC_RPC_PRIMARY" network env).
  destruct (truthy envPrimary) eqn:Et.
  - destruct envPrimary as [p |] eqn:Ep; [| discriminate]. cbn [default app].
    rewrite dedup_head. cbn [lookup list_lookup].
    assert (Hne : p <> ""%string) by (intros ->; discriminate).
    split; [| split].
    + unfold truthy. rewrite bool_decide_eq_false_2 by exact Hne. cbn [negb app].
      rewrite dedup_head. cbn [length]. lia.
    + intros _. unfold truthy. rewrite bool_decide_eq_false_2 by exact Hne. cbn [negb app].
      rewrite dedup_head.
      clear Et. subst envPrimary.
      destruct network; cbn [NETWORK_ENDPOINTS ws rpc dedupFrom length];
        try discriminate Ep; change (Datatypes.id p) with p;
        match goal with
        | |- context [bool_decide (?r ∈ [p])] =>
            destruct (decide (r = p)) as [<- | Hr];
              [vm_compute; lia |
               rewrite (bool_decide_eq_false_2 (r ∈ [p]))
                 by (intros Hin; apply list_elem_of_singleton in Hin; done)]
        end;
        cbn [length]; case_bool_decide; cbn [length]; lia.
    + intros Hn. exfalso. subst envPrimary. rewrite Hn in Ep. discriminate.
  - cbn [app].
    destruct network eqn:En; (split; [vm_compute; lia | split; [intros Hn; try (by destruct Hn); vm_compute; lia |]]);
      intros Hn; try discriminate. by vm_compute.
Qed.

(** X28. After [rotateWsEndpoint] no connection is held, the index is below the
    number of WebSocket endpoints, and the result is [false] exactly when
    the index is back at 0. Off localnet the RPC list has an entry at the
    new index. On localnet the first rotation moves to index 1, where the
    RPC list has none: the next [getWsConnection] builds its connection
    from an undefined HTTP address and [ws://localhost:8900]. *)
Theorem rotateWsEndpoint_cycle (window : option string) (env : Env)
    (state : WsConnection.WsConnectionState) :
  (WsConnection.endpointIndex state < length (getWsEndpoints window env))%nat ->
  let network := detectNetworkFromHostname window env in
  let rpcs := getRpcEndpoints window env in
  let wss := getWsEndpoints window env in
  let state' := fst (WsConnection.rotateWsEndpoint window env state) in
  let more := snd (WsConnection.rotateWsEndpoint window env state) in
  let i' := WsConnection.endpointIndex state' in
  WsConnection.connection state' = None /\
  (i' < length wss)%nat /\
  (more = false <-> i' = 0%nat) /\
  (network <> localnet -> is_Some (rpcs !! i')) /\
  (network = localnet -> WsConnection.endpointIndex state = 0%nat ->
   more = true /\ rpcs !! i' = None /\
   forall newConnection,
     WsConnection.getWsConnection window env newConnection state' =
     match newConnection None "ws://localhost:8900"%string with
     | Ok c =>
         ({| WsConnection.connection := Some c;
             WsConnection.wsEndpoint := "ws://localhost:8900";
             WsConnection.httpEndpoint := None;
             WsConnection.endpointIndex := 1;
             WsConnection.isConnecting := WsConnection.isConnecting state;
             WsConnection.lastError := WsConnection.lastError state |}, Ok c)
     | Throw e => (state', Throw e)
     end).
Proof.
  intros Hi. cbv zeta.
  destruct (endpoints_shape window env) as (Hpos & Hle & Hloc). cbv zeta in Hpos, Hle, Hloc.
  unfold WsConnection.rotateWsEndpoint. cbv zeta.
  set (wss := getWsEndpoints window env) in *.
  set (rpcs := getRpcEndpoints window env) in *.
  cbn [WsConnection.endpointIndex].
  set (i' := ((WsConnection.endpointIndex state + 1) mod length wss)%nat).
  assert (Hi' : (i' < length wss)%nat) by (apply Nat.mod_upper_bound; lia).
  destruct (Nat.eqb_spec i' 0) as [H0 | H0];
    cbn [fst snd WsConnection.connection WsConnection.endpointIndex]; fold i'.
  - split; [reflexivity |]. split; [exact Hi' |]. split; [done |].
    split.
    + intros Hn. apply lookup_lt_is_Some_2. specialize (Hle Hn). lia.
    + intros Hn Hz. exfalso. destruct (Hloc Hn) as [_ Hw].
      unfold i' in H0. rewrite Hw, Hz in H0. discriminate.
  - split; [reflexivity |]. split; [exact Hi' |].
    split; [split; [discriminate | done] |].
    split.
    + intros Hn. apply lookup_lt_is_Some_2. specialize (Hle Hn). lia.
    + intros Hn Hz. destruct (Hloc Hn) as [Hr Hw].
      assert (Hi1 : i' = 1%nat) by (unfold i'; rewrite Hw, Hz; reflexivity).
      split; [reflexivity |]. split; [by rewrite Hi1, Hr |].
      intros newConnection. unfold WsConnection.getWsConnection.
      cbn [WsConnection.connection WsConnection.endpointIndex
           WsConnection.isConnecting WsConnection.lastError].
      fold wss rpcs i'. rewrite Hi1, Hw, Hr. cbn [lookup list_lookup].
      reflexivity.
Qed.

Lemma rotateWsEndpoint_cycle_witness :
  let window := Some "localhost"%string in
  let state' := fst (WsConnection.rotateWsEndpoint window NetworkSamples.noEnv
                       WsConnection.initial) in
  WsConnection.endpointIndex state' = 1%nat /\
  getRpcEndpoints window NetworkSamples.noEnv !! 1%nat = None.
Proof.
  assert (Hi : (WsConnection.endpointIndex WsConnection.initial
                < length (getWsEndpoints (Some "localhost"%string) NetworkSamples.noEnv))%nat)
    by (vm_compute; lia).
  pose proof (rotateWsEndpoint_cycle (Some "localhost"%string) NetworkSamples.noEnv
                WsConnection.initial Hi) as H.
  cbv zeta in H. destruct H as (_ & _ & _ & _ & H).
  destruct (H eq_refl eq_refl) as (_ & Hnone & _).
  cbv zeta. split; [reflexivity | exact Hnone].
Defined.

(** X29. One connection is shared: when [getWsConnection] returns a connection,
    the next call returns the same one and the same state without building
    another, whatever the constructor would do; and a connection that was
    built was built for the WebSocket endpoint at the state's index, which
    the state then records. *)
Theorem getWsConnection_shared (window : option string) (env : Env)
    (newConnection : option string -> string -> res WsConnection.Connection)
    (state state' : WsConnection.WsConnectionState) (c : WsConnection.Connection) :
  WsConnection.getWsConnection window env newConnection state = (state', Ok c) ->
  (forall newConnection',
     WsConnection.getWsConnection window env newConnection' state' = (state', Ok c)) /\
  WsConnection.endpointIndex state' = WsConnection.endpointIndex state /\
  (WsConnection.connection state = Some c /\ state' = state \/
   WsConnection.connection state = None /\
   exists w, getWsEndpoints window env !! WsConnection.endpointIndex state = Some w /\
     newConnection (getRpcEndpoints window env !! WsConnection.endpointIndex state) w = Ok c /\
     WsConnection.wsEndpoint state' = w /\
     WsConnection.httpEndpoint state' =
       getRpcEndpoints window env !! WsConnection.endpointIndex state).
Proof.
  unfold WsConnection.getWsConnection. cbv zeta.
  destruct (WsConnection.connection state) as [c0 |] eqn:Ec.
  - intros H. injection H as <- <-. rewrite Ec.
    split; [done |]. split; [done |]. by left.
  - destruct (getWsEndpoints window env !! WsConnection.endpointIndex state) as [w |] eqn:Ew;
      [| discriminate].
    destruct (newConnection _ w) as [c1 | e] eqn:En; [| discriminate].
    intros H. injection H as <- <-.
    cbn [WsConnection.connection WsConnection.endpointIndex WsConnection.wsEndpoint
         WsConnection.httpEndpoint].
    split; [done |]. split; [done |]. right. split; [done |].
    exists w. by rewrite En.
Qed.

Lemma getWsConnection_shared_witness :
  let window := Some "localhost"%string in
  let make := fun (_ : option string) (w : string) =>
                Ok {| WsConnection.c_http := "http://localhost:8899";
                      WsConnection.c_ws := w |} in
  exists state' c,
    WsConnection.getWsConnection window NetworkSamples.noEnv make WsConnection.initial
      = (state', Ok c) /\
    WsConnection.getWsConnection window NetworkSamples.noEnv (fun _ _ => Throw TypeError) state'
      = (state', Ok c).
Proof.
  cbv zeta. eexists _, _. split; [vm_compute; reflexivity |].
  refine (proj1 (getWsConnection_shared (Some "localhost"%string) NetworkSamples.noEnv
           (fun _ w => Ok {| WsConnection.c_http := "http://localhost:8899";
                             WsConnection.c_ws := w |})
           WsConnection.initial _ _ _) _).
  vm_compute. reflexivity.
Defined.

End NetworkTheorems.
